(** * go-tic-tac-toe: rules engine and bot strategies

    A shallow embedding of the [tictactoe] package (board, winning
    conditions, game state machine, configuration options and the four
    built-in bots) together with the flag validation, the cell zone IDs
    and the cursor keys of the command-line front end, followed by the
    properties proved about them.

    Conventions of the embedding:
    - [uint8] values ([Player], [State], cell coordinates, [size]) are
      numbers in [N]; conversions and arithmetic that wrap in the source
      are written with [mod 256] ([uint8], [sub8]).
    - [int] values ([maxTurns], minimax depth and value) are numbers in
      [Z]; none of the computations below leaves the 64-bit range.
    - slices are lists, a nil slice is the empty list; an index or a
      length of a slice is a [nat].
    - the board a game holds is the slice its caller gave it: its rows
      lie in memory, where two of them may share cells, and a turn is
      written in place. The memory is carried with the game.
    - a function whose source can fail at run time with an index out of
      range returns in the [go] monad: [Val] for a normal return, [Panic]
      for the run-time panic, [Hang] for a recursion that does not come
      back.
    - a Go [error] result is an [option error]: [None] is [nil]. *)

From Stdlib Require Import String.
From Stdlib Require Import List NArith ZArith Lia Bool Arith.
From Stdlib Require Ascii DecimalString DecimalN DecimalPos.
Import ListNotations.

Set Implicit Arguments.

(** ** Outcome of a call *)

Inductive go (A : Type) : Type :=
| Val (a : A)
| Panic
| Hang.

Arguments Panic {A}.
Arguments Hang {A}.

Definition bind {A B : Type} (c : go A) (k : A -> go B) : go B :=
  match c with
  | Val a => k a
  | Panic => Panic
  | Hang => Hang
  end.

Declare Scope go_scope.
Delimit Scope go_scope with go.
Notation "x <- c ;; k" := (bind c (fun x => k))
  (at level 61, c at next level, right associativity) : go_scope.
Notation "' p <- c ;; k" := (bind c (fun p => k))
  (at level 61, p pattern, c at next level, right associativity) : go_scope.
Local Open Scope go_scope.

(** ** Errors

    [errors.New] and [fmt.Errorf]. An error built by [fmt.Errorf] keeps
    its format string, the errors it wraps with [%w] (none, one or two
    in this package) and its other arguments, unformatted. [errors_Is]
    follows the wrapped errors as [errors.Is] does; a sentinel is
    identified by its message. *)

Inductive arg : Type :=
| ArgN (n : N)
| ArgNat (n : nat)
| ArgS (s : string)
| ArgSprintf (format : string) (args : list N).

Inductive error : Type :=
| New (msg : string)
| Errorf (format : string) (args : list arg)
| Errorf1 (format : string) (w : error) (args : list arg)
| Errorf2 (format : string) (w1 w2 : error) (args : list arg).

Fixpoint errors_Is (e : error) (target : string) : bool :=
  match e with
  | New m => String.eqb m target
  | Errorf _ _ => false
  | Errorf1 _ w _ => errors_Is w target
  | Errorf2 _ w1 w2 _ => errors_Is w1 target || errors_Is w2 target
  end.

Definition msgBot : string := "bot turn failed".
Definition msgConditionInvalid : string := "invalid condition".
Definition msgGameOver : string := "game over".
Definition msgOptionInvalid : string := "invalid option".
Definition msgOutOfBounds : string := "out of bounds".
Definition msgPlayerNotFound : string := "player not found".
Definition msgTurnInvalid : string := "invalid turn".

Definition ErrBot : error := New msgBot.
Definition ErrConditionInvalid : error := New msgConditionInvalid.
Definition ErrGameOver : error := New msgGameOver.
Definition ErrOptionInvalid : error := New msgOptionInvalid.
Definition ErrOutOfBounds : error := New msgOutOfBounds.
Definition ErrPlayerNotFound : error := New msgPlayerNotFound.
Definition ErrTurnInvalid : error := New msgTurnInvalid.

(** ** Players, states, cells and turns *)

(** [type Player uint8] *)
Abbreviation Player := N (only parsing).

Definition PlayerOne : Player := 1%N.
Definition PlayerTwo : Player := 2%N.

Definition Player_IsValid (p : Player) : bool :=
  (p =? PlayerOne)%N || (p =? PlayerTwo)%N.

Definition Player_IsValidOrZero (p : Player) : bool :=
  (p =? 0)%N || Player_IsValid p.

Definition Player_Next (p : Player) : Player :=
  if (p =? PlayerOne)%N then PlayerTwo
  else if (p =? PlayerTwo)%N then PlayerOne
  else p.

Definition Players : list Player := [PlayerOne; PlayerTwo].

Inductive State : Type :=
| StateAwaitingTurn
| StateDraw
| StateWon.

Definition State_eqb (a b : State) : bool :=
  match a, b with
  | StateAwaitingTurn, StateAwaitingTurn => true
  | StateDraw, StateDraw => true
  | StateWon, StateWon => true
  | _, _ => false
  end.

Record Cell : Type := mkCell { Column : N; Row : N }.

Definition Cells : Type := list Cell.

Record Turn : Type := mkTurn { Turn_Cell : Cell; Turn_Player : Player }.

Definition Turn_Row (t : Turn) : N := Row (Turn_Cell t).
Definition Turn_Column (t : Turn) : N := Column (Turn_Cell t).

Definition zeroCell : Cell := mkCell 0 0.
Definition zeroTurn : Turn := mkTurn zeroCell 0%N.

(** ** Fixed-width conversions *)

Definition MaxSize : N := 255.
Definition MinSize : N := 3.

(** [uint8(i)] for an [int] index [i]. *)
Definition uint8 (i : nat) : N := (N.of_nat i mod 256)%N.

(** [a - b] on [uint8]. *)
Definition sub8 (a b : N) : N := ((a + 256 - b mod 256) mod 256)%N.

(** [uint16] increment of a turn counter. *)
Definition inc16 (n : N) : N := ((n + 1) mod 65536)%N.

(** ** Error constructors of the package *)

Definition fmtBotErr (err : error) : error :=
  Errorf2 "%w: %w" ErrBot err [].

Definition fmtColOutOfBoundsErr (cell : Cell) (size : N) : error :=
  Errorf1 "%w: row[%d]col[%d] is greater than or equal to %d" ErrOutOfBounds
          [ArgN (Row cell); ArgN (Column cell); ArgN size].

Definition fmtInvalidConditionErr (idx : nat) (reason : arg) : error :=
  Errorf1 "%w[%d]: %s" ErrConditionInvalid [ArgNat idx; reason].

Definition fmtInvalidOptionErr (option : string) (err : error) : error :=
  Errorf2 "%w[%s]: %w" ErrOptionInvalid err [ArgS option].

Definition fmtInvalidTurnErr (reason : arg) : error :=
  Errorf1 "%w: %s" ErrTurnInvalid [reason].

Definition fmtPlayerNotFoundErr (player : Player) : error :=
  Errorf1 "%w: %d" ErrPlayerNotFound [ArgN player].

Definition fmtRowOutOfBoundsErr (cell : Cell) (size : N) : error :=
  Errorf1 "%w: row[%d] is greater than or equal to %d" ErrOutOfBounds
          [ArgN (Row cell); ArgN size].

(** ** Slices *)

(** [s[i]] *)
Definition index {A : Type} (s : list A) (i : nat) : go A :=
  match nth_error s i with
  | Some a => Val a
  | None => Panic
  end.

(** [s[i] = a] *)
Fixpoint assign {A : Type} (s : list A) (i : nat) (a : A) : go (list A) :=
  match s, i with
  | [], _ => Panic
  | _ :: rest, O => Val (a :: rest)
  | x :: rest, S i' => rest' <- assign rest i' a ;; Val (x :: rest')
  end.

(** ** Board *)

Definition Board : Type := list (list Player).

(** [Board.Copy]: every row of the copy is made with the length of the
    board and filled by [copy], which stops at the shorter of the two. *)
Definition Board_Copy (b : Board) : Board :=
  let l := length b in
  map (fun cols => firstn l cols ++ repeat 0%N (l - length cols)) b.

Fixpoint FindEmpty_cols (row col : nat) (cols : list Player) : Cells :=
  match cols with
  | [] => []
  | player :: rest =>
      if (player =? 0)%N
      then mkCell (uint8 col) (uint8 row) :: FindEmpty_cols row (S col) rest
      else FindEmpty_cols row (S col) rest
  end.

Fixpoint FindEmpty_rows (row : nat) (b : Board) : Cells :=
  match b with
  | [] => []
  | cols :: rest => FindEmpty_cols row 0 cols ++ FindEmpty_rows (S row) rest
  end.

(** [Board.FindEmpty] *)
Definition Board_FindEmpty (b : Board) : Cells := FindEmpty_rows 0 b.

(** [b[row][col]] *)
Definition Board_at (b : Board) (row col : N) : go Player :=
  cols <- index b (N.to_nat row) ;;
  index cols (N.to_nat col).

(** [b[row][col] = player] *)
Definition Board_assign (b : Board) (row col : N) (player : Player) : go Board :=
  cols <- index b (N.to_nat row) ;;
  cols' <- assign cols (N.to_nat col) player ;;
  assign b (N.to_nat row) cols'.

(** The marks of the board [newBoard] returns. *)
Definition newBoard (size : N) : Board :=
  repeat (repeat 0%N (N.to_nat size)) (N.to_nat size).

(** ** Boards in memory

    A value of the Go type [Board] is a slice of rows, each of them a
    slice of cells that lie in memory: two rows may share cells, and an
    assignment to a cell of one row is then seen through the other.
    [Board] above is what such a value holds when it is read, the marks
    row by row, and this is what the conditions and the bots work on
    (the bots write to copies only). [Stored] is the value itself: the
    rows with the places of their cells, and the memory they lie in. *)

(** The header of the slice of a row: the address of its first cell
    and its length. *)
Record Slice : Type := mkSlice { base : nat; len : nat }.

(** The memory: the cells at the addresses 0, 1, 2, ...; the cells
    behind the end of the list hold zero. *)
Definition Memory : Type := list Player.

Definition peek (m : Memory) (a : nat) : Player := nth a m 0%N.

Fixpoint poke (m : Memory) (a : nat) (p : Player) : Memory :=
  match a, m with
  | O, [] => [p]
  | O, _ :: rest => p :: rest
  | S a', [] => 0%N :: poke [] a' p
  | S a', x :: rest => x :: poke rest a' p
  end.

Record Stored : Type := mkStored {
  rows_of : list Slice;
  memory_of : Memory
}.

(** The nil board. *)
Definition nilStored : Stored := mkStored [] [].

Definition read_row (m : Memory) (s : Slice) : list Player :=
  map (peek m) (seq (base s) (len s)).

(** The marks of a stored board, as reading it gives them. *)
Definition contents (b : Stored) : Board :=
  map (read_row (memory_of b)) (rows_of b).

Arguments contents : simpl never.

(** The address of the cell [b[row][col]]; an index out of range
    panics. *)
Definition address (b : Stored) (row col : N) : go nat :=
  s <- index (rows_of b) (N.to_nat row) ;;
  if (N.to_nat col <? len s)%nat then Val (base s + N.to_nat col) else Panic.

(** [b[row][col] = player], in place: the rows stay where they are and
    one cell of the memory changes. *)
Definition Stored_assign (b : Stored) (row col : N) (player : Player) : go Stored :=
  a <- address b row col ;;
  Val (mkStored (rows_of b) (poke (memory_of b) a player)).

(** A board whose rows have memory of their own, one after the other,
    as [make] and a composite literal give it. *)
Fixpoint alloc_rows (a : nat) (b : Board) : list Slice :=
  match b with
  | [] => []
  | cols :: rest => mkSlice a (length cols) :: alloc_rows (a + length cols) rest
  end.

Definition alloc (b : Board) : Stored := mkStored (alloc_rows 0 b) (concat b).

(** ** Randomness

    [rand.Intn(n)] answers with a number below [n] for every positive
    [n]; the source of the answers is an argument of every function that
    draws one. *)

Record Rand : Type := mkRand {
  Intn : nat -> nat;
  Intn_lt : forall n, 0 < n -> Intn n < n
}.

(** [Cells.Random] *)
Definition Cells_Random (rnd : Rand) (cs : Cells) : Cell :=
  match cs with
  | [] => zeroCell
  | _ => nth (Intn rnd (length cs)) cs zeroCell
  end.

(** ** Winning conditions *)

Record Condition : Type := mkCondition {
  FindWinner : Board -> go Player;
  IsWinningTurn : Board -> Turn -> go bool
}.

Definition Conditions : Type := list Condition.

Fixpoint Conditions_FindWinner_from (i : nat) (cs : Conditions) (board : Board)
  : go (Player * option error) :=
  match cs with
  | [] => Val (0%N, None)
  | c :: rest =>
      player <- FindWinner c board ;;
      if negb (Player_IsValidOrZero player)
      then Val (0%N, Some (fmtInvalidConditionErr i (ArgSprintf "invalid player: %v" [player])))
      else if (0 <? player)%N then Val (player, None)
      else Conditions_FindWinner_from (S i) rest board
  end.

(** [Conditions.FindWinner] *)
Definition Conditions_FindWinner (cs : Conditions) (board : Board)
  : go (Player * option error) :=
  Conditions_FindWinner_from 0 cs board.

(** [Conditions.IsWinningTurn] *)
Fixpoint Conditions_IsWinningTurn (cs : Conditions) (board : Board) (turn : Turn)
  : go bool :=
  match cs with
  | [] => Val false
  | c :: rest =>
      won <- IsWinningTurn c board turn ;;
      if won then Val won else Conditions_IsWinningTurn rest board turn
  end.

(** *** diagonalCondition *)

Fixpoint findWinnerFromLeft_from (i : nat) (rows : Board) (player : Player)
  : go Player :=
  match rows with
  | [] => Val player
  | cols :: rest =>
      current <- index cols i ;;
      if (current =? 0)%N then Val 0%N
      else if (player =? 0)%N then findWinnerFromLeft_from (S i) rest current
      else if negb (current =? player)%N then Val 0%N
      else findWinnerFromLeft_from (S i) rest player
  end.

Definition diagonalCondition_findWinnerFromLeft (board : Board) : go Player :=
  findWinnerFromLeft_from 0 board 0%N.

Fixpoint findWinnerFromRight_from (l i : nat) (rows : Board) (player : Player)
  : go Player :=
  match rows with
  | [] => Val player
  | cols :: rest =>
      current <- index cols (l - i - 1) ;;
      if (current =? 0)%N then Val 0%N
      else if (player =? 0)%N then findWinnerFromRight_from l (S i) rest current
      else if negb (current =? player)%N then Val 0%N
      else findWinnerFromRight_from l (S i) rest player
  end.

Definition diagonalCondition_findWinnerFromRight (board : Board) : go Player :=
  findWinnerFromRight_from (length board) 0 board 0%N.

Fixpoint isWinningTurnFromLeft_from (i : nat) (rows : Board) (turn : Turn)
  : go bool :=
  match rows with
  | [] => Val true
  | cols :: rest =>
      current <- index cols i ;;
      if negb (current =? Turn_Player turn)%N then Val false
      else isWinningTurnFromLeft_from (S i) rest turn
  end.

Definition diagonalCondition_isWinningTurnFromLeft (board : Board) (turn : Turn)
  : go bool :=
  isWinningTurnFromLeft_from 0 board turn.

Fixpoint isWinningTurnFromRight_from (l i : nat) (rows : Board) (turn : Turn)
  : go bool :=
  match rows with
  | [] => Val true
  | cols :: rest =>
      current <- index cols (l - i - 1) ;;
      if negb (current =? Turn_Player turn)%N then Val false
      else isWinningTurnFromRight_from l (S i) rest turn
  end.

Definition diagonalCondition_isWinningTurnFromRight (board : Board) (turn : Turn)
  : go bool :=
  isWinningTurnFromRight_from (length board) 0 board turn.

Definition diagonalCondition_FindWinner (board : Board) : go Player :=
  winner <- diagonalCondition_findWinnerFromLeft board ;;
  if (0 <? winner)%N then Val winner
  else
    winner' <- diagonalCondition_findWinnerFromRight board ;;
    if (0 <? winner')%N then Val winner' else Val 0%N.

Definition diagonalCondition_IsWinningTurn (board : Board) (turn : Turn) : go bool :=
  fromLeft <- (if (Turn_Row turn =? Turn_Column turn)%N
               then diagonalCondition_isWinningTurnFromLeft board turn
               else Val false) ;;
  if fromLeft then Val true
  else
    fromRight <- (if (Turn_Row turn
                      =? sub8 (sub8 (uint8 (length board)) (Turn_Column turn)) 1)%N
                  then diagonalCondition_isWinningTurnFromRight board turn
                  else Val false) ;;
    if fromRight then Val true else Val false.

Definition diagonalCondition : Condition :=
  mkCondition diagonalCondition_FindWinner diagonalCondition_IsWinningTurn.

(** *** horizontalCondition *)

Fixpoint findWinnerFromRow_from (cols : list Player) (player : Player) : Player :=
  match cols with
  | [] => player
  | current :: rest =>
      if (current =? 0)%N then 0%N
      else if (player =? 0)%N then findWinnerFromRow_from rest current
      else if negb (player =? current)%N then 0%N
      else findWinnerFromRow_from rest player
  end.

Definition horizontalCondition_findWinnerFromRow (cols : list Player) : Player :=
  findWinnerFromRow_from cols 0%N.

Fixpoint horizontalCondition_FindWinner_rows (rows : Board) : Player :=
  match rows with
  | [] => 0%N
  | cols :: rest =>
      let winner := horizontalCondition_findWinnerFromRow cols in
      if (0 <? winner)%N then winner else horizontalCondition_FindWinner_rows rest
  end.

Definition horizontalCondition_FindWinner (board : Board) : go Player :=
  Val (horizontalCondition_FindWinner_rows board).

Fixpoint all_current (cols : list Player) (player : Player) : bool :=
  match cols with
  | [] => true
  | current :: rest =>
      if negb (current =? player)%N then false else all_current rest player
  end.

Definition horizontalCondition_IsWinningTurn (board : Board) (turn : Turn) : go bool :=
  cols <- index board (N.to_nat (Turn_Row turn)) ;;
  Val (all_current cols (Turn_Player turn)).

Definition horizontalCondition : Condition :=
  mkCondition horizontalCondition_FindWinner horizontalCondition_IsWinningTurn.

(** *** verticalCondition *)

Fixpoint findWinnerFromCol_from (rows : Board) (col : N) (player : Player)
  : go Player :=
  match rows with
  | [] => Val player
  | cols :: rest =>
      current <- index cols (N.to_nat col) ;;
      if (current =? 0)%N then Val 0%N
      else if (player =? 0)%N then findWinnerFromCol_from rest col current
      else if negb (player =? current)%N then Val 0%N
      else findWinnerFromCol_from rest col player
  end.

Definition verticalCondition_findWinnerFromCol (board : Board) (col : N) : go Player :=
  findWinnerFromCol_from board col 0%N.

(** The loop [for i := range board] of [verticalCondition.FindWinner],
    from index [i], with [n] indices left. *)
Fixpoint verticalCondition_FindWinner_from (board : Board) (i n : nat) : go Player :=
  match n with
  | O => Val 0%N
  | S n' =>
      winner <- verticalCondition_findWinnerFromCol board (uint8 i) ;;
      if (0 <? winner)%N then Val winner
      else verticalCondition_FindWinner_from board (S i) n'
  end.

Definition verticalCondition_FindWinner (board : Board) : go Player :=
  verticalCondition_FindWinner_from board 0 (length board).

Fixpoint verticalCondition_IsWinningTurn_rows (rows : Board) (turn : Turn) : go bool :=
  match rows with
  | [] => Val true
  | cols :: rest =>
      current <- index cols (N.to_nat (Turn_Column turn)) ;;
      if negb (current =? Turn_Player turn)%N then Val false
      else verticalCondition_IsWinningTurn_rows rest turn
  end.

Definition verticalCondition_IsWinningTurn (board : Board) (turn : Turn) : go bool :=
  verticalCondition_IsWinningTurn_rows board turn.

Definition verticalCondition : Condition :=
  mkCondition verticalCondition_FindWinner verticalCondition_IsWinningTurn.

Definition standardConditions : Conditions :=
  [horizontalCondition; verticalCondition; diagonalCondition].

(** ** Bots *)

(** The [Game] interface as a [Bot] is handed it: the answers of its
    queries at the time of the call. *)
Record Game : Type := mkGame {
  Game_Board : Board;
  Game_Conditions : Conditions;
  Game_IsBotTurn : bool;
  Game_LastTurn : Turn * bool;
  Game_MaxTurns : Z;
  Game_Player : Player;
  Game_RemainingTurns : Z;
  Game_Size : N;
  Game_State : State;
  Game_Turns : list Turn
}.

(** The [Bot] interface. *)
Record Bot : Type := mkBot {
  Bot_Player : Player;
  Bot_Turn : Rand -> Board -> Game -> go (Cell * option error)
}.

(** *** easyBot *)

Definition easyBot_Turn (rnd : Rand) (board : Board) (_ : Game)
  : go (Cell * option error) :=
  Val (Cells_Random rnd (Board_FindEmpty board), None).

Definition NewEasyBot (player : Player) : Bot :=
  mkBot player easyBot_Turn.

(** *** normalBot *)

Fixpoint normalBot_Turn_loop (player : Player) (board : Board)
  (conditions : Conditions) (candidates : Cells) : go (option Cell) :=
  match candidates with
  | [] => Val None
  | candidate :: rest =>
      nextBoard <- Board_assign (Board_Copy board) (Row candidate) (Column candidate) player ;;
      won <- Conditions_IsWinningTurn conditions nextBoard (mkTurn candidate player) ;;
      if won then Val (Some candidate)
      else normalBot_Turn_loop player board conditions rest
  end.

Definition normalBot_Turn (player : Player) (rnd : Rand) (board : Board) (game : Game)
  : go (Cell * option error) :=
  let candidates := Board_FindEmpty board in
  let conditions := Game_Conditions game in
  found <- normalBot_Turn_loop player board conditions candidates ;;
  match found with
  | Some candidate => Val (candidate, None)
  | None => Val (Cells_Random rnd candidates, None)
  end.

Definition NewNormalBot (player : Player) : Bot :=
  mkBot player (normalBot_Turn player).

(** *** hardBot *)

(** The inner loop over the opponent's replies; [oppWinner] is the
    pointer of the source, [None] for nil. *)
Fixpoint hardBot_Turn_oppLoop (opponent : Player) (nextBoard : Board)
  (conditions : Conditions) (oppCandidates : Cells) (oppWinner : option Cell)
  : go (option Cell) :=
  match oppCandidates with
  | [] => Val oppWinner
  | oppCandidate :: rest =>
      oppBoard <- Board_assign (Board_Copy nextBoard)
                    (Row oppCandidate) (Column oppCandidate) opponent ;;
      won <- Conditions_IsWinningTurn conditions oppBoard (mkTurn oppCandidate opponent) ;;
      hardBot_Turn_oppLoop opponent nextBoard conditions rest
        (if won then Some oppCandidate else oppWinner)
  end.

(** The outer loop: [inl candidate] when it returns from inside the
    loop, [inr oppWinner] when it runs to its end. *)
Fixpoint hardBot_Turn_loop (opponent player : Player) (board : Board)
  (conditions : Conditions) (candidates : Cells) (oppWinner : option Cell)
  : go (Cell + option Cell) :=
  match candidates with
  | [] => Val (inr oppWinner)
  | candidate :: rest =>
      nextBoard <- Board_assign (Board_Copy board) (Row candidate) (Column candidate) player ;;
      won <- Conditions_IsWinningTurn conditions nextBoard (mkTurn candidate player) ;;
      if won then Val (inl candidate)
      else
        oppWinner' <- hardBot_Turn_oppLoop opponent nextBoard conditions
                        (Board_FindEmpty nextBoard) oppWinner ;;
        hardBot_Turn_loop opponent player board conditions rest oppWinner'
  end.

Definition hardBot_Turn (opponent player : Player) (rnd : Rand) (board : Board)
  (game : Game) : go (Cell * option error) :=
  let candidates := Board_FindEmpty board in
  let conditions := Game_Conditions game in
  r <- hardBot_Turn_loop opponent player board conditions candidates None ;;
  match r with
  | inl candidate => Val (candidate, None)
  | inr (Some oppWinner) => Val (oppWinner, None)
  | inr None => Val (Cells_Random rnd candidates, None)
  end.

Definition NewHardBot (player : Player) : Bot :=
  mkBot player (hardBot_Turn (Player_Next player) player).

(** *** impossibleBot *)

Record impossibleChoice : Type := mkChoice {
  cell : Cell;
  depth : Z;
  value : Z
}.

Definition zeroChoice : impossibleChoice := mkChoice zeroCell 0 0.

(** [int(math.Pow(float64(n), 2))]: exact as long as the square is below
    2^53, which holds for every turn ceiling of a board (at most 255^2). *)
Definition pow2 (n : Z) : Z := (n * n)%Z.

(** The loop over the candidates of [minimax]; [rec] is the recursive
    call on the next board and the turn that led to it. The loop returns
    [inr] when it leaves the function with the error of a recursive
    call, [inl] with the choices it has gathered otherwise. *)
Fixpoint minimax_candidates
  (rec : Board -> Turn -> go (impossibleChoice * option error))
  (board : Board) (player : Player) (candidates : Cells)
  (choices : list impossibleChoice)
  : go (list impossibleChoice + impossibleChoice * error) :=
  match candidates with
  | [] => Val (inl choices)
  | candidate :: rest =>
      nextBoard <- Board_assign (Board_Copy board) (Row candidate) (Column candidate) player ;;
      let turn := mkTurn candidate player in
      '(choice, err) <- rec nextBoard turn ;;
      match err with
      | Some e => Val (inr (choice, e))
      | None =>
          let choice' := mkChoice (Turn_Cell turn) (depth choice) (value choice) in
          minimax_candidates rec board player rest (choices ++ [choice'])
      end
  end.

(** The loop over the choices of [minimax]: the pair is
    [(minChoice, maxChoice)]. *)
Definition minimax_pick (max : bool) (acc : impossibleChoice * impossibleChoice)
  (choice : impossibleChoice) : impossibleChoice * impossibleChoice :=
  let (minChoice, maxChoice) := acc in
  if max && (value maxChoice <? value choice)%Z then (minChoice, choice)
  else if negb max && (value choice <? value minChoice)%Z then (choice, maxChoice)
  else (minChoice, maxChoice).

(** [impossibleBot.minimax]; [fuel] bounds the depth of the recursion
    and [Hang] is the answer when it is used up. *)
Fixpoint minimax (fuel : nat) (b_player : Player) (board : Board) (game : Game)
  (lastTurn : Turn) (max : bool) (player : Player) (depth : Z)
  : go (impossibleChoice * option error) :=
  match fuel with
  | O => Hang
  | S fuel' =>
      let candidates := Board_FindEmpty board in
      let conditions := Game_Conditions game in
      '(winner, err) <- Conditions_FindWinner conditions board ;;
      match err with
      | Some e => Val (zeroChoice, Some e)
      | None =>
          if (winner =? b_player)%N then
            Val (mkChoice (Turn_Cell lastTurn) depth
                          ((Game_MaxTurns game + 1) - depth)%Z, None)
          else if (winner =? Player_Next b_player)%N then
            Val (mkChoice (Turn_Cell lastTurn) depth
                          (- (Game_MaxTurns game + 1) + depth)%Z, None)
          else if (length candidates =? 0)%nat then
            Val (mkChoice (Turn_Cell lastTurn) depth 0%Z, None)
          else
            r <- minimax_candidates
                   (fun nextBoard turn =>
                      minimax fuel' b_player nextBoard game turn (negb max)
                              (Player_Next player) (depth + 1)%Z)
                   board player candidates [] ;;
            match r with
            | inr (choice, e) => Val (choice, Some e)
            | inl choices =>
                let minChoice := mkChoice zeroCell depth (pow2 (Game_MaxTurns game + 1)) in
                let maxChoice := mkChoice zeroCell depth (- pow2 (Game_MaxTurns game + 1))%Z in
                let (minChoice', maxChoice') :=
                  fold_left (minimax_pick max) choices (minChoice, maxChoice) in
                if max then Val (maxChoice', None) else Val (minChoice', None)
            end
      end
  end.

(** The recursion of [minimax] is one level deeper than the number of
    cells it can still fill. *)
Definition minimax_fuel (board : Board) : nat :=
  S (length (Board_FindEmpty board)).

Definition impossibleBot_Turn (b_player : Player) (_ : Rand) (board : Board)
  (game : Game) : go (Cell * option error) :=
  let (lastTurn, _) := Game_LastTurn game in
  '(choice, err) <- minimax (minimax_fuel board) b_player board game lastTurn true
                      b_player 0%Z ;;
  Val (cell choice, err).

Definition NewImpossibleBot (player : Player) : Bot :=
  mkBot player (impossibleBot_Turn player).

(** ** Validation of a preset board *)

(** [map[Player]uint16]: a key that was never set reads as zero. *)
Definition counter : Type := Player -> N.

Definition counter_empty : counter := fun _ => 0%N.

Definition counter_set (m : counter) (p : Player) (v : N) : counter :=
  fun q => if (q =? p)%N then v else m q.

(** The inner loop of [Board.check] over the cells of one row. *)
Fixpoint check_cols (row col : nat) (cols : list Player) (turns : list Turn)
  (turnCounter : counter) : list Turn * counter * option error :=
  match cols with
  | [] => (turns, turnCounter, None)
  | player :: rest =>
      if (player =? 0)%N then check_cols row (S col) rest turns turnCounter
      else if Player_IsValid player then
        check_cols row (S col) rest
          (turns ++ [mkTurn (mkCell (uint8 col) (uint8 row)) player])
          (counter_set turnCounter player (inc16 (turnCounter player)))
      else
        (turns, turnCounter,
         Some (Errorf "board cell[%d,%d] contains unknown player: %d"
                      [ArgNat row; ArgNat col; ArgN player]))
  end.

(** The outer loop of [Board.check] over the rows. *)
Fixpoint check_rows (size : N) (row : nat) (rows : Board) (turns : list Turn)
  (turnCounter : counter) : list Turn * counter * option error :=
  match rows with
  | [] => (turns, turnCounter, None)
  | cols :: rest =>
      if negb (length cols =? N.to_nat size)%nat then
        (turns, turnCounter,
         Some (Errorf "board row[%d] must contain %d columns" [ArgNat row; ArgN size]))
      else
        let '(turns', turnCounter', err) := check_cols row 0 cols turns turnCounter in
        match err with
        | Some e => (turns', turnCounter', Some e)
        | None => check_rows size (S row) rest turns' turnCounter'
        end
  end.

(** [Board.check]: the results are
    [(starter, size, maxTurns, turns, err)]. *)
Definition Board_check (b : Board) : Player * N * Z * list Turn * option error :=
  let l := length b in
  if (l <? N.to_nat MinSize)%nat then
    (0%N, 0%N, 0%Z, [],
     Some (Errorf "board must contain at least %d rows" [ArgN MinSize]))
  else if (N.to_nat MaxSize <? l)%nat then
    (0%N, 0%N, 0%Z, [],
     Some (Errorf "board must contain at most %d rows" [ArgN MaxSize]))
  else
    let maxTurns := (Z.of_nat l * Z.of_nat l)%Z in
    let size := uint8 l in
    let '(turns, turnCounter, err) := check_rows size 0 b [] counter_empty in
    match err with
    | Some e => (0%N, size, maxTurns, turns, Some e)
    | None =>
        let p1Turns := turnCounter PlayerOne in
        let p2Turns := turnCounter PlayerTwo in
        let diffTurns := (Z.of_N p1Turns - Z.of_N p2Turns)%Z in
        if (diffTurns =? 1)%Z then (PlayerTwo, size, maxTurns, turns, None)
        else if (1 <? diffTurns)%Z then
          (0%N, size, maxTurns, turns,
           Some (Errorf "board contains unfair advantage for player: %d" [ArgN PlayerOne]))
        else if (diffTurns =? -1)%Z then (PlayerOne, size, maxTurns, turns, None)
        else if (diffTurns <? -1)%Z then
          (0%N, size, maxTurns, turns,
           Some (Errorf "board contains unfair advantage for player: %d" [ArgN PlayerTwo]))
        else (0%N, size, maxTurns, turns, None)
    end.

(** ** The game *)

(** The struct [game]. Its field [board] is [held]: the slice the game
    holds, with the memory the rows lie in. Where two games hold one
    board, the memory a call on one of them leaves is the memory of the
    other ([as_left_by] below). *)
Record game : Type := mkgame {
  held : Stored;
  bot : option Bot;
  conditions : Conditions;
  maxTurns : Z;
  player : Player;
  size : N;
  state : State;
  turns : list Turn
}.

(** What reading the board of the game gives. *)
Abbreviation board g := (contents (held g)).

Definition set_held (g : game) (v : Stored) : game :=
  mkgame v (bot g) (conditions g) (maxTurns g) (player g) (size g) (state g) (turns g).
Definition set_bot (g : game) (v : option Bot) : game :=
  mkgame (held g) v (conditions g) (maxTurns g) (player g) (size g) (state g) (turns g).
Definition set_conditions (g : game) (v : Conditions) : game :=
  mkgame (held g) (bot g) v (maxTurns g) (player g) (size g) (state g) (turns g).
Definition set_maxTurns (g : game) (v : Z) : game :=
  mkgame (held g) (bot g) (conditions g) v (player g) (size g) (state g) (turns g).
Definition set_player (g : game) (v : Player) : game :=
  mkgame (held g) (bot g) (conditions g) (maxTurns g) v (size g) (state g) (turns g).
Definition set_size (g : game) (v : N) : game :=
  mkgame (held g) (bot g) (conditions g) (maxTurns g) (player g) v (state g) (turns g).
Definition set_state (g : game) (v : State) : game :=
  mkgame (held g) (bot g) (conditions g) (maxTurns g) (player g) (size g) v (turns g).
Definition set_turns (g : game) (v : list Turn) : game :=
  mkgame (held g) (bot g) (conditions g) (maxTurns g) (player g) (size g) (state g) v.

(** [game.IsBotTurn] *)
Definition IsBotTurn (g : game) : bool :=
  State_eqb (state g) StateAwaitingTurn
  && match bot g with
     | Some b => (Bot_Player b =? player g)%N
     | None => false
     end.

(** [game.LastTurn] *)
Definition LastTurn (g : game) : Turn * bool :=
  match turns g with
  | [] => (zeroTurn, false)
  | _ => (last (turns g) zeroTurn, true)
  end.

(** [game.RemainingTurns] *)
Definition RemainingTurns (g : game) : Z :=
  (maxTurns g - Z.of_nat (length (turns g)))%Z.

(** The game as the [Game] handed to its bot. *)
Definition as_Game (g : game) : Game :=
  {| Game_Board := Board_Copy (board g);
     Game_Conditions := conditions g;
     Game_IsBotTurn := IsBotTurn g;
     Game_LastTurn := LastTurn g;
     Game_MaxTurns := maxTurns g;
     Game_Player := player g;
     Game_RemainingTurns := RemainingTurns g;
     Game_Size := size g;
     Game_State := state g;
     Game_Turns := turns g |}.

(** [game.validateBounds] *)
Definition validateBounds (g : game) (cell : Cell) : option error :=
  if (size g <=? Row cell)%N then Some (fmtRowOutOfBoundsErr cell (size g))
  else if (size g <=? Column cell)%N then Some (fmtColOutOfBoundsErr cell (size g))
  else None.

(** [game.validateTurn] *)
Definition validateTurn (g : game) (turn : Turn) (allowBotTurn : bool)
  : go (option error) :=
  if negb (State_eqb (state g) StateAwaitingTurn) then Val (Some ErrGameOver)
  else
    let player_ := Turn_Player turn in
    if negb (Player_IsValid player_) then Val (Some (fmtPlayerNotFoundErr player_))
    else if match bot g with
            | Some b => (Bot_Player b =? player_)%N && negb allowBotTurn
            | None => false
            end
    then Val (Some (fmtInvalidTurnErr
                      (ArgSprintf "human cannot play turn for bot player[%d]" [player_])))
    else if negb (player_ =? player g)%N
    then Val (Some (fmtInvalidTurnErr
                      (ArgSprintf "player[%d] cannot play turn for player[%d]"
                                  [player_; player g])))
    else
      let row := Turn_Row turn in
      let col := Turn_Column turn in
      existing <- Board_at (board g) row col ;;
      if (0 <? existing)%N
      then Val (Some (fmtInvalidTurnErr
                        (ArgSprintf "cell[%d,%d] already taken by player %d"
                                    [row; col; existing])))
      else Val None.

(** [game.play]: the game after the call and the results
    [(state, player, err)]. *)
Definition play (g : game) (turn : Turn) (allowBotTurn : bool)
  : go (game * (State * Player * option error)) :=
  match validateBounds g (Turn_Cell turn) with
  | Some err => Val (g, (state g, player g, Some err))
  | None =>
      verr <- validateTurn g turn allowBotTurn ;;
      match verr with
      | Some err => Val (g, (state g, player g, Some err))
      | None =>
          held' <- Stored_assign (held g) (Turn_Row turn) (Turn_Column turn)
                     (Turn_Player turn) ;;
          let g1 := set_held g held' in
          let g2 := set_turns g1 (turns g1 ++ [turn]) in
          won <- Conditions_IsWinningTurn (conditions g2) (board g2) turn ;;
          let g3 :=
            if won then set_state g2 StateWon
            else if (maxTurns g2 <=? Z.of_nat (length (turns g2)))%Z
            then set_state (set_player g2 0%N) StateDraw
            else set_player g2 (Player_Next (Turn_Player turn)) in
          Val (g3, (state g3, player g3, None))
      end
  end.

(** [game.Play] *)
Definition Play (g : game) (turn : Turn) : go (game * (State * Player * option error)) :=
  play g turn false.

(** [game.AllowBotTurn] *)
Definition AllowBotTurn (rnd : Rand) (g : game)
  : go (game * (State * Player * option error)) :=
  if negb (IsBotTurn g) then Val (g, (state g, player g, None))
  else
    match bot g with
    | None => Panic
    | Some b =>
        '(cell_, err) <- Bot_Turn b rnd (board g) (as_Game g) ;;
        match err with
        | Some e => Val (g, (state g, player g, Some (fmtBotErr e)))
        | None =>
            '(g', (_, err')) <- play g (mkTurn cell_ (player g)) true ;;
            Val (g', (state g', player g', option_map fmtBotErr err'))
        end
    end.

(** ** Configuration options

    An [Option] of the source changes the game it is given and returns
    an error or nil: here it returns the game after the call and the
    error. *)

Definition Option : Type := game -> game * option error.

Definition Pack : Type := list Option.

(** The loop [for _, opt := range opts] shared by [Start] and
    [WithPack]: it stops at the first error. *)
Fixpoint apply_options (opts : list Option) (g : game) : game * option error :=
  match opts with
  | [] => (g, None)
  | opt :: rest =>
      let (g', err) := opt g in
      match err with
      | Some e => (g', Some e)
      | None => apply_options rest g'
      end
  end.

(** [WithBoard]: the game keeps the slice it is given, not a copy. The
    board of a game is nil until this option has accepted one, and a
    board it accepts has at least [MinSize] rows, so that the tests of
    the source for a nil board are tests for the empty list. *)
Definition WithBoard (board_ : Stored) : Option := fun g =>
  let '(starter, size_, maxTurns_, turns_, err) := Board_check (contents board_) in
  match err with
  | Some e => (g, Some (fmtInvalidOptionErr "WithBoard" e))
  | None =>
      let g1 := set_held g board_ in
      let g2 := set_maxTurns g1 maxTurns_ in
      let g3 := set_size g2 size_ in
      let g4 := set_turns g3 turns_ in
      let g5 := if (0 <? starter)%N then set_player g4 starter else g4 in
      (g5, None)
  end.

Definition withBot (bot_ : Bot) (option : string) : Option := fun g =>
  match bot g with
  | Some _ => (g, None)
  | None =>
      let player_ := Bot_Player bot_ in
      if negb (Player_IsValid player_)
      then (g, Some (fmtInvalidOptionErr option (fmtPlayerNotFoundErr player_)))
      else (set_bot g (Some bot_), None)
  end.

Definition WithBot (bot_ : Bot) : Option := withBot bot_ "WithBot".

Definition WithCondition (condition : Condition) : Option := fun g =>
  (set_conditions g (conditions g ++ [condition]), None).

Definition WithConditions (conditions_ : Conditions) : Option := fun g =>
  (set_conditions g (conditions g ++ conditions_), None).

Definition WithEasyBot (player_ : Player) : Option :=
  withBot (NewEasyBot player_) "WithEasyBot".

Definition WithHardBot (player_ : Player) : Option :=
  withBot (NewHardBot player_) "WithHardBot".

Definition WithImpossibleBot (player_ : Player) : Option :=
  withBot (NewImpossibleBot player_) "WithImpossibleBot".

Definition WithNormalBot (player_ : Player) : Option :=
  withBot (NewNormalBot player_) "WithNormalBot".

Definition WithPack (pack : Pack) : Option := apply_options pack.

Definition WithRandomSize (rnd : Rand) : Option := fun g =>
  match board g with
  | _ :: _ => (g, None)
  | [] =>
      let size_ := (Intn rnd (N.to_nat MaxSize - N.to_nat MinSize) + N.to_nat MinSize)%nat in
      let g1 := set_maxTurns g (Z.of_nat size_ * Z.of_nat size_)%Z in
      (set_size g1 (uint8 size_), None)
  end.

Definition WithRandomStarterPlayer (rnd : Rand) : Option := fun g =>
  if (player g =? 0)%N
  then (set_player g (uint8 (Intn rnd 2 + 1)), None)
  else (g, None).

Definition WithSize (size_ : N) : Option := fun g =>
  match board g with
  | _ :: _ => (g, None)
  | [] =>
      if (size_ <? MinSize)%N then
        (g, Some (fmtInvalidOptionErr "WithSize"
                    (Errorf "size must be at least: %d" [ArgN MinSize])))
      else if (MaxSize <? size_)%N then
        (g, Some (fmtInvalidOptionErr "WithSize"
                    (Errorf "size must be at most: %d" [ArgN MaxSize])))
      else
        let g1 := set_maxTurns g (Z.of_N size_ * Z.of_N size_)%Z in
        (set_size g1 size_, None)
  end.

Definition WithStarterPlayer (player_ : Player) : Option := fun g =>
  if (0 <? player g)%N then (g, None)
  else if negb (Player_IsValid player_)
  then (g, Some (fmtInvalidOptionErr "WithStarterPlayer" (fmtPlayerNotFoundErr player_)))
  else (set_player g player_, None).

(** The game [Start] begins with, before any option. *)
Definition draft : game :=
  {| held := nilStored;
     bot := None;
     conditions := standardConditions;
     maxTurns := (Z.of_N MinSize * Z.of_N MinSize)%Z;
     player := 0%N;
     size := MinSize;
     state := StateAwaitingTurn;
     turns := [] |}.

(** [Start]: the results are [(game, err)], with [None] for a nil
    game. *)
Definition Start (opts : list Option) : go (option game * option error) :=
  let (g, err) := apply_options opts draft in
  match err with
  | Some e => Val (None, Some e)
  | None =>
      match board g with
      | [] =>
          let g1 := set_held g (alloc (newBoard (size g))) in
          let g2 := if (player g1 =? 0)%N then set_player g1 PlayerOne else g1 in
          Val (Some g2, None)
      | _ :: _ =>
          '(winner, err') <- Conditions_FindWinner (conditions g) (board g) ;;
          match err' with
          | Some e => Val (None, Some e)
          | None =>
              if (0 <? winner)%N
              then Val (Some (set_player (set_state g StateWon) winner), None)
              else if (maxTurns g <=? Z.of_nat (length (turns g)))%Z
              then Val (Some (set_player (set_state g StateDraw) 0%N), None)
              else if (player g =? 0)%N
              then Val (Some (set_player g PlayerOne), None)
              else Val (Some g, None)
          end
      end
  end.

(** [MustStart] panics on the error of [Start]. *)
Definition MustStart (opts : list Option) : go game :=
  '(g, err) <- Start opts ;;
  match err, g with
  | None, Some g' => Val g'
  | _, _ => Panic
  end.

(** ** The command-line front end: bot registry and flag validation *)

Definition MaxSizeEasy : N := 255.
Definition MaxSizeHard : N := 255.
Definition MaxSizeImpossible : N := 3.
Definition MaxSizeNormal : N := 255.

Definition NameEasy : string := "easy".
Definition NameHard : string := "hard".
Definition NameImpossible : string := "impossible".
Definition NameNormal : string := "normal".

Definition flagNameBot : string := "bot".
Definition flagNamePlayer : string := "player".
Definition flagNameSize : string := "size".

Definition flagInvalidReasonBotMaxSizeExceeded : string := "bot max board size exceeded".
Definition flagInvalidReasonOutOfRange : string := "value out of range".
Definition flagInvalidReasonParse : string := "parse error".

(** The reason handed to [handleInvalidFlag]: one of the constants, or
    the result of [fmt.Sprintf], kept as its format string and its
    arguments, unformatted. *)
Inductive reason : Type :=
| Reason (text : string)
| ReasonSprintf (format : string) (args : list arg).

(** The part of [main] between [flag.Parse] and the start of the
    program, for the values of the flags [-bot], [-player] and [-size]
    (with [-help] unset): [inl (name, reason)] when it ends in
    [handleInvalidFlag], which prints the usage and exits with status 2,
    [inr pack] with the options handed to [initModel] otherwise. *)
Definition main_pack (botFlag : string) (playerFlag sizeFlag : N)
  : string * reason + Pack :=
  if (playerFlag =? 0)%N || (2 <? playerFlag)%N
  then inl (flagNamePlayer, Reason flagInvalidReasonOutOfRange)
  else
    let player_ : Player := playerFlag in
    if (sizeFlag <? MinSize)%N || (MaxSize <? sizeFlag)%N
    then inl (flagNameSize, Reason flagInvalidReasonOutOfRange)
    else
      let size_ : N := sizeFlag in
      let pack : Pack := [WithSize size_; WithStarterPlayer player_] in
      let chosen : option (Pack * N) :=
        if String.eqb botFlag EmptyString then Some (pack, 0%N)
        else if String.eqb botFlag NameEasy
        then Some (pack ++ [WithEasyBot PlayerTwo], MaxSizeEasy)
        else if String.eqb botFlag NameNormal
        then Some (pack ++ [WithNormalBot PlayerTwo], MaxSizeNormal)
        else if String.eqb botFlag NameHard
        then Some (pack ++ [WithHardBot PlayerTwo], MaxSizeHard)
        else if String.eqb botFlag NameImpossible
        then Some (pack ++ [WithImpossibleBot PlayerTwo], MaxSizeImpossible)
        else None in
      match chosen with
      | None => inl (flagNameBot, Reason flagInvalidReasonParse)
      | Some (pack', maxSize) =>
          if negb (String.eqb botFlag EmptyString) && (0 <? maxSize)%N && (maxSize <? size_)%N
          then inl (flagNameSize,
                    ReasonSprintf "%q %s (%v)"
                                  [ArgS botFlag;
                                   ArgS flagInvalidReasonBotMaxSizeExceeded;
                                   ArgN maxSize])
          else inr pack'
      end.

(** [initModel] starts the game of the program from the pack. *)
Definition initModel_game (pack : Pack) : go game :=
  MustStart [WithPack pack].

(** ** Vocabulary of the statements *)

(** A board of [n] rows of [n] cells. *)
Definition square (n : nat) (b : Board) : bool :=
  (length b =? n)%nat && forallb (fun cols => (length cols =? n)%nat) b.

(** The addresses of the cells of a stored board, row by row. *)
Definition addresses (b : Stored) : list nat :=
  flat_map (fun s => seq (base s) (len s)) (rows_of b).

Fixpoint distinct (l : list nat) : bool :=
  match l with
  | [] => true
  | a :: rest => negb (existsb (Nat.eqb a) rest) && distinct rest
  end.

(** No two cells of the board lie at one address: its rows share no
    memory, as when each has been made on its own. *)
Definition unshared (b : Stored) : bool := distinct (addresses b).

(** What [Start] guarantees of the shape of a game and every turn
    preserves: the board is a square of the size of the game, the size
    is one a board may have, and the turn ceiling is its square. *)
Definition wf_game (g : game) : bool :=
  square (N.to_nat (size g)) (board g)
  && (maxTurns g =? Z.of_N (size g) * Z.of_N (size g))%Z
  && (MinSize <=? size g)%N && (size g <=? MaxSize)%N.

(** The number of cells of a board that hold the mark [p]. *)
Definition count_marks (p : Player) (b : Board) : nat :=
  count_occ N.eq_dec (concat b) p.

(** The number of cells of a board that are not zero. *)
Definition count_occupied (b : Board) : nat :=
  length (filter (fun p => negb (p =? 0)%N) (concat b)).

(** The cells of a board of [n] rows of [n] cells in row-major scan
    order: top to bottom, left to right. *)
Definition cells_row_major (n : nat) : Cells :=
  flat_map (fun row => map (fun col => mkCell (N.of_nat col) (N.of_nat row)) (seq 0 n))
           (seq 0 n).

(** The occupied cells of a board in row-major scan order, each with
    the mark it holds, as the specification describes the turn history
    derived from a preset board. *)
Definition occupied_row_major (b : Board) : list Turn :=
  flat_map (fun c => match Board_at b (Row c) (Column c) with
                     | Val p => if (p =? 0)%N then [] else [mkTurn c p]
                     | _ => []
                     end)
           (cells_row_major (length b)).

(** The turn of the mark [p] at a cell, if the cell is occupied. *)
Definition mark_turn (row col : nat) (p : Player) : list Turn :=
  if (p =? 0)%N then [] else [mkTurn (mkCell (N.of_nat col) (N.of_nat row)) p].

(** The turns of the marks of one row, whose first cell is at column
    [col], and of the rows of a board, whose first row is row [row]. *)
Definition row_turns (row col : nat) (cols : list Player) : list Turn :=
  flat_map (fun k => mark_turn row (col + k) (nth k cols 0%N)) (seq 0 (length cols)).

Definition rows_turns (row : nat) (rows : Board) : list Turn :=
  flat_map (fun k => row_turns (row + k) 0 (nth k rows [])) (seq 0 (length rows)).

(** The rows a preset board may have: as long as the board has rows
    and holding zero or valid marks only. *)
Definition rows_ok (n : nat) (rows : Board) : bool :=
  forallb (fun cols => (length cols =? n)%nat && forallb Player_IsValidOrZero cols) rows.

(** The turn history agrees with the board: it is as long as the board
    has cells that are not zero, and the cell of every recorded turn
    holds the player of the turn. *)
Definition history_agrees (g : game) : Prop :=
  length (turns g) = count_occupied (board g)
  /\ Forall (fun t => Board_at (board g) (Turn_Row t) (Turn_Column t)
                      = Val (Turn_Player t))
            (turns g).

(** What holds of every game in use: its shape, the agreement of its
    history with its board, and valid players in the history. *)
Definition game_inv (g : game) : Prop :=
  wf_game g = true
  /\ history_agrees g
  /\ Forall (fun t => Player_IsValid (Turn_Player t) = true) (turns g).

(** What holds of the game under configuration: a size a board may
    have, the turn ceiling its square, and either no board and no
    history yet, or a preset board that has passed the check, with the
    history derived from it. *)
Definition draft_inv (g : game) : Prop :=
  (MinSize <= size g)%N /\ (size g <= MaxSize)%N
  /\ maxTurns g = (Z.of_N (size g) * Z.of_N (size g))%Z
  /\ ((board g = [] /\ turns g = [])
      \/ (board g <> [] /\ game_inv g)).

(** The options a caller can build: the results of the exported
    constructors, [WithPack] taking a pack of such options. *)
Inductive lib_option : Option -> Prop :=
| lib_WithBoard : forall b, lib_option (WithBoard b)
| lib_WithBot : forall bot_, lib_option (WithBot bot_)
| lib_WithCondition : forall c, lib_option (WithCondition c)
| lib_WithConditions : forall cs, lib_option (WithConditions cs)
| lib_WithEasyBot : forall p, lib_option (WithEasyBot p)
| lib_WithHardBot : forall p, lib_option (WithHardBot p)
| lib_WithImpossibleBot : forall p, lib_option (WithImpossibleBot p)
| lib_WithNormalBot : forall p, lib_option (WithNormalBot p)
| lib_WithPack : forall pack, lib_options pack -> lib_option (WithPack pack)
| lib_WithRandomSize : forall rnd, lib_option (WithRandomSize rnd)
| lib_WithRandomStarterPlayer : forall rnd, lib_option (WithRandomStarterPlayer rnd)
| lib_WithSize : forall n, lib_option (WithSize n)
| lib_WithStarterPlayer : forall p, lib_option (WithStarterPlayer p)
with lib_options : list Option -> Prop :=
| lib_options_nil : lib_options []
| lib_options_cons : forall opt opts,
    lib_option opt -> lib_options opts -> lib_options (opt :: opts).

Scheme lib_option_mut := Minimality for lib_option Sort Prop
  with lib_options_mut := Minimality for lib_options Sort Prop.

(** The games a caller can hold: the results of [Start] and of any
    sequence of calls of [Play] and [AllowBotTurn] that return, the
    calls of the game being the only writers to the memory of its
    board between them. *)
Inductive reachable : game -> Prop :=
| reachable_Start : forall opts g,
    lib_options opts -> Start opts = Val (Some g, None) -> reachable g
| reachable_Play : forall g t g' r,
    reachable g -> Play g t = Val (g', r) -> reachable g'
| reachable_AllowBotTurn : forall rnd g g' r,
    reachable g -> AllowBotTurn rnd g = Val (g', r) -> reachable g'.

(** Replaying turns in their order through turn submission: the game
    after the submissions and the error of each of them. *)
Fixpoint replay (g : game) (ts : list Turn) : go (game * list (option error)) :=
  match ts with
  | [] => Val (g, [])
  | t :: rest =>
      '(g', (_, err)) <- Play g t ;;
      '(g'', errs) <- replay g' rest ;;
      Val (g'', err :: errs)
  end.

(** Writing the player of each turn, in their order, into its cell of a
    board. *)
Fixpoint write_turns (b : Board) (ts : list Turn) : go Board :=
  match ts with
  | [] => Val b
  | t :: rest =>
      b' <- Board_assign b (Turn_Row t) (Turn_Column t) (Turn_Player t) ;;
      write_turns b' rest
  end.

(** A board that lies between the empty board and the board [b]: a
    square of [n] whose cells are zero or as in [b], and as in [b] at
    the cells of the turns [done]. *)
Definition written (b : Board) (n : nat) (done : list Turn) (x : Board) : Prop :=
  square n x = true
  /\ (forall row col,
        N.to_nat row < n -> N.to_nat col < n ->
        Board_at x row col = Val 0%N \/ Board_at x row col = Board_at b row col)
  /\ (forall t, In t done ->
                Board_at x (Turn_Row t) (Turn_Column t) = Val (Turn_Player t)).

(** The copy of a board with the cell [c] marked by the player [p], as
    the bots build it to look ahead (the board itself when the cell is
    not on it, where the bots panic). *)
Definition marked (b : Board) (c : Cell) (p : Player) : Board :=
  match Board_assign (Board_Copy b) (Row c) (Column c) p with
  | Val b' => b'
  | _ => b
  end.

(** The last cell of a list of cells that is not empty, [fallback]
    otherwise. *)
Definition last_or (cs : Cells) (fallback : option Cell) : option Cell :=
  match cs with
  | [] => fallback
  | _ => Some (last cs zeroCell)
  end.

(** The conditions answer, without a panic, whether a turn is winning
    and who has won, on every square board of [n] rows and for every
    turn on such a board. *)
Definition answers_on (n : nat) (cs : Conditions) : Prop :=
  forall b,
    square n b = true ->
    (exists r, Conditions_FindWinner cs b = Val r)
    /\ forall t,
         N.to_nat (Turn_Row t) < n -> N.to_nat (Turn_Column t) < n ->
         exists w, Conditions_IsWinningTurn cs b t = Val w.

(** What the conditions report of a turn on a board. *)
Definition reported_winning (cs : Conditions) (b : Board) (t : Turn) : bool :=
  match Conditions_IsWinningTurn cs b t with
  | Val w => w
  | _ => false
  end.

(** The search of the impossible bot at a position, with the fuel of
    the position. *)
Definition search (b_player : Player) (game_ : Game) (board_ : Board)
  (lastTurn : Turn) (max : bool) (player_ : Player) (depth_ : Z)
  : go (impossibleChoice * option error) :=
  minimax (minimax_fuel board_) b_player board_ game_ lastTurn max player_ depth_.

(** The choice a child of a node hands up, annotated by the node with
    the cell of the move that led to the child. *)
Definition annotate (c : Cell) (choice : impossibleChoice) : impossibleChoice :=
  mkChoice c (depth choice) (value choice).

(** The games that follow from a game by calls of [Play] and
    [AllowBotTurn] that return, with no other writer to the memory of
    its board between them. *)
Inductive follows : game -> game -> Prop :=
| follows_refl : forall g, follows g g
| follows_Play : forall g t g1 r g',
    Play g t = Val (g1, r) -> follows g1 g' -> follows g g'
| follows_AllowBotTurn : forall rnd g g1 r g',
    AllowBotTurn rnd g = Val (g1, r) -> follows g1 g' -> follows g g'.

(** The game is won by the player [p]. *)
Definition won_by (p : Player) (g : game) : bool :=
  State_eqb (state g) StateWon && (player g =? p)%N.

(** The boards of size 3 whose cells hold zero or a valid player. *)
Definition valid3 (b : Board) : bool :=
  square 3 b && forallb Player_IsValidOrZero (concat b).

Definition marks3 : list Player := [0%N; PlayerOne; PlayerTwo].

Definition rows3 : list (list Player) :=
  flat_map (fun x => flat_map (fun y => map (fun z => [x; y; z]) marks3) marks3) marks3.

Definition boards3 : list Board :=
  flat_map (fun r1 => flat_map (fun r2 => map (fun r3 => [r1; r2; r3]) rows3) rows3)
           rows3.

(** On the board [b] marked at [c] by [p], the standard conditions
    report the turn as winning exactly when their scan of the board
    finds [p] as the winner, and find no winner otherwise. *)
Definition move_agrees (b : Board) (c : Cell) (p : Player) : bool :=
  match Conditions_IsWinningTurn standardConditions (marked b c p) (mkTurn c p),
        Conditions_FindWinner standardConditions (marked b c p) with
  | Val won, Val (w, None) => (w =? (if won then p else 0))%N
  | _, _ => false
  end.

(** The scan of the standard conditions answers on [b] with zero or a
    valid player and no error, and when it answers zero every move of
    either player to an empty cell agrees with it. *)
Definition board_agrees (b : Board) : bool :=
  match Conditions_FindWinner standardConditions b with
  | Val (w, None) =>
      Player_IsValidOrZero w
      && (negb (w =? 0)%N
          || forallb (fun c => move_agrees b c PlayerOne && move_agrees b c PlayerTwo)
                     (Board_FindEmpty b))
  | _ => false
  end.

(** The position is not lost for the bot: it has won, or nobody has
    won and the board is full, or nobody has won and, on its ply, some
    move leads to a position that is not lost and, on the ply of the
    other player, every move does. [fuel] bounds the depth. *)
Fixpoint not_lost (fuel : nat) (b_player : Player) (cs : Conditions) (board_ : Board)
  (max : bool) (player_ : Player) : bool :=
  match fuel with
  | O => false
  | S fuel' =>
      match Conditions_FindWinner cs board_ with
      | Val (winner, None) =>
          if (winner =? b_player)%N then true
          else if (winner =? Player_Next b_player)%N then false
          else
            match Board_FindEmpty board_ with
            | [] => true
            | candidates =>
                if max
                then existsb (fun c => not_lost fuel' b_player cs
                                                (marked board_ c player_) false
                                                (Player_Next player_))
                             candidates
                else forallb (fun c => not_lost fuel' b_player cs
                                                (marked board_ c player_) true
                                                (Player_Next player_))
                             candidates
            end
      | _ => false
      end
  end.

(** What holds of every game of size 3 against the impossible bot of
    the player [b_player] with the standard conditions: the game is in
    use, the rows of its board share no memory, its marks are valid, it
    is not won by the other player and,
    while it awaits a turn, nobody has won on its board, a cell is
    empty, one of the two players is on move and the position is not
    lost for the bot. *)
Definition bot_game_inv (b_player : Player) (g : game) : Prop :=
  game_inv g
  /\ unshared (held g) = true
  /\ size g = 3%N
  /\ conditions g = standardConditions
  /\ bot g = Some (NewImpossibleBot b_player)
  /\ valid3 (board g) = true
  /\ won_by (Player_Next b_player) g = false
  /\ (state g = StateAwaitingTurn ->
      Conditions_FindWinner standardConditions (board g) = Val (0%N, None)
      /\ Board_FindEmpty (board g) <> []
      /\ (player g = b_player \/ player g = Player_Next b_player)
      /\ not_lost (minimax_fuel (board g)) b_player standardConditions (board g)
                  (player g =? b_player)%N (player g) = true).

(** The mark a board holds at a cell, zero where the board has no such
    cell. *)
Definition mark_at (b : Board) (c : Cell) : Player :=
  match Board_at b (Row c) (Column c) with
  | Val p => p
  | _ => 0%N
  end.

(** The cell of row [row] and column [col]. *)
Definition cell_at (row col : nat) : Cell := mkCell (N.of_nat col) (N.of_nat row).

(** The lines of a board of [n] rows of [n] cells, each as the list of
    its cells: the rows from the top, the columns from the left, the
    diagonal from the top left and the diagonal from the top right. *)
Definition row_line (n row : nat) : Cells := map (fun col => cell_at row col) (seq 0 n).
Definition column_line (n col : nat) : Cells := map (fun row => cell_at row col) (seq 0 n).
Definition diagonal_line (n : nat) : Cells := map (fun i => cell_at i i) (seq 0 n).
Definition antidiagonal_line (n : nat) : Cells :=
  map (fun i => cell_at i (n - i - 1)) (seq 0 n).

Definition line_cells (n : nat) : list Cells :=
  map (row_line n) (seq 0 n) ++ map (column_line n) (seq 0 n)
  ++ [diagonal_line n; antidiagonal_line n].

(** Every cell of the line holds the mark [p]. *)
Definition filled (p : Player) (b : Board) (line : Cells) : bool :=
  forallb (fun c => (mark_at b c =? p)%N) line.

(** The player that owns a line: the mark of its first cell when that
    mark is not zero and fills the line, zero otherwise. *)
Definition line_owner (b : Board) (line : Cells) : Player :=
  match line with
  | [] => 0%N
  | c :: _ =>
      if negb (mark_at b c =? 0)%N && filled (mark_at b c) b line
      then mark_at b c else 0%N
  end.

(** The owner of the first line, in the order of the list, that has
    one; zero when no line has an owner. *)
Definition first_owner (b : Board) (ls : list Cells) : Player :=
  match find (fun p => (0 <? p)%N) (map (line_owner b) ls) with
  | Some p => p
  | None => 0%N
  end.

(** The line passes through the cell. *)
Definition on_line (c : Cell) (line : Cells) : bool :=
  existsb (fun x => (Row x =? Row c)%N && (Column x =? Column c)%N) line.

(** [game.PlayerAt]: the results are [(player, err)]. *)
Definition PlayerAt (g : game) (cell_ : Cell) : go (Player * option error) :=
  match validateBounds g cell_ with
  | Some err => Val (0%N, Some err)
  | None =>
      p <- Board_at (board g) (Row cell_) (Column cell_) ;;
      Val (p, None)
  end.

(** Every cell of the board holds zero or a valid player. *)
Definition valid_marks (b : Board) : bool :=
  forallb Player_IsValidOrZero (concat b).

(** What the options keep of the game under configuration: it awaits a
    turn, its player is zero or valid, the marks of its board are zero
    or valid, and its bot, if any, plays for a valid player. *)
Definition config_inv (g : game) : Prop :=
  state g = StateAwaitingTurn
  /\ Player_IsValidOrZero (player g) = true
  /\ valid_marks (board g) = true
  /\ (forall b, bot g = Some b -> Player_IsValid (Bot_Player b) = true).

(** The player recorded in a game fits its state: a valid player is on
    move while turns remain, nobody after a draw, which leaves no turn,
    and the winner after a win; a bot plays for a valid player. *)
Definition state_inv (g : game) : Prop :=
  (state g = StateAwaitingTurn ->
   Player_IsValid (player g) = true /\ (0 < RemainingTurns g)%Z)
  /\ (state g = StateDraw -> player g = 0%N /\ RemainingTurns g = 0%Z)
  /\ (state g = StateWon -> Player_IsValid (player g) = true)
  /\ (forall b, bot g = Some b -> Player_IsValid (Bot_Player b) = true).


(** ** The command-line front end: cell zones and the cursor *)

(** [%d] of [fmt.Sprintf] for an [int] that is not negative: its
    decimal digits, without leading zeros. *)
Definition fmt_d (n : nat) : string :=
  DecimalString.NilZero.string_of_uint (N.to_uint (N.of_nat n)).

(** [strconv.ParseUint(s, 10, 8)]: the value of a string that is not
    empty, holds decimal digits only and denotes a number of at most
    255; [None] for the error it returns otherwise. *)
Definition ParseUint8 (s : string) : option N :=
  match DecimalString.NilZero.uint_of_string s with
  | Some d => if (N.of_uint d <=? 255)%N then Some (N.of_uint d) else None
  | None => None
  end.

(** [strings.CutPrefix]: the rest of [s] after [prefix], [None] when
    [s] does not begin with it. *)
Fixpoint CutPrefix (s prefix : string) {struct prefix} : option string :=
  match prefix with
  | EmptyString => Some s
  | String p prefix' =>
      match s with
      | EmptyString => None
      | String c s' => if Ascii.eqb c p then CutPrefix s' prefix' else None
      end
  end.

(** The parts of [s] before and after the first [sep]. *)
Fixpoint cut_at (sep : Ascii.ascii) (s : string) : option (string * string) :=
  match s with
  | EmptyString => None
  | String c s' =>
      if Ascii.eqb c sep then Some (EmptyString, s')
      else match cut_at sep s' with
           | Some (before, after) => Some (String c before, after)
           | None => None
           end
  end.

(** [strings.SplitN(s, " ", 2)] *)
Definition SplitN2 (s : string) : list string :=
  match cut_at Ascii.Space s with
  | Some (before, after) => [before; after]
  | None => [s]
  end.

(** The ID under which [model.markCellZone] registers the zone of the
    cell of row [row] and column [col]. *)
Definition cellZoneId (row col : nat) : string :=
  ("cell:" ++ fmt_d col ++ " " ++ fmt_d row)%string.

(** [model.parseCellZoneId]: the results are [(row, col, err)]. *)
Definition parseCellZoneId (id : string) : N * N * option error :=
  match CutPrefix id "cell:" with
  | None => (0%N, 0%N, Some (Errorf "unexpected cell zone ID: %q" [ArgS id]))
  | Some coords =>
      match SplitN2 coords with
      | [field0; field1] =>
          match ParseUint8 field0 with
          | None =>
              (0%N, 0%N, Some (Errorf "invalid column in cell zone ID: %q" [ArgS id]))
          | Some col =>
              match ParseUint8 field1 with
              | None =>
                  (0%N, 0%N, Some (Errorf "invalid row in cell zone ID: %q" [ArgS id]))
              | Some row => (row, col, None)
              end
          end
      | _ => (0%N, 0%N, Some (Errorf "malformed cell zone ID: %q" [ArgS id]))
      end
  end.

(** The arrow keys of [model.Update]. *)
Inductive arrow : Type := KeyUp | KeyDown | KeyLeft | KeyRight.

(** The fields of the model the arrow keys read and write. *)
Record cursor : Type := mkCursor {
  botTurn : bool;
  gameOver : bool;
  cursorX : N;
  cursorY : N;
  err : option error
}.

(** The cases of [model.Update] for the four arrow keys, in a game of
    size [size_]: the cursor moves by one cell and wraps around at the
    edges of the board, unless the bot is thinking or the game is
    over. *)
Definition Update_arrow (size_ : N) (key : arrow) (m : cursor) : cursor :=
  if botTurn m || gameOver m then m
  else
    match key with
    | KeyUp =>
        mkCursor (botTurn m) (gameOver m) (cursorX m)
                 (if (cursorY m =? 0)%N then sub8 size_ 1 else sub8 (cursorY m) 1)
                 None
    | KeyDown =>
        mkCursor (botTurn m) (gameOver m) (cursorX m)
                 (if (cursorY m =? sub8 size_ 1)%N then 0%N
                  else ((cursorY m + 1) mod 256)%N)
                 None
    | KeyLeft =>
        mkCursor (botTurn m) (gameOver m)
                 (if (cursorX m =? 0)%N then sub8 size_ 1 else sub8 (cursorX m) 1)
                 (cursorY m) None
    | KeyRight =>
        mkCursor (botTurn m) (gameOver m)
                 (if (cursorX m =? sub8 size_ 1)%N then 0%N
                  else ((cursorX m + 1) mod 256)%N)
                 (cursorY m) None
    end.


(** The turns are taken in alternation by valid players, the first of
    them by [p]. *)
Fixpoint alternates (p : Player) (ts : list Turn) : Prop :=
  match ts with
  | [] => True
  | t :: rest =>
      Turn_Player t = p /\ Player_IsValid p = true
      /\ alternates (Player_Next p) rest
  end.
(** * Properties *)

Unset Implicit Arguments.

(** ** The outcome monad and slices *)

Lemma bind_Val : forall (A B : Type) (c : go A) (k : A -> go B) (b : B),
  bind c k = Val b -> exists a, c = Val a /\ k a = Val b.
Proof.
  intros A B [a| |] k b H; simpl in H; try discriminate.
  exists a; split; [reflexivity | assumption].
Qed.

Lemma index_Val : forall (A : Type) (s : list A) (i : nat),
  i < length s -> exists a, index s i = Val a /\ nth_error s i = Some a.
Proof.
  intros A s i Hi. unfold index.
  destruct (nth_error s i) as [a|] eqn:E.
  - exists a; split; reflexivity.
  - apply nth_error_None in E. lia.
Qed.

Lemma index_inv : forall (A : Type) (s : list A) (i : nat) (a : A),
  index s i = Val a -> nth_error s i = Some a.
Proof.
  intros A s i a. unfold index.
  destruct (nth_error s i); intros H; inversion H; reflexivity.
Qed.

Lemma index_nth_error : forall (A : Type) (s : list A) (i : nat) (a : A),
  nth_error s i = Some a -> index s i = Val a.
Proof. intros A s i a H. unfold index. rewrite H. reflexivity. Qed.

Lemma assign_Val : forall (A : Type) (s : list A) (i : nat) (a : A),
  i < length s ->
  exists s', assign s i a = Val s' /\ length s' = length s /\
    forall j, nth_error s' j = if (j =? i)%nat then Some a else nth_error s j.
Proof.
  intros A s. induction s as [|x rest IH]; intros i a Hi; simpl in Hi.
  - lia.
  - destruct i as [|i'].
    + exists (a :: rest). repeat split.
      intros [|j]; reflexivity.
    + destruct (IH i' a) as (rest' & E & Hl & Hn); [lia|].
      exists (x :: rest'). simpl. rewrite E. simpl. repeat split.
      * now rewrite Hl.
      * intros [|j]; simpl; [reflexivity | apply Hn].
Qed.

Lemma assign_inv : forall (A : Type) (s : list A) (i : nat) (a : A) (s' : list A),
  assign s i a = Val s' -> i < length s.
Proof.
  intros A s. induction s as [|x rest IH]; intros i a s' H; simpl in H.
  - discriminate.
  - destruct i as [|i']; simpl; [lia|].
    apply bind_Val in H. destruct H as (r' & E & _).
    apply IH in E. lia.
Qed.

Lemma to_nat_eqb : forall a b : N,
  (N.to_nat a =? N.to_nat b)%nat = (a =? b)%N.
Proof.
  intros a b. destruct (N.eqb_spec a b) as [->|Hne].
  - apply Nat.eqb_refl.
  - apply Nat.eqb_neq. intros H. apply Hne. now apply N2Nat.inj.
Qed.

(** ** Shape of boards *)

Lemma square_spec : forall n b,
  square n b = true <-> length b = n /\ forall cols, In cols b -> length cols = n.
Proof.
  intros n b. unfold square. rewrite andb_true_iff, Nat.eqb_eq, forallb_forall.
  split; intros [H1 H2]; split; try assumption; intros cols Hin.
  - apply Nat.eqb_eq. now apply H2.
  - apply Nat.eqb_eq. now apply H2.
Qed.

Lemma square_row : forall n b r cols,
  square n b = true -> nth_error b r = Some cols -> length cols = n.
Proof.
  intros n b r cols Hs Hn. apply square_spec in Hs. destruct Hs as [_ Hs].
  apply Hs. eapply nth_error_In; eassumption.
Qed.

Lemma Board_at_square : forall n b row col,
  square n b = true -> N.to_nat row < n -> N.to_nat col < n ->
  exists p, Board_at b row col = Val p.
Proof.
  intros n b row col Hs Hr Hc. unfold Board_at.
  pose proof Hs as Hs'. apply square_spec in Hs'. destruct Hs' as [Hl _].
  destruct (@index_Val _ b (N.to_nat row)) as (cols & E & En); [lia|].
  rewrite E. simpl.
  pose proof (square_row _ _ _ _ Hs En) as Hlc.
  destruct (@index_Val _ cols (N.to_nat col)) as (p & E' & _); [lia|].
  exists p. assumption.
Qed.

(** Writing a cell of a square board: the write succeeds, the board
    keeps its shape, the cell holds the player and every other cell is
    as before. *)
Lemma Board_assign_square : forall n b row col p,
  square n b = true -> N.to_nat row < n -> N.to_nat col < n ->
  exists b', Board_assign b row col p = Val b' /\ square n b' = true /\
    forall row' col',
      Board_at b' row' col' =
      if (row' =? row)%N && (col' =? col)%N
      then Val p else Board_at b row' col'.
Proof.
  intros n b row col p Hs Hr Hc. unfold Board_assign.
  pose proof Hs as Hs'. apply square_spec in Hs'. destruct Hs' as [Hl Hrows].
  destruct (@index_Val _ b (N.to_nat row)) as (cols & E & En); [lia|].
  rewrite E. simpl.
  pose proof (square_row _ _ _ _ Hs En) as Hlc.
  destruct (@assign_Val _ cols (N.to_nat col) p) as (cols' & E1 & Hl1 & Hn1); [lia|].
  rewrite E1. simpl.
  destruct (@assign_Val _ b (N.to_nat row) cols') as (b' & E2 & Hl2 & Hn2); [lia|].
  exists b'. split; [assumption|]. split.
  - apply square_spec. split; [lia|].
    intros c Hin. apply In_nth_error in Hin. destruct Hin as [j Hj].
    rewrite Hn2 in Hj. destruct (j =? N.to_nat row)%nat.
    + inversion Hj; subst. lia.
    + apply Hrows. eapply nth_error_In; eassumption.
  - intros row' col'. rewrite <- !to_nat_eqb. unfold Board_at, index. rewrite Hn2.
    destruct (N.to_nat row' =? N.to_nat row)%nat eqn:Er; simpl.
    + rewrite Hn1. apply Nat.eqb_eq in Er. rewrite Er, En. simpl.
      destruct (N.to_nat col' =? N.to_nat col)%nat; reflexivity.
    + reflexivity.
Qed.

(** ** The combined winner scan *)

Lemma Player_IsValidOrZero_nonzero : forall p : Player,
  p <> 0%N -> Player_IsValidOrZero p = Player_IsValid p.
Proof.
  intros p Hp. unfold Player_IsValidOrZero.
  destruct (N.eqb_spec p 0); [contradiction | reflexivity].
Qed.

Lemma Conditions_FindWinner_from_zero : forall pre rest board i,
  (forall c, In c pre -> FindWinner c board = Val 0%N) ->
  Conditions_FindWinner_from i (pre ++ rest) board
  = Conditions_FindWinner_from (length pre + i) rest board.
Proof.
  induction pre as [|c pre IH]; intros rest board i Hz; simpl.
  - reflexivity.
  - rewrite (Hz c (or_introl eq_refl)). simpl.
    rewrite IH by (intros c' Hc'; apply Hz; now right).
    f_equal. lia.
Qed.

(** C7. The combined winner scan asks the conditions in the order of
    their registration. When every condition reports zero the result is
    the zero winner and no error. Otherwise the first report that is not
    zero decides and the conditions after it are not asked (whatever
    they would do): a valid player is returned as the winner with no
    error, any other value is returned to the caller as an
    invalid-condition error carrying the index of the condition. *)
Theorem Conditions_FindWinner_first_report :
  forall (pre post : Conditions) (board : Board),
    (forall c, In c pre -> FindWinner c board = Val 0%N) ->
    Conditions_FindWinner pre board = Val (0%N, None)
    /\ forall (c : Condition) (p : Player),
         FindWinner c board = Val p -> p <> 0%N ->
         (Player_IsValid p = true ->
          Conditions_FindWinner (pre ++ c :: post) board = Val (p, None))
         /\ (Player_IsValid p = false ->
             exists e,
               Conditions_FindWinner (pre ++ c :: post) board = Val (0%N, Some e)
               /\ e = fmtInvalidConditionErr (length pre)
                        (ArgSprintf "invalid player: %v" [p])
               /\ errors_Is e msgConditionInvalid = true).
Proof.
  intros pre post board Hz. split.
  - unfold Conditions_FindWinner.
    rewrite <- (app_nil_r pre) at 1.
    rewrite Conditions_FindWinner_from_zero by assumption. reflexivity.
  - intros c p Hc Hp. unfold Conditions_FindWinner.
    rewrite Conditions_FindWinner_from_zero by assumption.
    simpl. rewrite Hc. simpl.
    rewrite Player_IsValidOrZero_nonzero by assumption.
    rewrite Nat.add_0_r.
    split; intros Hv; rewrite Hv; simpl.
    + destruct (N.ltb_spec 0 p); [reflexivity | lia].
    + eexists. split; [reflexivity|]. split; reflexivity.
Qed.

(** ** Boards in memory *)

Lemma peek_poke : forall m a p a',
  peek (poke m a p) a' = if (a' =? a)%nat then p else peek m a'.
Proof.
  unfold peek. intros m a. revert m.
  induction a as [|a IH]; intros [|x m] p [|a']; simpl; try reflexivity.
  - now destruct a'.
  - rewrite IH. destruct (a' =? a)%nat; [reflexivity | now destruct a'].
  - apply IH.
Qed.

Lemma distinct_NoDup : forall l, distinct l = true <-> NoDup l.
Proof.
  induction l as [|a l IH]; simpl.
  - split; [constructor | reflexivity].
  - rewrite andb_true_iff, negb_true_iff, IH. split.
    + intros [Hn Hd]. constructor; [|assumption].
      intros Hin. assert (existsb (Nat.eqb a) l = true); [|congruence].
      apply existsb_exists. exists a. split; [assumption | apply Nat.eqb_refl].
    + intros H. inversion H; subst. split; [|assumption].
      destruct (existsb (Nat.eqb a) l) eqn:E; [|reflexivity].
      apply existsb_exists in E. destruct E as (x & Hin & Hx).
      apply Nat.eqb_eq in Hx. subst x. contradiction.
Qed.

Lemma nth_error_read_row : forall m s j,
  nth_error (read_row m s) j
  = if (j <? len s)%nat then Some (peek m (base s + j)) else None.
Proof.
  intros m s j. unfold read_row. rewrite nth_error_map.
  destruct (Nat.ltb_spec j (len s)) as [H|H].
  - rewrite (nth_error_nth' _ 0 ) by (rewrite length_seq; assumption).
    rewrite seq_nth by assumption. reflexivity.
  - replace (nth_error (seq (base s) (len s)) j) with (@None nat); [reflexivity|].
    symmetry. apply nth_error_None. rewrite length_seq. assumption.
Qed.

Lemma nth_error_contents : forall b i,
  nth_error (contents b) i
  = option_map (read_row (memory_of b)) (nth_error (rows_of b) i).
Proof. intros b i. unfold contents. apply nth_error_map. Qed.

Lemma length_read_row : forall m s, length (read_row m s) = len s.
Proof. intros m s. unfold read_row. now rewrite length_map, length_seq. Qed.

(** The shape of a stored board is that of its rows. *)
Lemma square_contents : forall n b,
  square n (contents b)
  = (length (rows_of b) =? n)%nat && forallb (fun s => (len s =? n)%nat) (rows_of b).
Proof.
  intros n b. unfold square, contents. rewrite length_map. f_equal.
  induction (rows_of b) as [|s rest IH]; simpl; [reflexivity|].
  now rewrite length_read_row, IH.
Qed.

Lemma contents_nil : forall b, contents b = [] <-> rows_of b = [].
Proof.
  intros b. unfold contents. destruct (rows_of b); simpl; split;
    intros H; try reflexivity; discriminate.
Qed.

(** Reading a cell of a stored board is reading the memory at its
    address. *)
Lemma Board_at_contents : forall b row col,
  Board_at (contents b) row col
  = (a <- address b row col ;; Val (peek (memory_of b) a)).
Proof.
  intros b row col. unfold Board_at, address, index.
  rewrite nth_error_contents.
  destruct (nth_error (rows_of b) (N.to_nat row)) as [s|]; simpl; [|reflexivity].
  rewrite nth_error_read_row.
  destruct (N.to_nat col <? len s)%nat; reflexivity.
Qed.

Lemma address_square : forall n b row col,
  square n (contents b) = true -> N.to_nat row < n -> N.to_nat col < n ->
  exists a, address b row col = Val a.
Proof.
  intros n b row col Hs Hr Hc.
  destruct (Board_at_square n (contents b) row col Hs Hr Hc) as (p & E).
  rewrite Board_at_contents in E.
  destruct (address b row col) as [a| |]; try discriminate. now exists a.
Qed.

Lemma Stored_assign_inv : forall b row col p b',
  Stored_assign b row col p = Val b' ->
  exists a, address b row col = Val a
            /\ b' = mkStored (rows_of b) (poke (memory_of b) a p).
Proof.
  intros b row col p b' H. unfold Stored_assign in H.
  apply bind_Val in H. destruct H as (a & Ha & E). inversion E. now exists a.
Qed.

Lemma address_same_rows : forall b b' row col,
  rows_of b' = rows_of b -> address b' row col = address b row col.
Proof. intros b b' row col E. unfold address. now rewrite E. Qed.

(** The write in place: the rows stay, the cell holds the player, and
    so does every cell at the same address, and no other. *)
Lemma Stored_assign_at : forall b row col p b',
  Stored_assign b row col p = Val b' ->
  rows_of b' = rows_of b
  /\ Board_at (contents b') row col = Val p
  /\ exists a,
       address b row col = Val a
       /\ forall row' col',
            Board_at (contents b') row' col'
            = (a' <- address b row' col' ;;
               if (a' =? a)%nat then Val p else Val (peek (memory_of b) a')).
Proof.
  intros b row col p b' H.
  destruct (Stored_assign_inv _ _ _ _ _ H) as (a & Ha & ->).
  assert (Hat : forall row' col',
             Board_at (contents (mkStored (rows_of b) (poke (memory_of b) a p)))
                      row' col'
             = (a' <- address b row' col' ;;
                if (a' =? a)%nat then Val p else Val (peek (memory_of b) a'))).
  { intros row' col'. rewrite Board_at_contents.
    assert (address (mkStored (rows_of b) (poke (memory_of b) a p)) row' col'
            = address b row' col') as -> by reflexivity.
    cbn [memory_of].
    destruct (address b row' col') as [a'| |]; simpl; try reflexivity.
    rewrite peek_poke. now destruct (a' =? a)%nat. }
  split; [reflexivity|]. split.
  - rewrite Hat, Ha. simpl. now rewrite Nat.eqb_refl.
  - exists a. split; assumption.
Qed.

Lemma Stored_assign_square : forall n b row col p b',
  Stored_assign b row col p = Val b' ->
  square n (contents b') = square n (contents b).
Proof.
  intros n b row col p b' H.
  destruct (Stored_assign_inv _ _ _ _ _ H) as (a & _ & ->).
  now rewrite !square_contents.
Qed.

Lemma Stored_assign_total : forall n b row col p,
  square n (contents b) = true -> N.to_nat row < n -> N.to_nat col < n ->
  exists b', Stored_assign b row col p = Val b'.
Proof.
  intros n b row col p Hs Hr Hc.
  destruct (address_square n b row col Hs Hr Hc) as (a & Ha).
  unfold Stored_assign. rewrite Ha. simpl. eexists. reflexivity.
Qed.

(** *** Rows that share no memory *)

Lemma address_In : forall b row col a,
  address b row col = Val a ->
  exists s, nth_error (rows_of b) (N.to_nat row) = Some s
            /\ N.to_nat col < len s /\ a = base s + N.to_nat col.
Proof.
  intros b row col a H. unfold address, index in H.
  destruct (nth_error (rows_of b) (N.to_nat row)) as [s|]; [|discriminate].
  simpl in H. destruct (Nat.ltb_spec (N.to_nat col) (len s)); [|discriminate].
  inversion H. now exists s.
Qed.

Lemma rows_NoDup_inj : forall (rows : list Slice) i j r c si sr,
  NoDup (flat_map (fun s => seq (base s) (len s)) rows) ->
  nth_error rows i = Some si -> j < len si ->
  nth_error rows r = Some sr -> c < len sr ->
  base si + j = base sr + c ->
  i = r /\ j = c.
Proof.
  induction rows as [|s rest IH]; intros i j r c si sr Hnd Hi Hj Hr Hc E.
  - destruct i; discriminate.
  - simpl in Hnd.
    assert (Hdisj : forall x, In x (seq (base s) (len s)) ->
                              ~ In x (flat_map (fun s => seq (base s) (len s)) rest)).
    { intros x Hx Hx'. revert Hnd Hx Hx'.
      generalize (flat_map (fun s0 => seq (base s0) (len s0)) rest) as l2.
      induction (seq (base s) (len s)) as [|y l1 IH1]; intros l2 Hnd Hx Hx'.
      - destruct Hx.
      - simpl in Hnd. inversion Hnd; subst. destruct Hx as [<- | Hx].
        + apply H1. apply in_or_app. now right.
        + now apply (IH1 l2). }
    assert (Hrest : NoDup (flat_map (fun s => seq (base s) (len s)) rest))
      by (eapply NoDup_app_remove_l; eassumption).
    assert (Hin : forall k sk x, nth_error rest k = Some sk -> x < len sk ->
                    In (base sk + x) (flat_map (fun s => seq (base s) (len s)) rest)).
    { intros k sk x Hk Hx. apply in_flat_map. exists sk. split.
      - eapply nth_error_In; eassumption.
      - apply in_seq. lia. }
    destruct i as [|i], r as [|r]; simpl in Hi, Hr.
    + inversion Hi; inversion Hr; subst. split; [reflexivity | lia].
    + inversion Hi; subst si. exfalso.
      apply (Hdisj (base s + j)); [apply in_seq; lia|].
      rewrite E. now apply (Hin r sr c).
    + inversion Hr; subst sr. exfalso.
      apply (Hdisj (base s + c)); [apply in_seq; lia|].
      rewrite <- E. now apply (Hin i si j).
    + destruct (IH i j r c si sr Hrest Hi Hj Hr Hc E) as [-> ->]. now split.
Qed.

(** In a board whose rows share no memory, two cells at one address are
    one cell. *)
Lemma address_unshared_inj : forall b row col row' col' a,
  unshared b = true ->
  address b row col = Val a -> address b row' col' = Val a ->
  row = row' /\ col = col'.
Proof.
  intros b row col row' col' a Hu H H'.
  apply distinct_NoDup in Hu. unfold addresses in Hu.
  destruct (address_In _ _ _ _ H) as (s & Hs & Hc & Ha).
  destruct (address_In _ _ _ _ H') as (s' & Hs' & Hc' & Ha').
  destruct (rows_NoDup_inj _ _ _ _ _ _ _ Hu Hs Hc Hs' Hc' ltac:(lia)) as [E1 E2].
  split; now apply N2Nat.inj.
Qed.

(** The write into a board whose rows share no memory changes the one
    cell. *)
Lemma Stored_assign_unshared : forall b row col p b',
  unshared b = true ->
  Stored_assign b row col p = Val b' ->
  Board_assign (contents b) row col p = Val (contents b').
Proof.
  intros b row col p b' Hu H.
  destruct (Stored_assign_at _ _ _ _ _ H) as (Hrows & _ & a & Ha & Hat).
  destruct (address_In _ _ _ _ Ha) as (s & Hs & Hc & Ea).
  unfold Board_assign, index. rewrite nth_error_contents, Hs. simpl.
  destruct (@assign_Val _ (read_row (memory_of b) s) (N.to_nat col) p)
    as (cols' & E1 & Hl1 & Hn1); [now rewrite length_read_row|].
  rewrite E1. simpl.
  destruct (@assign_Val _ (contents b) (N.to_nat row) cols')
    as (b1 & E2 & Hl2 & Hn2).
  { apply nth_error_Some. rewrite nth_error_contents, Hs. discriminate. }
  rewrite E2. simpl. apply (f_equal (@Val Board)). apply nth_error_ext. intros i.
  rewrite Hn2, !nth_error_contents, Hrows.
  destruct (Stored_assign_inv _ _ _ _ _ H) as (a0 & Ha0 & Eb').
  rewrite Ha in Ha0. inversion Ha0; subst a0. clear Ha0.
  rewrite Eb'. cbn [memory_of].
  destruct (Nat.eqb_spec i (N.to_nat row)) as [->|Hne].
  - rewrite Hs. simpl. f_equal. apply nth_error_ext. intros j.
    rewrite Hn1, !nth_error_read_row.
    destruct (Nat.eqb_spec j (N.to_nat col)) as [->|Hj].
    + destruct (Nat.ltb_spec (N.to_nat col) (len s)); [|lia].
      rewrite peek_poke. replace (base s + N.to_nat col =? a)%nat with true; [reflexivity|].
      symmetry. apply Nat.eqb_eq. lia.
    + destruct (Nat.ltb_spec j (len s)); [|reflexivity].
      rewrite peek_poke.
      destruct (Nat.eqb_spec (base s + j) a); [lia | reflexivity].
  - destruct (nth_error (rows_of b) i) as [s'|] eqn:Hs'; simpl; [|reflexivity].
    f_equal. apply nth_error_ext. intros j. rewrite !nth_error_read_row.
    destruct (Nat.ltb_spec j (len s')); [|reflexivity].
    rewrite peek_poke.
    destruct (Nat.eqb_spec (base s' + j) a) as [Eq|]; [|reflexivity].
    exfalso. apply Hne.
    apply distinct_NoDup in Hu. unfold addresses in Hu.
    now destruct (rows_NoDup_inj _ _ _ _ _ _ _ Hu Hs' H0 Hs Hc ltac:(lia)).
Qed.

(** *** Boards made with rows of their own *)

Lemma alloc_rows_contents : forall b a pre,
  length pre = a ->
  map (read_row (pre ++ concat b)) (alloc_rows a b) = b.
Proof.
  induction b as [|cols rest IH]; intros a pre Hp; simpl; [reflexivity|].
  f_equal.
  - unfold read_row. cbn [base len]. apply nth_ext with (d := 0%N) (d' := 0%N).
    + now rewrite length_map, length_seq.
    + intros k Hk. rewrite length_map, length_seq in Hk.
      rewrite (nth_indep _ 0%N (peek (pre ++ cols ++ concat rest) 0)) at 1
        by (now rewrite length_map, length_seq).
      rewrite map_nth, seq_nth by assumption. unfold peek.
      rewrite app_nth2 by lia. rewrite app_nth1 by lia. f_equal. lia.
  - specialize (IH (a + length cols) (pre ++ cols)).
    rewrite <- app_assoc in IH. apply IH. rewrite length_app. lia.
Qed.

Lemma contents_alloc : forall b, contents (alloc b) = b.
Proof.
  intros b. unfold contents, alloc. cbn [rows_of memory_of].
  apply (alloc_rows_contents b 0 []). reflexivity.
Qed.

Lemma alloc_rows_addresses : forall b a,
  flat_map (fun s => seq (base s) (len s)) (alloc_rows a b)
  = seq a (length (concat b)).
Proof.
  induction b as [|cols rest IH]; intros a; simpl; [reflexivity|].
  rewrite IH, length_app, seq_app. reflexivity.
Qed.

Lemma unshared_alloc : forall b, unshared (alloc b) = true.
Proof.
  intros b. apply distinct_NoDup. unfold addresses, alloc. cbn [rows_of].
  rewrite alloc_rows_addresses. apply seq_NoDup.
Qed.

(** ** Turn submission *)

Lemma wf_game_spec : forall g,
  wf_game g = true <->
  square (N.to_nat (size g)) (board g) = true
  /\ maxTurns g = (Z.of_N (size g) * Z.of_N (size g))%Z
  /\ (MinSize <= size g)%N /\ (size g <= MaxSize)%N.
Proof.
  intros g. unfold wf_game.
  rewrite !andb_true_iff, Z.eqb_eq, !N.leb_le. tauto.
Qed.

Lemma validateBounds_None : forall g c,
  validateBounds g c = None <-> (Row c < size g)%N /\ (Column c < size g)%N.
Proof.
  intros g c. unfold validateBounds.
  destruct (N.leb_spec (size g) (Row c)); [split; [discriminate | lia]|].
  destruct (N.leb_spec (size g) (Column c)); [split; [discriminate | lia]|].
  split; [intros _; lia | reflexivity].
Qed.

Lemma validateBounds_Some : forall g c e,
  validateBounds g c = Some e ->
  ((size g <= Row c)%N \/ (size g <= Column c)%N)
  /\ errors_Is e msgOutOfBounds = true.
Proof.
  intros g c e. unfold validateBounds.
  destruct (N.leb_spec (size g) (Row c)).
  - intros E; inversion E; subst. split; [now left | reflexivity].
  - destruct (N.leb_spec (size g) (Column c)).
    + intros E; inversion E; subst. split; [now right | reflexivity].
    + discriminate.
Qed.

(** C1. A turn that passes the checks of turn submission (the game
    awaits a turn, the cell is inside the board and empty, the player is
    valid and on move, and the turn is not a human one for the player of
    the bot) is applied and resolved: the player is written into the
    cell, in place, so that the cells of the board that lie at the
    address of this cell hold the player and every other cell is as
    before (in a board whose rows share no memory this is the one cell
    of the turn); the turn is appended to the history; and then, in
    this order: if the conditions report the turn as winning on the
    board so written the state is Won and the current player is the
    player of the turn; else if the history has reached size squared
    the state is Draw and the current player is zero; else the state
    stays AwaitingTurn and the current player is the other player. The
    returned state and player are those of the game. *)
Theorem play_applies_and_resolves :
  forall (g : game) (t : Turn) (allowBotTurn : bool),
    wf_game g = true ->
    state g = StateAwaitingTurn ->
    (Turn_Row t < size g)%N ->
    (Turn_Column t < size g)%N ->
    Player_IsValid (Turn_Player t) = true ->
    Turn_Player t = player g ->
    Board_at (board g) (Turn_Row t) (Turn_Column t) = Val 0%N ->
    (forall b, bot g = Some b -> Bot_Player b = Turn_Player t -> allowBotTurn = true) ->
    exists (held' : Stored) (a : nat),
      Stored_assign (held g) (Turn_Row t) (Turn_Column t) (Turn_Player t) = Val held'
      /\ rows_of held' = rows_of (held g)
      /\ address (held g) (Turn_Row t) (Turn_Column t) = Val a
      /\ Board_at (contents held') (Turn_Row t) (Turn_Column t) = Val (Turn_Player t)
      /\ (forall row col,
            Board_at (contents held') row col =
            (a' <- address (held g) row col ;;
             if (a' =? a)%nat then Val (Turn_Player t)
             else Board_at (board g) row col))
      /\ (unshared (held g) = true ->
          Board_assign (board g) (Turn_Row t) (Turn_Column t) (Turn_Player t)
          = Val (contents held')
          /\ forall row col,
               Board_at (contents held') row col =
               if (row =? Turn_Row t)%N && (col =? Turn_Column t)%N
               then Val (Turn_Player t) else Board_at (board g) row col)
      /\ forall won,
           Conditions_IsWinningTurn (conditions g) (contents held') t = Val won ->
           exists g',
             play g t allowBotTurn = Val (g', (state g', player g', None))
             /\ held g' = held'
             /\ turns g' = turns g ++ [t]
             /\ bot g' = bot g /\ conditions g' = conditions g
             /\ size g' = size g /\ maxTurns g' = maxTurns g
             /\ (won = true ->
                 state g' = StateWon /\ player g' = Turn_Player t)
             /\ (won = false ->
                 (Z.of_N (size g) * Z.of_N (size g)
                  <= Z.of_nat (length (turns g ++ [t])))%Z ->
                 state g' = StateDraw /\ player g' = 0%N)
             /\ (won = false ->
                 (Z.of_nat (length (turns g ++ [t]))
                  < Z.of_N (size g) * Z.of_N (size g))%Z ->
                 state g' = StateAwaitingTurn
                 /\ player g' = Player_Next (Turn_Player t)).
Proof.
  intros g t allowBotTurn Hwf Hst Hrow Hcol Hvalid Hmove Hempty Hbot.
  apply wf_game_spec in Hwf. destruct Hwf as (Hsq & Hmax & _ & _).
  destruct (Stored_assign_total (N.to_nat (size g)) (held g)
              (Turn_Row t) (Turn_Column t) (Turn_Player t) Hsq)
    as (held' & Eas); [lia | lia |].
  destruct (Stored_assign_at _ _ _ _ _ Eas) as (Hrows & Hcell & a & Ha & Hat).
  exists held', a. split; [assumption|]. split; [assumption|].
  split; [assumption|]. split; [assumption|]. split.
  { intros row col. rewrite Hat, Board_at_contents.
    destruct (address (held g) row col) as [a'| |]; simpl; reflexivity. }
  split.
  { intros Hu. pose proof (Stored_assign_unshared _ _ _ _ _ Hu Eas) as HB.
    split; [assumption|].
    destruct (Board_assign_square (N.to_nat (size g)) (board g)
                (Turn_Row t) (Turn_Column t) (Turn_Player t) Hsq)
      as (board' & Eb & _ & Hb); [lia | lia |].
    rewrite HB in Eb. inversion Eb; subst board'. exact Hb. }
  intros won Hwon.
  assert (Hb : validateBounds g (Turn_Cell t) = None)
    by (apply validateBounds_None; split; assumption).
  assert (Hv : validateTurn g t allowBotTurn = Val None).
  { unfold validateTurn. rewrite Hst. simpl. rewrite Hvalid. simpl.
    assert (Hb' : match bot g with
                  | Some b => (Bot_Player b =? Turn_Player t)%N && negb allowBotTurn
                  | None => false
                  end = false).
    { destruct (bot g) as [b|] eqn:Eb; [|reflexivity].
      destruct (N.eqb_spec (Bot_Player b) (Turn_Player t)) as [Heq|]; [|reflexivity].
      rewrite (Hbot b eq_refl Heq). reflexivity. }
    rewrite Hb'. rewrite Hmove, N.eqb_refl. simpl.
    rewrite Hempty. reflexivity. }
  unfold play. rewrite Hb, Hv. simpl. rewrite Eas. simpl.
  rewrite Hwon. simpl.
  destruct won.
  - eexists. split; [reflexivity|]. simpl.
    repeat split; try discriminate. symmetry; assumption.
  - rewrite Hmax.
    destruct (Z.leb_spec (Z.of_N (size g) * Z.of_N (size g))
                (Z.of_nat (length (turns g ++ [t])))).
    + eexists. split; [reflexivity|]. simpl.
      repeat split; try discriminate; lia.
    + eexists. split; [reflexivity|]. simpl.
      repeat split; try discriminate; try assumption; lia.
Qed.

Lemma validateTurn_Some : forall g t allowBotTurn e,
  validateTurn g t allowBotTurn = Val (Some e) ->
  (errors_Is e msgGameOver = true /\ state g <> StateAwaitingTurn)
  \/ (errors_Is e msgPlayerNotFound = true
      /\ state g = StateAwaitingTurn
      /\ Player_IsValid (Turn_Player t) = false)
  \/ (errors_Is e msgTurnInvalid = true
      /\ state g = StateAwaitingTurn
      /\ Player_IsValid (Turn_Player t) = true
      /\ ((exists b, bot g = Some b /\ Bot_Player b = Turn_Player t
                     /\ allowBotTurn = false)
          \/ Turn_Player t <> player g
          \/ exists existing,
               Board_at (board g) (Turn_Row t) (Turn_Column t) = Val existing
               /\ (0 < existing)%N)).
Proof.
  intros g t allowBotTurn e. unfold validateTurn.
  destruct (state g) eqn:Est; simpl;
    try (intros E; inversion E; subst; left; split;
         [reflexivity | discriminate]).
  destruct (Player_IsValid (Turn_Player t)) eqn:Ev; simpl.
  2:{ intros E; inversion E; subst. right; left. repeat split. }
  destruct (match bot g with
            | Some b => (Bot_Player b =? Turn_Player t)%N && negb allowBotTurn
            | None => false
            end) eqn:Eb.
  { intros E; inversion E; subst. right; right.
    repeat split. left.
    destruct (bot g) as [b|]; [|discriminate].
    apply andb_true_iff in Eb. destruct Eb as [Eb1 Eb2].
    exists b. repeat split.
    - now apply N.eqb_eq.
    - now destruct allowBotTurn. }
  destruct (N.eqb_spec (Turn_Player t) (player g)) as [Hp|Hp]; simpl.
  2:{ intros E; inversion E; subst. right; right.
      repeat split. right; left. assumption. }
  destruct (Board_at (board g) (Turn_Row t) (Turn_Column t)) as [existing| |] eqn:Eat;
    simpl; try discriminate.
  destruct (N.ltb_spec 0 existing).
  - intros E; inversion E; subst. right; right.
    repeat split. right; right. exists existing. split; [reflexivity | assumption].
  - discriminate.
Qed.

Lemma play_error_inv : forall g t allowBotTurn g' s p e,
  play g t allowBotTurn = Val (g', (s, p, Some e)) ->
  g' = g /\ s = state g /\ p = player g
  /\ (validateBounds g (Turn_Cell t) = Some e
      \/ (validateBounds g (Turn_Cell t) = None
          /\ validateTurn g t allowBotTurn = Val (Some e))).
Proof.
  intros g t allowBotTurn g' s p e. unfold play.
  destruct (validateBounds g (Turn_Cell t)) as [eb|] eqn:Eb.
  - intros E; inversion E; subst. repeat split. now left.
  - destruct (validateTurn g t allowBotTurn) as [[ev|]| |] eqn:Ev; simpl;
      try discriminate.
    + intros E; inversion E; subst. repeat split. right. now split.
    + destruct (Stored_assign (held g) (Turn_Row t) (Turn_Column t) (Turn_Player t));
        simpl; try discriminate.
      match goal with
      | |- context [Conditions_IsWinningTurn ?cs ?b ?t] =>
          destruct (Conditions_IsWinningTurn cs b t); simpl; discriminate
      end.
Qed.

(** C2. Whenever turn submission returns an error, the board, the turn
    history, the state and the current player of the game are as they
    were, and the error has the category of a cause that holds of the
    turn: out-of-bounds for a row or column at least the size; game-over
    for a game that does not await a turn; player-not-found for an
    invalid player; invalid-turn for a player not on move, an occupied
    cell, or a human turn for the player of the bot. Conversely each of
    these causes makes the submission return an error of its category,
    the checks being made in this order. *)
Theorem Play_error_leaves_game_unchanged :
  forall (g : game) (t : Turn),
    wf_game g = true ->
    (forall g' s p e,
        Play g t = Val (g', (s, p, Some e)) ->
        g' = g /\ s = state g /\ p = player g
        /\ ((errors_Is e msgOutOfBounds = true
             /\ ((size g <= Turn_Row t)%N \/ (size g <= Turn_Column t)%N))
            \/ (errors_Is e msgGameOver = true /\ state g <> StateAwaitingTurn)
            \/ (errors_Is e msgPlayerNotFound = true
                /\ Player_IsValid (Turn_Player t) = false)
            \/ (errors_Is e msgTurnInvalid = true
                /\ (Turn_Player t <> player g
                    \/ (exists existing,
                          Board_at (board g) (Turn_Row t) (Turn_Column t) = Val existing
                          /\ (0 < existing)%N)
                    \/ exists b, bot g = Some b /\ Bot_Player b = Turn_Player t))))
    /\ ((size g <= Turn_Row t)%N \/ (size g <= Turn_Column t)%N ->
        exists e, Play g t = Val (g, (state g, player g, Some e))
                  /\ errors_Is e msgOutOfBounds = true)
    /\ ((Turn_Row t < size g)%N -> (Turn_Column t < size g)%N ->
        state g <> StateAwaitingTurn ->
        exists e, Play g t = Val (g, (state g, player g, Some e))
                  /\ errors_Is e msgGameOver = true)
    /\ ((Turn_Row t < size g)%N -> (Turn_Column t < size g)%N ->
        state g = StateAwaitingTurn ->
        Player_IsValid (Turn_Player t) = false ->
        exists e, Play g t = Val (g, (state g, player g, Some e))
                  /\ errors_Is e msgPlayerNotFound = true)
    /\ ((Turn_Row t < size g)%N -> (Turn_Column t < size g)%N ->
        state g = StateAwaitingTurn ->
        Player_IsValid (Turn_Player t) = true ->
        (Turn_Player t <> player g
         \/ (exists existing,
               Board_at (board g) (Turn_Row t) (Turn_Column t) = Val existing
               /\ (0 < existing)%N)
         \/ exists b, bot g = Some b /\ Bot_Player b = Turn_Player t) ->
        exists e, Play g t = Val (g, (state g, player g, Some e))
                  /\ errors_Is e msgTurnInvalid = true).
Proof.
  intros g t Hwf.
  apply wf_game_spec in Hwf. destruct Hwf as (Hsq & _ & _ & _).
  split; [|split; [|split; [|split]]].
  - intros g' s p e HP. unfold Play in HP.
    apply play_error_inv in HP. destruct HP as (-> & -> & -> & Hc).
    repeat split.
    destruct Hc as [Hb | [_ Hv]].
    + apply validateBounds_Some in Hb. left. tauto.
    + apply validateTurn_Some in Hv.
      destruct Hv as [[He Hs] | [(He & _ & Hp) | (He & _ & _ & Hc)]].
      * right; left. tauto.
      * right; right; left. tauto.
      * right; right; right. split; [assumption|].
        destruct Hc as [(b & Hb & Hbp & _) | [Hp | Hx]].
        -- right; right. exists b. tauto.
        -- now left.
        -- right; now left.
  - intros Hout. unfold Play, play.
    destruct (validateBounds g (Turn_Cell t)) as [e|] eqn:Eb.
    + exists e. split; [reflexivity|]. now apply validateBounds_Some in Eb.
    + apply validateBounds_None in Eb. unfold Turn_Row, Turn_Column in Hout. lia.
  - intros Hr Hc Hst. unfold Play, play.
    rewrite (proj2 (validateBounds_None g (Turn_Cell t)) (conj Hr Hc)).
    unfold validateTurn.
    destruct (state g); [contradiction | |]; simpl;
      (eexists; split; reflexivity).
  - intros Hr Hc Hst Hv. unfold Play, play.
    rewrite (proj2 (validateBounds_None g (Turn_Cell t)) (conj Hr Hc)).
    unfold validateTurn. rewrite Hst, Hv. simpl.
    eexists; split; reflexivity.
  - intros Hr Hc Hst Hv Hcause. unfold Play, play.
    rewrite (proj2 (validateBounds_None g (Turn_Cell t)) (conj Hr Hc)).
    unfold validateTurn. rewrite Hst, Hv. simpl.
    match goal with
    | |- context [if ?c then Val (Some ?e1) else _] => destruct c eqn:Eb
    end.
    { simpl. eexists; split; reflexivity. }
    destruct (N.eqb_spec (Turn_Player t) (player g)) as [Hp|Hp]; simpl.
    2:{ eexists; split; reflexivity. }
    destruct Hcause as [Hne | [(existing & Hat & Hpos) | (b & Hb & Hbp)]].
    + contradiction.
    + rewrite Hat. simpl.
      destruct (N.ltb_spec 0 existing); [|lia].
      eexists; split; reflexivity.
    + rewrite Hb in Eb. rewrite Hbp, N.eqb_refl in Eb. discriminate.
Qed.

(** ** The size limit of the impossible bot *)

Lemma square_newBoard : forall n, square (N.to_nat n) (newBoard n) = true.
Proof.
  intros n. apply square_spec. unfold newBoard. split.
  - apply repeat_length.
  - intros cols Hin. apply repeat_spec in Hin. subst. apply repeat_length.
Qed.

(** C3, counterexample. [Start] with size 4 and the impossible bot
    returns a game and no error. *)
Lemma Start_size4_impossible_bot_accepted :
  (exists g,
      Start [WithSize 4; WithImpossibleBot PlayerTwo] = Val (Some g, None)
      /\ size g = 4%N
      /\ option_map Bot_Player (bot g) = Some PlayerTwo)
  /\ ~ (exists e, Start [WithSize 4; WithImpossibleBot PlayerTwo] = Val (None, Some e)).
Proof.
  split.
  - eexists. split; [reflexivity|]. split; reflexivity.
  - intros [e He]. discriminate He.
Qed.

(** C3, amended. The library does not tie the impossible bot to a board
    size: for every size above 3 and up to 255 and every valid player,
    [Start] with that size and the impossible bot returns a well-formed
    game of that size, awaiting a turn, with the bot bound. The limit
    [MaxSizeImpossible] = 3 is applied by the command-line front end,
    which ends in an invalid [-size] flag for [-bot impossible] and such
    a size, before any game is constructed; the reason it reports is
    formatted from the name of the bot, the text
    [flagInvalidReasonBotMaxSizeExceeded] and the limit. *)
Theorem impossible_bot_size_limit_is_in_front_end :
  forall (n : N) (p : Player),
    (3 < n)%N -> (n <= 255)%N -> Player_IsValid p = true ->
    (exists g,
        Start [WithSize n; WithImpossibleBot p] = Val (Some g, None)
        /\ size g = n
        /\ state g = StateAwaitingTurn
        /\ bot g = Some (NewImpossibleBot p)
        /\ wf_game g = true)
    /\ (forall playerFlag,
           (1 <= playerFlag)%N -> (playerFlag <= 2)%N ->
           main_pack NameImpossible playerFlag n
           = inl (flagNameSize,
                  ReasonSprintf "%q %s (%v)"
                                [ArgS NameImpossible;
                                 ArgS flagInvalidReasonBotMaxSizeExceeded;
                                 ArgN MaxSizeImpossible])).
Proof.
  intros n p Hlo Hhi Hp. split.
  - unfold Start. simpl. unfold WithSize. simpl.
    destruct (N.ltb_spec n MinSize) as [H1|H1]; [unfold MinSize in H1; lia|].
    destruct (N.ltb_spec MaxSize n) as [H2|H2]; [unfold MaxSize in H2; lia|].
    unfold WithImpossibleBot, withBot. simpl. rewrite Hp. simpl.
    eexists. split; [reflexivity|]. simpl. repeat split.
    apply wf_game_spec. simpl. repeat split; try assumption.
    rewrite contents_alloc. apply square_newBoard.
  - intros playerFlag Hp1 Hp2. unfold main_pack.
    destruct (N.eqb_spec playerFlag 0); [lia|].
    destruct (N.ltb_spec 2 playerFlag); [lia|]. simpl.
    destruct (N.ltb_spec n MinSize) as [H1|H1]; [unfold MinSize in H1; lia|].
    destruct (N.ltb_spec MaxSize n) as [H2|H2]; [unfold MaxSize in H2; lia|].
    simpl. unfold MaxSizeImpossible.
    destruct (N.ltb_spec 3 n); [reflexivity | lia].
Qed.

(** An instance of the amended C3: size 7 and player two. *)
Lemma impossible_bot_size_limit_witness :
  (exists g,
      Start [WithSize 7; WithImpossibleBot PlayerTwo] = Val (Some g, None)
      /\ size g = 7%N
      /\ state g = StateAwaitingTurn
      /\ bot g = Some (NewImpossibleBot PlayerTwo)
      /\ wf_game g = true)
  /\ (forall playerFlag,
         (1 <= playerFlag)%N -> (playerFlag <= 2)%N ->
         main_pack NameImpossible playerFlag 7
         = inl (flagNameSize,
                ReasonSprintf "%q %s (%v)"
                              [ArgS NameImpossible;
                               ArgS flagInvalidReasonBotMaxSizeExceeded;
                               ArgN MaxSizeImpossible])).
Proof.
  apply (impossible_bot_size_limit_is_in_front_end 7 PlayerTwo).
  - reflexivity.
  - discriminate.
  - reflexivity.
Defined.

(** An instance of C7: the row scan reports zero, the column scan
    reports player one, and the condition after them, which would
    panic, is not asked. *)
Lemma Conditions_FindWinner_first_report_witness :
  Conditions_FindWinner [horizontalCondition] [[1; 2; 0]; [1; 2; 0]; [1; 0; 0]]%N
  = Val (0%N, None)
  /\ Conditions_FindWinner
       ([horizontalCondition]
          ++ verticalCondition :: [mkCondition (fun _ => Panic) (fun _ _ => Panic)])
       [[1; 2; 0]; [1; 2; 0]; [1; 0; 0]]%N
     = Val (PlayerOne, None).
Proof.
  destruct (Conditions_FindWinner_first_report
              [horizontalCondition]
              [mkCondition (fun _ => Panic) (fun _ _ => Panic)]
              [[1; 2; 0]; [1; 2; 0]; [1; 0; 0]]%N) as [Hzero Hfirst].
  - intros c [<-|[]]. reflexivity.
  - split; [exact Hzero|].
    destruct (Hfirst verticalCondition PlayerOne) as [Hvalid _].
    + reflexivity.
    + discriminate.
    + apply Hvalid. reflexivity.
Defined.

(** Two instances of C1: the first turn of a fresh game of size 3,
    and the first turn of a game whose board has one row in memory for
    its three rows, where the turn shows in the three rows and wins by
    the first column. *)
Lemma play_applies_and_resolves_witness :
  wf_game (mkgame (alloc (newBoard 3)) None standardConditions 9 PlayerOne 3
                  StateAwaitingTurn []) = true
  /\ (exists g',
         play (mkgame (alloc (newBoard 3)) None standardConditions 9 PlayerOne 3
                      StateAwaitingTurn [])
              (mkTurn (mkCell 1 1) PlayerOne) false
         = Val (g', (state g', player g', None))
         /\ turns g' = [mkTurn (mkCell 1 1) PlayerOne]
         /\ state g' = StateAwaitingTurn
         /\ player g' = PlayerTwo)
  /\ (exists g',
         play (mkgame (mkStored [mkSlice 0 3; mkSlice 0 3; mkSlice 0 3] [0; 0; 0]%N)
                      None standardConditions 9 PlayerOne 3 StateAwaitingTurn [])
              (mkTurn (mkCell 0 0) PlayerOne) false
         = Val (g', (state g', player g', None))
         /\ board g' = [[1; 0; 0]; [1; 0; 0]; [1; 0; 0]]%N
         /\ turns g' = [mkTurn (mkCell 0 0) PlayerOne]
         /\ state g' = StateWon
         /\ player g' = PlayerOne).
Proof.
  split; [reflexivity|]. split.
  - destruct (play_applies_and_resolves
                (mkgame (alloc (newBoard 3)) None standardConditions 9 PlayerOne 3
                        StateAwaitingTurn [])
                (mkTurn (mkCell 1 1) PlayerOne) false)
      as (held' & a & Eas & _ & _ & _ & _ & _ & Hres);
      try reflexivity.
    + intros b Hb. discriminate Hb.
    + injection Eas as <-.
      destruct (Hres false) as (g' & Hplay & _ & Hturns & _ & _ & _ & _ & _ & _ & Hnext).
      * reflexivity.
      * exists g'. split; [exact Hplay|]. split; [exact Hturns|].
        apply Hnext; [reflexivity|]. simpl. lia.
  - destruct (play_applies_and_resolves
                (mkgame (mkStored [mkSlice 0 3; mkSlice 0 3; mkSlice 0 3] [0; 0; 0]%N)
                        None standardConditions 9 PlayerOne 3 StateAwaitingTurn [])
                (mkTurn (mkCell 0 0) PlayerOne) false)
      as (held' & a & Eas & _ & _ & _ & _ & _ & Hres);
      try reflexivity.
    + intros b Hb. discriminate Hb.
    + injection Eas as <-.
      destruct (Hres true) as (g' & Hplay & Hheld & Hturns & _ & _ & _ & _ & Hwon & _).
      * reflexivity.
      * exists g'. split; [exact Hplay|]. rewrite Hheld.
        split; [reflexivity|]. split; [exact Hturns|]. now apply Hwon.
Defined.

(** An instance of C2: a turn outside a fresh board of size 3. *)
Lemma Play_error_leaves_game_unchanged_witness :
  wf_game (mkgame (alloc (newBoard 3)) None standardConditions 9 PlayerOne 3
                  StateAwaitingTurn []) = true
  /\ exists e,
       Play (mkgame (alloc (newBoard 3)) None standardConditions 9 PlayerOne 3
                    StateAwaitingTurn [])
            (mkTurn (mkCell 0 3) PlayerOne)
       = Val (mkgame (alloc (newBoard 3)) None standardConditions 9 PlayerOne 3
                     StateAwaitingTurn [],
              (StateAwaitingTurn, PlayerOne, Some e))
       /\ errors_Is e msgOutOfBounds = true.
Proof.
  split; [reflexivity|].
  destruct (Play_error_leaves_game_unchanged
              (mkgame (alloc (newBoard 3)) None standardConditions 9 PlayerOne 3
                      StateAwaitingTurn [])
              (mkTurn (mkCell 0 3) PlayerOne) eq_refl)
    as (_ & Hout & _).
  apply Hout. left. apply N.le_refl.
Defined.

(** ** Validation of a preset board *)

Lemma flat_map_ext_in : forall (A B : Type) (f g : A -> list B) (l : list A),
  (forall a, In a l -> f a = g a) -> flat_map f l = flat_map g l.
Proof.
  intros A B f g l. induction l as [|a l IH]; intros H; simpl.
  - reflexivity.
  - rewrite (H a (or_introl eq_refl)). f_equal. apply IH.
    intros a' Ha'. apply H. now right.
Qed.

Lemma flat_map_map : forall (A B C : Type) (f : B -> list C) (g : A -> B) (l : list A),
  flat_map f (map g l) = flat_map (fun a => f (g a)) l.
Proof.
  intros A B C f g l. induction l as [|a l IH]; simpl; [reflexivity|].
  now rewrite IH.
Qed.

Lemma flat_map_nested : forall (A B C : Type) (f : B -> list C) (g : A -> list B)
  (l : list A),
  flat_map f (flat_map g l) = flat_map (fun a => flat_map f (g a)) l.
Proof.
  intros A B C f g l. induction l as [|a l IH]; simpl; [reflexivity|].
  now rewrite flat_map_app, IH.
Qed.

Lemma flat_map_seq_shift : forall (B : Type) (f : nat -> list B) (n : nat),
  flat_map f (seq 1 n) = flat_map (fun k => f (S k)) (seq 0 n).
Proof.
  intros B f n. rewrite <- seq_shift. apply flat_map_map.
Qed.

Lemma row_turns_cons : forall row col p rest,
  row_turns row col (p :: rest) = mark_turn row col p ++ row_turns row (S col) rest.
Proof.
  intros row col p rest. unfold row_turns. simpl length. rewrite <- cons_seq.
  simpl flat_map. rewrite Nat.add_0_r. f_equal.
  rewrite flat_map_seq_shift. apply flat_map_ext_in.
  intros k _. simpl. f_equal. lia.
Qed.

Lemma rows_turns_cons : forall row cols rest,
  rows_turns row (cols :: rest) = row_turns row 0 cols ++ rows_turns (S row) rest.
Proof.
  intros row cols rest. unfold rows_turns. simpl length. rewrite <- cons_seq.
  simpl flat_map. rewrite Nat.add_0_r. f_equal.
  rewrite flat_map_seq_shift. apply flat_map_ext_in.
  intros k _. simpl. f_equal. lia.
Qed.

Lemma uint8_small : forall i, i < 256 -> uint8 i = N.of_nat i.
Proof. intros i Hi. unfold uint8. apply N.mod_small. lia. Qed.

Lemma Player_IsValid_cases : forall p,
  Player_IsValid p = true <-> p = PlayerOne \/ p = PlayerTwo.
Proof.
  intros p. unfold Player_IsValid. rewrite orb_true_iff, !N.eqb_eq. tauto.
Qed.

Lemma Player_IsValidOrZero_cases : forall p,
  Player_IsValidOrZero p = true <-> p = 0%N \/ p = PlayerOne \/ p = PlayerTwo.
Proof.
  intros p. unfold Player_IsValidOrZero.
  rewrite orb_true_iff, N.eqb_eq, Player_IsValid_cases. tauto.
Qed.

(** The inner loop on a row whose cells are all zero or valid: the
    turns of the row are appended and every counter is advanced by the
    number of its marks in the row, modulo 2^16. *)
Lemma check_cols_ok : forall cols row col turns turnCounter,
  forallb Player_IsValidOrZero cols = true ->
  row < 256 -> col + length cols <= 256 ->
  exists turnCounter',
    check_cols row col cols turns turnCounter
    = (turns ++ row_turns row col cols, turnCounter', None)
    /\ forall q, q <> 0%N -> (turnCounter q < 65536)%N ->
         (turnCounter' q
          = (turnCounter q + N.of_nat (count_occ N.eq_dec cols q)) mod 65536)%N.
Proof.
  induction cols as [|p rest IH]; intros row col turns tc Hv Hrow Hcol.
  - exists tc. simpl. rewrite app_nil_r. split; [reflexivity|].
    intros q _ Hlt. rewrite N.add_0_r. symmetry. now apply N.mod_small.
  - simpl in Hv. apply andb_true_iff in Hv. destruct Hv as [Hp Hrest].
    simpl in Hcol. rewrite row_turns_cons. simpl check_cols.
    destruct (N.eqb_spec p 0) as [->|Hp0].
    + destruct (IH row (S col) turns tc Hrest Hrow) as (tc' & E & Hc); [lia|].
      exists tc'. rewrite E. split; [reflexivity|].
      intros q Hq Hlt. rewrite Hc by assumption.
      rewrite count_occ_cons_neq by congruence. reflexivity.
    + assert (Hpv : Player_IsValid p = true).
      { unfold Player_IsValidOrZero in Hp.
        destruct (N.eqb_spec p 0); [contradiction | exact Hp]. }
      rewrite Hpv.
      destruct (IH row (S col)
                  (turns ++ [mkTurn (mkCell (uint8 col) (uint8 row)) p])
                  (counter_set tc p (inc16 (tc p))) Hrest Hrow)
        as (tc' & E & Hc); [lia|].
      exists tc'. rewrite E. split.
      * rewrite <- app_assoc. unfold mark_turn.
        destruct (N.eqb_spec p 0); [contradiction|].
        rewrite !uint8_small by lia. reflexivity.
      * intros q Hq Hlt. unfold counter_set, inc16 in Hc.
        destruct (N.eq_dec p q) as [->|Hne].
        -- rewrite Hc; [|assumption|].
           ++ rewrite N.eqb_refl, count_occ_cons_eq by reflexivity.
              rewrite N.Div0.add_mod_idemp_l.
              rewrite Nat2N.inj_succ, <- N.add_1_l, N.add_assoc. reflexivity.
           ++ rewrite N.eqb_refl. apply N.mod_lt. discriminate.
        -- rewrite count_occ_cons_neq by assumption.
           specialize (Hc q Hq).
           destruct (N.eqb_spec q p); [congruence | now apply Hc].
Qed.

Lemma check_cols_err : forall cols row col turns turnCounter,
  forallb Player_IsValidOrZero cols = false ->
  exists turns' turnCounter' e,
    check_cols row col cols turns turnCounter = (turns', turnCounter', Some e).
Proof.
  induction cols as [|p rest IH]; intros row col turns tc Hv; simpl in Hv.
  - discriminate.
  - simpl. destruct (N.eqb_spec p 0) as [->|Hp0].
    + simpl in Hv. apply IH. assumption.
    + unfold Player_IsValidOrZero in Hv.
      destruct (N.eqb_spec p 0); [contradiction|]. simpl in Hv.
      destruct (Player_IsValid p); simpl in Hv.
      * apply IH. assumption.
      * do 3 eexists. reflexivity.
Qed.

Lemma count_occ_concat_cons : forall (cols : list Player) rest q,
  count_occ N.eq_dec (concat (cols :: rest)) q
  = count_occ N.eq_dec cols q + count_occ N.eq_dec (concat rest) q.
Proof. intros. simpl. apply count_occ_app. Qed.

Lemma check_rows_ok : forall rows n row turns turnCounter,
  rows_ok n rows = true ->
  n <= 255 -> row + length rows <= 256 ->
  exists turnCounter',
    check_rows (N.of_nat n) row rows turns turnCounter
    = (turns ++ rows_turns row rows, turnCounter', None)
    /\ forall q, q <> 0%N -> (turnCounter q < 65536)%N ->
         (turnCounter' q
          = (turnCounter q + N.of_nat (count_occ N.eq_dec (concat rows) q)) mod 65536)%N.
Proof.
  induction rows as [|cols rest IH]; intros n row turns tc Hok Hn Hrow.
  - exists tc. simpl. rewrite app_nil_r. split; [reflexivity|].
    intros q _ Hlt. rewrite N.add_0_r. symmetry. now apply N.mod_small.
  - simpl in Hok. apply andb_true_iff in Hok. destruct Hok as [Hc Hrest].
    apply andb_true_iff in Hc. destruct Hc as [Hlen Hvalid].
    simpl in Hrow. simpl check_rows.
    rewrite Nat2N.id, Hlen. simpl negb. cbv iota.
    apply Nat.eqb_eq in Hlen.
    destruct (check_cols_ok cols row 0 turns tc Hvalid) as (tc1 & E1 & Hc1);
      [lia | lia |].
    rewrite E1.
    destruct (IH n (S row) (turns ++ row_turns row 0 cols) tc1 Hrest Hn)
      as (tc2 & E2 & Hc2); [lia|].
    exists tc2. rewrite E2. split.
    + rewrite rows_turns_cons, app_assoc. reflexivity.
    + intros q Hq Hlt. rewrite Hc2; [|assumption|].
      * rewrite Hc1 by assumption.
        rewrite N.Div0.add_mod_idemp_l.
        rewrite count_occ_concat_cons, Nat2N.inj_add, N.add_assoc. reflexivity.
      * rewrite Hc1 by assumption. apply N.mod_lt. discriminate.
Qed.

Lemma check_rows_err : forall rows n row turns turnCounter,
  rows_ok n rows = false ->
  n <= 255 -> row + length rows <= 256 ->
  exists turns' turnCounter' e,
    check_rows (N.of_nat n) row rows turns turnCounter = (turns', turnCounter', Some e).
Proof.
  induction rows as [|cols rest IH]; intros n row turns tc Hok Hn Hrow;
    simpl in Hok.
  - discriminate.
  - simpl in Hrow. simpl check_rows. rewrite Nat2N.id.
    destruct (length cols =? n)%nat eqn:Hlen; simpl in *.
    2:{ do 3 eexists. reflexivity. }
    apply Nat.eqb_eq in Hlen.
    destruct (forallb Player_IsValidOrZero cols) eqn:Hvalid; simpl in Hok.
    + destruct (check_cols_ok cols row 0 turns tc Hvalid) as (tc1 & E1 & _);
        [lia | lia |].
      rewrite E1. apply IH; [assumption | assumption | lia].
    + destruct (check_cols_err cols row 0 turns tc Hvalid) as (t' & tc' & e & E).
      rewrite E. do 3 eexists. reflexivity.
Qed.

Lemma rows_ok_length_concat : forall rows n,
  rows_ok n rows = true -> length (concat rows) = length rows * n.
Proof.
  induction rows as [|cols rest IH]; intros n Hok; simpl.
  - reflexivity.
  - simpl in Hok. apply andb_true_iff in Hok. destruct Hok as [Hc Hrest].
    apply andb_true_iff in Hc. destruct Hc as [Hlen _].
    apply Nat.eqb_eq in Hlen.
    rewrite length_app, (IH n Hrest). lia.
Qed.

Lemma rows_ok_square : forall n b,
  rows_ok n b = true -> length b = n -> square n b = true.
Proof.
  intros n b Hok Hl. apply square_spec. split; [assumption|].
  intros cols Hin. unfold rows_ok in Hok. rewrite forallb_forall in Hok.
  specialize (Hok cols Hin). apply andb_true_iff in Hok.
  now apply Nat.eqb_eq.
Qed.

Lemma count_marks_bound : forall b n p,
  rows_ok n b = true -> length b = n -> n <= 255 ->
  count_marks p b <= 255 * 255.
Proof.
  intros b n p Hok Hl Hn. unfold count_marks.
  pose proof (count_occ_bound N.eq_dec p (concat b)) as Hb.
  pose proof (rows_ok_length_concat b n Hok) as Hc.
  unfold Board in *. nia.
Qed.

(** On a board of at least 3 and at most 255 rows whose rows are as
    long as the board and hold zero or valid marks only, the check runs
    to its last statement with the turns of the marks in scan order and
    the exact numbers of marks of the two players. *)
Lemma check_rows_board : forall b,
  length b <= 255 -> rows_ok (length b) b = true ->
  exists turnCounter,
    check_rows (uint8 (length b)) 0 b [] counter_empty
    = (rows_turns 0 b, turnCounter, None)
    /\ turnCounter PlayerOne = N.of_nat (count_marks PlayerOne b)
    /\ turnCounter PlayerTwo = N.of_nat (count_marks PlayerTwo b).
Proof.
  intros b Hl Hok. rewrite uint8_small by lia.
  destruct (check_rows_ok b (length b) 0 [] counter_empty Hok Hl) as (tc & E & Hc);
    [simpl; lia|].
  exists tc. split; [exact E|].
  assert (Hcount : forall p, p <> 0%N -> tc p = N.of_nat (count_marks p b)).
  { intros p Hp. rewrite Hc; [|assumption | reflexivity].
    unfold counter_empty. rewrite N.add_0_l. apply N.mod_small.
    pose proof (count_marks_bound b (length b) p Hok eq_refl Hl) as Hb.
    lia. }
  split; apply Hcount; discriminate.
Qed.

Lemma WithBoard_accepts : forall board_ b g,
  contents board_ = b ->
  3 <= length b -> length b <= 255 -> rows_ok (length b) b = true ->
  count_marks PlayerOne b <= count_marks PlayerTwo b + 1 ->
  count_marks PlayerTwo b <= count_marks PlayerOne b + 1 ->
  WithBoard board_ g
  = ({| held := board_;
        bot := bot g;
        conditions := conditions g;
        maxTurns := (Z.of_nat (length b) * Z.of_nat (length b))%Z;
        player := if (count_marks PlayerOne b =? count_marks PlayerTwo b + 1)%nat
                  then PlayerTwo
                  else if (count_marks PlayerTwo b =? count_marks PlayerOne b + 1)%nat
                       then PlayerOne
                       else player g;
        size := N.of_nat (length b);
        state := state g;
        turns := rows_turns 0 b |}, None).
Proof.
  intros board_ b g Hcont Hlo Hhi Hok H12 H21.
  destruct (check_rows_board b Hhi Hok) as (tc & E & H1 & H2).
  unfold WithBoard, Board_check. rewrite Hcont.
  destruct (Nat.ltb_spec (length b) (N.to_nat MinSize)) as [Hc|_];
    [unfold MinSize in Hc; lia|].
  destruct (Nat.ltb_spec (N.to_nat MaxSize) (length b)) as [Hc|_];
    [unfold MaxSize in Hc; lia|].
  rewrite E, H1, H2. rewrite (uint8_small (length b)) by lia.
  destruct (Nat.eqb_spec (count_marks PlayerOne b) (count_marks PlayerTwo b + 1)) as [Ha|Ha].
  - destruct (Z.eqb_spec (Z.of_N (N.of_nat (count_marks PlayerOne b))
                          - Z.of_N (N.of_nat (count_marks PlayerTwo b))) 1); [|lia].
    reflexivity.
  - destruct (Z.eqb_spec (Z.of_N (N.of_nat (count_marks PlayerOne b))
                          - Z.of_N (N.of_nat (count_marks PlayerTwo b))) 1); [lia|].
    destruct (Z.ltb_spec 1 (Z.of_N (N.of_nat (count_marks PlayerOne b))
                            - Z.of_N (N.of_nat (count_marks PlayerTwo b)))); [lia|].
    destruct (Nat.eqb_spec (count_marks PlayerTwo b) (count_marks PlayerOne b + 1)) as [Hb|Hb].
    + destruct (Z.eqb_spec (Z.of_N (N.of_nat (count_marks PlayerOne b))
                            - Z.of_N (N.of_nat (count_marks PlayerTwo b))) (-1)); [|lia].
      reflexivity.
    + destruct (Z.eqb_spec (Z.of_N (N.of_nat (count_marks PlayerOne b))
                            - Z.of_N (N.of_nat (count_marks PlayerTwo b))) (-1)); [lia|].
      destruct (Z.ltb_spec (Z.of_N (N.of_nat (count_marks PlayerOne b))
                            - Z.of_N (N.of_nat (count_marks PlayerTwo b))) (-1)); [lia|].
      simpl. destruct g; reflexivity.
Qed.

Lemma WithBoard_rejects : forall board_ b g,
  contents board_ = b ->
  length b < 3 \/ 255 < length b \/ rows_ok (length b) b = false
  \/ count_marks PlayerTwo b + 1 < count_marks PlayerOne b
  \/ count_marks PlayerOne b + 1 < count_marks PlayerTwo b ->
  exists e, WithBoard board_ g = (g, Some e) /\ errors_Is e msgOptionInvalid = true.
Proof.
  intros board_ b g Hb Hbad. unfold WithBoard, Board_check. rewrite Hb.
  destruct (Nat.ltb_spec (length b) (N.to_nat MinSize)) as [Hc|Hlo].
  { eexists; split; reflexivity. }
  destruct (Nat.ltb_spec (N.to_nat MaxSize) (length b)) as [Hc|Hhi].
  { eexists; split; reflexivity. }
  unfold MinSize in Hlo. unfold MaxSize in Hhi.
  destruct (rows_ok (length b) b) eqn:Hok.
  - destruct (check_rows_board b) as (tc & E & H1 & H2); [lia | assumption |].
    rewrite E, H1, H2.
    destruct Hbad as [Hbad | [Hbad | [Hbad | [Hbad | Hbad]]]];
      try lia; try discriminate.
    + destruct (Z.eqb_spec (Z.of_N (N.of_nat (count_marks PlayerOne b))
                            - Z.of_N (N.of_nat (count_marks PlayerTwo b))) 1); [lia|].
      destruct (Z.ltb_spec 1 (Z.of_N (N.of_nat (count_marks PlayerOne b))
                              - Z.of_N (N.of_nat (count_marks PlayerTwo b)))); [|lia].
      eexists; split; reflexivity.
    + destruct (Z.eqb_spec (Z.of_N (N.of_nat (count_marks PlayerOne b))
                            - Z.of_N (N.of_nat (count_marks PlayerTwo b))) 1); [lia|].
      destruct (Z.ltb_spec 1 (Z.of_N (N.of_nat (count_marks PlayerOne b))
                              - Z.of_N (N.of_nat (count_marks PlayerTwo b)))); [lia|].
      destruct (Z.eqb_spec (Z.of_N (N.of_nat (count_marks PlayerOne b))
                            - Z.of_N (N.of_nat (count_marks PlayerTwo b))) (-1)); [lia|].
      destruct (Z.ltb_spec (Z.of_N (N.of_nat (count_marks PlayerOne b))
                            - Z.of_N (N.of_nat (count_marks PlayerTwo b))) (-1)); [|lia].
      eexists; split; reflexivity.
  - destruct (check_rows_err b (length b) 0 [] counter_empty Hok)
      as (t' & tc' & e & E); [lia | simpl; lia |].
    rewrite (uint8_small (length b)) by lia.
    rewrite E. eexists; split; reflexivity.
Qed.

Lemma Board_at_nth : forall (b : Board) r c,
  r < length b -> c < length (nth r b []) ->
  Board_at b (N.of_nat r) (N.of_nat c) = Val (nth c (nth r b []) 0%N).
Proof.
  intros b r c Hr Hc. unfold Board_at, index. rewrite !Nat2N.id.
  rewrite (nth_error_nth' b [] Hr). simpl.
  rewrite (nth_error_nth' (nth r b []) 0%N Hc). reflexivity.
Qed.

Lemma rows_ok_nth_length : forall n b r,
  rows_ok n b = true -> r < length b -> length (nth r b []) = n.
Proof.
  intros n b r Hok Hr. unfold rows_ok in Hok. rewrite forallb_forall in Hok.
  specialize (Hok (nth r b []) (nth_In b [] Hr)).
  apply andb_true_iff in Hok. now apply Nat.eqb_eq.
Qed.

(** The turns the check derives are the occupied cells in row-major
    scan order. *)
Lemma rows_turns_occupied : forall b,
  rows_ok (length b) b = true -> rows_turns 0 b = occupied_row_major b.
Proof.
  intros b Hok. unfold occupied_row_major, cells_row_major, rows_turns.
  rewrite flat_map_nested. apply flat_map_ext_in. intros r Hr.
  apply in_seq in Hr. simpl in Hr. destruct Hr as [_ Hr].
  rewrite flat_map_map. unfold row_turns.
  rewrite (rows_ok_nth_length _ _ _ Hok Hr).
  apply flat_map_ext_in. intros c Hc.
  apply in_seq in Hc. simpl in Hc. destruct Hc as [_ Hc]. simpl.
  rewrite Board_at_nth; [reflexivity | assumption |].
  now rewrite (rows_ok_nth_length _ _ _ Hok Hr).
Qed.

Lemma rows_ok_false : forall n b,
  rows_ok n b = false ->
  (exists cols, In cols b /\ length cols <> n)
  \/ (exists p, In p (concat b) /\ p <> 0%N /\ p <> PlayerOne /\ p <> PlayerTwo).
Proof.
  intros n b. induction b as [|cols rest IH]; simpl; [discriminate|].
  destruct (Nat.eqb_spec (length cols) n) as [Hl|Hl]; simpl.
  2:{ intros _. left. exists cols. split; [now left | assumption]. }
  destruct (forallb Player_IsValidOrZero cols) eqn:Hv; simpl.
  - intros H. destruct (IH H) as [(c & Hin & Hc) | (p & Hin & Hp)].
    + left. exists c. split; [now right | assumption].
    + right. exists p. split; [apply in_or_app; now right | assumption].
  - intros _. right.
    assert (Hex : exists p, In p cols /\ Player_IsValidOrZero p = false).
    { clear -Hv. induction cols as [|p cols IHc]; simpl in Hv; [discriminate|].
      destruct (Player_IsValidOrZero p) eqn:Hp; simpl in Hv.
      - destruct (IHc Hv) as (q & Hq & Hqv). exists q. split; [now right | assumption].
      - exists p. split; [now left | assumption]. }
    destruct Hex as (p & Hin & Hp). exists p.
    split; [apply in_or_app; now left|].
    assert (Hn : ~ (p = 0%N \/ p = PlayerOne \/ p = PlayerTwo)).
    { intros Hc. apply Player_IsValidOrZero_cases in Hc. congruence. }
    tauto.
Qed.

Lemma rows_ok_true : forall n b,
  rows_ok n b = true ->
  (forall cols, In cols b -> length cols = n)
  /\ (forall p, In p (concat b) -> p = 0%N \/ p = PlayerOne \/ p = PlayerTwo).
Proof.
  intros n b Hok. unfold rows_ok in Hok. rewrite forallb_forall in Hok. split.
  - intros cols Hin. specialize (Hok cols Hin).
    apply andb_true_iff in Hok. now apply Nat.eqb_eq.
  - intros p Hin. apply in_concat in Hin. destruct Hin as (cols & Hc & Hp).
    specialize (Hok cols Hc). apply andb_true_iff in Hok. destruct Hok as [_ Hv].
    rewrite forallb_forall in Hv. apply Player_IsValidOrZero_cases. now apply Hv.
Qed.

(** C6. [WithBoard] fails, with an invalid-option error and the game
    untouched, exactly when the preset board has fewer than 3 or more
    than 255 rows, a row whose length is not the number of rows, a cell
    that is neither zero nor a valid player, or numbers of marks of the
    two players more than 1 apart. Otherwise it succeeds and sets the
    board, the size to the number of rows, the turn ceiling to its
    square, the turn history to the occupied cells in row-major scan
    order, and the player to PlayerTwo when PlayerOne has one mark
    more, to PlayerOne when PlayerTwo has one mark more, leaving it
    as it was when the numbers are equal. The board the game holds is
    the slice it was given, with the rows where they were. *)
Theorem WithBoard_validates_and_derives :
  forall (board_ : Stored) (g : game),
    let b := contents board_ in
    ((length b < 3 \/ 255 < length b
      \/ (exists cols, In cols b /\ length cols <> length b)
      \/ (exists p, In p (concat b) /\ p <> 0%N /\ p <> PlayerOne /\ p <> PlayerTwo)
      \/ count_marks PlayerTwo b + 1 < count_marks PlayerOne b
      \/ count_marks PlayerOne b + 1 < count_marks PlayerTwo b)
     <-> exists e, WithBoard board_ g = (g, Some e)
                   /\ errors_Is e msgOptionInvalid = true)
    /\ (~ (length b < 3 \/ 255 < length b
           \/ (exists cols, In cols b /\ length cols <> length b)
           \/ (exists p, In p (concat b) /\ p <> 0%N /\ p <> PlayerOne /\ p <> PlayerTwo)
           \/ count_marks PlayerTwo b + 1 < count_marks PlayerOne b
           \/ count_marks PlayerOne b + 1 < count_marks PlayerTwo b) ->
        exists g',
          WithBoard board_ g = (g', None)
          /\ held g' = board_
          /\ board g' = b
          /\ size g' = N.of_nat (length b)
          /\ maxTurns g' = (Z.of_N (size g') * Z.of_N (size g'))%Z
          /\ turns g' = occupied_row_major b
          /\ (count_marks PlayerOne b = count_marks PlayerTwo b + 1 ->
              player g' = PlayerTwo)
          /\ (count_marks PlayerTwo b = count_marks PlayerOne b + 1 ->
              player g' = PlayerOne)
          /\ (count_marks PlayerOne b = count_marks PlayerTwo b ->
              player g' = player g)
          /\ bot g' = bot g /\ conditions g' = conditions g /\ state g' = state g).
Proof.
  intros board_ g b.
  assert (Hb : contents board_ = b) by reflexivity. clearbody b.
  assert (Hdec :
             (length b < 3 \/ 255 < length b
              \/ (exists cols, In cols b /\ length cols <> length b)
              \/ (exists p, In p (concat b) /\ p <> 0%N /\ p <> PlayerOne /\ p <> PlayerTwo)
              \/ count_marks PlayerTwo b + 1 < count_marks PlayerOne b
              \/ count_marks PlayerOne b + 1 < count_marks PlayerTwo b)
             \/ (3 <= length b /\ length b <= 255 /\ rows_ok (length b) b = true
                 /\ count_marks PlayerOne b <= count_marks PlayerTwo b + 1
                 /\ count_marks PlayerTwo b <= count_marks PlayerOne b + 1)).
  { destruct (Nat.lt_ge_cases (length b) 3); [tauto|].
    destruct (Nat.lt_ge_cases 255 (length b)); [tauto|].
    destruct (rows_ok (length b) b) eqn:Hok.
    - destruct (Nat.lt_ge_cases (count_marks PlayerTwo b + 1) (count_marks PlayerOne b));
        [tauto|].
      destruct (Nat.lt_ge_cases (count_marks PlayerOne b + 1) (count_marks PlayerTwo b));
        [tauto|].
      right. repeat split; assumption.
    - left. destruct (rows_ok_false _ _ Hok); tauto. }
  assert (Hrej :
            (length b < 3 \/ 255 < length b
             \/ (exists cols, In cols b /\ length cols <> length b)
             \/ (exists p, In p (concat b) /\ p <> 0%N /\ p <> PlayerOne /\ p <> PlayerTwo)
             \/ count_marks PlayerTwo b + 1 < count_marks PlayerOne b
             \/ count_marks PlayerOne b + 1 < count_marks PlayerTwo b) ->
            exists e, WithBoard board_ g = (g, Some e)
                      /\ errors_Is e msgOptionInvalid = true).
  { intros Hbad. apply (WithBoard_rejects board_ b g Hb).
    destruct (rows_ok (length b) b) eqn:Hok; [|tauto].
    apply rows_ok_true in Hok. destruct Hok as [Hlen Hmarks].
    destruct Hbad as [H | [H | [(cols & Hin & Hne) | [(p & Hin & Hp) | H]]]];
      try tauto.
    - exfalso. apply Hne. now apply Hlen.
    - exfalso. specialize (Hmarks p Hin). tauto. }
  split; [split|].
  - exact Hrej.
  - intros (e & He & _).
    destruct Hdec as [Hbad | (Hlo & Hhi & Hok & H12 & H21)]; [assumption|].
    rewrite (WithBoard_accepts board_ b g Hb Hlo Hhi Hok H12 H21) in He.
    discriminate He.
  - intros Hgood.
    destruct Hdec as [Hbad | (Hlo & Hhi & Hok & H12 & H21)]; [contradiction|].
    eexists. split; [apply (WithBoard_accepts board_ b g Hb Hlo Hhi Hok H12 H21)|].
    simpl. rewrite !nat_N_Z. split; [reflexivity|]. split; [exact Hb|].
    repeat split.
    + now apply rows_turns_occupied.
    + intros E. destruct (Nat.eqb_spec (count_marks PlayerOne b)
                            (count_marks PlayerTwo b + 1)); [reflexivity | contradiction].
    + intros E. destruct (Nat.eqb_spec (count_marks PlayerOne b)
                            (count_marks PlayerTwo b + 1)); [lia|].
      destruct (Nat.eqb_spec (count_marks PlayerTwo b)
                  (count_marks PlayerOne b + 1)); [reflexivity | contradiction].
    + intros E. destruct (Nat.eqb_spec (count_marks PlayerOne b)
                            (count_marks PlayerTwo b + 1)); [lia|].
      destruct (Nat.eqb_spec (count_marks PlayerTwo b)
                  (count_marks PlayerOne b + 1)); [lia | reflexivity].
Qed.

(** An instance of C6: a board with two marks of PlayerOne and one of
    PlayerTwo is accepted and PlayerTwo is to move. *)
Lemma WithBoard_validates_and_derives_witness :
  exists g',
    WithBoard (alloc [[1; 2; 0]; [0; 1; 0]; [0; 0; 0]]%N) draft = (g', None)
    /\ size g' = 3%N
    /\ turns g' = [mkTurn (mkCell 0 0) 1%N; mkTurn (mkCell 1 0) 2%N; mkTurn (mkCell 1 1) 1%N]
    /\ player g' = PlayerTwo.
Proof.
  destruct (WithBoard_validates_and_derives
              (alloc [[1; 2; 0]; [0; 1; 0]; [0; 0; 0]]%N) draft) as [_ Hok].
  destruct Hok as (g' & E & _ & _ & Hsize & _ & Hturns & Hone & _).
  - intros [H | [H | [(cols & Hin & Hne) | [(p & Hin & Hp) | [H | H]]]]].
    + simpl in H. lia.
    + simpl in H. lia.
    + simpl in Hin. destruct Hin as [<- | [<- | [<- | []]]]; apply Hne; reflexivity.
    + simpl in Hin. unfold PlayerOne, PlayerTwo in Hp.
      repeat (destruct Hin as [<- | Hin]; [tauto|]). destruct Hin.
    + vm_compute in H. lia.
    + vm_compute in H. lia.
  - exists g'. split; [exact E|]. split; [exact Hsize|]. split; [exact Hturns|].
    apply Hone. reflexivity.
Defined.

(** ** What a call of [play] does to a game *)

Lemma validateTurn_None : forall g t allowBotTurn,
  validateTurn g t allowBotTurn = Val None ->
  state g = StateAwaitingTurn
  /\ Player_IsValid (Turn_Player t) = true
  /\ Turn_Player t = player g
  /\ Board_at (board g) (Turn_Row t) (Turn_Column t) = Val 0%N
  /\ (forall b, bot g = Some b -> Bot_Player b = Turn_Player t -> allowBotTurn = true).
Proof.
  intros g t allowBotTurn. unfold validateTurn.
  destruct (state g); simpl; try discriminate.
  destruct (Player_IsValid (Turn_Player t)); simpl; try discriminate.
  match goal with
  | |- context [if ?c then Val (Some ?e1) else _] => destruct c eqn:Eb
  end; try discriminate.
  destruct (N.eqb_spec (Turn_Player t) (player g)) as [Hp|Hp]; simpl;
    try discriminate.
  destruct (Board_at (board g) (Turn_Row t) (Turn_Column t)) as [existing| |];
    simpl; try discriminate.
  destruct (N.ltb_spec 0 existing) as [Hx|Hx]; try discriminate.
  intros _. repeat split; try assumption.
  - f_equal. lia.
  - intros b Hb Hbp. rewrite Hb in Eb. rewrite Hbp, N.eqb_refl in Eb.
    now destruct allowBotTurn.
Qed.

(** A call of [play] that returns either gives back the game as it was,
    with an error, or has passed both validations, written the cell in
    place, appended the turn, asked the conditions and changed nothing
    but the memory of the board, the history, the state and the
    player. *)
Lemma play_inv : forall g t allowBotTurn g' r,
  play g t allowBotTurn = Val (g', r) ->
  (g' = g /\ exists e, r = (state g, player g, Some e))
  \/ (r = (state g', player g', None)
      /\ validateBounds g (Turn_Cell t) = None
      /\ validateTurn g t allowBotTurn = Val None
      /\ Stored_assign (held g) (Turn_Row t) (Turn_Column t) (Turn_Player t)
         = Val (held g')
      /\ turns g' = turns g ++ [t]
      /\ bot g' = bot g /\ conditions g' = conditions g
      /\ size g' = size g /\ maxTurns g' = maxTurns g
      /\ exists won,
           Conditions_IsWinningTurn (conditions g) (board g') t = Val won
           /\ state g' = (if won then StateWon
                          else if (maxTurns g <=? Z.of_nat (length (turns g ++ [t])))%Z
                               then StateDraw else state g)
           /\ player g' = (if won then player g
                           else if (maxTurns g <=? Z.of_nat (length (turns g ++ [t])))%Z
                                then 0%N else Player_Next (Turn_Player t))).
Proof.
  intros g t allowBotTurn g' r. unfold play.
  destruct (validateBounds g (Turn_Cell t)) as [eb|] eqn:Eb.
  { intros E; inversion E; subst. left. split; [reflexivity|]. now exists eb. }
  destruct (validateTurn g t allowBotTurn) as [[ev|]| |] eqn:Ev; simpl;
    try discriminate.
  { intros E; inversion E; subst. left. split; [reflexivity|]. now exists ev. }
  destruct (Stored_assign (held g) (Turn_Row t) (Turn_Column t) (Turn_Player t))
    as [held'| |] eqn:Eas; simpl; try discriminate.
  destruct (Conditions_IsWinningTurn (conditions g) (contents held') t)
    as [won| |] eqn:Ew;
    simpl; try discriminate.
  intros E. right. inversion E; subst; clear E.
  destruct won.
  - simpl. repeat split. exists true. repeat split. assumption.
  - destruct (maxTurns g <=? Z.of_nat (length (turns g ++ [t])))%Z eqn:Em;
      simpl; repeat split; exists false; repeat split; assumption.
Qed.


(** A turn leaves the rows of the board where they are. *)
Lemma play_rows : forall g t allowBotTurn g' r,
  play g t allowBotTurn = Val (g', r) -> rows_of (held g') = rows_of (held g).
Proof.
  intros g t allowBotTurn g' r Hplay. apply play_inv in Hplay.
  destruct Hplay as [[-> _] | (_ & _ & _ & Has & _)]; [reflexivity|].
  now destruct (Stored_assign_at _ _ _ _ _ Has).
Qed.

Lemma unshared_rows : forall b b',
  rows_of b' = rows_of b -> unshared b' = unshared b.
Proof. intros b b' E. unfold unshared, addresses. now rewrite E. Qed.

Lemma play_unshared : forall g t allowBotTurn g' r,
  play g t allowBotTurn = Val (g', r) -> unshared (held g') = unshared (held g).
Proof.
  intros g t allowBotTurn g' r Hplay. apply unshared_rows.
  eapply play_rows; eassumption.
Qed.

(** On a board whose rows share no memory, the turn that [play] writes
    changes the one cell. *)
Lemma play_assign : forall g t allowBotTurn g' s p,
  unshared (held g) = true ->
  play g t allowBotTurn = Val (g', (s, p, None)) ->
  Board_assign (board g) (Turn_Row t) (Turn_Column t) (Turn_Player t)
  = Val (board g').
Proof.
  intros g t allowBotTurn g' s p Hu Hplay. apply play_inv in Hplay.
  destruct Hplay as [[_ (e & He)] | (_ & _ & _ & Has & _)]; [discriminate He|].
  now apply Stored_assign_unshared.
Qed.

Lemma AllowBotTurn_rows : forall rnd g g' r,
  AllowBotTurn rnd g = Val (g', r) -> rows_of (held g') = rows_of (held g).
Proof.
  intros rnd g g' r. unfold AllowBotTurn.
  destruct (IsBotTurn g); simpl.
  2:{ intros E; inversion E; subst. reflexivity. }
  destruct (bot g) as [b|]; [|discriminate].
  destruct (Bot_Turn b rnd (board g) (as_Game g)) as [[c [e|]]| |]; simpl;
    try discriminate.
  { intros E; inversion E; subst. reflexivity. }
  destruct (play g (mkTurn c (player g)) true) as [[g1 [[s1 p1] e1]]| |] eqn:Ep;
    simpl; try discriminate.
  intros E; inversion E; subst.
  eapply play_rows; eassumption.
Qed.

Lemma AllowBotTurn_unshared : forall rnd g g' r,
  AllowBotTurn rnd g = Val (g', r) -> unshared (held g') = unshared (held g).
Proof.
  intros rnd g g' r H. apply unshared_rows. eapply AllowBotTurn_rows; eassumption.
Qed.

(** ** The history agrees with the board *)

Lemma filter_assign_occupied : forall (cols : list Player) c p cols',
  assign cols c p = Val cols' -> nth_error cols c = Some 0%N -> p <> 0%N ->
  length (filter (fun q => negb (q =? 0)%N) cols')
  = S (length (filter (fun q => negb (q =? 0)%N) cols)).
Proof.
  induction cols as [|x rest IH]; intros c p cols' Has Hn Hp; simpl in Has.
  - discriminate.
  - destruct c as [|c'].
    + inversion Has; subst. simpl in Hn. inversion Hn; subst. simpl.
      destruct (N.eqb_spec p 0); [contradiction | reflexivity].
    + apply bind_Val in Has. destruct Has as (rest' & Er & Ev).
      inversion Ev; subst. simpl in Hn. simpl.
      destruct (negb (x =? 0)%N); simpl; rewrite (IH c' p rest' Er Hn Hp); reflexivity.
Qed.

Lemma concat_assign_occupied : forall (b : Board) r cols cols' b',
  assign b r cols' = Val b' -> nth_error b r = Some cols ->
  length (filter (fun q => negb (q =? 0)%N) (concat b'))
  + length (filter (fun q => negb (q =? 0)%N) cols)
  = length (filter (fun q => negb (q =? 0)%N) (concat b))
    + length (filter (fun q => negb (q =? 0)%N) cols').
Proof.
  induction b as [|x rest IH]; intros r cols cols' b' Has Hn; simpl in Has.
  - discriminate.
  - destruct r as [|r'].
    + inversion Has; subst. simpl in Hn. inversion Hn; subst. simpl.
      rewrite !filter_app, !length_app. lia.
    + apply bind_Val in Has. destruct Has as (rest' & Er & Ev).
      inversion Ev; subst. simpl in Hn. simpl.
      rewrite !filter_app, !length_app.
      specialize (IH r' cols cols' rest' Er Hn). lia.
Qed.

Lemma Board_assign_count_occupied : forall b row col p b',
  Board_assign b row col p = Val b' ->
  Board_at b row col = Val 0%N -> p <> 0%N ->
  count_occupied b' = S (count_occupied b).
Proof.
  intros b row col p b' Has Hat Hp. unfold Board_assign in Has. unfold Board_at in Hat.
  apply bind_Val in Has. destruct Has as (cols & Ei & Has).
  apply bind_Val in Has. destruct Has as (cols' & Ec & Has).
  rewrite Ei in Hat. simpl in Hat.
  apply index_inv in Ei. apply index_inv in Hat.
  pose proof (filter_assign_occupied cols _ p cols' Ec Hat Hp) as H1.
  pose proof (concat_assign_occupied b _ cols cols' b' Has Ei) as H2.
  unfold count_occupied in *. lia.
Qed.

Lemma Player_IsValid_nonzero : forall p, Player_IsValid p = true -> p <> 0%N.
Proof. intros p H ->. discriminate H. Qed.

Lemma play_preserves_inv : forall g t allowBotTurn g' r,
  unshared (held g) = true ->
  game_inv g -> play g t allowBotTurn = Val (g', r) -> game_inv g'.
Proof.
  intros g t allowBotTurn g' r Hu (Hwf & (Hlen & Hcells) & Hvalid) Hplay.
  apply play_inv in Hplay.
  destruct Hplay as [[-> _] | (_ & Hb & Hv & Has & Ht & _ & _ & Hs & Hm & _)].
  { repeat split; assumption. }
  apply (Stored_assign_unshared _ _ _ _ _ Hu) in Has.
  apply validateBounds_None in Hb. destruct Hb as [Hrow Hcol].
  apply validateTurn_None in Hv. destruct Hv as (_ & Hpv & _ & Hempty & _).
  apply wf_game_spec in Hwf. destruct Hwf as (Hsq & Hmax & Hlo & Hhi).
  destruct (Board_assign_square (N.to_nat (size g)) (board g)
              (Turn_Row t) (Turn_Column t) (Turn_Player t) Hsq)
    as (b' & Eas & Hsq' & Hat); [unfold Turn_Row; lia | unfold Turn_Column; lia |].
  rewrite Has in Eas. inversion Eas as [Eb]. clear Eas.
  split; [|split].
  - apply wf_game_spec. rewrite Hs, Hm, Eb. repeat split; assumption.
  - split.
    + rewrite Ht, length_app, Hlen. simpl.
      rewrite (Board_assign_count_occupied _ _ _ _ _ Has Hempty
                 (Player_IsValid_nonzero _ Hpv)). lia.
    + rewrite Ht. apply Forall_app. split.
      * rewrite Forall_forall in Hcells, Hvalid |- *. intros t0 Hin.
        rewrite Eb, Hat.
        destruct ((Turn_Row t0 =? Turn_Row t)%N && (Turn_Column t0 =? Turn_Column t)%N)
          eqn:Esame; [|now apply Hcells].
        apply andb_true_iff in Esame. destruct Esame as [Er Ec].
        apply N.eqb_eq in Er. apply N.eqb_eq in Ec.
        specialize (Hcells t0 Hin). rewrite Er, Ec, Hempty in Hcells.
        specialize (Hvalid t0 Hin). inversion Hcells as [Hz].
        rewrite <- Hz in Hvalid. discriminate Hvalid.
      * constructor; [|constructor].
        rewrite Eb, Hat, !N.eqb_refl. reflexivity.
  - rewrite Ht. apply Forall_app. split; [assumption|].
    constructor; [assumption | constructor].
Qed.

Lemma AllowBotTurn_preserves_inv : forall rnd g g' r,
  unshared (held g) = true ->
  game_inv g -> AllowBotTurn rnd g = Val (g', r) -> game_inv g'.
Proof.
  intros rnd g g' r Hu Hinv. unfold AllowBotTurn.
  destruct (IsBotTurn g); simpl.
  2:{ intros E; inversion E; subst. assumption. }
  destruct (bot g) as [b|]; [|discriminate].
  destruct (Bot_Turn b rnd (board g) (as_Game g)) as [[c [e|]]| |]; simpl;
    try discriminate.
  { intros E; inversion E; subst. assumption. }
  destruct (play g (mkTurn c (player g)) true) as [[g1 [[s1 p1] e1]]| |] eqn:Ep;
    simpl; try discriminate.
  intros E; inversion E; subst.
  eapply play_preserves_inv; eassumption.
Qed.

(** ** The history derived from a preset board *)

Lemma row_turns_length : forall cols row col,
  length (row_turns row col cols)
  = length (filter (fun q => negb (q =? 0)%N) cols).
Proof.
  induction cols as [|p rest IH]; intros row col.
  - reflexivity.
  - rewrite row_turns_cons, length_app, IH. unfold mark_turn. simpl.
    destruct (p =? 0)%N; reflexivity.
Qed.

Lemma rows_turns_length : forall rows row,
  length (rows_turns row rows) = count_occupied rows.
Proof.
  unfold count_occupied.
  induction rows as [|cols rest IH]; intros row.
  - reflexivity.
  - rewrite rows_turns_cons, length_app, IH, row_turns_length. simpl.
    rewrite filter_app, length_app. reflexivity.
Qed.

Lemma Board_at_In_concat : forall (b : Board) row col p,
  Board_at b row col = Val p -> In p (concat b).
Proof.
  intros b row col p H. unfold Board_at in H.
  apply bind_Val in H. destruct H as (cols & Ei & Hc).
  apply index_inv in Ei. apply index_inv in Hc.
  apply in_concat. exists cols. split; eapply nth_error_In; eassumption.
Qed.

Lemma occupied_row_major_In : forall b t,
  In t (occupied_row_major b) ->
  Board_at b (Turn_Row t) (Turn_Column t) = Val (Turn_Player t)
  /\ Turn_Player t <> 0%N.
Proof.
  intros b t Hin. unfold occupied_row_major in Hin.
  apply in_flat_map in Hin. destruct Hin as (c & _ & Hin).
  destruct (Board_at b (Row c) (Column c)) as [p| |] eqn:Eat; try contradiction.
  destruct (N.eqb_spec p 0); [contradiction|].
  destruct Hin as [<-|[]]. split; assumption.
Qed.

Lemma WithBoard_success_inv : forall board_ g g',
  WithBoard board_ g = (g', None) ->
  3 <= length (contents board_) /\ length (contents board_) <= 255
  /\ rows_ok (length (contents board_)) (contents board_) = true
  /\ board g' = contents board_ /\ size g' = N.of_nat (length (contents board_))
  /\ maxTurns g'
     = (Z.of_nat (length (contents board_)) * Z.of_nat (length (contents board_)))%Z
  /\ turns g' = rows_turns 0 (contents board_).
Proof.
  intros board_ g g' H.
  remember (contents board_) as b eqn:Hb. symmetry in Hb.
  destruct (Nat.lt_ge_cases (length b) 3) as [Hlo|Hlo].
  { destruct (WithBoard_rejects board_ b g Hb) as (e & E & _); [tauto|]. congruence. }
  destruct (Nat.lt_ge_cases 255 (length b)) as [Hhi|Hhi].
  { destruct (WithBoard_rejects board_ b g Hb) as (e & E & _); [tauto|]. congruence. }
  destruct (rows_ok (length b) b) eqn:Hok.
  2:{ destruct (WithBoard_rejects board_ b g Hb) as (e & E & _); [tauto|]. congruence. }
  destruct (Nat.lt_ge_cases (count_marks PlayerTwo b + 1) (count_marks PlayerOne b))
    as [H12|H12].
  { destruct (WithBoard_rejects board_ b g Hb) as (e & E & _); [tauto|]. congruence. }
  destruct (Nat.lt_ge_cases (count_marks PlayerOne b + 1) (count_marks PlayerTwo b))
    as [H21|H21].
  { destruct (WithBoard_rejects board_ b g Hb) as (e & E & _); [tauto|]. congruence. }
  rewrite (WithBoard_accepts board_ b g Hb Hlo Hhi Hok H12 H21) in H.
  inversion H; subst; simpl. repeat split; assumption.
Qed.

(** The game keeps the slice it was given. *)
Lemma WithBoard_success_held : forall board_ g g',
  WithBoard board_ g = (g', None) -> held g' = board_.
Proof.
  intros board_ g g' H. unfold WithBoard in H.
  destruct (Board_check (contents board_)) as [[[[starter size_] maxTurns_] turns_] err].
  destruct err; [discriminate|].
  destruct (0 <? starter)%N; inversion H; reflexivity.
Qed.

(** A preset board that has passed the check, with the history derived
    from it, is a game in use. *)
Lemma WithBoard_game_inv : forall board_ g g',
  WithBoard board_ g = (g', None) -> board g' <> [] /\ game_inv g'.
Proof.
  intros board_ g g' H. apply WithBoard_success_inv in H.
  remember (contents board_) as b eqn:Hcont.
  destruct H as (Hlo & Hhi & Hok & Hb & Hs & Hm & Ht). split.
  { rewrite Hb. destruct b; [simpl in Hlo; lia | discriminate]. }
  split; [|split].
  - apply wf_game_spec. rewrite Hb, Hs, Hm, Nat2N.id, !nat_N_Z.
    repeat split.
    + now apply rows_ok_square.
    + unfold MinSize. lia.
    + unfold MaxSize. lia.
  - split.
    + rewrite Ht, Hb. apply rows_turns_length.
    + rewrite Ht, Hb, (rows_turns_occupied b Hok). apply Forall_forall.
      intros t Hin. now apply occupied_row_major_In in Hin.
  - rewrite Ht, (rows_turns_occupied b Hok). apply Forall_forall.
    intros t Hin. apply occupied_row_major_In in Hin. destruct Hin as [Hat Hnz].
    apply Board_at_In_concat in Hat.
    apply rows_ok_true in Hok. destruct Hok as [_ Hmarks].
    apply Player_IsValid_cases. specialize (Hmarks _ Hat). tauto.
Qed.

(** ** Configuration *)

Lemma withBot_draft_inv : forall bot_ option g g' r,
  draft_inv g -> withBot bot_ option g = (g', r) -> draft_inv g'.
Proof.
  intros bot_ option g g' r Hinv. unfold withBot.
  destruct (bot g); [intros E; inversion E; subst; assumption|].
  destruct (negb (Player_IsValid (Bot_Player bot_)));
    intros E; inversion E; subst; assumption.
Qed.

Lemma lib_option_draft_inv :
  forall opt, lib_option opt ->
    forall g g', draft_inv g -> opt g = (g', None) -> draft_inv g'.
Proof.
  apply (lib_option_mut
           (fun opt => forall g g', draft_inv g -> opt g = (g', None) -> draft_inv g')
           (fun opts => forall g g', draft_inv g ->
                                     apply_options opts g = (g', None) -> draft_inv g')).
  - (* WithBoard *)
    intros b g g' _ H.
    pose proof (WithBoard_success_inv _ _ _ H) as (Hlo & Hhi & _ & _ & Hs & Hm & _).
    apply WithBoard_game_inv in H. destruct H as [Hne Hinv].
    unfold draft_inv. rewrite Hs, Hm, !nat_N_Z. unfold MinSize, MaxSize.
    repeat split; try lia. right. split; assumption.
  - intros bot_ g g' Hinv H. eapply withBot_draft_inv; eassumption.
  - intros c g g' Hinv H. inversion H; subst. assumption.
  - intros cs g g' Hinv H. inversion H; subst. assumption.
  - intros p g g' Hinv H. eapply withBot_draft_inv; eassumption.
  - intros p g g' Hinv H. eapply withBot_draft_inv; eassumption.
  - intros p g g' Hinv H. eapply withBot_draft_inv; eassumption.
  - intros p g g' Hinv H. eapply withBot_draft_inv; eassumption.
  - (* WithPack *)
    intros pack _ IH g g' Hinv H. eapply IH; eassumption.
  - (* WithRandomSize *)
    intros rnd g g' Hinv H. unfold WithRandomSize in H.
    destruct Hinv as (Hlo & Hhi & Hm & Hb).
    destruct (board g) as [|row rest] eqn:Eb.
    2:{ inversion H; subst. unfold draft_inv. rewrite Eb. tauto. }
    inversion H; subst; clear H. unfold draft_inv. simpl.
    assert (Hr' : Intn rnd 252 < 252) by (apply Intn_lt; lia).
    unfold MaxSize, MinSize in *.
    simpl (N.to_nat 255 - N.to_nat 3). simpl (N.to_nat 3).
    rewrite uint8_small by lia. rewrite !nat_N_Z.
    repeat split; try lia.
    left. destruct Hb as [[_ Ht] | [Hne _]]; [|congruence].
    split; [exact Eb | exact Ht].
  - (* WithRandomStarterPlayer *)
    intros rnd g g' Hinv H. unfold WithRandomStarterPlayer in H.
    destruct (player g =? 0)%N; inversion H; subst; assumption.
  - (* WithSize *)
    intros n g g' Hinv H. unfold WithSize in H.
    destruct Hinv as (Hlo & Hhi & Hm & Hb).
    destruct (board g) as [|row rest] eqn:Eb.
    2:{ inversion H; subst. unfold draft_inv. rewrite Eb. tauto. }
    destruct (N.ltb_spec n MinSize); [discriminate|].
    destruct (N.ltb_spec MaxSize n); [discriminate|].
    inversion H; subst; clear H. unfold draft_inv. simpl.
    repeat split; try assumption.
    left. destruct Hb as [[_ Ht] | [Hne _]]; [|congruence].
    split; [exact Eb | exact Ht].
  - (* WithStarterPlayer *)
    intros p g g' Hinv H. unfold WithStarterPlayer in H.
    destruct (0 <? player g)%N; [inversion H; subst; assumption|].
    destruct (negb (Player_IsValid p)); inversion H; subst; assumption.
  - intros g g' Hinv H. inversion H; subst. assumption.
  - intros opt opts _ IHo _ IHs g g' Hinv H. simpl in H.
    destruct (opt g) as [g1 [e|]] eqn:E1; [discriminate|].
    eapply IHs; [|eassumption]. eapply IHo; eassumption.
Qed.

Lemma lib_options_draft_inv :
  forall opts, lib_options opts ->
    forall g g', draft_inv g -> apply_options opts g = (g', None) -> draft_inv g'.
Proof.
  intros opts Hopts. induction Hopts as [|opt opts Hopt _ IH]; intros g g' Hinv H.
  - inversion H; subst. assumption.
  - simpl in H. destruct (opt g) as [g1 [e|]] eqn:E1; [discriminate|].
    eapply IH; [|eassumption]. eapply lib_option_draft_inv; eassumption.
Qed.

Lemma draft_inv_draft : draft_inv draft.
Proof.
  unfold draft_inv, draft, MinSize, MaxSize. simpl.
  repeat split; try lia. left. split; reflexivity.
Qed.

Lemma count_occupied_newBoard : forall n, count_occupied (newBoard n) = 0.
Proof.
  intros n. unfold count_occupied.
  assert (H : forall l : list Player,
             (forall p, In p l -> p = 0%N) ->
             filter (fun p => negb (p =? 0)%N) l = []).
  { induction l as [|p l IH]; intros Hz; [reflexivity|]. simpl.
    rewrite (Hz p (or_introl eq_refl)). simpl. apply IH.
    intros q Hq. apply Hz. now right. }
  rewrite H; [reflexivity|].
  intros p Hin. apply in_concat in Hin. destruct Hin as (cols & Hc & Hp).
  unfold newBoard in Hc. apply repeat_spec in Hc. subst cols.
  now apply repeat_spec in Hp.
Qed.

Lemma game_inv_fields : forall g g',
  board g' = board g -> size g' = size g -> maxTurns g' = maxTurns g ->
  turns g' = turns g -> game_inv g -> game_inv g'.
Proof.
  intros g g' Hb Hs Hm Ht (Hwf & (Hlen & Hcells) & Hvalid).
  unfold game_inv, history_agrees, wf_game in *.
  rewrite Hb, Hs, Hm, Ht. repeat split; assumption.
Qed.

Lemma Start_game_inv : forall opts g,
  lib_options opts -> Start opts = Val (Some g, None) -> game_inv g.
Proof.
  intros opts g Hopts. unfold Start.
  destruct (apply_options opts draft) as [g0 [e|]] eqn:E; [discriminate|].
  pose proof (lib_options_draft_inv _ Hopts _ _ draft_inv_draft E)
    as (Hlo & Hhi & Hm & Hb).
  destruct (board g0) as [|row rest] eqn:Eb.
  - destruct Hb as [[_ Ht] | [Hne _]]; [|congruence].
    intros H. inversion H; subst; clear H.
    assert (Hinv : game_inv (set_held g0 (alloc (newBoard (size g0))))).
    { split; [|split].
      - apply wf_game_spec. simpl. rewrite contents_alloc.
        repeat split; try assumption.
        apply square_newBoard.
      - split; simpl.
        + rewrite Ht, contents_alloc, count_occupied_newBoard. reflexivity.
        + rewrite Ht. constructor.
      - simpl. rewrite Ht. constructor. }
    destruct (player g0 =? 0)%N; simpl; [|exact Hinv].
    eapply game_inv_fields; [| | | |exact Hinv]; reflexivity.
  - destruct Hb as [[Hnil _] | [_ Hinv]]; [discriminate|].
    destruct (Conditions_FindWinner (conditions g0) (row :: rest))
      as [[winner [e|]]| |]; simpl; try discriminate.
    destruct (0 <? winner)%N.
    { intros H; inversion H; subst.
      eapply game_inv_fields; [| | | |exact Hinv]; reflexivity. }
    destruct (maxTurns g0 <=? Z.of_nat (length (turns g0)))%Z.
    { intros H; inversion H; subst.
      eapply game_inv_fields; [| | | |exact Hinv]; reflexivity. }
    destruct (player g0 =? 0)%N; intros H; inversion H; subst.
    + eapply game_inv_fields; [| | | |exact Hinv]; reflexivity.
    + assumption.
Qed.




(** The rows of the board of a game stay where [Start] found or made
    them. *)
Lemma reachable_game_inv : forall g,
  reachable g -> unshared (held g) = true -> game_inv g.
Proof.
  intros g H. induction H as [opts g Hopts HS | g t g' r _ IH HP | rnd g g' r _ IH HA];
    intros Hu.
  - eapply Start_game_inv; eassumption.
  - rewrite (play_unshared _ _ _ _ _ HP) in Hu.
    eapply play_preserves_inv; [exact Hu | now apply IH | exact HP].
  - rewrite (AllowBotTurn_unshared _ _ _ _ HA) in Hu.
    eapply AllowBotTurn_preserves_inv; [exact Hu | now apply IH | exact HA].
Qed.

(** C10, counterexample. A preset board whose three rows are one row
    in memory, all cells zero, passes the check of [WithBoard]. The
    first turn, of PlayerOne at row 0 and column 0, is written in place
    and shows in the three rows: the game has one turn in its history
    and three cells that are not zero on its board. *)
Lemma shared_rows_break_history_agreement :
  exists g g',
    Start [WithBoard (mkStored [mkSlice 0 3; mkSlice 0 3; mkSlice 0 3]
                               [0; 0; 0]%N)]
    = Val (Some g, None)
    /\ board g = newBoard 3
    /\ Play g (mkTurn (mkCell 0 0) PlayerOne)
       = Val (g', (StateWon, PlayerOne, None))
    /\ reachable g'
    /\ board g' = [[1; 0; 0]; [1; 0; 0]; [1; 0; 0]]%N
    /\ turns g' = [mkTurn (mkCell 0 0) PlayerOne]
    /\ count_occupied (board g') = 3
    /\ ~ (length (turns g') = count_occupied (board g')
          /\ Forall (fun t => Board_at (board g') (Turn_Row t) (Turn_Column t)
                              = Val (Turn_Player t))
                    (turns g')).
Proof.
  exists (mkgame (mkStored [mkSlice 0 3; mkSlice 0 3; mkSlice 0 3] [0; 0; 0]%N)
                 None standardConditions 9 PlayerOne 3 StateAwaitingTurn []).
  exists (mkgame (mkStored [mkSlice 0 3; mkSlice 0 3; mkSlice 0 3] [1; 0; 0]%N)
                 None standardConditions 9 PlayerOne 3 StateWon
                 [mkTurn (mkCell 0 0) PlayerOne]).
  split; [reflexivity|]. split; [reflexivity|]. split; [reflexivity|].
  split.
  { apply (@reachable_Play
             (mkgame (mkStored [mkSlice 0 3; mkSlice 0 3; mkSlice 0 3] [0; 0; 0]%N)
                     None standardConditions 9 PlayerOne 3 StateAwaitingTurn [])
             (mkTurn (mkCell 0 0) PlayerOne) _ (StateWon, PlayerOne, None));
      [|reflexivity].
    apply (@reachable_Start
             [WithBoard (mkStored [mkSlice 0 3; mkSlice 0 3; mkSlice 0 3]
                                  [0; 0; 0]%N)] _);
      [|reflexivity].
    constructor; constructor. }
  split; [reflexivity|]. split; [reflexivity|]. split; [reflexivity|].
  intros [H _]. discriminate H.
Qed.

(** C10, amended. In every game that [Start] returns, for any options
    and with or without a preset board, and in every game that follows
    from it by calls of [Play] and [AllowBotTurn], provided that the
    rows of its board share no memory (as the rows of the board that
    [Start] makes when there is no preset board do, and the rows of a
    preset board each made on its own), the turn history is as long as
    the board has cells that are not zero, and the cell of every
    recorded turn holds the player of that turn. *)
Theorem reachable_history_agrees :
  forall g : game,
    reachable g ->
    unshared (held g) = true ->
    length (turns g) = count_occupied (board g)
    /\ Forall (fun t => Board_at (board g) (Turn_Row t) (Turn_Column t)
                        = Val (Turn_Player t))
              (turns g).
Proof.
  intros g H Hu. apply reachable_game_inv in H; [|exact Hu].
  destruct H as (_ & Hagree & _). exact Hagree.
Qed.

(** An instance of the amended C10: the game started from a preset
    board with three marks, each row in memory of its own, after one
    more turn. *)
Lemma reachable_history_agrees_witness :
  Start [WithBoard (alloc [[1; 2; 0]; [0; 1; 0]; [0; 0; 0]]%N)]
  = Val (Some (mkgame (alloc [[1; 2; 0]; [0; 1; 0]; [0; 0; 0]]%N) None standardConditions
                       9 PlayerTwo 3 StateAwaitingTurn
                       [mkTurn (mkCell 0 0) 1%N; mkTurn (mkCell 1 0) 2%N;
                        mkTurn (mkCell 1 1) 1%N]), None)
  /\ exists g' r,
       Play (mkgame (alloc [[1; 2; 0]; [0; 1; 0]; [0; 0; 0]]%N) None standardConditions
                    9 PlayerTwo 3 StateAwaitingTurn
                    [mkTurn (mkCell 0 0) 1%N; mkTurn (mkCell 1 0) 2%N;
                     mkTurn (mkCell 1 1) 1%N])
            (mkTurn (mkCell 2 2) PlayerTwo) = Val (g', r)
       /\ length (turns g') = 4
       /\ length (turns g') = count_occupied (board g')
       /\ Forall (fun t => Board_at (board g') (Turn_Row t) (Turn_Column t)
                           = Val (Turn_Player t))
                 (turns g').
Proof.
  split; [reflexivity|].
  do 2 eexists. split; [reflexivity|]. split; [reflexivity|].
  apply reachable_history_agrees; [|reflexivity].
  eapply (@reachable_Play
           (mkgame (alloc [[1; 2; 0]; [0; 1; 0]; [0; 0; 0]]%N) None standardConditions
                   9 PlayerTwo 3 StateAwaitingTurn
                   [mkTurn (mkCell 0 0) 1%N; mkTurn (mkCell 1 0) 2%N;
                    mkTurn (mkCell 1 1) 1%N])
           (mkTurn (mkCell 2 2) PlayerTwo) _ _); [|reflexivity].
  apply (@reachable_Start [WithBoard (alloc [[1; 2; 0]; [0; 1; 0]; [0; 0; 0]]%N)] _);
    [|reflexivity].
  constructor; constructor.
Defined.

(** ** Replaying the history derived from a preset board *)

Lemma occupied_row_major_bounds : forall b t,
  In t (occupied_row_major b) ->
  N.to_nat (Turn_Row t) < length b /\ N.to_nat (Turn_Column t) < length b.
Proof.
  intros b t Hin. unfold occupied_row_major in Hin.
  apply in_flat_map in Hin. destruct Hin as (c & Hc & Hin).
  destruct (Board_at b (Row c) (Column c)) as [p| |]; try contradiction.
  destruct (p =? 0)%N; [contradiction|].
  destruct Hin as [<-|[]]. unfold Turn_Row, Turn_Column. simpl.
  unfold cells_row_major in Hc. apply in_flat_map in Hc.
  destruct Hc as (r & Hr & Hc). apply in_map_iff in Hc.
  destruct Hc as (k & <- & Hk). apply in_seq in Hr. apply in_seq in Hk.
  simpl. rewrite !Nat2N.id. lia.
Qed.

Lemma occupied_row_major_complete : forall b row col p,
  N.to_nat row < length b -> N.to_nat col < length b ->
  Board_at b row col = Val p -> p <> 0%N ->
  In (mkTurn (mkCell col row) p) (occupied_row_major b).
Proof.
  intros b row col p Hr Hc Hat Hp. unfold occupied_row_major.
  apply in_flat_map. exists (mkCell col row). split.
  - unfold cells_row_major. apply in_flat_map. exists (N.to_nat row). split.
    + apply in_seq. lia.
    + apply in_map_iff. exists (N.to_nat col). split.
      * now rewrite !N2Nat.id.
      * apply in_seq. lia.
  - simpl. rewrite Hat. destruct (N.eqb_spec p 0); [contradiction|]. now left.
Qed.

(** Two squares of the same size with the same cells are the same
    board. *)
Lemma Board_ext : forall n (x b : Board),
  square n x = true -> square n b = true ->
  (forall row col, N.to_nat row < n -> N.to_nat col < n ->
                   Board_at x row col = Board_at b row col) ->
  x = b.
Proof.
  intros n x b Hx Hb Hcells.
  pose proof Hx as Hx'. pose proof Hb as Hb'.
  apply square_spec in Hx'. apply square_spec in Hb'.
  destruct Hx' as [Hlx Hrx]. destruct Hb' as [Hlb Hrb].
  apply (nth_ext x b [] []); [transitivity n; [exact Hlx | symmetry; exact Hlb]|].
  intros r Hr.
  assert (Hr' : r < n) by (unfold Board in *; lia).
  assert (Hxr : length (nth r x []) = n)
    by (apply Hrx, nth_In; unfold Board in *; lia).
  assert (Hbr : length (nth r b []) = n)
    by (apply Hrb, nth_In; unfold Board in *; lia).
  apply (nth_ext _ _ 0%N 0%N); [transitivity n; [exact Hxr | symmetry; exact Hbr]|].
  intros c Hc.
  assert (Hc' : c < n) by (unfold Board in *; lia).
  specialize (Hcells (N.of_nat r) (N.of_nat c)).
  rewrite !Nat2N.id in Hcells.
  rewrite !Board_at_nth in Hcells by (unfold Board in *; lia).
  assert (E : Val (nth c (nth r x []) 0%N) = Val (nth c (nth r b []) 0%N))
    by (apply Hcells; assumption).
  now inversion E.
Qed.

Lemma written_newBoard : forall b n,
  written b (N.to_nat n) [] (newBoard n).
Proof.
  intros b n. split; [apply square_newBoard|]. split.
  - intros row col Hr Hc. left. unfold newBoard, Board_at, index.
    rewrite (nth_error_repeat _ Hr). simpl.
    rewrite (nth_error_repeat _ Hc). reflexivity.
  - intros t [].
Qed.

(** Writing the player of a turn of the history of [b] into its cell
    keeps the board between the empty board and [b]. *)
Lemma written_step : forall b n done x t x',
  written b n done x ->
  (forall t0, In t0 (done ++ [t]) ->
              Board_at b (Turn_Row t0) (Turn_Column t0) = Val (Turn_Player t0)) ->
  N.to_nat (Turn_Row t) < n -> N.to_nat (Turn_Column t) < n ->
  Board_assign x (Turn_Row t) (Turn_Column t) (Turn_Player t) = Val x' ->
  written b n (done ++ [t]) x'.
Proof.
  intros b n done x t x' (Hsq & Hzero & Hdone) Hb Hr Hc Has.
  destruct (Board_assign_square n x (Turn_Row t) (Turn_Column t) (Turn_Player t)
              Hsq Hr Hc) as (x1 & E & Hsq' & Hat).
  rewrite Has in E. inversion E; subst x1. clear E.
  split; [assumption|]. split.
  - intros row col Hrow Hcol. rewrite Hat.
    destruct ((row =? Turn_Row t)%N && (col =? Turn_Column t)%N) eqn:Esame.
    + apply andb_true_iff in Esame. destruct Esame as [Er Ec].
      apply N.eqb_eq in Er. apply N.eqb_eq in Ec. subst row col.
      right. symmetry. apply Hb. apply in_or_app. right. now left.
    + now apply Hzero.
  - intros t0 Hin. rewrite Hat.
    destruct ((Turn_Row t0 =? Turn_Row t)%N && (Turn_Column t0 =? Turn_Column t)%N)
      eqn:Esame.
    + apply andb_true_iff in Esame. destruct Esame as [Er Ec].
      apply N.eqb_eq in Er. apply N.eqb_eq in Ec.
      pose proof (Hb t0 Hin) as H0.
      assert (H1 : Board_at b (Turn_Row t) (Turn_Column t) = Val (Turn_Player t))
        by (apply Hb, in_or_app; right; now left).
      rewrite Er, Ec, H1 in H0. exact H0.
    + apply in_app_or in Hin. destruct Hin as [Hin | [<- | []]].
      * now apply Hdone.
      * rewrite !N.eqb_refl in Esame. discriminate Esame.
Qed.

(** A board between the empty board and [b] that holds every turn of
    the history of [b] is [b]. *)
Lemma written_all : forall b x,
  rows_ok (length b) b = true ->
  written b (length b) (occupied_row_major b) x -> x = b.
Proof.
  intros b x Hok (Hsq & Hzero & Hdone).
  pose proof (rows_ok_square _ _ Hok eq_refl) as Hsqb.
  apply (Board_ext (length b)); try assumption.
  intros row col Hr Hc.
  destruct (Board_at_square _ _ row col Hsqb Hr Hc) as (p & Hp).
  destruct (N.eq_dec p 0) as [->|Hnz].
  - destruct (Hzero row col Hr Hc) as [E|E]; [|exact E].
    rewrite E. symmetry. exact Hp.
  - rewrite Hp.
    apply (Hdone _ (occupied_row_major_complete b row col p Hr Hc Hp Hnz)).
Qed.

Lemma write_turns_written : forall b n ts done x,
  written b n done x ->
  (forall t, In t (done ++ ts) ->
             Board_at b (Turn_Row t) (Turn_Column t) = Val (Turn_Player t)
             /\ N.to_nat (Turn_Row t) < n /\ N.to_nat (Turn_Column t) < n) ->
  exists x', write_turns x ts = Val x' /\ written b n (done ++ ts) x'.
Proof.
  intros b n ts. induction ts as [|t rest IH]; intros done x Hw Hts.
  - exists x. rewrite app_nil_r. split; [reflexivity | assumption].
  - assert (Ht : In t (done ++ t :: rest)) by (apply in_or_app; right; now left).
    destruct (Hts t Ht) as (_ & Hr & Hc).
    destruct Hw as (Hsq & Hw).
    destruct (Board_assign_square n x (Turn_Row t) (Turn_Column t) (Turn_Player t)
                Hsq Hr Hc) as (x1 & E & _ & _).
    assert (Hw1 : written b n (done ++ [t]) x1).
    { apply (written_step b n done x t x1); try assumption.
      - split; assumption.
      - intros t0 Hin. apply Hts. apply in_app_or in Hin.
        apply in_or_app. destruct Hin as [Hin | [<- | []]]; [now left|].
        right. now left. }
    destruct (IH (done ++ [t]) x1 Hw1) as (x' & E' & Hw').
    { intros t0 Hin. apply Hts. rewrite <- app_assoc in Hin. exact Hin. }
    exists x'. simpl. rewrite E. simpl. rewrite <- app_assoc in Hw'.
    split; assumption.
Qed.

Lemma replay_written : forall b n ts done f f' errs,
  unshared (held f) = true ->
  written b n done (board f) ->
  (forall t, In t (done ++ ts) ->
             Board_at b (Turn_Row t) (Turn_Column t) = Val (Turn_Player t)
             /\ N.to_nat (Turn_Row t) < n /\ N.to_nat (Turn_Column t) < n) ->
  replay f ts = Val (f', errs) ->
  (forall e, In e errs -> e = None) ->
  written b n (done ++ ts) (board f').
Proof.
  intros b n ts. induction ts as [|t rest IH];
    intros done f f' errs Hu Hw Hts Hrep Herrs.
  - simpl in Hrep. inversion Hrep; subst. now rewrite app_nil_r.
  - simpl in Hrep.
    apply bind_Val in Hrep. destruct Hrep as ([f1 [[s p] err]] & HP & Hrep).
    apply bind_Val in Hrep. destruct Hrep as ([f2 errs2] & HR & Hrep).
    inversion Hrep; subst; clear Hrep.
    assert (Herr : err = None) by (apply Herrs; now left).
    subst err. unfold Play in HP.
    pose proof (play_unshared _ _ _ _ _ HP) as Hu1. rewrite Hu in Hu1.
    pose proof (play_assign _ _ _ _ _ _ Hu HP) as Has.
    assert (Ht : In t (done ++ t :: rest)) by (apply in_or_app; right; now left).
    destruct (Hts t Ht) as (_ & Hr & Hc).
    assert (Hw1 : written b n (done ++ [t]) (board f1)).
    { apply (written_step b n done (board f) t (board f1)); try assumption.
      intros t0 Hin. apply Hts. apply in_app_or in Hin.
      apply in_or_app. destruct Hin as [Hin | [<- | []]]; [now left|].
      right. now left. }
    replace (done ++ t :: rest) with ((done ++ [t]) ++ rest)
      by (rewrite <- app_assoc; reflexivity).
    apply (IH (done ++ [t]) f1 f' errs2); try assumption.
    + intros t0 Hin. apply Hts. rewrite <- app_assoc in Hin. exact Hin.
    + intros e He. apply Herrs. now right.
Qed.

(** C8, counterexample. The history derived from a preset board is in
    scan order, not in the order of play: for a board with two marks of
    PlayerOne in its first row and one of PlayerTwo below, the second
    derived turn is again one of PlayerOne, turn submission rejects it,
    and the replay ends on another board, whichever player starts the
    fresh game. *)
Lemma replay_of_preset_history_differs :
  exists g,
    Start [WithBoard (alloc [[1; 1; 0]; [2; 0; 0]; [0; 0; 0]]%N)] = Val (Some g, None)
    /\ turns g = [mkTurn (mkCell 0 0) 1%N; mkTurn (mkCell 1 0) 1%N;
                  mkTurn (mkCell 0 1) 2%N]
    /\ (exists f f' errs,
           Start [WithSize (size g)] = Val (Some f, None)
           /\ replay f (turns g) = Val (f', errs)
           /\ board f' = [[1; 0; 0]; [2; 0; 0]; [0; 0; 0]]%N
           /\ board f' <> [[1; 1; 0]; [2; 0; 0]; [0; 0; 0]]%N)
    /\ (exists f f' errs,
           Start [WithSize (size g); WithStarterPlayer PlayerTwo] = Val (Some f, None)
           /\ replay f (turns g) = Val (f', errs)
           /\ board f' = [[0; 0; 0]; [2; 0; 0]; [0; 0; 0]]%N
           /\ board f' <> [[1; 1; 0]; [2; 0; 0]; [0; 0; 0]]%N).
Proof.
  exists (mkgame (alloc [[1; 1; 0]; [2; 0; 0]; [0; 0; 0]]%N) None standardConditions
                 9 PlayerTwo 3 StateAwaitingTurn
                 [mkTurn (mkCell 0 0) 1%N; mkTurn (mkCell 1 0) 1%N;
                  mkTurn (mkCell 0 1) 2%N]).
  split; [reflexivity|]. split; [reflexivity|]. split.
  - exists (mkgame (alloc (newBoard 3)) None standardConditions 9 PlayerOne 3
                   StateAwaitingTurn []).
    exists (mkgame (alloc [[1; 0; 0]; [2; 0; 0]; [0; 0; 0]]%N) None standardConditions
                   9 PlayerOne 3 StateAwaitingTurn
                   [mkTurn (mkCell 0 0) 1%N; mkTurn (mkCell 0 1) 2%N]).
    eexists. split; [reflexivity|]. split; [reflexivity|].
    split; [reflexivity | discriminate].
  - exists (mkgame (alloc (newBoard 3)) None standardConditions 9 PlayerTwo 3
                   StateAwaitingTurn []).
    exists (mkgame (alloc [[0; 0; 0]; [2; 0; 0]; [0; 0; 0]]%N) None standardConditions
                   9 PlayerOne 3 StateAwaitingTurn [mkTurn (mkCell 0 1) 2%N]).
    eexists. split; [reflexivity|]. split; [reflexivity|].
    split; [reflexivity | discriminate].
Qed.

(** C8, amended. The history derived from a valid preset board holds
    the occupied cells of the board with their marks: writing the
    player of each derived turn, in the stored order, into its cell of
    an empty board of the same size gives the marks of the preset board
    back; and replaying the derived turns in the stored order through
    turn submission onto a fresh game of the same size (its board
    empty, with rows in memory of their own, as [Start] makes it) gives
    the marks of the preset board back whenever every submission is
    accepted. *)
Theorem preset_history_reproduces_board :
  forall (board_ : Stored) (g0 g : game),
    WithBoard board_ g0 = (g, None) ->
    write_turns (newBoard (size g)) (turns g) = Val (contents board_)
    /\ forall f f' errs,
         size f = size g ->
         board f = newBoard (size f) ->
         unshared (held f) = true ->
         replay f (turns g) = Val (f', errs) ->
         (forall e, In e errs -> e = None) ->
         board f' = contents board_.
Proof.
  intros board_ g0 g HW. apply WithBoard_success_inv in HW.
  remember (contents board_) as b eqn:Hcont.
  destruct HW as (Hlo & Hhi & Hok & _ & Hs & _ & Ht).
  rewrite Ht, (rows_turns_occupied b Hok), Hs.
  assert (Hts : forall t, In t ([] ++ occupied_row_major b) ->
                  Board_at b (Turn_Row t) (Turn_Column t) = Val (Turn_Player t)
                  /\ N.to_nat (Turn_Row t) < length b
                  /\ N.to_nat (Turn_Column t) < length b).
  { intros t Hin. simpl in Hin. split.
    - now apply occupied_row_major_In in Hin.
    - now apply occupied_row_major_bounds. }
  pose proof (written_newBoard b (N.of_nat (length b))) as Hnew.
  rewrite Nat2N.id in Hnew. split.
  - destruct (write_turns_written b (length b) (occupied_row_major b) []
                (newBoard (N.of_nat (length b))) Hnew Hts) as (x' & E & Hw).
    rewrite E. f_equal. now apply written_all.
  - intros f f' errs Hsize Hboard Hu Hrep Herrs.
    apply written_all; [assumption|].
    apply (replay_written b (length b) (occupied_row_major b) [] f f' errs);
      try assumption.
    rewrite Hboard, Hsize. exact Hnew.
Qed.

(** An instance of the amended C8: a preset board with one mark of each
    player in its first row, replayed on the game [Start] returns for
    size 3. *)
Lemma preset_history_reproduces_board_witness :
  WithBoard (alloc [[1; 2; 0]; [0; 0; 0]; [0; 0; 0]]%N) draft
  = (mkgame (alloc [[1; 2; 0]; [0; 0; 0]; [0; 0; 0]]%N) None standardConditions 9 0%N 3
            StateAwaitingTurn [mkTurn (mkCell 0 0) 1%N; mkTurn (mkCell 1 0) 2%N],
     None)
  /\ Start [WithSize 3]
     = Val (Some (mkgame (alloc (newBoard 3)) None standardConditions 9 PlayerOne 3
                         StateAwaitingTurn []), None)
  /\ exists f' errs,
       replay (mkgame (alloc (newBoard 3)) None standardConditions 9 PlayerOne 3
                      StateAwaitingTurn [])
              [mkTurn (mkCell 0 0) 1%N; mkTurn (mkCell 1 0) 2%N]
       = Val (f', errs)
       /\ errs = [None; None]
       /\ board f' = [[1; 2; 0]; [0; 0; 0]; [0; 0; 0]]%N.
Proof.
  split; [reflexivity|]. split; [reflexivity|].
  do 2 eexists. split; [reflexivity|]. split; [reflexivity|].
  destruct (preset_history_reproduces_board
              (alloc [[1; 2; 0]; [0; 0; 0]; [0; 0; 0]]%N) draft
              (mkgame (alloc [[1; 2; 0]; [0; 0; 0]; [0; 0; 0]]%N) None standardConditions
                      9 0%N 3 StateAwaitingTurn
                      [mkTurn (mkCell 0 0) 1%N; mkTurn (mkCell 1 0) 2%N])
              eq_refl) as [_ Hreplay].
  eapply (Hreplay (mkgame (alloc (newBoard 3)) None standardConditions 9 PlayerOne 3
                          StateAwaitingTurn [])).
  - reflexivity.
  - reflexivity.
  - reflexivity.
  - reflexivity.
  - intros e [<- | [<- | []]]; reflexivity.
Defined.

(** ** The standard conditions answer on square boards *)

Lemma bind_total : forall (A B : Type) (c : go A) (k : A -> go B),
  (exists a, c = Val a) -> (forall a, exists b, k a = Val b) ->
  exists b, bind c k = Val b.
Proof.
  intros A B c k [a ->] Hk. simpl. apply Hk.
Qed.

Lemma findWinnerFromLeft_from_total : forall rows i player_,
  (forall k cols, nth_error rows k = Some cols -> i + k < length cols) ->
  exists w, findWinnerFromLeft_from i rows player_ = Val w.
Proof.
  induction rows as [|cols rest IH]; intros i player_ Hlen; simpl.
  - eexists; reflexivity.
  - destruct (index_Val _ cols i) as (current & E & _).
    { specialize (Hlen 0 cols eq_refl). lia. }
    rewrite E. simpl.
    assert (Hrest : forall k c, nth_error rest k = Some c -> S i + k < length c).
    { intros k c Hk. specialize (Hlen (S k) c Hk). lia. }
    destruct (current =? 0)%N; [eexists; reflexivity|].
    destruct (player_ =? 0)%N; [now apply IH|].
    destruct (negb (current =? player_)%N); [eexists; reflexivity | now apply IH].
Qed.

Lemma findWinnerFromRight_from_total : forall rows l i player_,
  (forall cols, In cols rows -> length cols = l /\ 0 < l) ->
  exists w, findWinnerFromRight_from l i rows player_ = Val w.
Proof.
  induction rows as [|cols rest IH]; intros l i player_ Hlen; simpl.
  - eexists; reflexivity.
  - destruct (index_Val _ cols (l - i - 1)) as (current & E & _).
    { destruct (Hlen cols (or_introl eq_refl)). lia. }
    rewrite E. simpl.
    assert (Hrest : forall c, In c rest -> length c = l /\ 0 < l)
      by (intros c Hc; apply Hlen; now right).
    destruct (current =? 0)%N; [eexists; reflexivity|].
    destruct (player_ =? 0)%N; [now apply IH|].
    destruct (negb (current =? player_)%N); [eexists; reflexivity | now apply IH].
Qed.

Lemma isWinningTurnFromLeft_from_total : forall rows i t,
  (forall k cols, nth_error rows k = Some cols -> i + k < length cols) ->
  exists w, isWinningTurnFromLeft_from i rows t = Val w.
Proof.
  induction rows as [|cols rest IH]; intros i t Hlen; simpl.
  - eexists; reflexivity.
  - destruct (index_Val _ cols i) as (current & E & _).
    { specialize (Hlen 0 cols eq_refl). lia. }
    rewrite E. simpl.
    destruct (negb (current =? Turn_Player t)%N); [eexists; reflexivity|].
    apply IH. intros k c Hk. specialize (Hlen (S k) c Hk). lia.
Qed.

Lemma isWinningTurnFromRight_from_total : forall rows l i t,
  (forall cols, In cols rows -> length cols = l /\ 0 < l) ->
  exists w, isWinningTurnFromRight_from l i rows t = Val w.
Proof.
  induction rows as [|cols rest IH]; intros l i t Hlen; simpl.
  - eexists; reflexivity.
  - destruct (index_Val _ cols (l - i - 1)) as (current & E & _).
    { destruct (Hlen cols (or_introl eq_refl)). lia. }
    rewrite E. simpl.
    destruct (negb (current =? Turn_Player t)%N); [eexists; reflexivity|].
    apply IH. intros c Hc. apply Hlen. now right.
Qed.

Lemma findWinnerFromCol_from_total : forall rows col player_,
  (forall cols, In cols rows -> N.to_nat col < length cols) ->
  exists w, findWinnerFromCol_from rows col player_ = Val w.
Proof.
  induction rows as [|cols rest IH]; intros col player_ Hlen; simpl.
  - eexists; reflexivity.
  - destruct (index_Val _ cols (N.to_nat col)) as (current & E & _).
    { apply Hlen. now left. }
    rewrite E. simpl.
    assert (Hrest : forall c, In c rest -> N.to_nat col < length c)
      by (intros c Hc; apply Hlen; now right).
    destruct (current =? 0)%N; [eexists; reflexivity|].
    destruct (player_ =? 0)%N; [now apply IH|].
    destruct (negb (player_ =? current)%N); [eexists; reflexivity | now apply IH].
Qed.

Lemma verticalCondition_FindWinner_from_total : forall b count i,
  (forall cols, In cols b -> i + count <= length cols) ->
  i + count <= 256 ->
  exists w, verticalCondition_FindWinner_from b i count = Val w.
Proof.
  intros b. induction count as [|count IH]; intros i Hlen Hi; simpl.
  - eexists; reflexivity.
  - destruct (findWinnerFromCol_from_total b (uint8 i) 0%N) as (w & E).
    { intros cols Hc. rewrite uint8_small, Nat2N.id by lia.
      specialize (Hlen cols Hc). lia. }
    unfold verticalCondition_findWinnerFromCol. rewrite E. simpl.
    destruct (0 <? w)%N; [eexists; reflexivity|].
    apply IH; [|lia]. intros cols Hc. specialize (Hlen cols Hc). lia.
Qed.

Lemma verticalCondition_IsWinningTurn_rows_total : forall rows t,
  (forall cols, In cols rows -> N.to_nat (Turn_Column t) < length cols) ->
  exists w, verticalCondition_IsWinningTurn_rows rows t = Val w.
Proof.
  induction rows as [|cols rest IH]; intros t Hlen; simpl.
  - eexists; reflexivity.
  - destruct (index_Val _ cols (N.to_nat (Turn_Column t))) as (current & E & _).
    { apply Hlen. now left. }
    rewrite E. simpl.
    destruct (negb (current =? Turn_Player t)%N); [eexists; reflexivity|].
    apply IH. intros c Hc. apply Hlen. now right.
Qed.

Lemma square_nth_error : forall n b k cols,
  square n b = true -> nth_error b k = Some cols -> length cols = n /\ k < n.
Proof.
  intros n b k cols Hs Hk. split; [eapply square_row; eassumption|].
  apply square_spec in Hs. destruct Hs as [Hl _]. rewrite <- Hl.
  apply nth_error_Some. congruence.
Qed.

Lemma square_In : forall n b cols,
  square n b = true -> In cols b -> length cols = n /\ 0 < n.
Proof.
  intros n b cols Hs Hin. apply In_nth_error in Hin. destruct Hin as [k Hk].
  destruct (square_nth_error n b k cols Hs Hk). split; [assumption | lia].
Qed.

Lemma Conditions_FindWinner_from_total : forall cs b i,
  (forall c, In c cs -> exists w, FindWinner c b = Val w) ->
  exists r, Conditions_FindWinner_from i cs b = Val r.
Proof.
  induction cs as [|c rest IH]; intros b i Hcs; simpl.
  - eexists; reflexivity.
  - destruct (Hcs c (or_introl eq_refl)) as [w E]. rewrite E. simpl.
    destruct (negb (Player_IsValidOrZero w)); [eexists; reflexivity|].
    destruct (0 <? w)%N; [eexists; reflexivity|].
    apply IH. intros c' Hc'. apply Hcs. now right.
Qed.

Lemma Conditions_IsWinningTurn_total : forall cs b t,
  (forall c, In c cs -> exists w, IsWinningTurn c b t = Val w) ->
  exists w, Conditions_IsWinningTurn cs b t = Val w.
Proof.
  induction cs as [|c rest IH]; intros b t Hcs; simpl.
  - eexists; reflexivity.
  - destruct (Hcs c (or_introl eq_refl)) as [w E]. rewrite E. simpl.
    destruct w; [eexists; reflexivity|].
    apply IH. intros c' Hc'. apply Hcs. now right.
Qed.

(** The row, column and diagonal conditions answer both questions on
    every square board of at most 255 rows. *)
Lemma standardConditions_answer : forall n,
  n <= 255 -> answers_on n standardConditions.
Proof.
  intros n Hn b Hs.
  pose proof Hs as Hs'. apply square_spec in Hs'. destruct Hs' as [Hl _].
  split.
  - assert (Hh : exists w, FindWinner horizontalCondition b = Val w)
      by (eexists; reflexivity).
    assert (Hv : exists w, FindWinner verticalCondition b = Val w).
    { apply verticalCondition_FindWinner_from_total; [|simpl; lia].
      intros cols Hc. destruct (square_In n b cols Hs Hc). simpl. lia. }
    assert (Hd : exists w, FindWinner diagonalCondition b = Val w).
    { simpl. unfold diagonalCondition_FindWinner.
      apply bind_total.
      - apply findWinnerFromLeft_from_total. intros k cols Hk.
        destruct (square_nth_error n b k cols Hs Hk). simpl. lia.
      - intros w. destruct (0 <? w)%N; [eexists; reflexivity|].
        apply bind_total.
        + apply findWinnerFromRight_from_total. intros cols Hc.
          destruct (square_In n b cols Hs Hc). split; lia.
        + intros w'. destruct (0 <? w')%N; eexists; reflexivity. }
    apply Conditions_FindWinner_from_total.
    intros c [<- | [<- | [<- | []]]]; assumption.
  - intros t Hr Hc.
    assert (Hh : exists w, IsWinningTurn horizontalCondition b t = Val w).
    { simpl. unfold horizontalCondition_IsWinningTurn.
      destruct (index_Val _ b (N.to_nat (Turn_Row t))) as (cols & E & _); [lia|].
      rewrite E. eexists; reflexivity. }
    assert (Hv : exists w, IsWinningTurn verticalCondition b t = Val w).
    { apply verticalCondition_IsWinningTurn_rows_total.
      intros cols Hin. destruct (square_In n b cols Hs Hin). lia. }
    assert (Hd : exists w, IsWinningTurn diagonalCondition b t = Val w).
    { simpl. unfold diagonalCondition_IsWinningTurn.
      apply bind_total.
      - destruct (Turn_Row t =? Turn_Column t)%N; [|eexists; reflexivity].
        apply isWinningTurnFromLeft_from_total. intros k cols Hk.
        destruct (square_nth_error n b k cols Hs Hk). simpl. lia.
      - intros w. destruct w; [eexists; reflexivity|].
        apply bind_total.
        + match goal with |- context [if ?c then _ else _] => destruct c end;
            [|eexists; reflexivity].
          apply isWinningTurnFromRight_from_total. intros cols Hin.
          destruct (square_In n b cols Hs Hin). split; lia.
        + intros w'. destruct w'; eexists; reflexivity. }
    apply Conditions_IsWinningTurn_total.
    intros c [<- | [<- | [<- | []]]]; assumption.
Qed.

(** ** Looking ahead on a copy of the board *)

Lemma Board_Copy_square : forall n b, square n b = true -> Board_Copy b = b.
Proof.
  intros n b Hs. apply square_spec in Hs. destruct Hs as [Hl Hrows].
  unfold Board_Copy.
  transitivity (map (fun cols : list Player => cols) b); [|apply map_id].
  apply map_ext_in. intros cols Hin. cbv beta.
  rewrite (Hrows cols Hin), Hl, Nat.sub_diag. simpl. rewrite app_nil_r.
  apply firstn_all2. rewrite (Hrows cols Hin). apply Nat.le_refl.
Qed.

Lemma FindEmpty_cols_In : forall cols row col c,
  In c (FindEmpty_cols row col cols) ->
  Row c = uint8 row
  /\ exists k, k < length cols /\ Column c = uint8 (col + k)
               /\ nth_error cols k = Some 0%N.
Proof.
  induction cols as [|p rest IH]; intros row col c Hin; simpl in Hin.
  - contradiction.
  - destruct (N.eqb_spec p 0) as [->|Hp].
    + destruct Hin as [<- | Hin].
      * split; [reflexivity|]. exists 0. simpl. rewrite Nat.add_0_r.
        repeat split. lia.
      * destruct (IH row (S col) c Hin) as (Hr & k & Hk & Hc & Hn).
        split; [assumption|]. exists (S k). simpl. repeat split; try lia.
        -- rewrite Hc. f_equal. lia.
        -- assumption.
    + destruct (IH row (S col) c Hin) as (Hr & k & Hk & Hc & Hn).
      split; [assumption|]. exists (S k). simpl. repeat split; try lia.
      * rewrite Hc. f_equal. lia.
      * assumption.
Qed.

Lemma FindEmpty_rows_In : forall rows row c,
  In c (FindEmpty_rows row rows) ->
  exists r k cols,
    nth_error rows r = Some cols /\ Row c = uint8 (row + r)
    /\ k < length cols /\ Column c = uint8 k /\ nth_error cols k = Some 0%N.
Proof.
  induction rows as [|cols rest IH]; intros row c Hin; simpl in Hin.
  - contradiction.
  - apply in_app_or in Hin. destruct Hin as [Hin | Hin].
    + apply FindEmpty_cols_In in Hin. destruct Hin as (Hr & k & Hk & Hc & Hn).
      exists 0, k, cols. rewrite Nat.add_0_r. repeat split; assumption.
    + destruct (IH (S row) c Hin) as (r & k & cols' & Hn & Hr & Hk & Hc & Hz).
      exists (S r), k, cols'. repeat split; try assumption.
      rewrite Hr. f_equal. lia.
Qed.

(** The cells [Board.FindEmpty] finds on a square board of at most 255
    rows are on the board and empty. *)
Lemma Board_FindEmpty_In : forall n b c,
  square n b = true -> n <= 255 -> In c (Board_FindEmpty b) ->
  N.to_nat (Row c) < n /\ N.to_nat (Column c) < n
  /\ Board_at b (Row c) (Column c) = Val 0%N.
Proof.
  intros n b c Hs Hn Hin. unfold Board_FindEmpty in Hin.
  apply FindEmpty_rows_In in Hin.
  destruct Hin as (r & k & cols & Hr & HR & Hk & HC & Hz).
  pose proof (square_row _ _ _ _ Hs Hr) as Hl.
  assert (Hrn : r < n).
  { apply square_spec in Hs. destruct Hs as [Hlb _]. rewrite <- Hlb.
    apply nth_error_Some. congruence. }
  simpl in HR. rewrite uint8_small in HR by lia. rewrite uint8_small in HC by lia.
  rewrite HR, HC, !Nat2N.id. repeat split; try lia.
  unfold Board_at, index. rewrite !Nat2N.id, Hr. simpl. rewrite Hz. reflexivity.
Qed.

Lemma marked_square : forall n b c p,
  square n b = true -> N.to_nat (Row c) < n -> N.to_nat (Column c) < n ->
  Board_assign (Board_Copy b) (Row c) (Column c) p = Val (marked b c p)
  /\ square n (marked b c p) = true.
Proof.
  intros n b c p Hs Hr Hc. unfold marked.
  rewrite (Board_Copy_square n b Hs).
  destruct (Board_assign_square n b (Row c) (Column c) p Hs Hr Hc)
    as (b' & E & Hs' & _).
  rewrite E. split; [reflexivity | assumption].
Qed.

Lemma FindEmpty_cols_seq : forall cols row col,
  row < 256 -> col + length cols <= 256 ->
  FindEmpty_cols row col cols
  = flat_map (fun k => if (nth k cols 0 =? 0)%N
                       then [mkCell (N.of_nat (col + k)) (N.of_nat row)] else [])
             (seq 0 (length cols)).
Proof.
  induction cols as [|p rest IH]; intros row col Hrow Hcol.
  - reflexivity.
  - simpl in Hcol. simpl length. rewrite <- cons_seq. simpl flat_map.
    rewrite flat_map_seq_shift. simpl FindEmpty_cols.
    rewrite (IH row (S col)) by lia.
    rewrite Nat.add_0_r, !uint8_small by lia.
    assert (E : flat_map (fun k => if (nth k rest 0 =? 0)%N
                                   then [mkCell (N.of_nat (S col + k)) (N.of_nat row)]
                                   else [])
                         (seq 0 (length rest))
                = flat_map (fun k => if (nth (S k) (p :: rest) 0 =? 0)%N
                                     then [mkCell (N.of_nat (col + S k)) (N.of_nat row)]
                                     else [])
                           (seq 0 (length rest))).
    { apply flat_map_ext_in. intros k _. simpl nth.
      replace (S col + k) with (col + S k) by lia. reflexivity. }
    rewrite E. destruct (p =? 0)%N; reflexivity.
Qed.

Lemma FindEmpty_rows_seq : forall rows row,
  row + length rows <= 256 ->
  (forall cols, In cols rows -> length cols <= 256) ->
  FindEmpty_rows row rows
  = flat_map (fun r =>
                flat_map (fun k => if (nth k (nth r rows []) 0 =? 0)%N
                                   then [mkCell (N.of_nat k) (N.of_nat (row + r))]
                                   else [])
                         (seq 0 (length (nth r rows []))))
             (seq 0 (length rows)).
Proof.
  induction rows as [|cols rest IH]; intros row Hrow Hcols.
  - reflexivity.
  - simpl in Hrow. simpl length. rewrite <- cons_seq. simpl flat_map.
    rewrite flat_map_seq_shift. simpl FindEmpty_rows.
    rewrite (IH (S row)) by (try lia; intros c Hc; apply Hcols; now right).
    rewrite FindEmpty_cols_seq
      by (try lia; simpl; apply Hcols; now left).
    rewrite Nat.add_0_r. f_equal.
    apply flat_map_ext_in. intros r _. simpl nth.
    replace (S row + r) with (row + S r) by lia. reflexivity.
Qed.

Lemma filter_flat_map_if : forall (A B : Type) (f : B -> bool) (g : A -> B) (l : list A),
  filter f (map g l) = flat_map (fun a => if f (g a) then [g a] else []) l.
Proof.
  intros A B f g l. induction l as [|a l IH]; [reflexivity|].
  simpl. rewrite IH. destruct (f (g a)); reflexivity.
Qed.

Lemma filter_flat_map_nested : forall (A B : Type) (f : B -> bool) (g : A -> list B)
  (l : list A),
  filter f (flat_map g l) = flat_map (fun a => filter f (g a)) l.
Proof.
  intros A B f g l. induction l as [|a l IH]; [reflexivity|].
  simpl. rewrite filter_app, IH. reflexivity.
Qed.

(** [Board.FindEmpty] on a square board of at most 255 rows: the cells
    in row-major scan order that hold zero. *)
Lemma Board_FindEmpty_row_major : forall n b,
  square n b = true -> n <= 255 ->
  Board_FindEmpty b
  = filter (fun c => match Board_at b (Row c) (Column c) with
                     | Val p => (p =? 0)%N
                     | _ => false
                     end)
           (cells_row_major n).
Proof.
  intros n b Hs Hn. pose proof Hs as Hs'. apply square_spec in Hs'.
  destruct Hs' as [Hl Hrows].
  unfold Board_FindEmpty, cells_row_major.
  rewrite FindEmpty_rows_seq;
    [| simpl; lia | intros cols Hc; rewrite (Hrows cols Hc); lia].
  rewrite filter_flat_map_nested, Hl.
  apply flat_map_ext_in. intros r Hr. apply in_seq in Hr.
  assert (Hlr : length (nth r b []) = n) by (apply Hrows, nth_In; lia).
  rewrite filter_flat_map_if, Hlr.
  apply flat_map_ext_in. intros k Hk. apply in_seq in Hk. simpl.
  rewrite Board_at_nth by lia. reflexivity.
Qed.

(** ** The hard bot *)

Lemma last_app_cons : forall (A : Type) (l1 : list A) a l2 d,
  last (l1 ++ a :: l2) d = last (a :: l2) d.
Proof.
  intros A l1 a l2 d. induction l1 as [|x l1 IH]; [reflexivity|].
  simpl app. rewrite <- IH. simpl.
  destruct (l1 ++ a :: l2) eqn:E; [|reflexivity].
  destruct l1; discriminate E.
Qed.

Lemma last_or_app : forall (l1 l2 : Cells) fallback,
  last_or (l1 ++ l2) fallback = last_or l2 (last_or l1 fallback).
Proof.
  intros l1 l2 fallback. destruct l2 as [|c2 l2].
  - rewrite app_nil_r. reflexivity.
  - destruct l1 as [|c1 l1]; [reflexivity|].
    unfold last_or.
    rewrite <- (last_app_cons _ (c1 :: l1) c2 l2 zeroCell). reflexivity.
Qed.

(** The inner loop keeps the last reply of the opponent that is
    reported as winning, or what it was given when there is none. *)
Lemma hardBot_Turn_oppLoop_spec :
  forall (W : Board -> Turn -> bool) cs opponent n nextBoard,
    (forall b t, square n b = true ->
                 N.to_nat (Turn_Row t) < n -> N.to_nat (Turn_Column t) < n ->
                 Conditions_IsWinningTurn cs b t = Val (W b t)) ->
    square n nextBoard = true ->
    forall oppCandidates oppWinner,
      (forall oc, In oc oppCandidates ->
                  N.to_nat (Row oc) < n /\ N.to_nat (Column oc) < n) ->
      hardBot_Turn_oppLoop opponent nextBoard cs oppCandidates oppWinner
      = Val (last_or (filter (fun oc => W (marked nextBoard oc opponent)
                                          (mkTurn oc opponent))
                             oppCandidates)
                     oppWinner).
Proof.
  intros W cs opponent n nextBoard HW Hs.
  induction oppCandidates as [|oc rest IH]; intros oppWinner Hin.
  - reflexivity.
  - destruct (Hin oc (or_introl eq_refl)) as [Hr Hc].
    destruct (marked_square n nextBoard oc opponent Hs Hr Hc) as [E Hs'].
    simpl. rewrite E. simpl. rewrite HW by assumption. simpl.
    rewrite IH by (intros oc' H'; apply Hin; now right).
    destruct (W (marked nextBoard oc opponent) (mkTurn oc opponent)).
    + change (oc :: filter (fun oc0 => W (marked nextBoard oc0 opponent)
                                         (mkTurn oc0 opponent)) rest)
        with ([oc] ++ filter (fun oc0 => W (marked nextBoard oc0 opponent)
                                           (mkTurn oc0 opponent)) rest).
      rewrite last_or_app. reflexivity.
    + reflexivity.
Qed.

(** The outer loop returns the first candidate that is reported as
    winning for the bot; when there is none it ends with the last
    reply of the opponent reported as winning over all candidates, or
    what it was given when there is none. *)
Lemma hardBot_Turn_loop_spec :
  forall (W : Board -> Turn -> bool) cs opponent player_ n board_,
    (forall b t, square n b = true ->
                 N.to_nat (Turn_Row t) < n -> N.to_nat (Turn_Column t) < n ->
                 Conditions_IsWinningTurn cs b t = Val (W b t)) ->
    square n board_ = true -> n <= 255 ->
    forall candidates oppWinner,
      (forall c, In c candidates ->
                 N.to_nat (Row c) < n /\ N.to_nat (Column c) < n) ->
      hardBot_Turn_loop opponent player_ board_ cs candidates oppWinner
      = Val (match filter (fun c => W (marked board_ c player_) (mkTurn c player_))
                          candidates with
             | w :: _ => inl w
             | [] =>
                 inr (last_or
                        (flat_map
                           (fun c =>
                              filter (fun oc =>
                                        W (marked (marked board_ c player_) oc opponent)
                                          (mkTurn oc opponent))
                                     (Board_FindEmpty (marked board_ c player_)))
                           candidates)
                        oppWinner)
             end).
Proof.
  intros W cs opponent player_ n board_ HW Hs Hn.
  induction candidates as [|c rest IH]; intros oppWinner Hin.
  - reflexivity.
  - destruct (Hin c (or_introl eq_refl)) as [Hr Hc].
    destruct (marked_square n board_ c player_ Hs Hr Hc) as [E Hs'].
    simpl. rewrite E. simpl. rewrite HW by assumption. simpl.
    destruct (W (marked board_ c player_) (mkTurn c player_)); [reflexivity|].
    rewrite (hardBot_Turn_oppLoop_spec W cs opponent n (marked board_ c player_) HW Hs').
    2:{ intros oc Hoc.
        destruct (Board_FindEmpty_In n _ oc Hs' Hn Hoc) as (H1 & H2 & _).
        split; assumption. }
    simpl. rewrite IH by (intros c' H'; apply Hin; now right).
    destruct (filter (fun c0 => W (marked board_ c0 player_) (mkTurn c0 player_)) rest);
      [|reflexivity].
    rewrite last_or_app. reflexivity.
Qed.

Lemma Cells_Random_In : forall rnd (cs : Cells),
  cs <> [] ->
  Cells_Random rnd cs = nth (Intn rnd (length cs)) cs zeroCell
  /\ Intn rnd (length cs) < length cs
  /\ In (Cells_Random rnd cs) cs.
Proof.
  intros rnd cs Hne. destruct cs as [|c cs]; [contradiction|].
  assert (Hlt : Intn rnd (length (c :: cs)) < length (c :: cs))
    by (apply Intn_lt; simpl; lia).
  unfold Cells_Random. repeat split; try assumption.
  now apply nth_In.
Qed.

Lemma answers_on_reported : forall n cs,
  answers_on n cs ->
  forall b t, square n b = true ->
              N.to_nat (Turn_Row t) < n -> N.to_nat (Turn_Column t) < n ->
              Conditions_IsWinningTurn cs b t = Val (reported_winning cs b t).
Proof.
  intros n cs Hans b t Hs Hr Hc. destruct (Hans b Hs) as [_ Ht].
  destruct (Ht t Hr Hc) as [w E]. unfold reported_winning. rewrite E. reflexivity.
Qed.

(** C5. On a square board with an empty cell, with conditions that
    answer every question on boards of its size, the candidates of the
    hard bot are the empty cells in row-major scan order, and it
    returns: the first candidate that, marked with its player, is
    reported a winning turn, if there is one; otherwise the last cell
    found, over all candidates in scan order and all replies of the
    opponent to each of them in scan order, that marked with the
    opponent on the board after the candidate is reported a winning
    turn, if there is one; otherwise the candidate at the index the
    random source draws below their number. *)
Theorem hardBot_Turn_choice :
  forall (p : Player) (rnd : Rand) (n : nat) (board_ : Board) (game_ : Game),
    answers_on n (Game_Conditions game_) ->
    square n board_ = true -> n <= 255 ->
    Board_FindEmpty board_ <> [] ->
    Board_FindEmpty board_
    = filter (fun c => match Board_at board_ (Row c) (Column c) with
                       | Val mark => (mark =? 0)%N
                       | _ => false
                       end)
             (cells_row_major n)
    /\ (forall w rest,
           filter (fun c => reported_winning (Game_Conditions game_)
                              (marked board_ c p) (mkTurn c p))
                  (Board_FindEmpty board_)
           = w :: rest ->
           Bot_Turn (NewHardBot p) rnd board_ game_ = Val (w, None))
    /\ (filter (fun c => reported_winning (Game_Conditions game_)
                           (marked board_ c p) (mkTurn c p))
               (Board_FindEmpty board_)
        = [] ->
        forall found,
          found = flat_map
                    (fun c =>
                       filter (fun oc =>
                                 reported_winning (Game_Conditions game_)
                                   (marked (marked board_ c p) oc (Player_Next p))
                                   (mkTurn oc (Player_Next p)))
                              (Board_FindEmpty (marked board_ c p)))
                    (Board_FindEmpty board_) ->
          (found <> [] ->
           Bot_Turn (NewHardBot p) rnd board_ game_ = Val (last found zeroCell, None))
          /\ (found = [] ->
              Bot_Turn (NewHardBot p) rnd board_ game_
              = Val (nth (Intn rnd (length (Board_FindEmpty board_)))
                         (Board_FindEmpty board_) zeroCell, None)
              /\ Intn rnd (length (Board_FindEmpty board_))
                 < length (Board_FindEmpty board_)
              /\ In (nth (Intn rnd (length (Board_FindEmpty board_)))
                         (Board_FindEmpty board_) zeroCell)
                    (Board_FindEmpty board_))).
Proof.
  intros p rnd n board_ game_ Hans Hs Hn Hne.
  split; [now apply Board_FindEmpty_row_major|].
  assert (Hloop :=
            hardBot_Turn_loop_spec (reported_winning (Game_Conditions game_))
              (Game_Conditions game_) (Player_Next p) p n board_
              (answers_on_reported n _ Hans) Hs Hn (Board_FindEmpty board_) None
              (fun c Hc => let '(conj H1 (conj H2 _)) :=
                             Board_FindEmpty_In n board_ c Hs Hn Hc in conj H1 H2)).
  simpl Bot_Turn. unfold hardBot_Turn. rewrite Hloop. clear Hloop.
  split.
  - intros w rest Hw. rewrite Hw. reflexivity.
  - intros Hnone found Hfound. rewrite Hnone, <- Hfound. simpl. split.
    + intros Hf. destruct found; [contradiction | reflexivity].
    + intros ->. simpl.
      destruct (Cells_Random_In rnd (Board_FindEmpty board_) Hne) as (E & Hlt & Hin).
      rewrite E in *. repeat split; assumption.
Qed.

(** An instance of C5: player one holds two cells of a diagonal, the
    bot of player two cannot win at once and blocks the third. *)
Lemma hardBot_Turn_choice_witness :
  Bot_Turn (NewHardBot PlayerTwo) (mkRand (fun _ => 0) (fun _ H => H))
           [[1; 2; 0]; [0; 1; 0]; [0; 0; 0]]%N
           (as_Game (mkgame (alloc [[1; 2; 0]; [0; 1; 0]; [0; 0; 0]]%N)
                            (Some (NewHardBot PlayerTwo)) standardConditions 9
                            PlayerTwo 3 StateAwaitingTurn
                            [mkTurn (mkCell 0 0) 1%N; mkTurn (mkCell 1 0) 2%N;
                             mkTurn (mkCell 1 1) 1%N]))
  = Val (mkCell 2 2, None).
Proof.
  destruct (hardBot_Turn_choice PlayerTwo (mkRand (fun _ => 0) (fun _ H => H)) 3
              [[1; 2; 0]; [0; 1; 0]; [0; 0; 0]]%N
              (as_Game (mkgame (alloc [[1; 2; 0]; [0; 1; 0]; [0; 0; 0]]%N)
                               (Some (NewHardBot PlayerTwo)) standardConditions 9
                               PlayerTwo 3 StateAwaitingTurn
                               [mkTurn (mkCell 0 0) 1%N; mkTurn (mkCell 1 0) 2%N;
                                mkTurn (mkCell 1 1) 1%N])))
    as (_ & _ & Hblock).
  - apply standardConditions_answer. lia.
  - reflexivity.
  - lia.
  - discriminate.
  - destruct (Hblock eq_refl _ eq_refl) as [Hfound _].
    apply Hfound. discriminate.
Defined.

(** ** The impossible bot *)

Lemma FindEmpty_cols_length : forall cols row col,
  length (FindEmpty_cols row col cols) = length (filter (fun p => (p =? 0)%N) cols).
Proof.
  induction cols as [|p rest IH]; intros row col; simpl; [reflexivity|].
  destruct (p =? 0)%N; simpl; rewrite IH; reflexivity.
Qed.

Lemma FindEmpty_rows_length : forall rows row,
  length (FindEmpty_rows row rows)
  = length (filter (fun p => (p =? 0)%N) (concat rows)).
Proof.
  induction rows as [|cols rest IH]; intros row; simpl; [reflexivity|].
  rewrite length_app, filter_app, length_app, FindEmpty_cols_length, IH. reflexivity.
Qed.

Lemma filter_zero_occupied : forall l : list N,
  length (filter (fun p => (p =? 0)%N) l)
  + length (filter (fun p => negb (p =? 0)%N) l) = length l.
Proof.
  induction l as [|p l IH]; simpl; [reflexivity|].
  destruct (p =? 0)%N; simpl; lia.
Qed.

Lemma square_length_concat : forall n b,
  square n b = true -> length (concat b) = n * n.
Proof.
  intros n b Hs. apply square_spec in Hs. destruct Hs as [Hl Hrows].
  rewrite <- Hl at 1. clear Hl.
  induction b as [|cols rest IH]; simpl; [reflexivity|].
  rewrite length_app, IH by (intros c Hc; apply Hrows; now right).
  rewrite (Hrows cols (or_introl eq_refl)). reflexivity.
Qed.

(** The empty cells and the occupied cells of a square board are all
    its cells. *)
Lemma empty_plus_occupied : forall n b,
  square n b = true -> length (Board_FindEmpty b) + count_occupied b = n * n.
Proof.
  intros n b Hs. unfold Board_FindEmpty, count_occupied.
  rewrite FindEmpty_rows_length, filter_zero_occupied.
  now apply square_length_concat.
Qed.

(** Marking an empty cell of a square board leaves one empty cell
    less. *)
Lemma marked_one_less : forall n b c p,
  square n b = true -> N.to_nat (Row c) < n -> N.to_nat (Column c) < n ->
  Board_at b (Row c) (Column c) = Val 0%N -> p <> 0%N ->
  S (length (Board_FindEmpty (marked b c p))) = length (Board_FindEmpty b).
Proof.
  intros n b c p Hs Hr Hc Hat Hp.
  destruct (marked_square n b c p Hs Hr Hc) as [E Hs'].
  rewrite (Board_Copy_square n b Hs) in E.
  pose proof (Board_assign_count_occupied _ _ _ _ _ E Hat Hp) as Hocc.
  pose proof (empty_plus_occupied n b Hs) as H1.
  pose proof (empty_plus_occupied n _ Hs') as H2.
  lia.
Qed.

Lemma minimax_pick_true : forall minC maxC c,
  minimax_pick true (minC, maxC) c
  = if (value maxC <? value c)%Z then (minC, c) else (minC, maxC).
Proof.
  intros minC maxC c. unfold minimax_pick. simpl.
  destruct (value maxC <? value c)%Z; reflexivity.
Qed.

Lemma minimax_pick_false : forall minC maxC c,
  minimax_pick false (minC, maxC) c
  = if (value c <? value minC)%Z then (c, maxC) else (minC, maxC).
Proof.
  intros minC maxC c. unfold minimax_pick. simpl.
  destruct (value c <? value minC)%Z; reflexivity.
Qed.

(** The loop over the choices keeps, on a maximising ply, the first
    choice of the greatest value, as long as one is above what it
    starts with; on a minimising ply the first of the least value. *)
Lemma fold_pick_max : forall choices minC maxC,
  (exists c, In c choices /\ (value maxC < value c)%Z) ->
  exists best pre post,
    snd (fold_left (minimax_pick true) choices (minC, maxC)) = best
    /\ choices = pre ++ best :: post
    /\ (forall x, In x pre -> (value x < value best)%Z)
    /\ (forall x, In x post -> (value x <= value best)%Z).
Proof.
  induction choices as [|c rest IH]; intros minC maxC (c0 & Hin & Hlt).
  - contradiction.
  - cbn [fold_left]. rewrite minimax_pick_true.
    destruct (Z.ltb_spec (value maxC) (value c)) as [Hc|Hc].
    + (* [c] is taken; either it stays or a later one is greater *)
      assert (Hdec : (exists c1, In c1 rest /\ (value c < value c1)%Z)
                     \/ (forall x, In x rest -> (value x <= value c)%Z)).
      { clear. induction rest as [|y rest IHr].
        - right. intros x [].
        - destruct IHr as [(c1 & H1 & H2) | Hall].
          + left. exists c1. split; [now right | assumption].
          + destruct (Z.lt_ge_cases (value c) (value y)).
            * left. exists y. split; [now left | assumption].
            * right. intros x [<- | Hx]; [lia | now apply Hall]. }
      destruct Hdec as [Hex | Hall].
      * destruct (IH minC c Hex) as (best & pre & post & E & Hsplit & Hpre & Hpost).
        exists best, (c :: pre), post.
        split; [exact E|]. split; [rewrite Hsplit; reflexivity|].
        split; [|exact Hpost].
        intros x [<- | Hx]; [|now apply Hpre].
        destruct Hex as (c1 & H1 & H2). rewrite Hsplit in H1.
        apply in_app_or in H1. destruct H1 as [H1 | [<- | H1]].
        -- specialize (Hpre _ H1). lia.
        -- assumption.
        -- specialize (Hpost _ H1). lia.
      * exists c, [], rest. split; [|split; [reflexivity|split]].
        -- clear -Hall. revert minC. induction rest as [|y rest IHr]; intros minC.
           ++ reflexivity.
           ++ cbn [fold_left]. rewrite minimax_pick_true.
              destruct (Z.ltb_spec (value c) (value y)) as [Hy|Hy].
              ** specialize (Hall y (or_introl eq_refl)). lia.
              ** apply IHr. intros x Hx. apply Hall. now right.
        -- intros x [].
        -- assumption.
    + destruct Hin as [<- | Hin]; [lia|].
      destruct (IH minC maxC (ex_intro _ c0 (conj Hin Hlt)))
        as (best & pre & post & E & Hsplit & Hpre & Hpost).
      exists best, (c :: pre), post.
      split; [exact E|]. split; [rewrite Hsplit; reflexivity|].
      split; [|exact Hpost].
      intros x [<- | Hx]; [|now apply Hpre].
      assert (value maxC < value best)%Z; [|lia].
      rewrite Hsplit in Hin. apply in_app_or in Hin.
      destruct Hin as [H1 | [<- | H1]].
      * specialize (Hpre _ H1). lia.
      * assumption.
      * specialize (Hpost _ H1). lia.
Qed.

Lemma fold_pick_min : forall choices minC maxC,
  (exists c, In c choices /\ (value c < value minC)%Z) ->
  exists best pre post,
    fst (fold_left (minimax_pick false) choices (minC, maxC)) = best
    /\ choices = pre ++ best :: post
    /\ (forall x, In x pre -> (value best < value x)%Z)
    /\ (forall x, In x post -> (value best <= value x)%Z).
Proof.
  induction choices as [|c rest IH]; intros minC maxC (c0 & Hin & Hlt).
  - contradiction.
  - cbn [fold_left]. rewrite minimax_pick_false.
    destruct (Z.ltb_spec (value c) (value minC)) as [Hc|Hc].
    + assert (Hdec : (exists c1, In c1 rest /\ (value c1 < value c)%Z)
                     \/ (forall x, In x rest -> (value c <= value x)%Z)).
      { clear. induction rest as [|y rest IHr].
        - right. intros x [].
        - destruct IHr as [(c1 & H1 & H2) | Hall].
          + left. exists c1. split; [now right | assumption].
          + destruct (Z.lt_ge_cases (value y) (value c)).
            * left. exists y. split; [now left | assumption].
            * right. intros x [<- | Hx]; [lia | now apply Hall]. }
      destruct Hdec as [Hex | Hall].
      * destruct (IH c maxC Hex) as (best & pre & post & E & Hsplit & Hpre & Hpost).
        exists best, (c :: pre), post.
        split; [exact E|]. split; [rewrite Hsplit; reflexivity|].
        split; [|exact Hpost].
        intros x [<- | Hx]; [|now apply Hpre].
        destruct Hex as (c1 & H1 & H2). rewrite Hsplit in H1.
        apply in_app_or in H1. destruct H1 as [H1 | [<- | H1]].
        -- specialize (Hpre _ H1). lia.
        -- assumption.
        -- specialize (Hpost _ H1). lia.
      * exists c, [], rest. split; [|split; [reflexivity|split]].
        -- clear -Hall. revert maxC. induction rest as [|y rest IHr]; intros maxC.
           ++ reflexivity.
           ++ cbn [fold_left]. rewrite minimax_pick_false.
              destruct (Z.ltb_spec (value y) (value c)) as [Hy|Hy].
              ** specialize (Hall y (or_introl eq_refl)). lia.
              ** apply IHr. intros x Hx. apply Hall. now right.
        -- intros x [].
        -- assumption.
    + destruct Hin as [<- | Hin]; [lia|].
      destruct (IH minC maxC (ex_intro _ c0 (conj Hin Hlt)))
        as (best & pre & post & E & Hsplit & Hpre & Hpost).
      exists best, (c :: pre), post.
      split; [exact E|]. split; [rewrite Hsplit; reflexivity|].
      split; [|exact Hpost].
      intros x [<- | Hx]; [|now apply Hpre].
      assert (value best < value minC)%Z; [|lia].
      rewrite Hsplit in Hin. apply in_app_or in Hin.
      destruct Hin as [H1 | [<- | H1]].
      * specialize (Hpre _ H1). lia.
      * assumption.
      * specialize (Hpost _ H1). lia.
Qed.

(** The loop over the candidates, when every recursive call returns a
    choice and no error: the choices of the children in the order of
    the candidates, each annotated with its candidate. *)
Lemma minimax_candidates_spec :
  forall (rec : Board -> Turn -> go (impossibleChoice * option error)) n board_ player_,
    square n board_ = true ->
    forall candidates children choices,
      (forall c, In c candidates ->
                 N.to_nat (Row c) < n /\ N.to_nat (Column c) < n) ->
      Forall2 (fun c ch => rec (marked board_ c player_) (mkTurn c player_)
                           = Val (ch, None))
              candidates children ->
      minimax_candidates rec board_ player_ candidates choices
      = Val (inl (choices ++ map (fun cc => annotate (fst cc) (snd cc))
                                 (combine candidates children))).
Proof.
  intros rec n board_ player_ Hs.
  induction candidates as [|c rest IH]; intros children choices Hin HF.
  - inversion HF; subst. simpl. now rewrite app_nil_r.
  - inversion HF as [|c' ch rest' children' Hc Hrest]; subst.
    destruct (Hin c (or_introl eq_refl)) as [Hr Hcol].
    destruct (marked_square n board_ c player_ Hs Hr Hcol) as [E _].
    simpl. rewrite E. simpl. rewrite Hc. simpl.
    rewrite (IH children' _ (fun c' H' => Hin c' (or_intror H')) Hrest).
    rewrite <- app_assoc. reflexivity.
Qed.

Lemma minimax_candidates_inv :
  forall (rec : Board -> Turn -> go (impossibleChoice * option error)) n board_ player_,
    square n board_ = true ->
    forall candidates choices result,
      (forall c, In c candidates ->
                 N.to_nat (Row c) < n /\ N.to_nat (Column c) < n) ->
      minimax_candidates rec board_ player_ candidates choices = Val (inl result) ->
      exists children,
        Forall2 (fun c ch => rec (marked board_ c player_) (mkTurn c player_)
                             = Val (ch, None))
                candidates children.
Proof.
  intros rec n board_ player_ Hs.
  induction candidates as [|c rest IH]; intros choices result Hin H.
  - exists []. constructor.
  - destruct (Hin c (or_introl eq_refl)) as [Hr Hcol].
    destruct (marked_square n board_ c player_ Hs Hr Hcol) as [E _].
    simpl in H. rewrite E in H. simpl in H.
    destruct (rec (marked board_ c player_) (mkTurn c player_))
      as [[ch [e|]]| |] eqn:Erec; simpl in H; try discriminate.
    destruct (IH _ _ (fun c' H' => Hin c' (or_intror H')) H) as (children & HF).
    exists (ch :: children). constructor; assumption.
Qed.

Lemma minimax_candidates_total :
  forall (rec : Board -> Turn -> go (impossibleChoice * option error)) n board_ player_,
    square n board_ = true ->
    forall candidates choices,
      (forall c, In c candidates ->
                 N.to_nat (Row c) < n /\ N.to_nat (Column c) < n) ->
      (forall c, In c candidates ->
                 exists r, rec (marked board_ c player_) (mkTurn c player_) = Val r) ->
      exists r, minimax_candidates rec board_ player_ candidates choices = Val r.
Proof.
  intros rec n board_ player_ Hs.
  induction candidates as [|c rest IH]; intros choices Hin Hrec.
  - eexists; reflexivity.
  - destruct (Hin c (or_introl eq_refl)) as [Hr Hcol].
    destruct (marked_square n board_ c player_ Hs Hr Hcol) as [E _].
    destruct (Hrec c (or_introl eq_refl)) as [[ch [e|]] Er];
      simpl; rewrite E; simpl; rewrite Er; simpl.
    + eexists; reflexivity.
    + apply IH; intros c' H'; [apply Hin | apply Hrec]; now right.
Qed.

Lemma Player_Next_nonzero : forall p, p <> 0%N -> Player_Next p <> 0%N.
Proof.
  intros p Hp. unfold Player_Next.
  destruct (p =? PlayerOne)%N; [discriminate|].
  destruct (p =? PlayerTwo)%N; [discriminate | assumption].
Qed.

(** The recursive calls of [minimax] at a node with the fuel of the
    node are the searches at its children. *)
Lemma minimax_child_is_search :
  forall b_player game_ n board_ c player_ max depth_,
    square n board_ = true -> n <= 255 -> player_ <> 0%N ->
    In c (Board_FindEmpty board_) ->
    minimax (length (Board_FindEmpty board_)) b_player (marked board_ c player_) game_
            (mkTurn c player_) max (Player_Next player_) depth_
    = search b_player game_ (marked board_ c player_) (mkTurn c player_) max
             (Player_Next player_) depth_.
Proof.
  intros b_player game_ n board_ c player_ max depth_ Hs Hn Hp Hin.
  destruct (Board_FindEmpty_In n board_ c Hs Hn Hin) as (Hr & Hc & Hat).
  unfold search, minimax_fuel.
  rewrite (marked_one_less n board_ c player_ Hs Hr Hc Hat Hp). reflexivity.
Qed.

Lemma Forall2_ext_in : forall (A B : Type) (P Q : A -> B -> Prop) l l',
  (forall a b, In a l -> P a b -> Q a b) -> Forall2 P l l' -> Forall2 Q l l'.
Proof.
  intros A B P Q l l' H HF. induction HF as [|a b l l' Hab HF IH].
  - constructor.
  - constructor.
    + apply H; [now left | assumption].
    + apply IH. intros a' b' Hin. apply H. now right.
Qed.

(** The search at a node that has no winner and an empty cell, when the
    searches at its children return choices and no error: the loop
    over the annotated choices of the children, started from the two
    sentinels. *)
Lemma search_internal :
  forall b_player game_ n board_ lastTurn max player_ depth_ winner children,
    square n board_ = true -> n <= 255 -> player_ <> 0%N ->
    Conditions_FindWinner (Game_Conditions game_) board_ = Val (winner, None) ->
    winner <> b_player -> winner <> Player_Next b_player ->
    Board_FindEmpty board_ <> [] ->
    Forall2 (fun c ch =>
               search b_player game_ (marked board_ c player_) (mkTurn c player_)
                      (negb max) (Player_Next player_) (depth_ + 1)%Z
               = Val (ch, None))
            (Board_FindEmpty board_) children ->
    search b_player game_ board_ lastTurn max player_ depth_
    = Val ((if max then snd else fst)
             (fold_left (minimax_pick max)
                        (map (fun cc => annotate (fst cc) (snd cc))
                             (combine (Board_FindEmpty board_) children))
                        (mkChoice zeroCell depth_ (pow2 (Game_MaxTurns game_ + 1)),
                         mkChoice zeroCell depth_ (- pow2 (Game_MaxTurns game_ + 1))%Z)),
           None).
Proof.
  intros b_player game_ n board_ lastTurn max player_ depth_ winner children
         Hs Hn Hp HW Hnb Hno Hne HF.
  unfold search at 1. unfold minimax_fuel. cbn [minimax]. rewrite HW. simpl bind.
  destruct (N.eqb_spec winner b_player); [contradiction|].
  destruct (N.eqb_spec winner (Player_Next b_player)); [contradiction|].
  destruct (Nat.eqb_spec (length (Board_FindEmpty board_)) 0) as [H0|_].
  { destruct (Board_FindEmpty board_); [contradiction | discriminate H0]. }
  rewrite (minimax_candidates_spec _ n board_ player_ Hs
             (Board_FindEmpty board_) children []).
  - simpl bind. simpl app.
    destruct (fold_left (minimax_pick max) _ _) as [minC maxC].
    destruct max; reflexivity.
  - intros c Hc. destruct (Board_FindEmpty_In n board_ c Hs Hn Hc) as (H1 & H2 & _).
    split; assumption.
  - apply (Forall2_ext_in _ _ _ _ _ _ (fun c ch Hc H => eq_trans
             (minimax_child_is_search b_player game_ n board_ c player_ (negb max)
                (depth_ + 1)%Z Hs Hn Hp Hc) H) HF).
Qed.

(** The searches at the children of a node whose search returns a
    choice and no error, the node having no winner and an empty cell,
    return choices and no error. *)
Lemma search_children :
  forall b_player game_ n board_ lastTurn max player_ depth_ winner choice,
    square n board_ = true -> n <= 255 -> player_ <> 0%N ->
    Conditions_FindWinner (Game_Conditions game_) board_ = Val (winner, None) ->
    winner <> b_player -> winner <> Player_Next b_player ->
    Board_FindEmpty board_ <> [] ->
    search b_player game_ board_ lastTurn max player_ depth_ = Val (choice, None) ->
    exists children,
      Forall2 (fun c ch =>
                 search b_player game_ (marked board_ c player_) (mkTurn c player_)
                        (negb max) (Player_Next player_) (depth_ + 1)%Z
                 = Val (ch, None))
              (Board_FindEmpty board_) children.
Proof.
  intros b_player game_ n board_ lastTurn max player_ depth_ winner choice
         Hs Hn Hp HW Hnb Hno Hne HS.
  unfold search in HS at 1. unfold minimax_fuel in HS. cbn [minimax] in HS.
  rewrite HW in HS. simpl bind in HS.
  destruct (N.eqb_spec winner b_player); [contradiction|].
  destruct (N.eqb_spec winner (Player_Next b_player)); [contradiction|].
  destruct (Nat.eqb_spec (length (Board_FindEmpty board_)) 0) as [H0|_].
  { destruct (Board_FindEmpty board_); [contradiction | discriminate H0]. }
  apply bind_Val in HS. destruct HS as ([choices | [ch e]] & Hcand & HS);
    [|discriminate HS].
  assert (Hrange : forall c, In c (Board_FindEmpty board_) ->
                             N.to_nat (Row c) < n /\ N.to_nat (Column c) < n).
  { intros c Hc. destruct (Board_FindEmpty_In n board_ c Hs Hn Hc) as (H1 & H2 & _).
    split; assumption. }
  destruct (minimax_candidates_inv _ n board_ player_ Hs _ _ _ Hrange Hcand)
    as (children & HF).
  exists children.
  apply (Forall2_ext_in _ _ _ _ _ _ (fun c ch Hc H => eq_trans (eq_sym
           (minimax_child_is_search b_player game_ n board_ c player_ (negb max)
              (depth_ + 1)%Z Hs Hn Hp Hc)) H) HF).
Qed.

Lemma Forall2_In_right : forall (A B : Type) (P : A -> B -> Prop) l l' b,
  Forall2 P l l' -> In b l' -> exists a, In a l /\ P a b.
Proof.
  intros A B P l l' b HF. induction HF as [|a0 b0 l l' Hab HF IH]; intros Hin.
  - contradiction.
  - destruct Hin as [<- | Hin].
    + exists a0. split; [now left | assumption].
    + destruct (IH Hin) as (a & Ha & HP). exists a. split; [now right | assumption].
Qed.

Lemma In_annotated : forall (candidates : Cells) (children : list impossibleChoice) x,
  In x (map (fun cc => annotate (fst cc) (snd cc)) (combine candidates children)) ->
  exists c ch, In c candidates /\ In ch children /\ x = annotate c ch.
Proof.
  intros candidates children x Hin. apply in_map_iff in Hin.
  destruct Hin as ([c ch] & <- & Hin). exists c, ch.
  split; [eapply in_combine_l; eassumption|].
  split; [eapply in_combine_r; eassumption | reflexivity].
Qed.

(** The node takes the first of its annotated children of the greatest
    value on a maximising ply and the first of the least value on a
    minimising ply, when the values of the children are within the
    sentinels. *)
Lemma search_internal_best :
  forall b_player game_ n board_ lastTurn max player_ depth_ winner children,
    square n board_ = true -> n <= 255 -> player_ <> 0%N ->
    Conditions_FindWinner (Game_Conditions game_) board_ = Val (winner, None) ->
    winner <> b_player -> winner <> Player_Next b_player ->
    Board_FindEmpty board_ <> [] ->
    Forall2 (fun c ch =>
               search b_player game_ (marked board_ c player_) (mkTurn c player_)
                      (negb max) (Player_Next player_) (depth_ + 1)%Z
               = Val (ch, None))
            (Board_FindEmpty board_) children ->
    (1 <= Game_MaxTurns game_)%Z ->
    (forall ch, In ch children ->
                (- (Game_MaxTurns game_ + 1) <= value ch <= Game_MaxTurns game_ + 1)%Z) ->
    exists best pre post,
      search b_player game_ board_ lastTurn max player_ depth_ = Val (best, None)
      /\ map (fun cc => annotate (fst cc) (snd cc))
             (combine (Board_FindEmpty board_) children)
         = pre ++ best :: post
      /\ (max = true ->
          (forall x, In x pre -> (value x < value best)%Z)
          /\ (forall x, In x post -> (value x <= value best)%Z))
      /\ (max = false ->
          (forall x, In x pre -> (value best < value x)%Z)
          /\ (forall x, In x post -> (value best <= value x)%Z)).
Proof.
  intros b_player game_ n board_ lastTurn max player_ depth_ winner children
         Hs Hn Hp HW Hnb Hno Hne HF HM Hbound.
  rewrite (search_internal b_player game_ n board_ lastTurn max player_ depth_
             winner children Hs Hn Hp HW Hnb Hno Hne HF).
  assert (Hfirst : exists x,
             In x (map (fun cc => annotate (fst cc) (snd cc))
                       (combine (Board_FindEmpty board_) children))
             /\ (- (Game_MaxTurns game_ + 1) <= value x
                 <= Game_MaxTurns game_ + 1)%Z).
  { inversion HF as [E1 E2 | c ch cs chs Hc Hrest E1 E2].
    - rewrite <- E1 in Hne. contradiction.
    - exists (annotate c ch). split; [now left|].
      simpl. apply Hbound. rewrite <- E2. now left. }
  destruct Hfirst as (x & Hx & Hxb).
  assert (Hsq : (Game_MaxTurns game_ + 1 < pow2 (Game_MaxTurns game_ + 1))%Z)
    by (unfold pow2; nia).
  destruct max.
  - destruct (fold_pick_max
                (map (fun cc => annotate (fst cc) (snd cc))
                     (combine (Board_FindEmpty board_) children))
                (mkChoice zeroCell depth_ (pow2 (Game_MaxTurns game_ + 1)))
                (mkChoice zeroCell depth_ (- pow2 (Game_MaxTurns game_ + 1))%Z))
      as (best & pre & post & E & Hsplit & Hpre & Hpost).
    { exists x. split; [assumption|]. simpl. lia. }
    exists best, pre, post. rewrite E.
    split; [reflexivity|]. split; [assumption|].
    split; [intros _; split; assumption | discriminate].
  - destruct (fold_pick_min
                (map (fun cc => annotate (fst cc) (snd cc))
                     (combine (Board_FindEmpty board_) children))
                (mkChoice zeroCell depth_ (pow2 (Game_MaxTurns game_ + 1)))
                (mkChoice zeroCell depth_ (- pow2 (Game_MaxTurns game_ + 1))%Z))
      as (best & pre & post & E & Hsplit & Hpre & Hpost).
    { exists x. split; [assumption|]. simpl. lia. }
    exists best, pre, post. rewrite E.
    split; [reflexivity|]. split; [assumption|].
    split; [discriminate | intros _; split; assumption].
Qed.

(** The value of a search that starts at a depth that is not negative
    and cannot go deeper than the turn ceiling lies between minus and
    plus the turn ceiling plus one. *)
Lemma search_value_bound :
  forall b_player game_ n, n <= 255 ->
  forall k board_ lastTurn max player_ depth_ choice,
    length (Board_FindEmpty board_) = k ->
    square n board_ = true -> player_ <> 0%N ->
    (0 <= depth_)%Z -> (depth_ + Z.of_nat k <= Game_MaxTurns game_)%Z ->
    search b_player game_ board_ lastTurn max player_ depth_ = Val (choice, None) ->
    (- (Game_MaxTurns game_ + 1) <= value choice <= Game_MaxTurns game_ + 1)%Z.
Proof.
  intros b_player game_ n Hn.
  induction k as [|k IH];
    intros board_ lastTurn max player_ depth_ choice Hk Hs Hp Hd HM HS.
  - (* no empty cell: a leaf *)
    unfold search, minimax_fuel in HS. rewrite Hk in HS. cbn [minimax] in HS.
    destruct (Conditions_FindWinner (Game_Conditions game_) board_)
      as [[winner [e|]]| |]; simpl in HS; try discriminate.
    destruct (winner =? b_player)%N; [inversion HS; subst; simpl; lia|].
    destruct (winner =? Player_Next b_player)%N; [inversion HS; subst; simpl; lia|].
    rewrite Hk in HS. simpl in HS. inversion HS; subst; simpl. lia.
  - destruct (Conditions_FindWinner (Game_Conditions game_) board_)
      as [[winner [e|]]| |] eqn:HW;
      try (unfold search, minimax_fuel in HS; rewrite Hk in HS; cbn [minimax] in HS;
           rewrite HW in HS; simpl in HS; discriminate).
    destruct (N.eqb_spec winner b_player) as [Hb|Hb].
    { unfold search, minimax_fuel in HS. rewrite Hk in HS. cbn [minimax] in HS.
      rewrite HW in HS. simpl in HS. rewrite (proj2 (N.eqb_eq _ _) Hb) in HS.
      inversion HS; subst; simpl. lia. }
    destruct (N.eqb_spec winner (Player_Next b_player)) as [Ho|Ho].
    { unfold search, minimax_fuel in HS. rewrite Hk in HS. cbn [minimax] in HS.
      rewrite HW in HS. simpl in HS. rewrite (proj2 (N.eqb_neq _ _) Hb) in HS.
      rewrite (proj2 (N.eqb_eq _ _) Ho) in HS.
      inversion HS; subst; simpl. lia. }
    assert (Hne : Board_FindEmpty board_ <> [])
      by (intros E; rewrite E in Hk; discriminate Hk).
    destruct (search_children b_player game_ n board_ lastTurn max player_ depth_
                winner choice Hs Hn Hp HW Hb Ho Hne HS) as (children & HF).
    assert (Hbound : forall ch, In ch children ->
               (- (Game_MaxTurns game_ + 1) <= value ch <= Game_MaxTurns game_ + 1)%Z).
    { intros ch Hch.
      destruct (Forall2_In_right _ _ _ _ _ ch HF Hch) as (c & Hc & HS').
      destruct (Board_FindEmpty_In n board_ c Hs Hn Hc) as (Hr & Hcol & Hat).
      destruct (marked_square n board_ c player_ Hs Hr Hcol) as [_ Hs'].
      apply (IH (marked board_ c player_) (mkTurn c player_) (negb max)
                (Player_Next player_) (depth_ + 1)%Z ch); try assumption.
      - pose proof (marked_one_less n board_ c player_ Hs Hr Hcol Hat Hp). lia.
      - now apply Player_Next_nonzero.
      - lia.
      - lia. }
    destruct (search_internal_best b_player game_ n board_ lastTurn max player_ depth_
                winner children Hs Hn Hp HW Hb Ho Hne HF ltac:(lia) Hbound)
      as (best & pre & post & E & Hsplit & _).
    rewrite E in HS. inversion HS; subst choice.
    assert (Hin : In best (map (fun cc => annotate (fst cc) (snd cc))
                               (combine (Board_FindEmpty board_) children)))
      by (rewrite Hsplit; apply in_or_app; right; now left).
    apply In_annotated in Hin. destruct Hin as (c & ch & _ & Hch & ->).
    simpl. now apply Hbound.
Qed.

(** The search returns: it neither panics nor runs out of fuel. *)
Lemma search_total :
  forall b_player game_ n, n <= 255 -> answers_on n (Game_Conditions game_) ->
  forall k board_ lastTurn max player_ depth_,
    length (Board_FindEmpty board_) = k ->
    square n board_ = true -> player_ <> 0%N ->
    exists r, search b_player game_ board_ lastTurn max player_ depth_ = Val r.
Proof.
  intros b_player game_ n Hn Hans.
  induction k as [|k IH]; intros board_ lastTurn max player_ depth_ Hk Hs Hp;
    destruct (Hans board_ Hs) as [[[winner err] HW] _];
    unfold search, minimax_fuel; cbn [minimax]; rewrite HW; simpl bind;
    (destruct err as [e|]; [eexists; reflexivity|]);
    (destruct (winner =? b_player)%N; [eexists; reflexivity|]);
    (destruct (winner =? Player_Next b_player)%N; [eexists; reflexivity|]);
    rewrite Hk.
  - change (0 =? 0)%nat with true. eexists; reflexivity.
  - change (S k =? 0)%nat with false.
    destruct (minimax_candidates_total
                (fun nextBoard turn =>
                   minimax (S k) b_player nextBoard game_ turn (negb max)
                           (Player_Next player_) (depth_ + 1)%Z)
                n board_ player_ Hs (Board_FindEmpty board_) []) as [r Hr].
    + intros c Hc. destruct (Board_FindEmpty_In n board_ c Hs Hn Hc) as (H1 & H2 & _).
      split; assumption.
    + intros c Hc. rewrite <- Hk.
      rewrite (minimax_child_is_search b_player game_ n board_ c player_ (negb max)
                 (depth_ + 1)%Z Hs Hn Hp Hc).
      destruct (Board_FindEmpty_In n board_ c Hs Hn Hc) as (Hr & Hcol & Hat).
      destruct (marked_square n board_ c player_ Hs Hr Hcol) as [_ Hs'].
      apply IH; try assumption.
      * pose proof (marked_one_less n board_ c player_ Hs Hr Hcol Hat Hp). lia.
      * now apply Player_Next_nonzero.
    + rewrite Hr. simpl bind. destruct r as [choices | [ch e]].
      * destruct (fold_left (minimax_pick max) choices _) as [minC maxC].
        destruct max; eexists; reflexivity.
      * eexists; reflexivity.
Qed.

Lemma search_leaf :
  forall b_player game_ board_ lastTurn max player_ depth_ winner,
    Conditions_FindWinner (Game_Conditions game_) board_ = Val (winner, None) ->
    (winner = b_player ->
     search b_player game_ board_ lastTurn max player_ depth_
     = Val (mkChoice (Turn_Cell lastTurn) depth_
                     (Game_MaxTurns game_ + 1 - depth_)%Z, None))
    /\ (winner <> b_player -> winner = Player_Next b_player ->
        search b_player game_ board_ lastTurn max player_ depth_
        = Val (mkChoice (Turn_Cell lastTurn) depth_
                        (- (Game_MaxTurns game_ + 1 - depth_))%Z, None))
    /\ (winner <> b_player -> winner <> Player_Next b_player ->
        Board_FindEmpty board_ = [] ->
        search b_player game_ board_ lastTurn max player_ depth_
        = Val (mkChoice (Turn_Cell lastTurn) depth_ 0%Z, None)).
Proof.
  intros b_player game_ board_ lastTurn max player_ depth_ winner HW.
  unfold search, minimax_fuel. cbn [minimax]. rewrite HW. simpl bind.
  split; [|split].
  - intros ->. rewrite N.eqb_refl. reflexivity.
  - intros Hb Ho. rewrite (proj2 (N.eqb_neq _ _) Hb), (proj2 (N.eqb_eq _ _) Ho).
    do 3 f_equal. lia.
  - intros Hb Ho He.
    rewrite (proj2 (N.eqb_neq _ _) Hb), (proj2 (N.eqb_neq _ _) Ho), He. reflexivity.
Qed.

(** C4. The search of the impossible bot at a position of a square
    board, from a depth that is not negative and with room below the
    turn ceiling for the empty cells, returns, and: a position won by
    the player of the bot scores the turn ceiling plus one minus the
    depth; a position won by the other player scores the negation of
    that; a position with no winner and no empty cell scores zero; and
    a position with no winner and an empty cell, whose children (one
    per empty cell in scan order, marked with the player on move, one
    level deeper, on the other ply) return choices, takes the first
    child of the greatest value on the ply of the bot and the first of
    the least value on the other ply, the child annotated with the cell
    of the move that led to it. The turn of the bot is the cell of the
    choice taken at the root. *)
Theorem minimax_scores_and_propagates :
  forall (b_player : Player) (game_ : Game) (n : nat) (board_ : Board)
         (lastTurn : Turn) (max : bool) (player_ : Player) (depth_ : Z),
    n <= 255 -> square n board_ = true ->
    answers_on n (Game_Conditions game_) ->
    player_ <> 0%N -> (0 <= depth_)%Z ->
    (depth_ + Z.of_nat (length (Board_FindEmpty board_)) <= Game_MaxTurns game_)%Z ->
    (exists r, search b_player game_ board_ lastTurn max player_ depth_ = Val r)
    /\ forall winner,
         Conditions_FindWinner (Game_Conditions game_) board_ = Val (winner, None) ->
         (winner = b_player ->
          search b_player game_ board_ lastTurn max player_ depth_
          = Val (mkChoice (Turn_Cell lastTurn) depth_
                          (Game_MaxTurns game_ + 1 - depth_)%Z, None))
         /\ (winner <> b_player -> winner = Player_Next b_player ->
             search b_player game_ board_ lastTurn max player_ depth_
             = Val (mkChoice (Turn_Cell lastTurn) depth_
                             (- (Game_MaxTurns game_ + 1 - depth_))%Z, None))
         /\ (winner <> b_player -> winner <> Player_Next b_player ->
             Board_FindEmpty board_ = [] ->
             search b_player game_ board_ lastTurn max player_ depth_
             = Val (mkChoice (Turn_Cell lastTurn) depth_ 0%Z, None))
         /\ (winner <> b_player -> winner <> Player_Next b_player ->
             Board_FindEmpty board_ <> [] ->
             forall children,
               Forall2 (fun c ch =>
                          search b_player game_ (marked board_ c player_)
                                 (mkTurn c player_) (negb max) (Player_Next player_)
                                 (depth_ + 1)%Z
                          = Val (ch, None))
                       (Board_FindEmpty board_) children ->
               exists best pre post,
                 search b_player game_ board_ lastTurn max player_ depth_
                 = Val (best, None)
                 /\ map (fun cc => annotate (fst cc) (snd cc))
                        (combine (Board_FindEmpty board_) children)
                    = pre ++ best :: post
                 /\ (max = true ->
                     (forall x, In x pre -> (value x < value best)%Z)
                     /\ (forall x, In x post -> (value x <= value best)%Z))
                 /\ (max = false ->
                     (forall x, In x pre -> (value best < value x)%Z)
                     /\ (forall x, In x post -> (value best <= value x)%Z))
                 /\ (lastTurn = fst (Game_LastTurn game_) -> max = true ->
                     player_ = b_player -> depth_ = 0%Z ->
                     forall rnd,
                       Bot_Turn (NewImpossibleBot b_player) rnd board_ game_
                       = Val (cell best, None))).
Proof.
  intros b_player game_ n board_ lastTurn max player_ depth_
         Hn Hs Hans Hp Hd HM.
  split.
  { apply (search_total b_player game_ n Hn Hans
             (length (Board_FindEmpty board_))); auto. }
  intros winner HW.
  destruct (search_leaf b_player game_ board_ lastTurn max player_ depth_ winner HW)
    as (Hwin & Hlose & Hdraw).
  split; [assumption|]. split; [assumption|]. split; [assumption|].
  intros Hb Ho Hne children HF.
  assert (Hk : 1 <= length (Board_FindEmpty board_))
    by (destruct (Board_FindEmpty board_); [contradiction | simpl; lia]).
  assert (Hbound : forall ch, In ch children ->
             (- (Game_MaxTurns game_ + 1) <= value ch <= Game_MaxTurns game_ + 1)%Z).
  { intros ch Hch.
    destruct (Forall2_In_right _ _ _ _ _ ch HF Hch) as (c & Hc & HS').
    destruct (Board_FindEmpty_In n board_ c Hs Hn Hc) as (Hr & Hcol & Hat).
    destruct (marked_square n board_ c player_ Hs Hr Hcol) as [_ Hs'].
    pose proof (marked_one_less n board_ c player_ Hs Hr Hcol Hat Hp) as Hless.
    apply (search_value_bound b_player game_ n Hn
             (length (Board_FindEmpty (marked board_ c player_)))
             (marked board_ c player_) (mkTurn c player_) (negb max)
             (Player_Next player_) (depth_ + 1)%Z ch); try assumption.
    - reflexivity.
    - now apply Player_Next_nonzero.
    - lia.
    - lia. }
  destruct (search_internal_best b_player game_ n board_ lastTurn max player_ depth_
              winner children Hs Hn Hp HW Hb Ho Hne HF ltac:(lia) Hbound)
    as (best & pre & post & E & Hsplit & Hmax & Hmin).
  exists best, pre, post.
  split; [assumption|]. split; [assumption|]. split; [assumption|].
  split; [assumption|].
  intros -> -> -> -> rnd. simpl Bot_Turn. unfold impossibleBot_Turn.
  unfold search in E.
  destruct (Game_LastTurn game_) as [lt ok]. simpl fst in E.
  rewrite E. reflexivity.
Qed.

(** An instance of C4: two empty cells are left, the first completes a
    diagonal of the bot (value 9 at depth 1), the second leads to a
    draw (value 0), and the bot takes the first. *)
Lemma minimax_scores_and_propagates_witness :
  Bot_Turn (NewImpossibleBot PlayerOne) (mkRand (fun _ => 0) (fun _ H => H))
           [[1; 2; 1]; [2; 1; 2]; [0; 0; 2]]%N
           (mkGame [[1; 2; 1]; [2; 1; 2]; [0; 0; 2]]%N standardConditions true
                   (mkTurn (mkCell 2 2) 2%N, true) 9 PlayerOne 2 3
                   StateAwaitingTurn [])
  = Val (mkCell 0 2, None).
Proof.
  destruct (minimax_scores_and_propagates PlayerOne
              (mkGame [[1; 2; 1]; [2; 1; 2]; [0; 0; 2]]%N standardConditions true
                      (mkTurn (mkCell 2 2) 2%N, true) 9 PlayerOne 2 3
                      StateAwaitingTurn [])
              3 [[1; 2; 1]; [2; 1; 2]; [0; 0; 2]]%N
              (mkTurn (mkCell 2 2) 2%N) true PlayerOne 0%Z)
    as [_ Hnode].
  - lia.
  - reflexivity.
  - apply standardConditions_answer. lia.
  - discriminate.
  - lia.
  - simpl. lia.
  - destruct (Hnode 0%N eq_refl) as (_ & _ & _ & Hinternal).
    destruct (Hinternal ltac:(discriminate) ltac:(discriminate) ltac:(discriminate)
                [mkChoice (mkCell 0 2) 1 9; mkChoice (mkCell 0 2) 2 0])
      as (best & pre & post & HS & _ & _ & _ & Hroot).
    + constructor; [reflexivity|]. constructor; [reflexivity | constructor].
    + rewrite (Hroot eq_refl eq_refl eq_refl eq_refl). vm_compute in HS.
      injection HS as <-. reflexivity.
Defined.

(** ** The standard conditions on the boards of size 3 *)

Lemma In_marks3 : forall p, Player_IsValidOrZero p = true -> In p marks3.
Proof.
  intros p Hp. apply Player_IsValidOrZero_cases in Hp. unfold marks3.
  destruct Hp as [-> | [-> | ->]]; simpl; tauto.
Qed.

Lemma In_rows3 : forall x y z,
  In x marks3 -> In y marks3 -> In z marks3 -> In [x; y; z] rows3.
Proof.
  intros x y z Hx Hy Hz. unfold rows3.
  apply in_flat_map. exists x. split; [assumption|].
  apply in_flat_map. exists y. split; [assumption|].
  apply in_map_iff. exists z. split; [reflexivity | assumption].
Qed.

Lemma valid3_spec : forall b,
  valid3 b = true <->
  square 3 b = true /\ forall p, In p (concat b) -> Player_IsValidOrZero p = true.
Proof.
  intros b. unfold valid3. rewrite andb_true_iff, forallb_forall. tauto.
Qed.

(** Every board of size 3 with valid marks is in the enumeration. *)
Lemma In_boards3 : forall b, valid3 b = true -> In b boards3.
Proof.
  intros b Hv. apply valid3_spec in Hv. destruct Hv as [Hs Hm].
  apply square_spec in Hs. destruct Hs as [Hl Hrows].
  destruct b as [|r1 [|r2 [|r3 [|r4 b]]]]; try discriminate Hl.
  assert (Hrow : forall r, In r [r1; r2; r3] -> In r rows3).
  { intros r Hr. pose proof (Hrows r Hr) as Hlr.
    destruct r as [|x [|y [|z [|w r]]]]; try discriminate Hlr.
    assert (Hin : forall q, In q [x; y; z] -> In q marks3).
    { intros q Hq. apply In_marks3, Hm. apply in_concat.
      exists [x; y; z]. split; assumption. }
    apply In_rows3; apply Hin; simpl; tauto. }
  unfold boards3.
  apply in_flat_map. exists r1. split; [apply Hrow; simpl; tauto|].
  apply in_flat_map. exists r2. split; [apply Hrow; simpl; tauto|].
  apply in_map_iff. exists r3. split; [reflexivity | apply Hrow; simpl; tauto].
Qed.

(** The scan and the check of a turn of the standard conditions agree
    on every board of the enumeration. *)
Lemma boards3_agree : forallb board_agrees boards3 = true.
Proof. vm_compute. reflexivity. Qed.

Lemma valid3_agrees : forall b, valid3 b = true -> board_agrees b = true.
Proof.
  intros b Hv. pose proof boards3_agree as H. rewrite forallb_forall in H.
  apply H. now apply In_boards3.
Qed.

Lemma valid3_FindWinner : forall b,
  valid3 b = true ->
  exists w, Conditions_FindWinner standardConditions b = Val (w, None)
            /\ Player_IsValidOrZero w = true.
Proof.
  intros b Hv. apply valid3_agrees in Hv. unfold board_agrees in Hv.
  destruct (Conditions_FindWinner standardConditions b) as [[w [e|]]| |];
    try discriminate.
  apply andb_true_iff in Hv. destruct Hv as [Hw _].
  exists w. split; [reflexivity | assumption].
Qed.

Lemma valid3_move : forall b c p,
  valid3 b = true ->
  Conditions_FindWinner standardConditions b = Val (0%N, None) ->
  In c (Board_FindEmpty b) -> Player_IsValid p = true ->
  exists won,
    Conditions_IsWinningTurn standardConditions (marked b c p) (mkTurn c p) = Val won
    /\ Conditions_FindWinner standardConditions (marked b c p)
       = Val ((if won then p else 0%N), None).
Proof.
  intros b c p Hv HW Hc Hp. apply valid3_agrees in Hv. unfold board_agrees in Hv.
  rewrite HW in Hv. simpl in Hv. rewrite forallb_forall in Hv.
  specialize (Hv c Hc). apply andb_true_iff in Hv. destruct Hv as [H1 H2].
  assert (Hm : move_agrees b c p = true).
  { apply Player_IsValid_cases in Hp. destruct Hp as [-> | ->]; assumption. }
  unfold move_agrees in Hm.
  destruct (Conditions_IsWinningTurn standardConditions (marked b c p) (mkTurn c p))
    as [won| |]; try discriminate.
  destruct (Conditions_FindWinner standardConditions (marked b c p))
    as [[w [e|]]| |]; try discriminate.
  apply N.eqb_eq in Hm. subst w. exists won. split; reflexivity.
Qed.

Lemma assign_In : forall (A : Type) (s : list A) i a s' x,
  assign s i a = Val s' -> In x s' -> x = a \/ In x s.
Proof.
  intros A s. induction s as [|y rest IH]; intros i a s' x Has Hin; simpl in Has.
  - discriminate.
  - destruct i as [|i'].
    + inversion Has; subst. destruct Hin as [<- | Hin]; [now left | right; now right].
    + apply bind_Val in Has. destruct Has as (rest' & Er & Ev).
      inversion Ev; subst. destruct Hin as [<- | Hin]; [right; now left|].
      destruct (IH _ _ _ _ Er Hin) as [-> | H]; [now left | right; now right].
Qed.

(** Marking an empty cell of a board of size 3 with valid marks by a
    valid player gives such a board. *)
Lemma valid3_marked : forall b c p,
  valid3 b = true -> In c (Board_FindEmpty b) -> Player_IsValid p = true ->
  valid3 (marked b c p) = true.
Proof.
  intros b c p Hv Hc Hp. apply valid3_spec in Hv. destruct Hv as [Hs Hm].
  destruct (Board_FindEmpty_In 3 b c Hs ltac:(lia) Hc) as (Hr & Hcol & _).
  destruct (marked_square 3 b c p Hs Hr Hcol) as [E Hs'].
  apply valid3_spec. split; [assumption|].
  intros q Hq. rewrite (Board_Copy_square 3 b Hs) in E.
  unfold Board_assign in E.
  apply bind_Val in E. destruct E as (cols & Ei & E).
  apply bind_Val in E. destruct E as (cols' & Ec & E).
  apply index_inv in Ei. apply nth_error_In in Ei.
  apply in_concat in Hq. destruct Hq as (row & Hrow & Hq).
  destruct (assign_In _ _ _ _ _ _ E Hrow) as [-> | Hin].
  - destruct (assign_In _ _ _ _ _ _ Ec Hq) as [-> | Hin].
    + unfold Player_IsValidOrZero. rewrite Hp. apply orb_true_r.
    + apply Hm. apply in_concat. exists cols. split; assumption.
  - apply Hm. apply in_concat. exists row. split; assumption.
Qed.

(** ** The value of the search and positions that are not lost *)

Lemma Player_Next_valid : forall p,
  Player_IsValid p = true ->
  Player_IsValid (Player_Next p) = true
  /\ Player_Next p <> p
  /\ Player_Next (Player_Next p) = p.
Proof.
  intros p Hp. apply Player_IsValid_cases in Hp.
  destruct Hp as [-> | ->]; repeat split; discriminate.
Qed.

Lemma Forall2_exists : forall (A B : Type) (P : A -> B -> Prop) (l : list A),
  (forall a, In a l -> exists b, P a b) -> exists l', Forall2 P l l'.
Proof.
  intros A B P l. induction l as [|a l IH]; intros H.
  - exists []. constructor.
  - destruct (H a (or_introl eq_refl)) as [b Hb].
    destruct (IH (fun a' Ha' => H a' (or_intror Ha'))) as [l' Hl'].
    exists (b :: l'). now constructor.
Qed.

Lemma Forall2_In_left : forall (A B : Type) (P : A -> B -> Prop) l l' a,
  Forall2 P l l' -> In a l -> exists b, In (a, b) (combine l l') /\ P a b.
Proof.
  intros A B P l l' a HF. induction HF as [|a0 b0 l l' Hab HF IH]; intros Hin.
  - contradiction.
  - destruct Hin as [<- | Hin].
    + exists b0. split; [now left | assumption].
    + destruct (IH Hin) as (b & Hb & HP). exists b. split; [now right | assumption].
Qed.

Lemma Forall2_combine_In : forall (A B : Type) (P : A -> B -> Prop) l l' a b,
  Forall2 P l l' -> In (a, b) (combine l l') -> P a b.
Proof.
  intros A B P l l' a b HF. induction HF as [|a0 b0 l l' Hab HF IH]; intros Hin.
  - contradiction.
  - destruct Hin as [E | Hin]; [inversion E; subst; assumption | now apply IH].
Qed.

(** On the boards of size 3 with valid marks the search with the
    standard conditions returns a choice and no error. *)
Lemma search_no_error :
  forall b_player game_,
    Game_Conditions game_ = standardConditions ->
    forall k board_ lastTurn max player_ depth_,
      length (Board_FindEmpty board_) = k ->
      valid3 board_ = true -> Player_IsValid player_ = true ->
      exists choice,
        search b_player game_ board_ lastTurn max player_ depth_ = Val (choice, None).
Proof.
  intros b_player game_ Hcs.
  induction k as [|k IH]; intros board_ lastTurn max player_ depth_ Hk Hv Hp;
    destruct (valid3_FindWinner board_ Hv) as (w & HW & _);
    rewrite <- Hcs in HW;
    destruct (search_leaf b_player game_ board_ lastTurn max player_ depth_ w HW)
      as (Hwin & Hlose & Hdraw);
    (destruct (N.eq_dec w b_player) as [Hb|Hb]; [eexists; now apply Hwin|]);
    (destruct (N.eq_dec w (Player_Next b_player)) as [Ho|Ho];
     [eexists; now apply Hlose|]).
  - eexists. apply Hdraw; try assumption.
    destruct (Board_FindEmpty board_); [reflexivity | discriminate Hk].
  - pose proof (proj1 (valid3_spec board_) Hv) as [Hs _].
    assert (Hne : Board_FindEmpty board_ <> [])
      by (intros E; rewrite E in Hk; discriminate Hk).
    destruct (Forall2_exists _ _
                (fun c ch =>
                   search b_player game_ (marked board_ c player_) (mkTurn c player_)
                          (negb max) (Player_Next player_) (depth_ + 1)%Z
                   = Val (ch, None))
                (Board_FindEmpty board_)) as (children & HF).
    { intros c Hc.
      destruct (Board_FindEmpty_In 3 board_ c Hs ltac:(lia) Hc) as (Hr & Hcol & Hat).
      apply IH.
      - pose proof (marked_one_less 3 board_ c player_ Hs Hr Hcol Hat
                      (Player_IsValid_nonzero _ Hp)). lia.
      - now apply valid3_marked.
      - now apply Player_Next_valid. }
    eexists.
    apply (search_internal b_player game_ 3 board_ lastTurn max player_ depth_ w
             children Hs ltac:(lia) (Player_IsValid_nonzero _ Hp) HW Hb Ho Hne HF).
Qed.

Lemma not_lost_won : forall k b_player cs board_ max player_,
  Conditions_FindWinner cs board_ = Val (b_player, None) ->
  not_lost (S k) b_player cs board_ max player_ = true.
Proof.
  intros k b_player cs board_ max player_ HW.
  cbn [not_lost]. rewrite HW, N.eqb_refl. reflexivity.
Qed.

Lemma not_lost_lost : forall k b_player cs board_ max player_,
  Player_Next b_player <> b_player ->
  Conditions_FindWinner cs board_ = Val (Player_Next b_player, None) ->
  not_lost (S k) b_player cs board_ max player_ = false.
Proof.
  intros k b_player cs board_ max player_ Hn HW.
  cbn [not_lost]. rewrite HW, N.eqb_refl.
  destruct (N.eqb_spec (Player_Next b_player) b_player); [contradiction | reflexivity].
Qed.

Lemma not_lost_internal : forall k b_player cs board_ max player_ winner,
  Conditions_FindWinner cs board_ = Val (winner, None) ->
  winner <> b_player -> winner <> Player_Next b_player ->
  not_lost (S k) b_player cs board_ max player_
  = match Board_FindEmpty board_ with
    | [] => true
    | _ :: _ =>
        if max
        then existsb (fun c => not_lost k b_player cs (marked board_ c player_) false
                                        (Player_Next player_))
                     (Board_FindEmpty board_)
        else forallb (fun c => not_lost k b_player cs (marked board_ c player_) true
                                        (Player_Next player_))
                     (Board_FindEmpty board_)
    end.
Proof.
  intros k b_player cs board_ max player_ winner HW Hb Ho.
  cbn [not_lost]. rewrite HW.
  destruct (N.eqb_spec winner b_player); [contradiction|].
  destruct (N.eqb_spec winner (Player_Next b_player)); [contradiction|].
  destruct (Board_FindEmpty board_); reflexivity.
Qed.

(** The value of the search at a position is not negative exactly when
    the position is not lost for the bot. *)
Lemma search_value_sign :
  forall b_player game_,
    Player_IsValid b_player = true ->
    Game_Conditions game_ = standardConditions ->
    Game_MaxTurns game_ = 9%Z ->
    forall k board_ lastTurn max player_ depth_ choice,
      length (Board_FindEmpty board_) = k ->
      valid3 board_ = true -> Player_IsValid player_ = true ->
      (0 <= depth_)%Z -> (depth_ + Z.of_nat k <= 9)%Z ->
      search b_player game_ board_ lastTurn max player_ depth_ = Val (choice, None) ->
      ((0 <= value choice)%Z
       <-> not_lost (S k) b_player standardConditions board_ max player_ = true).
Proof.
  intros b_player game_ Hbp Hcs HM.
  destruct (Player_Next_valid b_player Hbp) as (_ & Hnext & _).
  induction k as [|k IH];
    intros board_ lastTurn max player_ depth_ choice Hk Hv Hp Hd Hdk HS;
    destruct (valid3_FindWinner board_ Hv) as (w & HW & _);
    pose proof HW as HW'; rewrite <- Hcs in HW';
    destruct (search_leaf b_player game_ board_ lastTurn max player_ depth_ w HW')
      as (Hwin & Hlose & Hdraw);
    (destruct (N.eq_dec w b_player) as [Hb|Hb];
     [rewrite (Hwin Hb) in HS; inversion HS; subst choice w;
      rewrite (not_lost_won _ _ _ _ _ _ HW); simpl; rewrite HM;
      split; [reflexivity | lia]|]);
    (destruct (N.eq_dec w (Player_Next b_player)) as [Ho|Ho];
     [rewrite (Hlose Hb Ho) in HS; inversion HS; subst choice w;
      rewrite (not_lost_lost _ _ _ _ _ _ Hnext HW); simpl; rewrite HM;
      split; [lia | discriminate]|]);
    rewrite (not_lost_internal _ _ _ _ _ _ _ HW Hb Ho).
  - assert (He : Board_FindEmpty board_ = [])
      by (destruct (Board_FindEmpty board_); [reflexivity | discriminate Hk]).
    rewrite (Hdraw Hb Ho He) in HS. inversion HS; subst choice. rewrite He. simpl.
    split; [reflexivity | lia].
  - pose proof (proj1 (valid3_spec board_) Hv) as [Hs _].
    assert (Hne : Board_FindEmpty board_ <> [])
      by (intros E; rewrite E in Hk; discriminate Hk).
    assert (Hpn : player_ <> 0%N) by now apply Player_IsValid_nonzero.
    destruct (search_children b_player game_ 3 board_ lastTurn max player_ depth_ w
                choice Hs ltac:(lia) Hpn HW' Hb Ho Hne HS) as (children & HF).
    (* every child is one level deeper, with one empty cell less *)
    assert (Hchild : forall c ch,
               In c (Board_FindEmpty board_) ->
               search b_player game_ (marked board_ c player_) (mkTurn c player_)
                      (negb max) (Player_Next player_) (depth_ + 1)%Z
               = Val (ch, None) ->
               ((0 <= value ch)%Z
                <-> not_lost (S k) b_player standardConditions
                             (marked board_ c player_) (negb max)
                             (Player_Next player_) = true)
               /\ (- (Game_MaxTurns game_ + 1) <= value ch
                   <= Game_MaxTurns game_ + 1)%Z).
    { intros c ch Hc HSc.
      destruct (Board_FindEmpty_In 3 board_ c Hs ltac:(lia) Hc) as (Hr & Hcol & Hat).
      pose proof (marked_one_less 3 board_ c player_ Hs Hr Hcol Hat Hpn) as Hless.
      destruct (marked_square 3 board_ c player_ Hs Hr Hcol) as [_ Hs'].
      split.
      - apply (IH (marked board_ c player_) (mkTurn c player_) (negb max)
                  (Player_Next player_) (depth_ + 1)%Z ch); try assumption; try lia.
        + now apply valid3_marked.
        + now apply Player_Next_valid.
      - apply (search_value_bound b_player game_ 3 ltac:(lia) k
                 (marked board_ c player_) (mkTurn c player_) (negb max)
                 (Player_Next player_) (depth_ + 1)%Z ch); try assumption; try lia.
        now apply Player_Next_nonzero. }
    destruct (search_internal_best b_player game_ 3 board_ lastTurn max player_ depth_
                w children Hs ltac:(lia) Hpn HW' Hb Ho Hne HF ltac:(lia))
      as (best & pre & post & E & Hsplit & Hmax & Hmin).
    { intros ch Hch.
      destruct (Forall2_In_right _ _ _ _ _ ch HF Hch) as (c & Hc & HSc).
      exact (proj2 (Hchild c ch Hc HSc)). }
    rewrite E in HS. inversion HS; subst choice. clear HS.
    (* the pair the best choice comes from *)
    assert (Hpair : forall x,
               In x (map (fun cc => annotate (fst cc) (snd cc))
                         (combine (Board_FindEmpty board_) children)) ->
               exists c ch, In c (Board_FindEmpty board_)
                            /\ search b_player game_ (marked board_ c player_)
                                      (mkTurn c player_) (negb max)
                                      (Player_Next player_) (depth_ + 1)%Z
                               = Val (ch, None)
                            /\ value x = value ch).
    { intros x Hx. apply in_map_iff in Hx. destruct Hx as ([c ch] & <- & Hin).
      exists c, ch. split; [eapply in_combine_l; eassumption|].
      split; [exact (Forall2_combine_In _ _ _ _ _ _ _ HF Hin) | reflexivity]. }
    assert (Hlisted : forall c, In c (Board_FindEmpty board_) ->
               exists ch, search b_player game_ (marked board_ c player_)
                                 (mkTurn c player_) (negb max)
                                 (Player_Next player_) (depth_ + 1)%Z
                          = Val (ch, None)
                          /\ In (annotate c ch) (pre ++ best :: post)).
    { intros c Hc.
      destruct (Forall2_In_left _ _ _ _ _ c HF Hc) as (ch & Hin & HSc).
      exists ch. split; [exact HSc|]. rewrite <- Hsplit.
      apply in_map_iff. exists (c, ch). split; [reflexivity | assumption]. }
    destruct (Hpair best) as (cb & chb & Hcb & HScb & Hvb).
    { rewrite Hsplit. apply in_or_app. right. now left. }
    destruct (Hchild cb chb Hcb HScb) as [Hsb _].
    destruct (Board_FindEmpty board_) as [|c0 rest] eqn:Hcands; [contradiction|].
    rewrite <- Hcands in *.
    destruct max.
    + destruct (Hmax eq_refl) as [Hpre Hpost]. rewrite existsb_exists. split.
      * intros H0. exists cb. split; [assumption|]. apply Hsb. lia.
      * intros (c & Hc & Hnl).
        destruct (Hlisted c Hc) as (ch & HSc & Hin).
        destruct (Hchild c ch Hc HSc) as [Hsc _].
        apply Hsc in Hnl.
        apply in_app_or in Hin. destruct Hin as [Hin | [Heq | Hin]].
        -- apply Hpre in Hin. simpl in Hin. lia.
        -- rewrite Heq. simpl. lia.
        -- apply Hpost in Hin. simpl in Hin. lia.
    + destruct (Hmin eq_refl) as [Hpre Hpost]. rewrite forallb_forall. split.
      * intros H0 c Hc.
        destruct (Hlisted c Hc) as (ch & HSc & Hin).
        destruct (Hchild c ch Hc HSc) as [Hsc _].
        apply Hsc.
        apply in_app_or in Hin. destruct Hin as [Hin | [Heq | Hin]].
        -- apply Hpre in Hin. simpl in Hin. lia.
        -- rewrite Heq in H0. simpl in H0. lia.
        -- apply Hpost in Hin. simpl in Hin. lia.
      * intros Hall. apply Hsb in Hall; [lia | assumption].
Qed.

(** The node of the search hands up the value of the child its cell
    leads to. *)
Lemma search_best_child :
  forall b_player game_,
    Game_Conditions game_ = standardConditions ->
    Game_MaxTurns game_ = 9%Z ->
    forall board_ lastTurn max player_ depth_ choice,
      valid3 board_ = true -> Player_IsValid player_ = true ->
      (0 <= depth_)%Z ->
      (depth_ + Z.of_nat (length (Board_FindEmpty board_)) <= 9)%Z ->
      Conditions_FindWinner standardConditions board_ = Val (0%N, None) ->
      0%N <> b_player -> 0%N <> Player_Next b_player ->
      Board_FindEmpty board_ <> [] ->
      search b_player game_ board_ lastTurn max player_ depth_ = Val (choice, None) ->
      In (cell choice) (Board_FindEmpty board_)
      /\ exists child,
           search b_player game_ (marked board_ (cell choice) player_)
                  (mkTurn (cell choice) player_) (negb max) (Player_Next player_)
                  (depth_ + 1)%Z
           = Val (child, None)
           /\ value child = value choice.
Proof.
  intros b_player game_ Hcs HM board_ lastTurn max player_ depth_ choice
         Hv Hp Hd Hdk HW Hb Ho Hne HS.
  pose proof (proj1 (valid3_spec board_) Hv) as [Hs _].
  assert (Hpn : player_ <> 0%N) by now apply Player_IsValid_nonzero.
  pose proof HW as HW'. rewrite <- Hcs in HW'.
  destruct (search_children b_player game_ 3 board_ lastTurn max player_ depth_ 0%N
              choice Hs ltac:(lia) Hpn HW' Hb Ho Hne HS) as (children & HF).
  destruct (search_internal_best b_player game_ 3 board_ lastTurn max player_ depth_
              0%N children Hs ltac:(lia) Hpn HW' Hb Ho Hne HF ltac:(lia))
    as (best & pre & post & E & Hsplit & _).
  { intros ch Hch.
    destruct (Forall2_In_right _ _ _ _ _ ch HF Hch) as (c & Hc & HSc).
    destruct (Board_FindEmpty_In 3 board_ c Hs ltac:(lia) Hc) as (Hr & Hcol & Hat).
    pose proof (marked_one_less 3 board_ c player_ Hs Hr Hcol Hat Hpn) as Hless.
    destruct (marked_square 3 board_ c player_ Hs Hr Hcol) as [_ Hs'].
    apply (search_value_bound b_player game_ 3 ltac:(lia)
             (length (Board_FindEmpty (marked board_ c player_)))
             (marked board_ c player_) (mkTurn c player_) (negb max)
             (Player_Next player_) (depth_ + 1)%Z ch);
      try assumption; try reflexivity; try lia.
    now apply Player_Next_nonzero. }
  rewrite E in HS. inversion HS; subst choice. clear HS.
  assert (Hin : In best (map (fun cc => annotate (fst cc) (snd cc))
                             (combine (Board_FindEmpty board_) children)))
    by (rewrite Hsplit; apply in_or_app; right; now left).
  apply in_map_iff in Hin. destruct Hin as ([c ch] & <- & Hin). simpl.
  split; [eapply in_combine_l; eassumption|].
  exists ch. split; [exact (Forall2_combine_In _ _ _ _ _ _ _ HF Hin) | reflexivity].
Qed.

(** ** The impossible bot moving second on the board of size 3 *)

Lemma In_cells_row_major : forall n c,
  N.to_nat (Row c) < n -> N.to_nat (Column c) < n -> In c (cells_row_major n).
Proof.
  intros n [col row] Hr Hc. simpl in Hr, Hc. unfold cells_row_major.
  apply in_flat_map. exists (N.to_nat row). split; [apply in_seq; lia|].
  apply in_map_iff. exists (N.to_nat col). split.
  - now rewrite !N2Nat.id.
  - apply in_seq. lia.
Qed.

Lemma empty_cell_listed : forall n b c,
  square n b = true -> n <= 255 ->
  N.to_nat (Row c) < n -> N.to_nat (Column c) < n ->
  Board_at b (Row c) (Column c) = Val 0%N ->
  In c (Board_FindEmpty b).
Proof.
  intros n b c Hs Hn Hr Hc Hat.
  rewrite (Board_FindEmpty_row_major n b Hs Hn). apply filter_In. split.
  - now apply In_cells_row_major.
  - rewrite Hat. reflexivity.
Qed.

(** A turn that is played keeps the invariant when the position it
    leads to is not lost for the bot. *)
Lemma play_keeps_bot_game_inv : forall b_player g t allowBotTurn g' r,
  Player_IsValid b_player = true ->
  bot_game_inv b_player g ->
  play g t allowBotTurn = Val (g', r) ->
  (validateTurn g t allowBotTurn = Val None ->
   In (Turn_Cell t) (Board_FindEmpty (board g)) ->
   not_lost (length (Board_FindEmpty (board g))) b_player standardConditions
            (marked (board g) (Turn_Cell t) (player g))
            (negb (player g =? b_player)%N) (Player_Next (player g)) = true) ->
  bot_game_inv b_player g'.
Proof.
  intros b_player g [c tp] allowBotTurn g' r Hbp Hinv Hplay Hchild.
  destruct (Player_Next_valid b_player Hbp) as (Hnv & Hnext & Hnn).
  pose proof Hinv as (Hgi & Hu & Hsz & Hcs & Hbot & Hv3 & Hwon & Haw).
  pose proof (play_preserves_inv _ _ _ _ _ Hu Hgi Hplay) as Hgi'.
  pose proof (play_unshared _ _ _ _ _ Hplay) as Hu'. rewrite Hu in Hu'.
  destruct (play_inv _ _ _ _ _ Hplay)
    as [[-> _] | (_ & Hvb & Hvt & Hassign & Hturns & Hbot' & Hcs' & Hsz' & Hmt'
                  & won & HIW & Hst & Hpl)];
    [exact Hinv|].
  apply (Stored_assign_unshared _ _ _ _ _ Hu) in Hassign.
  destruct (validateTurn_None _ _ _ Hvt) as (Hstate & Hpv & Htp & Hat & _).
  unfold Turn_Row, Turn_Column in *. cbn [Turn_Cell Turn_Player] in *. subst tp.
  destruct (Haw Hstate) as (HFW & Hne & Hpl01 & _).
  pose proof (proj1 (valid3_spec (board g)) Hv3) as [Hs _].
  apply validateBounds_None in Hvb. rewrite Hsz in Hvb. destruct Hvb as [Hr Hcol].
  assert (Hr' : N.to_nat (Row c) < 3) by lia.
  assert (Hcol' : N.to_nat (Column c) < 3) by lia.
  assert (Hin : In c (Board_FindEmpty (board g)))
    by (apply (empty_cell_listed 3); try assumption; lia).
  specialize (Hchild Hvt Hin).
  assert (Hmarked : board g' = marked (board g) c (player g)).
  { destruct (marked_square 3 (board g) c (player g) Hs Hr' Hcol') as [Hm _].
    rewrite (Board_Copy_square 3 _ Hs) in Hm. rewrite Hm in Hassign.
    now inversion Hassign. }
  pose proof (marked_one_less 3 (board g) c (player g) Hs Hr' Hcol' Hat
                (Player_IsValid_nonzero _ Hpv)) as Hless.
  rewrite <- Hmarked in Hless, Hchild.
  destruct (valid3_move (board g) c (player g) Hv3 HFW Hin Hpv)
    as (won' & HIW' & HFW').
  rewrite <- Hmarked in HIW', HFW'. rewrite Hcs, HIW' in HIW.
  inversion HIW; subst won'. clear HIW.
  assert (Hv3' : valid3 (board g') = true)
    by (rewrite Hmarked; now apply valid3_marked).
  assert (Hmt : maxTurns g = 9%Z).
  { destruct Hgi as [Hwf _]. apply wf_game_spec in Hwf.
    destruct Hwf as (_ & Hm & _). rewrite Hm, Hsz. reflexivity. }
  assert (Hmax : (Player_Next (player g) =? b_player)%N
                 = negb (player g =? b_player)%N).
  { destruct Hpl01 as [-> | ->].
    - rewrite N.eqb_refl. now apply N.eqb_neq.
    - rewrite Hnn, N.eqb_refl. symmetry. apply negb_true_iff. now apply N.eqb_neq. }
  split; [exact Hgi'|]. split; [exact Hu'|]. split; [congruence|].
  split; [congruence|].
  split; [congruence|]. split; [exact Hv3'|]. split.
  - unfold won_by. rewrite Hst, Hpl. destruct won.
    + destruct Hpl01 as [-> | Hopp].
      * simpl. apply N.eqb_neq. congruence.
      * exfalso. rewrite Hopp in HFW'. rewrite <- Hless in Hchild.
        rewrite (not_lost_lost _ _ _ _ _ _ Hnext HFW') in Hchild.
        discriminate Hchild.
    + destruct (maxTurns g <=? Z.of_nat (length (turns g ++ [mkTurn c (player g)])))%Z;
        [reflexivity | rewrite Hstate; reflexivity].
  - intros Hst'. rewrite Hst in Hst'.
    destruct won; [discriminate Hst'|].
    destruct (maxTurns g <=? Z.of_nat (length (turns g ++ [mkTurn c (player g)])))%Z
      eqn:Hfull; [discriminate Hst'|].
    apply Z.leb_gt in Hfull. rewrite Hmt, <- Hturns in Hfull.
    split; [exact HFW'|]. split.
    + destruct Hgi' as (_ & [Hlen _] & _).
      pose proof (proj1 (valid3_spec (board g')) Hv3') as [Hs' _].
      pose proof (empty_plus_occupied 3 (board g') Hs') as Hsum.
      intros E. rewrite E in Hsum. simpl in Hsum. lia.
    + split.
      * rewrite Hpl. destruct Hpl01 as [-> | ->]; [now right | now left].
      * rewrite Hpl, Hmax. unfold minimax_fuel. rewrite Hless. exact Hchild.
Qed.

Lemma Play_keeps_bot_game_inv : forall b_player g t g' r,
  Player_IsValid b_player = true ->
  bot_game_inv b_player g ->
  Play g t = Val (g', r) ->
  bot_game_inv b_player g'.
Proof.
  intros b_player g t g' r Hbp Hinv Hplay.
  apply (play_keeps_bot_game_inv b_player g t false g' r Hbp Hinv Hplay).
  intros Hvt Hin.
  destruct (Player_Next_valid b_player Hbp) as (Hnv & Hnext & Hnn).
  destruct Hinv as (_ & _ & _ & _ & Hbot & _ & _ & Haw).
  destruct (validateTurn_None _ _ _ Hvt) as (Hstate & _ & Htp & _ & Hhuman).
  destruct (Haw Hstate) as (HFW & Hne & Hpl01 & Hnl).
  assert (Hopp : player g = Player_Next b_player).
  { destruct Hpl01 as [Hb | Ho]; [|exact Ho].
    specialize (Hhuman _ Hbot). simpl in Hhuman.
    rewrite Htp in Hhuman. discriminate (Hhuman (eq_sym Hb)). }
  assert (Hf : (player g =? b_player)%N = false)
    by (rewrite Hopp; now apply N.eqb_neq).
  rewrite Hf in *. unfold minimax_fuel in Hnl.
  rewrite (not_lost_internal _ _ _ _ _ _ _ HFW) in Hnl.
  - destruct (Board_FindEmpty (board g)) as [|c0 rest] eqn:Hcands; [contradiction|].
    rewrite <- Hcands in *.
    rewrite forallb_forall in Hnl. exact (Hnl _ Hin).
  - apply not_eq_sym. now apply Player_IsValid_nonzero.
  - apply not_eq_sym. now apply Player_IsValid_nonzero.
Qed.

Lemma AllowBotTurn_keeps_bot_game_inv : forall b_player rnd g g' r,
  Player_IsValid b_player = true ->
  bot_game_inv b_player g ->
  AllowBotTurn rnd g = Val (g', r) ->
  bot_game_inv b_player g'.
Proof.
  intros b_player rnd g g' r Hbp Hinv Hturn.
  destruct (Player_Next_valid b_player Hbp) as (Hnv & Hnext & Hnn).
  pose proof Hinv as (Hgi & Hu & Hsz & Hcs & Hbot & Hv3 & _ & Haw).
  unfold AllowBotTurn in Hturn.
  destruct (IsBotTurn g) eqn:Hbt; simpl in Hturn;
    [|inversion Hturn; subst; exact Hinv].
  unfold IsBotTurn in Hbt. rewrite Hbot in Hbt. simpl in Hbt.
  apply andb_true_iff in Hbt. destruct Hbt as [Hstate Hpl].
  apply N.eqb_eq in Hpl.
  assert (Hstate' : state g = StateAwaitingTurn)
    by (destruct (state g); try discriminate Hstate; reflexivity).
  destruct (Haw Hstate') as (HFW & Hne & _ & Hnl).
  rewrite <- Hpl, N.eqb_refl in Hnl.
  rewrite Hbot in Hturn. cbn [Bot_Turn NewImpossibleBot] in Hturn.
  unfold impossibleBot_Turn in Hturn.
  destruct (Game_LastTurn (as_Game g)) as [lastTurn hasLast].
  change (minimax (minimax_fuel (board g)) b_player (board g) (as_Game g) lastTurn
                  true b_player 0%Z)
    with (search b_player (as_Game g) (board g) lastTurn true b_player 0%Z) in Hturn.
  pose proof (proj1 (valid3_spec (board g)) Hv3) as [Hs _].
  assert (Hmt : maxTurns g = 9%Z).
  { destruct Hgi as [Hwf _]. apply wf_game_spec in Hwf.
    destruct Hwf as (_ & Hm & _). rewrite Hm, Hsz. reflexivity. }
  pose proof (empty_plus_occupied 3 (board g) Hs) as Hsum.
  destruct (search_no_error b_player (as_Game g) Hcs _ (board g) lastTurn true
              b_player 0%Z eq_refl Hv3 Hbp) as (choice & HS).
  rewrite HS in Hturn. simpl in Hturn.
  apply bind_Val in Hturn. destruct Hturn as ([g1 [[s1 p1] e1]] & Hplay & Hret).
  inversion Hret; subst g1. clear Hret.
  apply (play_keeps_bot_game_inv b_player g _ true g' _ Hbp Hinv Hplay).
  cbn [Turn_Cell]. intros _ Hin. rewrite <- Hpl, N.eqb_refl. simpl negb.
  assert (Hzb : 0%N <> b_player)
    by (apply not_eq_sym; now apply Player_IsValid_nonzero).
  assert (Hzo : 0%N <> Player_Next b_player)
    by (apply not_eq_sym; now apply Player_IsValid_nonzero).
  destruct (search_best_child b_player (as_Game g) Hcs Hmt (board g) lastTurn true
              b_player 0%Z choice Hv3 Hbp ltac:(lia) ltac:(lia) HFW Hzb Hzo Hne HS)
    as (_ & child & HSc & Hval).
  destruct (Board_FindEmpty_In 3 (board g) _ Hs ltac:(lia) Hin) as (Hr & Hcol & Hat).
  pose proof (marked_one_less 3 (board g) (cell choice) b_player Hs Hr Hcol Hat
                (Player_IsValid_nonzero _ Hbp)) as Hless.
  rewrite <- Hless.
  assert (Hroot : (0 + Z.of_nat (length (Board_FindEmpty (board g))) <= 9)%Z) by lia.
  assert (Hdeep : (0 + 1 + Z.of_nat (length (Board_FindEmpty
                                               (marked (board g) (cell choice) b_player)))
                   <= 9)%Z) by lia.
  assert (H01 : (0 <= 0 + 1)%Z) by lia.
  apply (search_value_sign b_player (as_Game g) Hbp Hcs Hmt _ _ _ _ _ _ child eq_refl
           (valid3_marked _ _ _ Hv3 Hin Hbp) Hnv H01 Hdeep HSc).
  rewrite Hval.
  apply (search_value_sign b_player (as_Game g) Hbp Hcs Hmt _ (board g) lastTurn true
           b_player 0%Z choice eq_refl Hv3 Hbp (Z.le_refl 0) Hroot HS).
  exact Hnl.
Qed.

(** The fresh game of size 3 in which the other player starts is not
    lost for the impossible bot. *)
Lemma Start_bot_game_inv : forall p g0,
  Player_IsValid p = true ->
  Start [WithStarterPlayer (Player_Next p); WithImpossibleBot p] = Val (Some g0, None) ->
  bot_game_inv p g0.
Proof.
  intros p g0 Hp HS.
  assert (Hgi : game_inv g0).
  { apply (Start_game_inv _ _ (lib_options_cons (lib_WithStarterPlayer _)
                                 (lib_options_cons (lib_WithImpossibleBot _)
                                                   lib_options_nil)) HS). }
  apply Player_IsValid_cases in Hp.
  destruct Hp as [-> | ->];
    (assert (E : g0 = mkgame (alloc (newBoard 3)) (Some (NewImpossibleBot _)) standardConditions
                        9 _ 3 StateAwaitingTurn [])
       by (symmetry; injection HS as HS; exact HS));
    clear HS; subst g0;
    (split; [exact Hgi|]); do 6 (split; [reflexivity|]); intros _;
    (split; [reflexivity|]);
    (split; [intros E; vm_compute in E; discriminate E|]);
    (split; [right; reflexivity|]);
    lazy; reflexivity.
Qed.

Lemma follows_bot_game_inv : forall p g g',
  Player_IsValid p = true -> follows g g' -> bot_game_inv p g -> bot_game_inv p g'.
Proof.
  intros p g g' Hp HF. induction HF as [g | g t g1 r g' Hplay _ IH | rnd g g1 r g' Hturn _ IH];
    intros Hinv.
  - exact Hinv.
  - apply IH. exact (Play_keeps_bot_game_inv p g t g1 r Hp Hinv Hplay).
  - apply IH. exact (AllowBotTurn_keeps_bot_game_inv p rnd g g1 r Hp Hinv Hturn).
Qed.

(** C9. In a game of size 3 with the standard conditions whose
    impossible bot is bound to the player [p] moving second (the other
    player starts), after every sequence of returning calls of [Play]
    (the turns submitted for the opponent, legal or rejected) and of
    [AllowBotTurn] (the bot's moves by delegation), the game is never
    in [StateWon] with the opponent recorded as the winner. *)
Theorem impossible_bot_second_never_loses :
  forall (p : Player) (g0 g : game),
    Player_IsValid p = true ->
    Start [WithStarterPlayer (Player_Next p); WithImpossibleBot p] = Val (Some g0, None) ->
    follows g0 g ->
    ~ (state g = StateWon /\ player g = Player_Next p).
Proof.
  intros p g0 g Hp HS HF [Hst Hpl].
  pose proof (follows_bot_game_inv p g0 g Hp HF (Start_bot_game_inv p g0 Hp HS))
    as (_ & _ & _ & _ & _ & _ & Hwon & _).
  unfold won_by in Hwon. rewrite Hst, Hpl, N.eqb_refl in Hwon. discriminate Hwon.
Qed.

Lemma impossible_bot_second_never_loses_witness :
  Player_IsValid PlayerTwo = true
  /\ Start [WithStarterPlayer PlayerOne; WithImpossibleBot PlayerTwo]
     = Val (Some (mkgame (alloc (newBoard 3)) (Some (NewImpossibleBot PlayerTwo))
                         standardConditions 9 PlayerOne 3 StateAwaitingTurn []), None)
  /\ follows (mkgame (alloc (newBoard 3)) (Some (NewImpossibleBot PlayerTwo))
                     standardConditions 9 PlayerOne 3 StateAwaitingTurn [])
             (mkgame (alloc [[2; 0; 0]; [0; 1; 0]; [0; 0; 0]]%N)
                     (Some (NewImpossibleBot PlayerTwo))
                     standardConditions 9 PlayerOne 3 StateAwaitingTurn
                     [mkTurn (mkCell 1 1) PlayerOne; mkTurn (mkCell 0 0) PlayerTwo])
  /\ ~ (state (mkgame (alloc [[2; 0; 0]; [0; 1; 0]; [0; 0; 0]]%N)
                      (Some (NewImpossibleBot PlayerTwo))
                      standardConditions 9 PlayerOne 3 StateAwaitingTurn
                      [mkTurn (mkCell 1 1) PlayerOne; mkTurn (mkCell 0 0) PlayerTwo])
        = StateWon
        /\ player (mkgame (alloc [[2; 0; 0]; [0; 1; 0]; [0; 0; 0]]%N)
                          (Some (NewImpossibleBot PlayerTwo))
                          standardConditions 9 PlayerOne 3 StateAwaitingTurn
                          [mkTurn (mkCell 1 1) PlayerOne; mkTurn (mkCell 0 0) PlayerTwo])
           = PlayerOne).
Proof.
  assert (Hplay :
            Play (mkgame (alloc (newBoard 3)) (Some (NewImpossibleBot PlayerTwo))
                         standardConditions 9 PlayerOne 3 StateAwaitingTurn [])
                 (mkTurn (mkCell 1 1) PlayerOne)
            = Val (mkgame (alloc [[0; 0; 0]; [0; 1; 0]; [0; 0; 0]]%N)
                          (Some (NewImpossibleBot PlayerTwo))
                          standardConditions 9 PlayerTwo 3 StateAwaitingTurn
                          [mkTurn (mkCell 1 1) PlayerOne],
                   (StateAwaitingTurn, PlayerTwo, None)))
    by reflexivity.
  assert (Hbot :
            AllowBotTurn (mkRand (fun _ => 0) (fun _ H => H))
                         (mkgame (alloc [[0; 0; 0]; [0; 1; 0]; [0; 0; 0]]%N)
                                 (Some (NewImpossibleBot PlayerTwo))
                                 standardConditions 9 PlayerTwo 3 StateAwaitingTurn
                                 [mkTurn (mkCell 1 1) PlayerOne])
            = Val (mkgame (alloc [[2; 0; 0]; [0; 1; 0]; [0; 0; 0]]%N)
                          (Some (NewImpossibleBot PlayerTwo))
                          standardConditions 9 PlayerOne 3 StateAwaitingTurn
                          [mkTurn (mkCell 1 1) PlayerOne; mkTurn (mkCell 0 0) PlayerTwo],
                   (StateAwaitingTurn, PlayerOne, None)))
    by (vm_compute; reflexivity).
  pose proof (@follows_Play _ _ _ _ _ Hplay
                (@follows_AllowBotTurn _ _ _ _ _ Hbot (follows_refl _))) as HF.
  split; [reflexivity|]. split; [reflexivity|]. split; [exact HF|].
  exact (impossible_bot_second_never_loses PlayerTwo _ _ eq_refl eq_refl HF).
Defined.

(** ** The standard conditions along the lines of a board *)

Lemma index_nth : forall (A : Type) (s : list A) (i : nat) (d : A),
  i < length s -> index s i = Val (nth i s d).
Proof.
  intros A s i d H. apply index_nth_error. now apply nth_error_nth'.
Qed.

Lemma map_nth_seq_id : forall (A : Type) (l : list A) (d : A),
  map (fun k => nth k l d) (seq 0 (length l)) = l.
Proof.
  intros A l d. induction l as [|a l IH]; [reflexivity|].
  simpl. f_equal. rewrite <- seq_shift, map_map. exact IH.
Qed.

Lemma mark_at_nth : forall (b : Board) row col,
  row < length b -> col < length (nth row b []) ->
  mark_at b (cell_at row col) = nth col (nth row b []) 0%N.
Proof.
  intros b row col Hr Hc. unfold mark_at, cell_at. simpl.
  now rewrite (Board_at_nth b row col Hr Hc).
Qed.

Lemma square_nth_length : forall n b row,
  square n b = true -> row < n -> length (nth row b []) = n.
Proof.
  intros n b row Hs Hr. apply square_spec in Hs. destruct Hs as [Hl Hrows].
  apply Hrows. apply nth_In. lia.
Qed.

(** The loops of the conditions see the marks of a line one after the
    other. *)
Lemma all_current_filled : forall b line p,
  all_current (map (mark_at b) line) p = filled p b line.
Proof.
  intros b line p. unfold filled. induction line as [|c line IH]; [reflexivity|].
  simpl. rewrite IH. destruct (mark_at b c =? p)%N; reflexivity.
Qed.

Lemma findWinnerFromRow_from_owned : forall marks p,
  p <> 0%N ->
  findWinnerFromRow_from marks p = if all_current marks p then p else 0%N.
Proof.
  induction marks as [|m marks IH]; intros p Hp; [reflexivity|].
  simpl. destruct (N.eqb_spec m 0) as [-> | Hm].
  - destruct (N.eqb_spec 0 p) as [E | _]; [congruence | reflexivity].
  - destruct (N.eqb_spec p 0) as [E | _]; [contradiction|].
    rewrite (N.eqb_sym m p).
    destruct (N.eqb_spec p m) as [_ | _]; simpl; [now apply IH | reflexivity].
Qed.

Lemma findWinnerFromRow_from_line_owner : forall b line,
  findWinnerFromRow_from (map (mark_at b) line) 0%N = line_owner b line.
Proof.
  intros b [|c line]; [reflexivity|].
  unfold line_owner. rewrite <- all_current_filled. simpl.
  destruct (N.eqb_spec (mark_at b c) 0) as [E | Hc]; [reflexivity|].
  rewrite N.eqb_refl. simpl.
  now apply findWinnerFromRow_from_owned.
Qed.

Lemma row_line_marks : forall n b row,
  square n b = true -> row < n ->
  map (mark_at b) (row_line n row) = nth row b [].
Proof.
  intros n b row Hs Hr.
  pose proof (square_nth_length n b row Hs Hr) as Hlen.
  pose proof (proj1 (square_spec n b) Hs) as [Hl _].
  unfold row_line. rewrite map_map.
  rewrite <- (map_nth_seq_id _ (nth row b []) 0%N) at 1. rewrite Hlen.
  apply map_ext_in. intros col Hcol. apply in_seq in Hcol.
  apply mark_at_nth; lia.
Qed.

Lemma column_line_marks : forall n b col,
  square n b = true -> col < n ->
  map (mark_at b) (column_line n col) = map (fun cols => nth col cols 0%N) b.
Proof.
  intros n b col Hs Hc.
  pose proof (proj1 (square_spec n b) Hs) as [Hl _].
  unfold column_line. rewrite map_map.
  transitivity (map (fun cols => nth col cols 0%N)
                     (map (fun k => nth k b []) (seq 0 (length b))));
    [|now rewrite map_nth_seq_id].
  rewrite map_map, Hl.
  apply map_ext_in. intros row Hrow. apply in_seq in Hrow.
  apply mark_at_nth; [lia|]. rewrite (square_nth_length n b row Hs); lia.
Qed.

Lemma diagonal_line_marks : forall n b,
  square n b = true ->
  map (mark_at b) (diagonal_line n) = map (fun i => nth i (nth i b []) 0%N) (seq 0 n).
Proof.
  intros n b Hs.
  pose proof (proj1 (square_spec n b) Hs) as [Hl _].
  unfold diagonal_line. rewrite map_map.
  apply map_ext_in. intros i Hi. apply in_seq in Hi.
  apply mark_at_nth; [lia|]. rewrite (square_nth_length n b i Hs); lia.
Qed.

Lemma antidiagonal_line_marks : forall n b,
  square n b = true ->
  map (mark_at b) (antidiagonal_line n)
  = map (fun i => nth (n - i - 1) (nth i b []) 0%N) (seq 0 n).
Proof.
  intros n b Hs.
  pose proof (proj1 (square_spec n b) Hs) as [Hl _].
  unfold antidiagonal_line. rewrite map_map.
  apply map_ext_in. intros i Hi. apply in_seq in Hi.
  apply mark_at_nth; [lia|]. rewrite (square_nth_length n b i Hs); lia.
Qed.

(** *** The loops over a column and over the diagonals *)

Lemma findWinnerFromCol_from_marks : forall rows col p,
  (forall cols, In cols rows -> N.to_nat col < length cols) ->
  findWinnerFromCol_from rows col p
  = Val (findWinnerFromRow_from (map (fun cols => nth (N.to_nat col) cols 0%N) rows) p).
Proof.
  induction rows as [|cols rows IH]; intros col p H; [reflexivity|].
  simpl. rewrite (index_nth _ cols _ 0%N (H cols (or_introl eq_refl))). simpl.
  assert (H' : forall cols', In cols' rows -> N.to_nat col < length cols')
    by (intros cols' Hin; apply H; now right).
  destruct (nth (N.to_nat col) cols 0 =? 0)%N; [reflexivity|].
  destruct (p =? 0)%N; [now apply IH|].
  destruct (p =? nth (N.to_nat col) cols 0)%N; simpl; [now apply IH | reflexivity].
Qed.

Lemma verticalCondition_IsWinningTurn_rows_marks : forall rows t,
  (forall cols, In cols rows -> N.to_nat (Turn_Column t) < length cols) ->
  verticalCondition_IsWinningTurn_rows rows t
  = Val (all_current (map (fun cols => nth (N.to_nat (Turn_Column t)) cols 0%N) rows)
                     (Turn_Player t)).
Proof.
  induction rows as [|cols rows IH]; intros t H; [reflexivity|].
  simpl. rewrite (index_nth _ cols _ 0%N (H cols (or_introl eq_refl))). simpl.
  destruct (nth (N.to_nat (Turn_Column t)) cols 0 =? Turn_Player t)%N; simpl;
    [|reflexivity].
  apply IH. intros cols' Hin. apply H. now right.
Qed.

Lemma findWinnerFromLeft_from_marks : forall rows i p,
  (forall k, k < length rows -> i + k < length (nth k rows [])) ->
  findWinnerFromLeft_from i rows p
  = Val (findWinnerFromRow_from
           (map (fun k => nth (i + k) (nth k rows []) 0%N) (seq 0 (length rows))) p).
Proof.
  induction rows as [|cols rows IH]; intros i p H; [reflexivity|].
  assert (H0 : i < length cols).
  { specialize (H 0 ltac:(simpl; lia)). simpl in H. lia. }
  assert (H' : forall k, k < length rows -> S i + k < length (nth k rows [])).
  { intros k Hk. specialize (H (S k) ltac:(simpl; lia)). simpl in H. lia. }
  assert (E : map (fun k => nth (i + k) (nth k (cols :: rows) []) 0%N)
                  (seq 0 (length (cols :: rows)))
              = nth i cols 0%N
                :: map (fun k => nth (S i + k) (nth k rows []) 0%N) (seq 0 (length rows))).
  { simpl. rewrite Nat.add_0_r. f_equal. rewrite <- seq_shift, map_map.
    apply map_ext. intros k. now rewrite Nat.add_succ_r. }
  rewrite E. simpl findWinnerFromLeft_from. rewrite (index_nth _ cols i 0%N H0).
  cbn [bind findWinnerFromRow_from].
  destruct (nth i cols 0 =? 0)%N; [reflexivity|].
  destruct (p =? 0)%N; [now apply IH|].
  rewrite (N.eqb_sym (nth i cols 0%N) p).
  destruct (p =? nth i cols 0)%N; simpl; [now apply IH | reflexivity].
Qed.

Lemma findWinnerFromRight_from_marks : forall rows l i p,
  (forall k, k < length rows -> l - (i + k) - 1 < length (nth k rows [])) ->
  findWinnerFromRight_from l i rows p
  = Val (findWinnerFromRow_from
           (map (fun k => nth (l - (i + k) - 1) (nth k rows []) 0%N)
                (seq 0 (length rows))) p).
Proof.
  induction rows as [|cols rows IH]; intros l i p H; [reflexivity|].
  assert (H0 : l - i - 1 < length cols).
  { specialize (H 0 ltac:(simpl; lia)). simpl in H. rewrite Nat.add_0_r in H. lia. }
  assert (H' : forall k, k < length rows -> l - (S i + k) - 1 < length (nth k rows [])).
  { intros k Hk. specialize (H (S k) ltac:(simpl; lia)). simpl in H.
    rewrite Nat.add_succ_r in H. exact H. }
  assert (E : map (fun k => nth (l - (i + k) - 1) (nth k (cols :: rows) []) 0%N)
                  (seq 0 (length (cols :: rows)))
              = nth (l - i - 1) cols 0%N
                :: map (fun k => nth (l - (S i + k) - 1) (nth k rows []) 0%N)
                       (seq 0 (length rows))).
  { simpl. rewrite Nat.add_0_r. f_equal. rewrite <- seq_shift, map_map.
    apply map_ext. intros k. now rewrite Nat.add_succ_r. }
  rewrite E. simpl findWinnerFromRight_from.
  rewrite (index_nth _ cols (l - i - 1) 0%N H0).
  cbn [bind findWinnerFromRow_from].
  destruct (nth (l - i - 1) cols 0 =? 0)%N; [reflexivity|].
  destruct (p =? 0)%N; [now apply IH|].
  rewrite (N.eqb_sym (nth (l - i - 1) cols 0%N) p).
  destruct (p =? nth (l - i - 1) cols 0)%N; simpl; [now apply IH | reflexivity].
Qed.

Lemma isWinningTurnFromLeft_from_marks : forall rows i t,
  (forall k, k < length rows -> i + k < length (nth k rows [])) ->
  isWinningTurnFromLeft_from i rows t
  = Val (all_current
           (map (fun k => nth (i + k) (nth k rows []) 0%N) (seq 0 (length rows)))
           (Turn_Player t)).
Proof.
  induction rows as [|cols rows IH]; intros i t H; [reflexivity|].
  assert (H0 : i < length cols).
  { specialize (H 0 ltac:(simpl; lia)). simpl in H. lia. }
  assert (H' : forall k, k < length rows -> S i + k < length (nth k rows [])).
  { intros k Hk. specialize (H (S k) ltac:(simpl; lia)). simpl in H. lia. }
  assert (E : map (fun k => nth (i + k) (nth k (cols :: rows) []) 0%N)
                  (seq 0 (length (cols :: rows)))
              = nth i cols 0%N
                :: map (fun k => nth (S i + k) (nth k rows []) 0%N) (seq 0 (length rows))).
  { simpl. rewrite Nat.add_0_r. f_equal. rewrite <- seq_shift, map_map.
    apply map_ext. intros k. now rewrite Nat.add_succ_r. }
  rewrite E. simpl isWinningTurnFromLeft_from. rewrite (index_nth _ cols i 0%N H0).
  cbn [bind all_current].
  destruct (nth i cols 0 =? Turn_Player t)%N; simpl; [now apply IH | reflexivity].
Qed.

Lemma isWinningTurnFromRight_from_marks : forall rows l i t,
  (forall k, k < length rows -> l - (i + k) - 1 < length (nth k rows [])) ->
  isWinningTurnFromRight_from l i rows t
  = Val (all_current
           (map (fun k => nth (l - (i + k) - 1) (nth k rows []) 0%N)
                (seq 0 (length rows)))
           (Turn_Player t)).
Proof.
  induction rows as [|cols rows IH]; intros l i t H; [reflexivity|].
  assert (H0 : l - i - 1 < length cols).
  { specialize (H 0 ltac:(simpl; lia)). simpl in H. rewrite Nat.add_0_r in H. lia. }
  assert (H' : forall k, k < length rows -> l - (S i + k) - 1 < length (nth k rows [])).
  { intros k Hk. specialize (H (S k) ltac:(simpl; lia)). simpl in H.
    rewrite Nat.add_succ_r in H. exact H. }
  assert (E : map (fun k => nth (l - (i + k) - 1) (nth k (cols :: rows) []) 0%N)
                  (seq 0 (length (cols :: rows)))
              = nth (l - i - 1) cols 0%N
                :: map (fun k => nth (l - (S i + k) - 1) (nth k rows []) 0%N)
                       (seq 0 (length rows))).
  { simpl. rewrite Nat.add_0_r. f_equal. rewrite <- seq_shift, map_map.
    apply map_ext. intros k. now rewrite Nat.add_succ_r. }
  rewrite E. simpl isWinningTurnFromRight_from.
  rewrite (index_nth _ cols (l - i - 1) 0%N H0).
  cbn [bind all_current].
  destruct (nth (l - i - 1) cols 0 =? Turn_Player t)%N; simpl;
    [now apply IH | reflexivity].
Qed.

(** *** The scans of the three conditions *)

Lemma first_owner_cons : forall b line ls,
  first_owner b (line :: ls)
  = if (0 <? line_owner b line)%N then line_owner b line else first_owner b ls.
Proof.
  intros b line ls. unfold first_owner. simpl.
  destruct (0 <? line_owner b line)%N; reflexivity.
Qed.

Lemma first_owner_app : forall b ls1 ls2,
  first_owner b (ls1 ++ ls2)
  = if (0 <? first_owner b ls1)%N then first_owner b ls1 else first_owner b ls2.
Proof.
  intros b ls1 ls2. induction ls1 as [|line ls1 IH]; [reflexivity|].
  rewrite <- app_comm_cons, !first_owner_cons, IH.
  destruct (0 <? line_owner b line)%N eqn:E; [now rewrite E | reflexivity].
Qed.

Lemma horizontalCondition_FindWinner_rows_owner : forall b ls,
  horizontalCondition_FindWinner_rows (map (map (mark_at b)) ls) = first_owner b ls.
Proof.
  intros b ls. induction ls as [|line ls IH]; [reflexivity|].
  rewrite first_owner_cons. simpl. unfold horizontalCondition_findWinnerFromRow.
  rewrite findWinnerFromRow_from_line_owner, IH. reflexivity.
Qed.

Lemma horizontalCondition_FindWinner_owner : forall n b,
  square n b = true ->
  horizontalCondition_FindWinner b = Val (first_owner b (map (row_line n) (seq 0 n))).
Proof.
  intros n b Hs. unfold horizontalCondition_FindWinner. f_equal.
  rewrite <- horizontalCondition_FindWinner_rows_owner. f_equal.
  pose proof (proj1 (square_spec n b) Hs) as [Hl _].
  rewrite map_map. rewrite <- (map_nth_seq_id _ b []) at 1. rewrite Hl.
  apply map_ext_in. intros row Hrow. apply in_seq in Hrow.
  symmetry. apply row_line_marks; [assumption | lia].
Qed.

Lemma verticalCondition_findWinnerFromCol_owner : forall n b col,
  square n b = true -> col < n -> n <= 255 ->
  verticalCondition_findWinnerFromCol b (uint8 col) = Val (line_owner b (column_line n col)).
Proof.
  intros n b col Hs Hc Hn. unfold verticalCondition_findWinnerFromCol.
  rewrite uint8_small by lia.
  rewrite findWinnerFromCol_from_marks.
  - rewrite Nat2N.id, <- (column_line_marks n b col Hs Hc).
    now rewrite findWinnerFromRow_from_line_owner.
  - intros cols Hin. rewrite Nat2N.id.
    destruct (square_In n b cols Hs Hin) as [-> _]. exact Hc.
Qed.

Lemma verticalCondition_FindWinner_from_owner : forall n b count i,
  square n b = true -> i + count <= n -> n <= 255 ->
  verticalCondition_FindWinner_from b i count
  = Val (first_owner b (map (column_line n) (seq i count))).
Proof.
  intros n b count. induction count as [|count IH]; intros i Hs Hi Hn; [reflexivity|].
  simpl. rewrite (verticalCondition_findWinnerFromCol_owner n b i Hs) by lia.
  simpl. rewrite first_owner_cons.
  destruct (0 <? line_owner b (column_line n i))%N; [reflexivity|].
  apply IH; [assumption | lia | assumption].
Qed.

Lemma verticalCondition_FindWinner_owner : forall n b,
  square n b = true -> n <= 255 ->
  verticalCondition_FindWinner b = Val (first_owner b (map (column_line n) (seq 0 n))).
Proof.
  intros n b Hs Hn. unfold verticalCondition_FindWinner.
  pose proof (proj1 (square_spec n b) Hs) as [Hl _]. rewrite Hl.
  apply verticalCondition_FindWinner_from_owner; [assumption | lia | assumption].
Qed.

Lemma diagonalCondition_findWinnerFromLeft_owner : forall n b,
  square n b = true ->
  diagonalCondition_findWinnerFromLeft b = Val (line_owner b (diagonal_line n)).
Proof.
  intros n b Hs. unfold diagonalCondition_findWinnerFromLeft.
  pose proof (proj1 (square_spec n b) Hs) as [Hl _].
  rewrite findWinnerFromLeft_from_marks.
  - rewrite Hl. simpl. rewrite <- (diagonal_line_marks n b Hs).
    now rewrite findWinnerFromRow_from_line_owner.
  - intros k Hk. rewrite (square_nth_length n b k Hs); lia.
Qed.

Lemma diagonalCondition_findWinnerFromRight_owner : forall n b,
  square n b = true ->
  diagonalCondition_findWinnerFromRight b = Val (line_owner b (antidiagonal_line n)).
Proof.
  intros n b Hs. unfold diagonalCondition_findWinnerFromRight.
  pose proof (proj1 (square_spec n b) Hs) as [Hl _].
  rewrite findWinnerFromRight_from_marks.
  - rewrite Hl. simpl. rewrite <- (antidiagonal_line_marks n b Hs).
    now rewrite findWinnerFromRow_from_line_owner.
  - intros k Hk. rewrite (square_nth_length n b k Hs); lia.
Qed.

Lemma diagonalCondition_FindWinner_owner : forall n b,
  square n b = true ->
  diagonalCondition_FindWinner b
  = Val (first_owner b [diagonal_line n; antidiagonal_line n]).
Proof.
  intros n b Hs. unfold diagonalCondition_FindWinner.
  rewrite (diagonalCondition_findWinnerFromLeft_owner n b Hs). simpl.
  rewrite !first_owner_cons.
  destruct (0 <? line_owner b (diagonal_line n))%N; [reflexivity|].
  rewrite (diagonalCondition_findWinnerFromRight_owner n b Hs). simpl.
  destruct (0 <? line_owner b (antidiagonal_line n))%N eqn:E; [reflexivity|].
  reflexivity.
Qed.

(** The scan of the standard conditions answers with the owner of the
    first line that has one, when that owner is a valid player, with
    zero when no line has an owner, and with an error otherwise. *)
Lemma standardConditions_FindWinner_owner : forall n b,
  square n b = true -> n <= 255 ->
  (Player_IsValidOrZero (first_owner b (line_cells n)) = true ->
   Conditions_FindWinner standardConditions b
   = Val (first_owner b (line_cells n), None))
  /\ (Player_IsValidOrZero (first_owner b (line_cells n)) = false ->
      exists i,
        Conditions_FindWinner standardConditions b
        = Val (0%N, Some (fmtInvalidConditionErr i
                            (ArgSprintf "invalid player: %v"
                                        [first_owner b (line_cells n)])))).
Proof.
  intros n b Hs Hn.
  unfold line_cells. rewrite !first_owner_app.
  unfold Conditions_FindWinner, standardConditions. cbn [Conditions_FindWinner_from].
  cbn [FindWinner horizontalCondition verticalCondition diagonalCondition].
  rewrite (horizontalCondition_FindWinner_owner n b Hs),
          (verticalCondition_FindWinner_owner n b Hs Hn),
          (diagonalCondition_FindWinner_owner n b Hs).
  cbn [bind].
  set (h := first_owner b (map (row_line n) (seq 0 n))).
  set (v := first_owner b (map (column_line n) (seq 0 n))).
  set (d := first_owner b [diagonal_line n; antidiagonal_line n]).
  destruct (0 <? h)%N eqn:Eh.
  - destruct (Player_IsValidOrZero h); simpl; split; intros E; try discriminate E;
      [reflexivity | eexists; reflexivity].
  - assert (Hh : Player_IsValidOrZero h = true)
      by (apply N.ltb_ge in Eh; assert (h = 0%N) as -> by lia; reflexivity).
    rewrite Hh. simpl.
    destruct (0 <? v)%N eqn:Ev.
    + destruct (Player_IsValidOrZero v); simpl; split; intros E; try discriminate E;
        [reflexivity | eexists; reflexivity].
    + assert (Hv : Player_IsValidOrZero v = true)
        by (apply N.ltb_ge in Ev; assert (v = 0%N) as -> by lia; reflexivity).
      rewrite Hv. simpl.
      destruct (0 <? d)%N eqn:Ed.
      * destruct (Player_IsValidOrZero d); simpl; split; intros E; try discriminate E;
          [reflexivity | eexists; reflexivity].
      * assert (Hd : Player_IsValidOrZero d = true)
          by (apply N.ltb_ge in Ed; assert (d = 0%N) as -> by lia; reflexivity).
        rewrite Hd. simpl. split; intros E; [|discriminate E].
        apply N.ltb_ge in Ed. assert (d = 0%N) as -> by lia. reflexivity.
Qed.

(** *** The checks of a turn by the three conditions *)

Lemma horizontalCondition_IsWinningTurn_filled : forall n b t,
  square n b = true -> N.to_nat (Turn_Row t) < n ->
  horizontalCondition_IsWinningTurn b t
  = Val (filled (Turn_Player t) b (row_line n (N.to_nat (Turn_Row t)))).
Proof.
  intros n b t Hs Hr. unfold horizontalCondition_IsWinningTurn.
  pose proof (proj1 (square_spec n b) Hs) as [Hl _].
  assert (Hrb : N.to_nat (Turn_Row t) < length b) by (rewrite Hl; exact Hr).
  rewrite (index_nth _ b _ [] Hrb). simpl.
  now rewrite <- all_current_filled, (row_line_marks n b _ Hs Hr).
Qed.

Lemma verticalCondition_IsWinningTurn_filled : forall n b t,
  square n b = true -> N.to_nat (Turn_Column t) < n ->
  verticalCondition_IsWinningTurn b t
  = Val (filled (Turn_Player t) b (column_line n (N.to_nat (Turn_Column t)))).
Proof.
  intros n b t Hs Hc. unfold verticalCondition_IsWinningTurn.
  rewrite verticalCondition_IsWinningTurn_rows_marks.
  - now rewrite <- all_current_filled, (column_line_marks n b _ Hs Hc).
  - intros cols Hin. destruct (square_In n b cols Hs Hin) as [-> _]. exact Hc.
Qed.

Lemma sub8_antidiagonal : forall n col,
  n <= 255 -> N.to_nat col < n ->
  sub8 (sub8 (uint8 n) col) 1 = N.of_nat (n - N.to_nat col - 1).
Proof.
  intros n col Hn Hc. rewrite uint8_small by lia. unfold sub8.
  rewrite (N.mod_small col 256) by lia.
  rewrite (N.mod_small 1 256) by lia.
  assert (E : (N.of_nat n + 256 - col = 256 + N.of_nat (n - N.to_nat col))%N) by lia.
  rewrite E.
  assert (E1 : ((256 + N.of_nat (n - N.to_nat col)) mod 256
                = N.of_nat (n - N.to_nat col))%N).
  { rewrite <- N.Div0.add_mod_idemp_l. rewrite N.Div0.mod_same, N.add_0_l.
    apply N.mod_small. lia. }
  rewrite E1.
  assert (E2 : (N.of_nat (n - N.to_nat col) + 256 - 1
                = 256 + N.of_nat (n - N.to_nat col - 1))%N) by lia.
  rewrite E2. rewrite <- N.Div0.add_mod_idemp_l. rewrite N.Div0.mod_same, N.add_0_l.
  apply N.mod_small. lia.
Qed.

Lemma diagonalCondition_IsWinningTurn_filled : forall n b t,
  square n b = true -> n <= 255 ->
  N.to_nat (Turn_Row t) < n -> N.to_nat (Turn_Column t) < n ->
  diagonalCondition_IsWinningTurn b t
  = Val ((N.to_nat (Turn_Row t) =? N.to_nat (Turn_Column t))%nat
         && filled (Turn_Player t) b (diagonal_line n)
         || (N.to_nat (Turn_Row t) + N.to_nat (Turn_Column t) =? n - 1)%nat
            && filled (Turn_Player t) b (antidiagonal_line n)).
Proof.
  intros n b t Hs Hn Hr Hc. unfold diagonalCondition_IsWinningTurn.
  pose proof (proj1 (square_spec n b) Hs) as [Hl _].
  assert (HL : diagonalCondition_isWinningTurnFromLeft b t
               = Val (filled (Turn_Player t) b (diagonal_line n))).
  { unfold diagonalCondition_isWinningTurnFromLeft.
    rewrite isWinningTurnFromLeft_from_marks.
    - rewrite Hl. simpl. now rewrite <- (diagonal_line_marks n b Hs), all_current_filled.
    - intros k Hk. rewrite (square_nth_length n b k Hs); lia. }
  assert (HR : diagonalCondition_isWinningTurnFromRight b t
               = Val (filled (Turn_Player t) b (antidiagonal_line n))).
  { unfold diagonalCondition_isWinningTurnFromRight.
    rewrite isWinningTurnFromRight_from_marks.
    - rewrite Hl. simpl.
      now rewrite <- (antidiagonal_line_marks n b Hs), all_current_filled.
    - intros k Hk. rewrite (square_nth_length n b k Hs); lia. }
  rewrite HL, HR, Hl, (sub8_antidiagonal n _ Hn Hc), <- to_nat_eqb.
  assert (E : (Turn_Row t =? N.of_nat (n - N.to_nat (Turn_Column t) - 1))%N
              = (N.to_nat (Turn_Row t) + N.to_nat (Turn_Column t) =? n - 1)%nat).
  { rewrite <- to_nat_eqb, Nat2N.id.
    destruct (Nat.eqb_spec (N.to_nat (Turn_Row t)) (n - N.to_nat (Turn_Column t) - 1));
      destruct (Nat.eqb_spec (N.to_nat (Turn_Row t) + N.to_nat (Turn_Column t)) (n - 1));
      try reflexivity; lia. }
  rewrite E.
  destruct (N.to_nat (Turn_Row t) =? N.to_nat (Turn_Column t))%nat; simpl.
  - destruct (filled (Turn_Player t) b (diagonal_line n)); simpl; [reflexivity|].
    destruct (N.to_nat (Turn_Row t) + N.to_nat (Turn_Column t) =? n - 1)%nat; simpl;
      [|reflexivity].
    destruct (filled (Turn_Player t) b (antidiagonal_line n)); reflexivity.
  - destruct (N.to_nat (Turn_Row t) + N.to_nat (Turn_Column t) =? n - 1)%nat; simpl;
      [|reflexivity].
    destruct (filled (Turn_Player t) b (antidiagonal_line n)); reflexivity.
Qed.

(** The check of a turn by the standard conditions, as one value. *)
Lemma standardConditions_IsWinningTurn_filled : forall n b t,
  square n b = true -> n <= 255 ->
  N.to_nat (Turn_Row t) < n -> N.to_nat (Turn_Column t) < n ->
  Conditions_IsWinningTurn standardConditions b t
  = Val (filled (Turn_Player t) b (row_line n (N.to_nat (Turn_Row t)))
         || filled (Turn_Player t) b (column_line n (N.to_nat (Turn_Column t)))
         || ((N.to_nat (Turn_Row t) =? N.to_nat (Turn_Column t))%nat
             && filled (Turn_Player t) b (diagonal_line n)
             || (N.to_nat (Turn_Row t) + N.to_nat (Turn_Column t) =? n - 1)%nat
                && filled (Turn_Player t) b (antidiagonal_line n))).
Proof.
  intros n b t Hs Hn Hr Hc. unfold standardConditions.
  cbn [Conditions_IsWinningTurn IsWinningTurn horizontalCondition verticalCondition
       diagonalCondition].
  rewrite (horizontalCondition_IsWinningTurn_filled n b t Hs Hr),
          (verticalCondition_IsWinningTurn_filled n b t Hs Hc),
          (diagonalCondition_IsWinningTurn_filled n b t Hs Hn Hr Hc).
  cbn [bind].
  destruct (filled (Turn_Player t) b (row_line n (N.to_nat (Turn_Row t))));
    [reflexivity|].
  destruct (filled (Turn_Player t) b (column_line n (N.to_nat (Turn_Column t))));
    [reflexivity|].
  simpl.
  match goal with |- (if ?x then _ else _) = _ => destruct x end; reflexivity.
Qed.

(** *** Lines, their owners and the lines through a cell *)

Lemma line_cells_In : forall n line,
  In line (line_cells n) <->
  (exists row, row < n /\ line = row_line n row)
  \/ (exists col, col < n /\ line = column_line n col)
  \/ line = diagonal_line n
  \/ line = antidiagonal_line n.
Proof.
  intros n line. unfold line_cells. rewrite !in_app_iff, !in_map_iff. simpl. split.
  - intros [(row & <- & Hin) | [(col & <- & Hin) | [<- | [<- | []]]]].
    + left. exists row. apply in_seq in Hin. split; [lia | reflexivity].
    + right. left. exists col. apply in_seq in Hin. split; [lia | reflexivity].
    + right. right. now left.
    + right. right. now right.
  - intros [(row & Hr & ->) | [(col & Hc & ->) | [-> | ->]]].
    + left. exists row. split; [reflexivity | apply in_seq; lia].
    + right. left. exists col. split; [reflexivity | apply in_seq; lia].
    + right. right. now left.
    + right. right. right. now left.
Qed.

Lemma line_cells_length : forall n line, In line (line_cells n) -> length line = n.
Proof.
  intros n line H. apply line_cells_In in H.
  destruct H as [(row & _ & ->) | [(col & _ & ->) | [-> | ->]]];
    unfold row_line, column_line, diagonal_line, antidiagonal_line;
    now rewrite length_map, length_seq.
Qed.

Lemma filled_spec : forall p b line,
  filled p b line = true <-> forall c, In c line -> mark_at b c = p.
Proof.
  intros p b line. unfold filled. rewrite forallb_forall. split; intros H c Hc.
  - apply N.eqb_eq. now apply H.
  - apply N.eqb_eq. now apply H.
Qed.

Lemma line_owner_spec : forall b line w,
  w <> 0%N ->
  (line_owner b line = w <-> line <> [] /\ filled w b line = true).
Proof.
  intros b [|c line] w Hw; unfold line_owner.
  - split; [intros E; congruence | intros [H _]; contradiction].
  - split.
    + intros E. split; [discriminate|].
      destruct (mark_at b c =? 0)%N; cbn [negb andb] in E; [congruence|].
      destruct (filled (mark_at b c) b (c :: line)) eqn:F; [|congruence].
      now rewrite <- E.
    + intros [_ F]. pose proof F as F'. rewrite filled_spec in F'.
      rewrite (F' c (or_introl eq_refl)).
      destruct (N.eqb_spec w 0) as [E | _]; [contradiction|]. cbn [negb andb].
      now rewrite F.
Qed.

Lemma line_owner_zero : forall b line,
  line_owner b line = 0%N <->
  forall p, p <> 0%N -> line <> [] -> filled p b line = false.
Proof.
  intros b line. split.
  - intros E p Hp Hne. destruct (filled p b line) eqn:F; [|reflexivity].
    assert (line_owner b line = p) by (apply line_owner_spec; auto). congruence.
  - intros H. destruct (N.eq_dec (line_owner b line) 0) as [E | E]; [exact E|].
    destruct (proj1 (line_owner_spec b line (line_owner b line) E) eq_refl) as [Hne F].
    rewrite (H _ E Hne) in F. discriminate F.
Qed.

Lemma first_owner_zero : forall b ls,
  first_owner b ls = 0%N <-> forall line, In line ls -> line_owner b line = 0%N.
Proof.
  intros b ls. induction ls as [|line ls IH].
  - split; [intros _ line [] | reflexivity].
  - rewrite first_owner_cons. destruct (N.ltb_spec 0 (line_owner b line)) as [Hlt | Hge].
    + split; [lia|]. intros H. apply (H line). now left.
    + rewrite IH. split.
      * intros H line' [<- | Hin]; [lia | now apply H].
      * intros H line' Hin. apply H. now right.
Qed.

Lemma first_owner_In : forall b ls,
  first_owner b ls <> 0%N ->
  exists line, In line ls /\ line_owner b line = first_owner b ls.
Proof.
  intros b ls. induction ls as [|line ls IH]; [intros H; now elim H|].
  rewrite first_owner_cons. destruct (N.ltb_spec 0 (line_owner b line)) as [Hlt | Hge].
  - intros _. exists line. split; [now left | reflexivity].
  - intros H. destruct (IH H) as (line' & Hin & E). exists line'.
    split; [now right | exact E].
Qed.

Lemma on_line_spec : forall c line,
  on_line c line = true <-> exists x, In x line /\ Row x = Row c /\ Column x = Column c.
Proof.
  intros c line. unfold on_line. rewrite existsb_exists. split.
  - intros (x & Hin & H). apply andb_true_iff in H. destruct H as [Hr Hc].
    apply N.eqb_eq in Hr, Hc. now exists x.
  - intros (x & Hin & Hr & Hc). exists x. split; [assumption|].
    now rewrite Hr, Hc, !N.eqb_refl.
Qed.

Lemma mark_at_same_cell : forall b x c,
  Row x = Row c -> Column x = Column c -> mark_at b x = mark_at b c.
Proof. intros b x c Hr Hc. unfold mark_at. now rewrite Hr, Hc. Qed.

(** The four checks of a turn are the lines through its cell. *)
Lemma through_cell : forall n t line,
  N.to_nat (Turn_Row t) < n -> N.to_nat (Turn_Column t) < n ->
  (In line (line_cells n) /\ on_line (Turn_Cell t) line = true) <->
  line = row_line n (N.to_nat (Turn_Row t))
  \/ line = column_line n (N.to_nat (Turn_Column t))
  \/ (N.to_nat (Turn_Row t) = N.to_nat (Turn_Column t) /\ line = diagonal_line n)
  \/ (N.to_nat (Turn_Row t) + N.to_nat (Turn_Column t) = n - 1
      /\ line = antidiagonal_line n).
Proof.
  intros n [[col row] p] line Hr Hc. unfold Turn_Row, Turn_Column in *. simpl in *.
  rewrite line_cells_In, on_line_spec. simpl. split.
  - intros [Hline (x & Hin & Hxr & Hxc)].
    destruct Hline as [(row' & Hrow' & ->) | [(col' & Hcol' & ->) | [-> | ->]]].
    + left. apply in_map_iff in Hin. destruct Hin as (k & <- & _). simpl in Hxr.
      f_equal. lia.
    + right. left. apply in_map_iff in Hin. destruct Hin as (k & <- & _).
      simpl in Hxc. f_equal. lia.
    + right. right. left. apply in_map_iff in Hin. destruct Hin as (k & <- & _).
      simpl in Hxr, Hxc. split; [lia | reflexivity].
    + right. right. right. apply in_map_iff in Hin. destruct Hin as (k & <- & Hk).
      apply in_seq in Hk. simpl in Hxr, Hxc. split; [lia | reflexivity].
  - intros [-> | [-> | [[E ->] | [E ->]]]].
    + split; [left; exists (N.to_nat row); auto|].
      exists (cell_at (N.to_nat row) (N.to_nat col)). split.
      * apply in_map_iff. exists (N.to_nat col). split; [reflexivity | apply in_seq; lia].
      * simpl. now rewrite !N2Nat.id.
    + split; [right; left; exists (N.to_nat col); auto|].
      exists (cell_at (N.to_nat row) (N.to_nat col)). split.
      * apply in_map_iff. exists (N.to_nat row). split; [reflexivity | apply in_seq; lia].
      * simpl. now rewrite !N2Nat.id.
    + split; [right; right; now left|].
      exists (cell_at (N.to_nat row) (N.to_nat row)). split.
      * apply in_map_iff. exists (N.to_nat row). split; [reflexivity | apply in_seq; lia].
      * simpl. split; [apply N2Nat.id | rewrite E; apply N2Nat.id].
    + split; [right; right; now right|].
      exists (cell_at (N.to_nat row) (n - N.to_nat row - 1)). split.
      * apply in_map_iff. exists (N.to_nat row). split; [reflexivity | apply in_seq; lia].
      * simpl. split; [now rewrite N2Nat.id|].
        replace (n - N.to_nat row - 1) with (N.to_nat col) by lia.
        now rewrite N2Nat.id.
Qed.

(** A turn is reported as winning exactly when a line through its cell
    is filled with its player. *)
Lemma standardConditions_IsWinningTurn_line : forall n b t,
  square n b = true -> n <= 255 ->
  N.to_nat (Turn_Row t) < n -> N.to_nat (Turn_Column t) < n ->
  exists won,
    Conditions_IsWinningTurn standardConditions b t = Val won
    /\ (won = true <->
        exists line, In line (line_cells n) /\ on_line (Turn_Cell t) line = true
                     /\ filled (Turn_Player t) b line = true).
Proof.
  intros n b t Hs Hn Hr Hc. eexists. split.
  - apply (standardConditions_IsWinningTurn_filled n b t Hs Hn Hr Hc).
  - rewrite !orb_true_iff, !andb_true_iff, !Nat.eqb_eq. split.
    + intros H.
      assert (Hl : exists line,
                 (line = row_line n (N.to_nat (Turn_Row t))
                  \/ line = column_line n (N.to_nat (Turn_Column t))
                  \/ (N.to_nat (Turn_Row t) = N.to_nat (Turn_Column t)
                      /\ line = diagonal_line n)
                  \/ (N.to_nat (Turn_Row t) + N.to_nat (Turn_Column t) = n - 1
                      /\ line = antidiagonal_line n))
                 /\ filled (Turn_Player t) b line = true).
      { destruct H as [[F | F] | [[E F] | [E F]]]; eexists; (split; [|exact F]); auto. }
      destruct Hl as (line & Hline & F).
      apply (through_cell n t line Hr Hc) in Hline. destruct Hline as [Hin Hon].
      now exists line.
    + intros (line & Hin & Hon & F).
      destruct (proj1 (through_cell n t line Hr Hc) (conj Hin Hon))
        as [-> | [-> | [[E ->] | [E ->]]]]; auto.
Qed.

(** *** A move on a board that nobody has won *)

Lemma FindWinner_zero_no_owner : forall n b,
  square n b = true -> n <= 255 ->
  Conditions_FindWinner standardConditions b = Val (0%N, None) ->
  forall line, In line (line_cells n) -> line_owner b line = 0%N.
Proof.
  intros n b Hs Hn HFW. apply first_owner_zero.
  destruct (standardConditions_FindWinner_owner n b Hs Hn) as [Hv Hi].
  destruct (Player_IsValidOrZero (first_owner b (line_cells n))) eqn:E.
  - rewrite (Hv eq_refl) in HFW. now inversion HFW.
  - destruct (Hi eq_refl) as (i & Hi'). rewrite Hi' in HFW. discriminate HFW.
Qed.

Lemma mark_at_assigned : forall n b row col p b',
  square n b = true -> N.to_nat row < n -> N.to_nat col < n ->
  Board_assign b row col p = Val b' ->
  square n b' = true
  /\ forall c, mark_at b' c
               = if (Row c =? row)%N && (Column c =? col)%N then p else mark_at b c.
Proof.
  intros n b row col p b' Hs Hr Hc Hassign.
  destruct (Board_assign_square n b row col p Hs Hr Hc) as (b'' & E & Hs' & Hat).
  rewrite Hassign in E. inversion E; subst b''. split; [exact Hs'|].
  intros c. unfold mark_at. rewrite Hat.
  destruct ((Row c =? row)%N && (Column c =? col)%N); reflexivity.
Qed.

(** After a move on a board on which the scan finds no winner, a line
    can only be filled with a player when it passes through the cell of
    the move, and then with the player of the move. *)
Lemma filled_after_move : forall n b t b' line w,
  square n b = true -> 0 < n <= 255 ->
  N.to_nat (Turn_Row t) < n -> N.to_nat (Turn_Column t) < n ->
  Conditions_FindWinner standardConditions b = Val (0%N, None) ->
  Board_assign b (Turn_Row t) (Turn_Column t) (Turn_Player t) = Val b' ->
  In line (line_cells n) -> w <> 0%N -> filled w b' line = true ->
  on_line (Turn_Cell t) line = true /\ w = Turn_Player t.
Proof.
  intros n b t b' line w Hs Hn Hr Hc HFW Hassign Hin Hw F.
  destruct (mark_at_assigned n b _ _ _ b' Hs Hr Hc Hassign) as [Hs' Hmark].
  pose proof (FindWinner_zero_no_owner n b Hs ltac:(lia) HFW line Hin) as Hzero.
  assert (Hne : line <> []).
  { pose proof (line_cells_length n line Hin). destruct line; [simpl in *; lia|].
    discriminate. }
  rewrite filled_spec in F.
  destruct (on_line (Turn_Cell t) line) eqn:Hon.
  - split; [reflexivity|].
    apply on_line_spec in Hon. destruct Hon as (x & Hx & Hxr & Hxc).
    rewrite <- (F x Hx), Hmark. unfold Turn_Row, Turn_Column.
    now rewrite Hxr, Hxc, !N.eqb_refl.
  - exfalso.
    assert (F0 : filled w b line = true).
    { apply filled_spec. intros x Hx. rewrite <- (F x Hx), Hmark.
      destruct ((Row x =? Turn_Row t)%N && (Column x =? Turn_Column t)%N) eqn:E;
        [|reflexivity].
      apply andb_true_iff in E. destruct E as [Er Ec]. apply N.eqb_eq in Er, Ec.
      assert (on_line (Turn_Cell t) line = true)
        by (apply on_line_spec; exists x; auto).
      congruence. }
    assert (line_owner b line = w) by (apply line_owner_spec; auto).
    congruence.
Qed.

(** The two checks for a win agree after a move: on the board after a
    valid player has marked a cell of a board on which the scan found no
    winner, the scan finds that player when the turn is reported as
    winning and nobody otherwise. *)
Lemma standardConditions_move_agrees : forall n b t b',
  square n b = true -> 0 < n <= 255 ->
  N.to_nat (Turn_Row t) < n -> N.to_nat (Turn_Column t) < n ->
  Player_IsValid (Turn_Player t) = true ->
  Conditions_FindWinner standardConditions b = Val (0%N, None) ->
  Board_assign b (Turn_Row t) (Turn_Column t) (Turn_Player t) = Val b' ->
  exists won,
    Conditions_IsWinningTurn standardConditions b' t = Val won
    /\ Conditions_FindWinner standardConditions b'
       = Val ((if won then Turn_Player t else 0%N), None).
Proof.
  intros n b t b' Hs Hn Hr Hc Hp HFW Hassign.
  destruct (mark_at_assigned n b _ _ _ b' Hs Hr Hc Hassign) as [Hs' _].
  pose proof (Player_IsValid_nonzero _ Hp) as Hpn.
  destruct (standardConditions_IsWinningTurn_line n b' t Hs' ltac:(lia) Hr Hc)
    as (won & HW & Hiff).
  exists won. split; [exact HW|].
  destruct (standardConditions_FindWinner_owner n b' Hs' ltac:(lia)) as [Hv _].
  destruct (N.eq_dec (first_owner b' (line_cells n)) 0) as [E0 | E0].
  - rewrite E0 in Hv. rewrite (Hv eq_refl).
    destruct won; [exfalso | reflexivity].
    destruct (proj1 Hiff eq_refl) as (line & Hin & _ & F).
    assert (Hne : line <> []).
    { pose proof (line_cells_length n line Hin). destruct line; [simpl in *; lia|].
      discriminate. }
    assert (line_owner b' line = Turn_Player t) by (apply line_owner_spec; auto).
    pose proof (proj1 (first_owner_zero b' (line_cells n)) E0 line Hin). congruence.
  - destruct (first_owner_In b' (line_cells n) E0) as (line & Hin & Ho).
    destruct (proj1 (line_owner_spec b' line _ E0) Ho) as [_ F].
    destruct (filled_after_move n b t b' line _ Hs Hn Hr Hc HFW Hassign Hin E0 F)
      as [Hon Ew].
    rewrite Ew in Hv, F.
    rewrite (Hv ltac:(unfold Player_IsValidOrZero; rewrite Hp; apply orb_true_r)).
    assert (won = true) as -> by (apply Hiff; exists line; auto).
    reflexivity.
Qed.

(** X1. A square board of at most 255 rows: the turn is reported as
    winning by the standard conditions exactly when one of the lines
    through its cell (its row, its column, and a diagonal when the cell
    is on it) is filled with the player of the turn. *)
Theorem standardConditions_IsWinningTurn_lines :
  forall (n : nat) (b : Board) (t : Turn),
    square n b = true -> n <= 255 ->
    N.to_nat (Turn_Row t) < n -> N.to_nat (Turn_Column t) < n ->
    Conditions_IsWinningTurn standardConditions b t
    = Val (existsb (fun line => on_line (Turn_Cell t) line
                                && filled (Turn_Player t) b line)
                   (line_cells n)).
Proof.
  intros n b t Hs Hn Hr Hc.
  destruct (standardConditions_IsWinningTurn_line n b t Hs Hn Hr Hc)
    as (won & HW & Hiff).
  rewrite HW. f_equal. apply eq_true_iff_eq. rewrite Hiff, existsb_exists.
  split.
  - intros (line & Hin & Hon & F). exists line. split; [assumption|].
    now rewrite Hon, F.
  - intros (line & Hin & H). apply andb_true_iff in H. destruct H as [Hon F].
    now exists line.
Qed.

Lemma standardConditions_IsWinningTurn_lines_witness :
  Conditions_IsWinningTurn standardConditions [[1; 2; 0]; [2; 1; 0]; [0; 0; 1]]%N
                           (mkTurn (mkCell 2 2) PlayerOne)
  = Val true.
Proof.
  rewrite (standardConditions_IsWinningTurn_lines 3); [reflexivity | reflexivity | | |];
    simpl; lia.
Defined.

(** X2. A square board of [n] rows, [0 < n <= 255]: the scan of the
    standard conditions goes through the rows from the top, the columns
    from the left and the two diagonals, and stops at the first line
    whose cells all hold the same mark that is not zero. It answers
    with that mark when it is a valid player, with zero and no error
    when there is no such line, and with [ErrConditionInvalid] when the
    mark is not a valid player. *)
Theorem standardConditions_FindWinner_lines :
  forall (n : nat) (b : Board),
    0 < n <= 255 -> square n b = true ->
    (first_owner b (line_cells n) = 0%N <->
     forall line p, In line (line_cells n) -> p <> 0%N -> filled p b line = false)
    /\ (first_owner b (line_cells n) <> 0%N ->
        exists line, In line (line_cells n)
                     /\ filled (first_owner b (line_cells n)) b line = true)
    /\ (Player_IsValidOrZero (first_owner b (line_cells n)) = true ->
        Conditions_FindWinner standardConditions b
        = Val (first_owner b (line_cells n), None))
    /\ (Player_IsValidOrZero (first_owner b (line_cells n)) = false ->
        exists e, Conditions_FindWinner standardConditions b = Val (0%N, Some e)
                  /\ errors_Is e msgConditionInvalid = true).
Proof.
  intros n b Hn Hs.
  assert (Hne : forall line, In line (line_cells n) -> line <> []).
  { intros line Hin. pose proof (line_cells_length n line Hin).
    destruct line; [simpl in *; lia | discriminate]. }
  split; [|split; [|split]].
  - rewrite first_owner_zero. split.
    + intros H line p Hin Hp. apply (proj1 (line_owner_zero b line) (H line Hin) p Hp).
      now apply Hne.
    + intros H line Hin. apply line_owner_zero. intros p Hp _. now apply H.
  - intros E. destruct (first_owner_In b (line_cells n) E) as (line & Hin & Ho).
    exists line. split; [exact Hin|]. now apply (line_owner_spec b line _ E).
  - apply (standardConditions_FindWinner_owner n b Hs ltac:(lia)).
  - intros E.
    destruct (proj2 (standardConditions_FindWinner_owner n b Hs ltac:(lia)) E)
      as (i & Hi).
    eexists. split; [exact Hi | reflexivity].
Qed.

Lemma standardConditions_FindWinner_lines_witness :
  Conditions_FindWinner standardConditions [[1; 2; 0]; [2; 2; 1]; [1; 2; 1]]%N
  = Val (PlayerTwo, None)
  /\ exists e,
       Conditions_FindWinner standardConditions [[1; 2; 0]; [7; 7; 7]; [1; 2; 1]]%N
       = Val (0%N, Some e)
       /\ errors_Is e msgConditionInvalid = true.
Proof.
  split.
  - destruct (standardConditions_FindWinner_lines
                3 [[1; 2; 0]; [2; 2; 1]; [1; 2; 1]]%N ltac:(lia) eq_refl)
      as (_ & _ & Hv & _).
    exact (Hv eq_refl).
  - destruct (standardConditions_FindWinner_lines
                3 [[1; 2; 0]; [7; 7; 7]; [1; 2; 1]]%N ltac:(lia) eq_refl)
      as (_ & _ & _ & Hi).
    exact (Hi eq_refl).
Defined.

(** X3. The two ways the package detects a win agree. On a square
    board on which the scan of the standard conditions finds no winner,
    after a valid player marks a cell, the scan of the new board finds
    that player exactly when the check of the turn reports a win, and
    finds nobody otherwise. *)
Theorem IsWinningTurn_agrees_with_FindWinner :
  forall (n : nat) (b : Board) (t : Turn) (b' : Board),
    square n b = true -> 0 < n <= 255 ->
    N.to_nat (Turn_Row t) < n -> N.to_nat (Turn_Column t) < n ->
    Player_IsValid (Turn_Player t) = true ->
    Conditions_FindWinner standardConditions b = Val (0%N, None) ->
    Board_assign b (Turn_Row t) (Turn_Column t) (Turn_Player t) = Val b' ->
    exists won,
      Conditions_IsWinningTurn standardConditions b' t = Val won
      /\ Conditions_FindWinner standardConditions b'
         = Val ((if won then Turn_Player t else 0%N), None).
Proof. exact standardConditions_move_agrees. Qed.

Lemma IsWinningTurn_agrees_with_FindWinner_witness :
  exists won,
    Conditions_IsWinningTurn standardConditions
      [[1; 2; 0; 0]; [2; 1; 0; 0]; [0; 0; 1; 2]; [0; 0; 0; 1]]%N
      (mkTurn (mkCell 3 3) PlayerOne) = Val won
    /\ Conditions_FindWinner standardConditions
         [[1; 2; 0; 0]; [2; 1; 0; 0]; [0; 0; 1; 2]; [0; 0; 0; 1]]%N
       = Val ((if won then PlayerOne else 0%N), None).
Proof.
  apply (IsWinningTurn_agrees_with_FindWinner
           4 [[1; 2; 0; 0]; [2; 1; 0; 0]; [0; 0; 1; 2]; [0; 0; 0; 0]]%N
           (mkTurn (mkCell 3 3) PlayerOne));
    try reflexivity; simpl; lia.
Defined.

(** ** The state of a game and its recorded player *)

Lemma WithBoard_success_fields : forall board_ g g',
  WithBoard board_ g = (g', None) ->
  state g' = state g /\ bot g' = bot g /\ conditions g' = conditions g
  /\ (player g' = PlayerOne \/ player g' = PlayerTwo \/ player g' = player g).
Proof.
  intros board_ g g' H.
  remember (contents board_) as b eqn:Hb. symmetry in Hb.
  destruct (Nat.lt_ge_cases (length b) 3) as [Hlo|Hlo].
  { destruct (WithBoard_rejects board_ b g Hb) as (e & E & _); [tauto|]. congruence. }
  destruct (Nat.lt_ge_cases 255 (length b)) as [Hhi|Hhi].
  { destruct (WithBoard_rejects board_ b g Hb) as (e & E & _); [tauto|]. congruence. }
  destruct (rows_ok (length b) b) eqn:Hok.
  2:{ destruct (WithBoard_rejects board_ b g Hb) as (e & E & _); [tauto|]. congruence. }
  destruct (Nat.lt_ge_cases (count_marks PlayerTwo b + 1) (count_marks PlayerOne b))
    as [H12|H12].
  { destruct (WithBoard_rejects board_ b g Hb) as (e & E & _); [tauto|]. congruence. }
  destruct (Nat.lt_ge_cases (count_marks PlayerOne b + 1) (count_marks PlayerTwo b))
    as [H21|H21].
  { destruct (WithBoard_rejects board_ b g Hb) as (e & E & _); [tauto|]. congruence. }
  rewrite (WithBoard_accepts board_ b g Hb Hlo Hhi Hok H12 H21) in H.
  injection H as <-. simpl. repeat split.
  destruct (count_marks PlayerOne b =? count_marks PlayerTwo b + 1)%nat; [tauto|].
  destruct (count_marks PlayerTwo b =? count_marks PlayerOne b + 1)%nat; tauto.
Qed.

Lemma withBot_config_inv : forall bot_ option g g' r,
  config_inv g -> withBot bot_ option g = (g', r) -> config_inv g'.
Proof.
  intros bot_ option g g' r Hinv. unfold withBot.
  destruct (bot g) eqn:Eb; [intros E; inversion E; subst; assumption|].
  destruct (Player_IsValid (Bot_Player bot_)) eqn:Ev; simpl;
    intros E; inversion E; subst; [|assumption].
  destruct Hinv as (Hst & Hpl & Hmk & _). repeat split; try assumption.
  simpl. intros b Hb. now inversion Hb; subst.
Qed.

Lemma lib_option_config_inv :
  forall opt, lib_option opt ->
    forall g g', config_inv g -> opt g = (g', None) -> config_inv g'.
Proof.
  apply (lib_option_mut
           (fun opt => forall g g', config_inv g -> opt g = (g', None) -> config_inv g')
           (fun opts => forall g g', config_inv g ->
                                     apply_options opts g = (g', None) -> config_inv g')).
  - (* WithBoard *)
    intros b g g' (Hst & Hpl & Hmk & Hbot) H.
    pose proof (WithBoard_success_inv _ _ _ H) as (_ & _ & Hok & Hbd & _).
    apply WithBoard_success_fields in H. destruct H as (Es & Eb & _ & Ep).
    unfold config_inv. rewrite Es, Eb, Hbd. split; [assumption|]. split; [|split].
    + destruct Ep as [-> | [-> | ->]]; [reflexivity | reflexivity | assumption].
    + unfold valid_marks. apply forallb_forall. intros p Hp.
      apply rows_ok_true in Hok. destruct Hok as [_ Hm].
      destruct (Hm p Hp) as [-> | [-> | ->]]; reflexivity.
    + assumption.
  - intros bot_ g g' Hinv H. eapply withBot_config_inv; eassumption.
  - intros c g g' Hinv H. inversion H; subst. assumption.
  - intros cs g g' Hinv H. inversion H; subst. assumption.
  - intros p g g' Hinv H. eapply withBot_config_inv; eassumption.
  - intros p g g' Hinv H. eapply withBot_config_inv; eassumption.
  - intros p g g' Hinv H. eapply withBot_config_inv; eassumption.
  - intros p g g' Hinv H. eapply withBot_config_inv; eassumption.
  - (* WithPack *)
    intros pack _ IH g g' Hinv H. eapply IH; eassumption.
  - (* WithRandomSize *)
    intros rnd g g' Hinv H. unfold WithRandomSize in H.
    destruct (board g); inversion H; subst; assumption.
  - (* WithRandomStarterPlayer *)
    intros rnd g g' (Hst & Hpl & Hmk & Hbot) H. unfold WithRandomStarterPlayer in H.
    destruct (player g =? 0)%N; inversion H; subst; [|repeat split; assumption].
    repeat split; try assumption. simpl.
    assert (Hr : Intn rnd 2 < 2) by (apply Intn_lt; lia).
    destruct (Intn rnd 2) as [|[|k]]; [reflexivity | reflexivity | lia].
  - (* WithSize *)
    intros n g g' Hinv H. unfold WithSize in H.
    destruct (board g); [|inversion H; subst; assumption].
    destruct (n <? MinSize)%N; [discriminate|].
    destruct (MaxSize <? n)%N; [discriminate|].
    inversion H; subst. assumption.
  - (* WithStarterPlayer *)
    intros p g g' (Hst & Hpl & Hmk & Hbot) H. unfold WithStarterPlayer in H.
    destruct (0 <? player g)%N; [inversion H; subst; repeat split; assumption|].
    destruct (Player_IsValid p) eqn:Ev; simpl in H; inversion H; subst.
    repeat split; try assumption. simpl. unfold Player_IsValidOrZero.
    rewrite Ev. apply orb_true_r.
  - intros g g' Hinv H. inversion H; subst. assumption.
  - intros opt opts _ IHo _ IHs g g' Hinv H. simpl in H.
    destruct (opt g) as [g1 [e|]] eqn:E1; [discriminate|].
    eapply IHs; [|eassumption]. eapply IHo; eassumption.
Qed.

Lemma lib_options_config_inv :
  forall opts, lib_options opts ->
    forall g g', config_inv g -> apply_options opts g = (g', None) -> config_inv g'.
Proof.
  intros opts Hopts. induction Hopts as [|opt opts Hopt _ IH]; intros g g' Hinv H.
  - inversion H; subst. assumption.
  - simpl in H. destruct (opt g) as [g1 [e|]] eqn:E1; [discriminate|].
    eapply IH; [|eassumption]. eapply lib_option_config_inv; eassumption.
Qed.

Lemma config_inv_draft : config_inv draft.
Proof. repeat split. intros b Hb. discriminate Hb. Qed.

Lemma Conditions_FindWinner_from_valid : forall cs b i w,
  Conditions_FindWinner_from i cs b = Val (w, None) -> Player_IsValidOrZero w = true.
Proof.
  induction cs as [|c cs IH]; intros b i w H; simpl in H.
  - now inversion H.
  - destruct (FindWinner c b) as [p| |]; simpl in H; try discriminate H.
    destruct (Player_IsValidOrZero p) eqn:Ev; simpl in H; [|discriminate H].
    destruct (0 <? p)%N; [inversion H; subst; exact Ev|].
    eapply IH; eassumption.
Qed.

Lemma valid_or_zero_positive : forall p,
  Player_IsValidOrZero p = true -> p <> 0%N -> Player_IsValid p = true.
Proof.
  intros p H Hp. rewrite <- (Player_IsValidOrZero_nonzero p Hp). exact H.
Qed.

Lemma count_occupied_bound : forall g,
  game_inv g -> (Z.of_nat (length (turns g)) <= maxTurns g)%Z.
Proof.
  intros g (Hwf & (Hlen & _) & _). apply wf_game_spec in Hwf.
  destruct Hwf as (Hs & Hm & _).
  pose proof (empty_plus_occupied _ _ Hs) as Hsum.
  rewrite Hm, Hlen. rewrite <- (N2Nat.id (size g)), !nat_N_Z. nia.
Qed.

Ltac split_state :=
  split; [intros Hs; try discriminate Hs
         |split; [intros Hs; try discriminate Hs
                 |split; [intros Hs; try discriminate Hs|]]].

Lemma Start_state_inv : forall opts g,
  lib_options opts -> Start opts = Val (Some g, None) -> state_inv g.
Proof.
  intros opts g Hopts HS.
  pose proof (Start_game_inv opts g Hopts HS) as Hinv.
  pose proof (count_occupied_bound g Hinv) as Hbound.
  revert HS Hbound. unfold Start.
  destruct (apply_options opts draft) as [g0 [e|]] eqn:E; [discriminate|].
  pose proof (lib_options_draft_inv _ Hopts _ _ draft_inv_draft E)
    as (Hlo & Hhi & Hm & Hb).
  pose proof (lib_options_config_inv _ Hopts _ _ config_inv_draft E)
    as (Hst & Hpl & _ & Hbot).
  unfold state_inv, RemainingTurns.
  destruct (board g0) as [|row rest] eqn:Eb.
  - destruct Hb as [[_ Ht] | [Hne _]]; [|congruence].
    intros H _. inversion H; subst; clear H.
    assert (Hpos : (0 < maxTurns g0 - Z.of_nat (length (turns g0)))%Z).
    { rewrite Ht, Hm. unfold MinSize in Hlo. simpl. nia. }
    destruct (N.eqb_spec (player g0) 0) as [E0 | E0]; simpl;
      rewrite Hst; split_state; try exact Hbot; (split; [|exact Hpos]);
      [reflexivity | now apply valid_or_zero_positive].
  - destruct (Conditions_FindWinner (conditions g0) (row :: rest))
      as [[winner [e|]]| |] eqn:EW; simpl; try discriminate.
    pose proof (Conditions_FindWinner_from_valid _ _ _ _ EW) as Hw.
    destruct (N.ltb_spec 0 winner) as [Hpos | Hzero].
    { intros H _; inversion H; subst; simpl.
      split_state; [|exact Hbot].
      apply valid_or_zero_positive; [assumption | lia]. }
    destruct (Z.leb_spec (maxTurns g0) (Z.of_nat (length (turns g0)))) as [Hfull | Hleft].
    { intros H Hbound; inversion H; subst; simpl in *.
      split_state; [|exact Hbot]. split; [reflexivity | lia]. }
    destruct (N.eqb_spec (player g0) 0) as [E0 | E0]; intros H _; inversion H; subst;
      simpl; rewrite ?Hst; split_state; try exact Hbot; (split; [|lia]);
      [reflexivity | now apply valid_or_zero_positive].
Qed.

Lemma play_state_inv : forall g t allowBotTurn g' r,
  state_inv g -> play g t allowBotTurn = Val (g', r) -> state_inv g'.
Proof.
  intros g t allowBotTurn g' r Hinv Hplay.
  destruct (play_inv _ _ _ _ _ Hplay)
    as [[-> _] | (_ & _ & Hvt & _ & Hturns & Hbot' & _ & _ & Hmt'
                  & won & _ & Hst & Hpl)];
    [exact Hinv|].
  destruct (validateTurn_None _ _ _ Hvt) as (Hstate & Hpv & Htp & _ & _).
  destruct Hinv as (Haw & _ & _ & Hbot).
  destruct (Haw Hstate) as [_ Hrem].
  unfold state_inv, RemainingTurns in *. rewrite Hst, Hpl, Hbot', Hmt', Hturns.
  rewrite length_app in *. simpl length in *.
  destruct won.
  - split_state; [|exact Hbot]. now rewrite <- Htp.
  - destruct (Z.leb_spec (maxTurns g) (Z.of_nat (length (turns g) + 1))).
    + split_state; [|exact Hbot]. split; [reflexivity | lia].
    + rewrite Hstate. split_state; [|exact Hbot].
      split; [now apply Player_Next_valid | lia].
Qed.

Lemma AllowBotTurn_cases : forall rnd g g' r,
  AllowBotTurn rnd g = Val (g', r) ->
  g' = g \/ exists t r', play g t true = Val (g', r').
Proof.
  intros rnd g g' r H. unfold AllowBotTurn in H.
  destruct (negb (IsBotTurn g)); [inversion H; now left|].
  destruct (bot g) as [b|]; [|discriminate H].
  apply bind_Val in H. destruct H as ([c [e|]] & _ & H).
  - inversion H. now left.
  - apply bind_Val in H. destruct H as ([g1 [[s1 p1] e1]] & Hplay & H).
    inversion H; subst. right. eauto.
Qed.

Lemma reachable_state_inv : forall g, reachable g -> state_inv g.
Proof.
  intros g H. induction H as [opts g Hopts HS | g t g' r _ IH HP | rnd g g' r _ IH HA].
  - eapply Start_state_inv; eassumption.
  - eapply play_state_inv; eassumption.
  - destruct (AllowBotTurn_cases _ _ _ _ HA) as [-> | (t & r' & Hplay)]; [exact IH|].
    eapply play_state_inv; eassumption.
Qed.

(** X4. In every game that [Start] returns and every game that follows
    from it by [Play] and [AllowBotTurn]: while the game awaits a turn a
    valid player is on move and at least one turn remains; after a draw
    the player is zero and no turn remains; after a win the recorded
    player is a valid player. *)
Theorem reachable_state_fits_player :
  forall g : game,
    reachable g ->
    (state g = StateAwaitingTurn ->
     Player_IsValid (player g) = true /\ (0 < RemainingTurns g)%Z)
    /\ (state g = StateDraw -> player g = 0%N /\ RemainingTurns g = 0%Z)
    /\ (state g = StateWon -> Player_IsValid (player g) = true).
Proof.
  intros g H. destruct (reachable_state_inv g H) as (Ha & Hd & Hw & _). auto.
Qed.

Lemma reachable_state_fits_player_witness :
  exists g,
    Start [WithSize 4; WithHardBot PlayerTwo] = Val (Some g, None)
    /\ Player_IsValid (player g) = true /\ (0 < RemainingTurns g)%Z.
Proof.
  eexists. split; [reflexivity|].
  apply reachable_state_fits_player; [|reflexivity].
  apply (@reachable_Start [WithSize 4; WithHardBot PlayerTwo]); [|reflexivity].
  repeat constructor.
Defined.

(** ** A game is won exactly when its board shows a winner *)

Lemma mark_at_newBoard : forall n c, mark_at (newBoard n) c = 0%N.
Proof.
  intros n c. unfold mark_at, Board_at, index.
  destruct (nth_error (newBoard n) (N.to_nat (Row c))) as [cols|] eqn:E1; simpl;
    [|reflexivity].
  apply nth_error_In in E1. unfold newBoard in E1. apply repeat_spec in E1. subst cols.
  destruct (nth_error (repeat 0%N (N.to_nat n)) (N.to_nat (Column c))) as [p|] eqn:E2;
    [|reflexivity].
  apply nth_error_In in E2. now apply repeat_spec in E2.
Qed.

Lemma FindWinner_newBoard : forall n,
  (0 < n <= 255)%N ->
  Conditions_FindWinner standardConditions (newBoard n) = Val (0%N, None).
Proof.
  intros n Hn.
  destruct (standardConditions_FindWinner_owner (N.to_nat n) (newBoard n)
              (square_newBoard n) ltac:(lia)) as [Hv _].
  assert (E : first_owner (newBoard n) (line_cells (N.to_nat n)) = 0%N).
  { apply first_owner_zero. intros line Hin.
    pose proof (line_cells_length _ _ Hin) as Hlen.
    destruct line as [|c line]; [reflexivity|]. unfold line_owner.
    now rewrite mark_at_newBoard. }
  rewrite E in Hv. exact (Hv eq_refl).
Qed.



Lemma play_conditions : forall g t allowBotTurn g' r,
  play g t allowBotTurn = Val (g', r) -> conditions g' = conditions g.
Proof.
  intros g t allowBotTurn g' r Hplay.
  destruct (play_inv _ _ _ _ _ Hplay)
    as [[-> _] | (_ & _ & _ & _ & _ & _ & Hcs & _)]; [reflexivity | exact Hcs].
Qed.





(** ** A game that is over *)

Lemma game_over_eqb : forall g,
  state g <> StateAwaitingTurn -> State_eqb (state g) StateAwaitingTurn = false.
Proof. intros g H. destruct (state g); [now elim H | reflexivity | reflexivity]. Qed.

Lemma Play_game_over : forall g t,
  state g <> StateAwaitingTurn ->
  exists e,
    Play g t = Val (g, (state g, player g, Some e))
    /\ (errors_Is e msgOutOfBounds = true \/ errors_Is e msgGameOver = true).
Proof.
  intros g t Hst. unfold Play, play.
  destruct (validateBounds g (Turn_Cell t)) as [e|] eqn:Eb.
  - exists e. split; [reflexivity|]. left. now apply validateBounds_Some in Eb.
  - unfold validateTurn. rewrite (game_over_eqb g Hst). simpl.
    exists ErrGameOver. split; [reflexivity | now right].
Qed.

Lemma AllowBotTurn_game_over : forall rnd g,
  state g <> StateAwaitingTurn ->
  AllowBotTurn rnd g = Val (g, (state g, player g, None)).
Proof.
  intros rnd g Hst. unfold AllowBotTurn, IsBotTurn.
  rewrite (game_over_eqb g Hst). reflexivity.
Qed.

Lemma follows_game_over : forall g g',
  follows g g' -> state g <> StateAwaitingTurn -> g' = g.
Proof.
  intros g g' HF.
  induction HF as [g | g t g1 r g' Hplay _ IH | rnd g g1 r g' Hturn _ IH]; intros Hst.
  - reflexivity.
  - destruct (Play_game_over g t Hst) as (e & E & _). rewrite E in Hplay.
    inversion Hplay; subst g1. now apply IH.
  - rewrite (AllowBotTurn_game_over rnd g Hst) in Hturn.
    inversion Hturn; subst g1. now apply IH.
Qed.

(** X6. Once a game is won or drawn nothing changes it any more: every
    [Play] leaves it as it is and answers with [ErrOutOfBounds], for a
    cell that is not on the board, or with [ErrGameOver]; every
    [AllowBotTurn] leaves it as it is and answers with its state, its
    player and no error; so every game that follows from it is the game
    itself. *)
Theorem game_over_is_final :
  forall g : game,
    state g <> StateAwaitingTurn ->
    (forall t, exists e,
        Play g t = Val (g, (state g, player g, Some e))
        /\ (errors_Is e msgOutOfBounds = true \/ errors_Is e msgGameOver = true))
    /\ (forall rnd, AllowBotTurn rnd g = Val (g, (state g, player g, None)))
    /\ (forall g', follows g g' -> g' = g).
Proof.
  intros g Hst. split; [|split].
  - intros t. now apply Play_game_over.
  - intros rnd. now apply AllowBotTurn_game_over.
  - intros g' HF. now apply follows_game_over.
Qed.

Lemma game_over_is_final_witness :
  exists e,
    Play (mkgame (alloc [[1; 1; 1]; [2; 2; 0]; [0; 0; 0]]%N) (Some (NewEasyBot PlayerTwo))
                 standardConditions 9 PlayerOne 3 StateWon
                 [mkTurn (mkCell 0 0) 1%N; mkTurn (mkCell 0 1) 2%N;
                  mkTurn (mkCell 1 0) 1%N; mkTurn (mkCell 1 1) 2%N;
                  mkTurn (mkCell 2 0) 1%N])
         (mkTurn (mkCell 2 2) PlayerTwo)
    = Val (mkgame (alloc [[1; 1; 1]; [2; 2; 0]; [0; 0; 0]]%N) (Some (NewEasyBot PlayerTwo))
                  standardConditions 9 PlayerOne 3 StateWon
                  [mkTurn (mkCell 0 0) 1%N; mkTurn (mkCell 0 1) 2%N;
                   mkTurn (mkCell 1 0) 1%N; mkTurn (mkCell 1 1) 2%N;
                   mkTurn (mkCell 2 0) 1%N],
           (StateWon, PlayerOne, Some e))
    /\ (errors_Is e msgOutOfBounds = true \/ errors_Is e msgGameOver = true).
Proof.
  apply (game_over_is_final
           (mkgame (alloc [[1; 1; 1]; [2; 2; 0]; [0; 0; 0]]%N) (Some (NewEasyBot PlayerTwo))
                   standardConditions 9 PlayerOne 3 StateWon
                   [mkTurn (mkCell 0 0) 1%N; mkTurn (mkCell 0 1) 2%N;
                    mkTurn (mkCell 1 0) 1%N; mkTurn (mkCell 1 1) 2%N;
                    mkTurn (mkCell 2 0) 1%N])).
  discriminate.
Defined.

(** ** Reading a game *)




(** X8. [PlayerAt] on a game whose board is a square of the size of the
    game: for a cell of the board it answers with the mark of the cell
    and no error, without a panic; for any other cell it answers with
    zero and [ErrOutOfBounds]. *)
Theorem PlayerAt_in_and_out_of_bounds :
  forall (g : game) (c : Cell),
    wf_game g = true ->
    ((Row c < size g)%N /\ (Column c < size g)%N ->
     exists p, PlayerAt g c = Val (p, None)
               /\ Board_at (board g) (Row c) (Column c) = Val p)
    /\ ((size g <= Row c)%N \/ (size g <= Column c)%N ->
        exists e, PlayerAt g c = Val (0%N, Some e)
                  /\ errors_Is e msgOutOfBounds = true).
Proof.
  intros g c Hwf. apply wf_game_spec in Hwf. destruct Hwf as (Hs & _). split.
  - intros [Hr Hc]. unfold PlayerAt.
    rewrite (proj2 (validateBounds_None g c) (conj Hr Hc)).
    destruct (Board_at_square _ (board g) (Row c) (Column c) Hs) as (p & Hp);
      try lia.
    exists p. rewrite Hp. split; reflexivity.
  - intros Hout. unfold PlayerAt.
    destruct (validateBounds g c) as [e|] eqn:E.
    + exists e. split; [reflexivity|]. now apply validateBounds_Some in E.
    + apply validateBounds_None in E. lia.
Qed.

Lemma PlayerAt_in_and_out_of_bounds_witness :
  (exists p,
      PlayerAt (mkgame (alloc [[1; 2; 0]; [0; 1; 0]; [0; 0; 0]]%N) None standardConditions
                       9 PlayerTwo 3 StateAwaitingTurn
                       [mkTurn (mkCell 0 0) 1%N; mkTurn (mkCell 1 0) 2%N;
                        mkTurn (mkCell 1 1) 1%N]) (mkCell 1 0) = Val (p, None)
      /\ Board_at [[1; 2; 0]; [0; 1; 0]; [0; 0; 0]]%N 0 1 = Val p)
  /\ exists e,
       PlayerAt (mkgame (alloc [[1; 2; 0]; [0; 1; 0]; [0; 0; 0]]%N) None standardConditions
                        9 PlayerTwo 3 StateAwaitingTurn
                        [mkTurn (mkCell 0 0) 1%N; mkTurn (mkCell 1 0) 2%N;
                         mkTurn (mkCell 1 1) 1%N]) (mkCell 3 0) = Val (0%N, Some e)
       /\ errors_Is e msgOutOfBounds = true.
Proof.
  split.
  - apply (PlayerAt_in_and_out_of_bounds
             (mkgame (alloc [[1; 2; 0]; [0; 1; 0]; [0; 0; 0]]%N) None standardConditions
                     9 PlayerTwo 3 StateAwaitingTurn
                     [mkTurn (mkCell 0 0) 1%N; mkTurn (mkCell 1 0) 2%N;
                      mkTurn (mkCell 1 1) 1%N]) (mkCell 1 0) eq_refl).
    split; reflexivity.
  - apply (PlayerAt_in_and_out_of_bounds
             (mkgame (alloc [[1; 2; 0]; [0; 1; 0]; [0; 0; 0]]%N) None standardConditions
                     9 PlayerTwo 3 StateAwaitingTurn
                     [mkTurn (mkCell 0 0) 1%N; mkTurn (mkCell 1 0) 2%N;
                      mkTurn (mkCell 1 1) 1%N]) (mkCell 3 0) eq_refl).
    right. simpl. lia.
Defined.

(** X9. A turn that is accepted can be read back: on a game whose
    board is a square of its size, after [play] has returned no error,
    [PlayerAt] answers with the player of the turn at the cell of the
    turn, and as before at every cell that does not lie at the address
    of that cell, which in a board whose rows share no memory is every
    other cell; [LastTurn] answers with the turn, and [RemainingTurns]
    is one less than before. *)
Theorem accepted_turn_reads_back :
  forall (g : game) (t : Turn) (allowBotTurn : bool) (g' : game) (s : State)
         (p : Player),
    wf_game g = true ->
    play g t allowBotTurn = Val (g', (s, p, None)) ->
    PlayerAt g' (Turn_Cell t) = Val (Turn_Player t, None)
    /\ (forall c,
          address (held g) (Row c) (Column c)
          <> address (held g) (Turn_Row t) (Turn_Column t) ->
          PlayerAt g' c = PlayerAt g c)
    /\ (unshared (held g) = true ->
        forall c, c <> Turn_Cell t -> PlayerAt g' c = PlayerAt g c)
    /\ LastTurn g' = (t, true)
    /\ RemainingTurns g' = (RemainingTurns g - 1)%Z.
Proof.
  intros g t allowBotTurn g' s p Hwf Hplay.
  apply wf_game_spec in Hwf. destruct Hwf as (Hs & _).
  destruct (play_inv _ _ _ _ _ Hplay)
    as [[_ (e & He)] | (_ & Hvb & _ & Hassign & Hturns & _ & _ & Hsz & Hmt & _)];
    [discriminate He|].
  pose proof Hvb as Hvb'. apply validateBounds_None in Hvb'. destruct Hvb' as [Hr Hc].
  destruct (Stored_assign_at _ _ _ _ _ Hassign) as (_ & Hcell & a & Ha & Hat).
  assert (Hvb_eq : forall c, validateBounds g' c = validateBounds g c)
    by (intros c; unfold validateBounds; now rewrite Hsz).
  assert (Hother : forall c,
             address (held g) (Row c) (Column c)
             <> address (held g) (Turn_Row t) (Turn_Column t) ->
             PlayerAt g' c = PlayerAt g c).
  { intros c Hne. unfold PlayerAt. rewrite Hvb_eq, Hat, Board_at_contents.
    rewrite Ha in Hne.
    destruct (address (held g) (Row c) (Column c)) as [a'| |]; simpl; try reflexivity.
    destruct (Nat.eqb_spec a' a) as [->|_]; [now elim Hne | reflexivity]. }
  split; [|split; [|split; [|split]]].
  - unfold PlayerAt. rewrite Hvb_eq, Hvb.
    unfold Turn_Row, Turn_Column in Hcell. now rewrite Hcell.
  - exact Hother.
  - intros Hu c Hc'. apply Hother. rewrite Ha. intros Hc2.
    destruct (address_unshared_inj _ _ _ _ _ _ Hu Hc2 Ha) as [Er Ec].
    elim Hc'. unfold Turn_Row, Turn_Column in *.
    destruct c as [cc cr], (Turn_Cell t) as [tc tr]. simpl in *. now subst.
  - unfold LastTurn. rewrite Hturns.
    destruct (turns g ++ [t]) eqn:El; [now destruct (turns g)|].
    rewrite <- El, last_last. reflexivity.
  - unfold RemainingTurns. rewrite Hturns, Hmt, length_app. simpl. lia.
Qed.

Lemma accepted_turn_reads_back_witness :
  PlayerAt (mkgame (alloc [[1; 1; 1]; [2; 2; 0]; [0; 0; 0]]%N) None standardConditions
                   9 PlayerOne 3 StateWon
                   [mkTurn (mkCell 0 0) 1%N; mkTurn (mkCell 1 0) 1%N;
                    mkTurn (mkCell 0 1) 2%N; mkTurn (mkCell 1 1) 2%N;
                    mkTurn (mkCell 2 0) 1%N]) (mkCell 2 0)
  = Val (PlayerOne, None).
Proof.
  apply (accepted_turn_reads_back
           (mkgame (alloc [[1; 1; 0]; [2; 2; 0]; [0; 0; 0]]%N) None standardConditions
                   9 PlayerOne 3 StateAwaitingTurn
                   [mkTurn (mkCell 0 0) 1%N; mkTurn (mkCell 1 0) 1%N;
                    mkTurn (mkCell 0 1) 2%N; mkTurn (mkCell 1 1) 2%N])
           (mkTurn (mkCell 2 0) PlayerOne) false _ StateWon PlayerOne eq_refl eq_refl).
Defined.

(** ** The easy and the normal bot *)

Lemma normalBot_Turn_loop_spec :
  forall (W : Board -> Turn -> bool) cs player_ n board_,
    (forall b t, square n b = true ->
                 N.to_nat (Turn_Row t) < n -> N.to_nat (Turn_Column t) < n ->
                 Conditions_IsWinningTurn cs b t = Val (W b t)) ->
    square n board_ = true ->
    forall candidates,
      (forall c, In c candidates ->
                 N.to_nat (Row c) < n /\ N.to_nat (Column c) < n) ->
      normalBot_Turn_loop player_ board_ cs candidates
      = Val (match filter (fun c => W (marked board_ c player_) (mkTurn c player_))
                          candidates with
             | w :: _ => Some w
             | [] => None
             end).
Proof.
  intros W cs player_ n board_ HW Hs.
  induction candidates as [|c rest IH]; intros Hin; [reflexivity|].
  destruct (Hin c (or_introl eq_refl)) as [Hr Hc].
  destruct (marked_square n board_ c player_ Hs Hr Hc) as [Hm Hsm].
  simpl. rewrite Hm. simpl.
  rewrite (HW _ (mkTurn c player_) Hsm Hr Hc). simpl.
  destruct (W (marked board_ c player_) (mkTurn c player_)); [reflexivity|].
  apply IH. intros c' Hc'. apply Hin. now right.
Qed.

Lemma normalBot_Turn_cases :
  forall (p : Player) (rnd : Rand) (n : nat) (board_ : Board) (game_ : Game),
    answers_on n (Game_Conditions game_) ->
    square n board_ = true -> n <= 255 ->
    Board_FindEmpty board_ <> [] ->
    (forall w rest,
        filter (fun c => reported_winning (Game_Conditions game_)
                           (marked board_ c p) (mkTurn c p))
               (Board_FindEmpty board_)
        = w :: rest ->
        Bot_Turn (NewNormalBot p) rnd board_ game_ = Val (w, None))
    /\ (filter (fun c => reported_winning (Game_Conditions game_)
                           (marked board_ c p) (mkTurn c p))
               (Board_FindEmpty board_)
        = [] ->
        Bot_Turn (NewNormalBot p) rnd board_ game_
        = Val (nth (Intn rnd (length (Board_FindEmpty board_)))
                   (Board_FindEmpty board_) zeroCell, None)
        /\ Intn rnd (length (Board_FindEmpty board_)) < length (Board_FindEmpty board_)
        /\ In (nth (Intn rnd (length (Board_FindEmpty board_)))
                   (Board_FindEmpty board_) zeroCell)
              (Board_FindEmpty board_)).
Proof.
  intros p rnd n board_ game_ Hans Hs Hn Hne.
  assert (Hloop :
            normalBot_Turn_loop p board_ (Game_Conditions game_) (Board_FindEmpty board_)
            = Val (match filter (fun c => reported_winning (Game_Conditions game_)
                                            (marked board_ c p) (mkTurn c p))
                                (Board_FindEmpty board_) with
                   | w :: _ => Some w
                   | [] => None
                   end)).
  { apply (normalBot_Turn_loop_spec _ _ _ n); [|assumption|].
    - intros b t Hb Hr Hc. now apply (answers_on_reported n).
    - intros c Hc. destruct (Board_FindEmpty_In n board_ c Hs Hn Hc) as (Hr & Hc' & _).
      now split. }
  cbn [Bot_Turn NewNormalBot]. unfold normalBot_Turn. rewrite Hloop. split.
  - intros w rest E. rewrite E. reflexivity.
  - intros E. rewrite E. simpl.
    destruct (Cells_Random_In rnd _ Hne) as (Er & Hlt & Hin).
    rewrite Er at 1. split; [reflexivity|]. split; [exact Hlt|].
    now rewrite <- Er.
Qed.

(** X10. The normal bot, on a square board with an empty cell and with
    conditions that answer on such boards: it returns the first empty
    cell, in row-major order, whose marking with its player is reported
    as a winning turn; when there is none it returns the empty cell at
    the index the random source draws below the number of empty cells.
    It returns no error. *)
Theorem normalBot_Turn_choice :
  forall (p : Player) (rnd : Rand) (n : nat) (board_ : Board) (game_ : Game),
    answers_on n (Game_Conditions game_) ->
    square n board_ = true -> n <= 255 ->
    Board_FindEmpty board_ <> [] ->
    (forall w rest,
        filter (fun c => reported_winning (Game_Conditions game_)
                           (marked board_ c p) (mkTurn c p))
               (Board_FindEmpty board_)
        = w :: rest ->
        Bot_Turn (NewNormalBot p) rnd board_ game_ = Val (w, None))
    /\ (filter (fun c => reported_winning (Game_Conditions game_)
                           (marked board_ c p) (mkTurn c p))
               (Board_FindEmpty board_)
        = [] ->
        Bot_Turn (NewNormalBot p) rnd board_ game_
        = Val (nth (Intn rnd (length (Board_FindEmpty board_)))
                   (Board_FindEmpty board_) zeroCell, None)
        /\ Intn rnd (length (Board_FindEmpty board_)) < length (Board_FindEmpty board_)
        /\ In (nth (Intn rnd (length (Board_FindEmpty board_)))
                   (Board_FindEmpty board_) zeroCell)
              (Board_FindEmpty board_)).
Proof. exact normalBot_Turn_cases. Qed.

Lemma normalBot_Turn_choice_witness :
  Bot_Turn (NewNormalBot PlayerTwo) (mkRand (fun _ => 0) (fun _ H => H))
           [[1; 1; 0]; [2; 2; 0]; [1; 0; 0]]%N
           (mkGame [[1; 1; 0]; [2; 2; 0]; [1; 0; 0]]%N standardConditions true
                   (mkTurn (mkCell 0 2) 1%N, true) 9 PlayerTwo 4 3
                   StateAwaitingTurn [])
  = Val (mkCell 2 1, None).
Proof.
  destruct (normalBot_Turn_choice PlayerTwo (mkRand (fun _ => 0) (fun _ H => H)) 3
              [[1; 1; 0]; [2; 2; 0]; [1; 0; 0]]%N
              (mkGame [[1; 1; 0]; [2; 2; 0]; [1; 0; 0]]%N standardConditions true
                      (mkTurn (mkCell 0 2) 1%N, true) 9 PlayerTwo 4 3
                      StateAwaitingTurn []))
    as [Hwin _].
  - apply standardConditions_answer. lia.
  - reflexivity.
  - lia.
  - discriminate.
  - apply (Hwin (mkCell 2 1) []). reflexivity.
Defined.

Lemma easyBot_Turn_cases :
  forall (p : Player) (rnd : Rand) (board_ : Board) (game_ : Game),
    (Board_FindEmpty board_ <> [] ->
     Bot_Turn (NewEasyBot p) rnd board_ game_
     = Val (nth (Intn rnd (length (Board_FindEmpty board_)))
                (Board_FindEmpty board_) zeroCell, None)
     /\ Intn rnd (length (Board_FindEmpty board_)) < length (Board_FindEmpty board_)
     /\ In (nth (Intn rnd (length (Board_FindEmpty board_)))
                (Board_FindEmpty board_) zeroCell)
           (Board_FindEmpty board_))
    /\ (Board_FindEmpty board_ = [] ->
        Bot_Turn (NewEasyBot p) rnd board_ game_ = Val (mkCell 0 0, None)).
Proof.
  intros p rnd board_ game_. cbn [Bot_Turn NewEasyBot]. unfold easyBot_Turn. split.
  - intros Hne. destruct (Cells_Random_In rnd _ Hne) as (Er & Hlt & Hin).
    rewrite Er at 1. split; [reflexivity|]. split; [exact Hlt|]. now rewrite <- Er.
  - intros E. rewrite E. reflexivity.
Qed.

(** X11. The easy bot never returns an error. On a board with an empty
    cell it returns the empty cell at the index the random source draws
    below the number of empty cells; on a board without one it returns
    the cell of row 0 and column 0, still without an error. *)
Theorem easyBot_Turn_choice :
  forall (p : Player) (rnd : Rand) (board_ : Board) (game_ : Game),
    (Board_FindEmpty board_ <> [] ->
     Bot_Turn (NewEasyBot p) rnd board_ game_
     = Val (nth (Intn rnd (length (Board_FindEmpty board_)))
                (Board_FindEmpty board_) zeroCell, None)
     /\ Intn rnd (length (Board_FindEmpty board_)) < length (Board_FindEmpty board_)
     /\ In (nth (Intn rnd (length (Board_FindEmpty board_)))
                (Board_FindEmpty board_) zeroCell)
           (Board_FindEmpty board_))
    /\ (Board_FindEmpty board_ = [] ->
        Bot_Turn (NewEasyBot p) rnd board_ game_ = Val (mkCell 0 0, None)).
Proof. exact easyBot_Turn_cases. Qed.

Lemma easyBot_Turn_choice_witness :
  Bot_Turn (NewEasyBot PlayerTwo) (mkRand (fun n => n - 1) (fun n H => Nat.sub_lt n 1 H Nat.lt_0_1))
           [[1; 1; 0]; [2; 2; 0]; [1; 0; 0]]%N
           (mkGame [[1; 1; 0]; [2; 2; 0]; [1; 0; 0]]%N standardConditions true
                   (mkTurn (mkCell 0 2) 1%N, true) 9 PlayerTwo 4 3
                   StateAwaitingTurn [])
  = Val (mkCell 2 2, None).
Proof.
  destruct (easyBot_Turn_choice PlayerTwo
              (mkRand (fun n => n - 1) (fun n H => Nat.sub_lt n 1 H Nat.lt_0_1))
              [[1; 1; 0]; [2; 2; 0]; [1; 0; 0]]%N
              (mkGame [[1; 1; 0]; [2; 2; 0]; [1; 0; 0]]%N standardConditions true
                      (mkTurn (mkCell 0 2) 1%N, true) 9 PlayerTwo 4 3
                      StateAwaitingTurn []))
    as [Hsome _].
  destruct (Hsome ltac:(discriminate)) as [E _]. exact E.
Defined.

(** ** The turns of the built-in bots are accepted *)








(** ** How the options compose *)

Lemma apply_options_app : forall opts1 opts2 g,
  apply_options (opts1 ++ opts2) g
  = let (g1, err) := apply_options opts1 g in
    match err with
    | Some e => (g1, Some e)
    | None => apply_options opts2 g1
    end.
Proof.
  induction opts1 as [|opt opts1 IH]; intros opts2 g; [reflexivity|].
  simpl. destruct (opt g) as [g1 [e|]]; [reflexivity|]. apply IH.
Qed.

(** X13. [WithPack] applies the options of its pack in their order, as
    if they stood in its place: a list of options with a pack among
    them starts the same game, or fails with the same error, as the
    list with the options of the pack written out. *)
Theorem WithPack_flattens :
  forall (pre : list Option) (pack : Pack) (post : list Option),
    Start (pre ++ WithPack pack :: post) = Start (pre ++ pack ++ post).
Proof.
  intros pre pack post. unfold Start.
  assert (E : forall g, apply_options (pre ++ WithPack pack :: post) g
                        = apply_options (pre ++ pack ++ post) g).
  { intros g. rewrite !apply_options_app.
    destruct (apply_options pre g) as [g1 [e|]]; [reflexivity|].
    simpl. unfold WithPack. rewrite (apply_options_app pack post).
    destruct (apply_options pack g1) as [g2 [e|]]; reflexivity. }
  now rewrite E.
Qed.

(** Every error of a library option is an [ErrOptionInvalid], and an
    option that fails leaves the game as it was. *)
Lemma lib_option_error :
  forall opt, lib_option opt ->
    forall g g' e, opt g = (g', Some e) ->
                   errors_Is e msgOptionInvalid = true.
Proof.
  apply (lib_option_mut
           (fun opt => forall g g' e, opt g = (g', Some e) ->
                                      errors_Is e msgOptionInvalid = true)
           (fun opts => forall g g' e, apply_options opts g = (g', Some e) ->
                                       errors_Is e msgOptionInvalid = true)).
  - intros b g g' e H. unfold WithBoard in H.
    destruct (Board_check (contents b)) as [[[[st sz] mt] ts] [e0|]]; inversion H; reflexivity.
  - intros bot_ g g' e H. unfold WithBot, withBot in H.
    destruct (bot g); [discriminate|].
    destruct (negb (Player_IsValid (Bot_Player bot_))); inversion H; reflexivity.
  - intros c g g' e H. discriminate H.
  - intros cs g g' e H. discriminate H.
  - intros p g g' e H. unfold WithEasyBot, withBot in H.
    destruct (bot g); [discriminate|].
    destruct (negb (Player_IsValid (Bot_Player (NewEasyBot p)))); inversion H; reflexivity.
  - intros p g g' e H. unfold WithHardBot, withBot in H.
    destruct (bot g); [discriminate|].
    destruct (negb (Player_IsValid (Bot_Player (NewHardBot p)))); inversion H; reflexivity.
  - intros p g g' e H. unfold WithImpossibleBot, withBot in H.
    destruct (bot g); [discriminate|].
    destruct (negb (Player_IsValid (Bot_Player (NewImpossibleBot p))));
      inversion H; reflexivity.
  - intros p g g' e H. unfold WithNormalBot, withBot in H.
    destruct (bot g); [discriminate|].
    destruct (negb (Player_IsValid (Bot_Player (NewNormalBot p)))); inversion H; reflexivity.
  - intros pack _ IH g g' e H. eapply IH; eassumption.
  - intros rnd g g' e H. unfold WithRandomSize in H. destruct (board g); discriminate H.
  - intros rnd g g' e H. unfold WithRandomStarterPlayer in H.
    destruct (player g =? 0)%N; discriminate H.
  - intros n g g' e H. unfold WithSize in H. destruct (board g); [|discriminate H].
    destruct (n <? MinSize)%N; [inversion H; reflexivity|].
    destruct (MaxSize <? n)%N; [inversion H; reflexivity | discriminate H].
  - intros p g g' e H. unfold WithStarterPlayer in H.
    destruct (0 <? player g)%N; [discriminate H|].
    destruct (negb (Player_IsValid p)); [inversion H; reflexivity | discriminate H].
  - intros g g' e H. discriminate H.
  - intros opt opts _ IHo _ IHs g g' e H. simpl in H.
    destruct (opt g) as [g1 [e1|]] eqn:E1.
    + inversion H; subst. eapply IHo; eassumption.
    + eapply IHs; eassumption.
Qed.

Lemma lib_options_error :
  forall opts, lib_options opts ->
    forall g g' e, apply_options opts g = (g', Some e) ->
                   errors_Is e msgOptionInvalid = true.
Proof.
  intros opts Hopts. induction Hopts as [|opt opts Hopt _ IH]; intros g g' e H.
  - discriminate H.
  - simpl in H. destruct (opt g) as [g1 [e1|]] eqn:E1.
    + inversion H; subst. eapply lib_option_error; eassumption.
    + eapply IH; eassumption.
Qed.

Lemma Conditions_FindWinner_from_error : forall cs b i w e,
  Conditions_FindWinner_from i cs b = Val (w, Some e) ->
  w = 0%N /\ errors_Is e msgConditionInvalid = true.
Proof.
  induction cs as [|c cs IH]; intros b i w e H; simpl in H.
  - discriminate H.
  - destruct (FindWinner c b) as [p| |]; simpl in H; try discriminate H.
    destruct (Player_IsValidOrZero p); simpl in H.
    + destruct (0 <? p)%N; [discriminate H|]. eapply IH; eassumption.
    + inversion H. split; reflexivity.
Qed.

(** X14. What [Start] returns for options built by the package: either
    a game and no error, or no game and an error that is an
    [ErrOptionInvalid], from the first option that fails, or an
    [ErrConditionInvalid], from the scan of a preset board. A game it
    returns has a board that is a square of its size, a size between
    [MinSize] and [MaxSize] and that size squared as its turn
    ceiling. *)
Theorem Start_returns_game_or_error :
  forall (opts : list Option) (r : option game * option error),
    lib_options opts ->
    Start opts = Val r ->
    (exists g, r = (Some g, None) /\ wf_game g = true)
    \/ (exists e, r = (None, Some e)
                  /\ (errors_Is e msgOptionInvalid = true
                      \/ errors_Is e msgConditionInvalid = true)).
Proof.
  intros opts r Hopts HS.
  assert (Hok : forall g, r = (Some g, None) -> wf_game g = true).
  { intros g ->. now destruct (Start_game_inv opts g Hopts HS). }
  revert HS. unfold Start.
  destruct (apply_options opts draft) as [g0 [e|]] eqn:E.
  { intros H; inversion H; subst. right. exists e. split; [reflexivity|]. left.
    eapply lib_options_error; eassumption. }
  destruct (board g0) as [|row rest].
  { intros H; inversion H; subst. left. eexists. split; [reflexivity|].
    now apply Hok. }
  destruct (Conditions_FindWinner (conditions g0) (row :: rest))
    as [[winner [e|]]| |] eqn:EW; simpl; try discriminate.
  { intros H; inversion H; subst. right. exists e. split; [reflexivity|]. right.
    now apply Conditions_FindWinner_from_error in EW. }
  destruct (0 <? winner)%N;
    [|destruct (maxTurns g0 <=? Z.of_nat (length (turns g0)))%Z;
      [|destruct (player g0 =? 0)%N]];
    intros H; inversion H; subst; left; eexists; (split; [reflexivity|]);
    now apply Hok.
Qed.

Lemma Start_returns_game_or_error_witness :
  Start [WithSize 4; WithEasyBot PlayerOne]
  = Val (Some (mkgame (alloc (newBoard 4)) (Some (NewEasyBot PlayerOne)) standardConditions 16
                      PlayerOne 4 StateAwaitingTurn []), None)
  /\ wf_game (mkgame (alloc (newBoard 4)) (Some (NewEasyBot PlayerOne)) standardConditions 16
                     PlayerOne 4 StateAwaitingTurn []) = true.
Proof.
  split; [reflexivity|].
  destruct (Start_returns_game_or_error
              [WithSize 4; WithEasyBot PlayerOne]
              (Some (mkgame (alloc (newBoard 4)) (Some (NewEasyBot PlayerOne))
                            standardConditions 16 PlayerOne 4 StateAwaitingTurn []),
               None))
    as [(g & E & Hwf) | (e & E & _)].
  - repeat constructor.
  - reflexivity.
  - inversion E; subst. exact Hwf.
  - discriminate E.
Defined.

(** *** The first bot option wins, and the standard conditions stay *)

Lemma lib_option_keeps_bot :
  forall opt, lib_option opt ->
    forall g g' r b, opt g = (g', r) -> bot g = Some b -> bot g' = Some b.
Proof.
  apply (lib_option_mut
           (fun opt => forall g g' r b, opt g = (g', r) -> bot g = Some b ->
                                        bot g' = Some b)
           (fun opts => forall g g' r b, apply_options opts g = (g', r) ->
                                         bot g = Some b -> bot g' = Some b)).
  - intros b0 g g' r b H Hb. unfold WithBoard in H.
    destruct (Board_check (contents b0)) as [[[[st sz] mt] ts] [e0|]];
      [now inversion H; subst|].
    destruct (0 <? st)%N; inversion H; subst; exact Hb.
  - intros bot_ g g' r b H Hb. unfold WithBot, withBot in H. rewrite Hb in H.
    now inversion H; subst.
  - intros c g g' r b H Hb. inversion H; subst. exact Hb.
  - intros cs g g' r b H Hb. inversion H; subst. exact Hb.
  - intros p g g' r b H Hb. unfold WithEasyBot, withBot in H. rewrite Hb in H.
    now inversion H; subst.
  - intros p g g' r b H Hb. unfold WithHardBot, withBot in H. rewrite Hb in H.
    now inversion H; subst.
  - intros p g g' r b H Hb. unfold WithImpossibleBot, withBot in H. rewrite Hb in H.
    now inversion H; subst.
  - intros p g g' r b H Hb. unfold WithNormalBot, withBot in H. rewrite Hb in H.
    now inversion H; subst.
  - intros pack _ IH g g' r b H Hb. eapply IH; eassumption.
  - intros rnd g g' r b H Hb. unfold WithRandomSize in H.
    destruct (board g); inversion H; subst; exact Hb.
  - intros rnd g g' r b H Hb. unfold WithRandomStarterPlayer in H.
    destruct (player g =? 0)%N; inversion H; subst; exact Hb.
  - intros n g g' r b H Hb. unfold WithSize in H.
    destruct (board g); [|inversion H; subst; exact Hb].
    destruct (n <? MinSize)%N; [inversion H; subst; exact Hb|].
    destruct (MaxSize <? n)%N; inversion H; subst; exact Hb.
  - intros p g g' r b H Hb. unfold WithStarterPlayer in H.
    destruct (0 <? player g)%N; [inversion H; subst; exact Hb|].
    destruct (negb (Player_IsValid p)); inversion H; subst; exact Hb.
  - intros g g' r b H Hb. inversion H; subst. exact Hb.
  - intros opt opts _ IHo _ IHs g g' r b H Hb. simpl in H.
    destruct (opt g) as [g1 [e1|]] eqn:E1.
    + inversion H; subst. eapply IHo; eassumption.
    + eapply IHs; [eassumption|]. eapply IHo; eassumption.
Qed.

Lemma lib_options_keep_bot :
  forall opts, lib_options opts ->
    forall g g' r b, apply_options opts g = (g', r) -> bot g = Some b ->
                     bot g' = Some b.
Proof.
  intros opts Hopts. induction Hopts as [|opt opts Hopt _ IH]; intros g g' r b H Hb.
  - inversion H; subst. exact Hb.
  - simpl in H. destruct (opt g) as [g1 [e1|]] eqn:E1.
    + inversion H; subst. eapply lib_option_keeps_bot; eassumption.
    + eapply IH; [eassumption|]. eapply lib_option_keeps_bot; eassumption.
Qed.

Lemma Start_fields : forall opts g,
  Start opts = Val (Some g, None) ->
  exists g0, apply_options opts draft = (g0, None)
             /\ bot g = bot g0 /\ conditions g = conditions g0.
Proof.
  intros opts g. unfold Start.
  destruct (apply_options opts draft) as [g0 [e|]]; [discriminate|].
  intros H. exists g0. split; [reflexivity|]. revert H.
  destruct (board g0) as [|row rest].
  { destruct (player (set_held g0 (alloc (newBoard (size g0)))) =? 0)%N;
      intros H; inversion H; subst; split; reflexivity. }
  destruct (Conditions_FindWinner (conditions g0) (row :: rest))
    as [[winner [e|]]| |]; simpl; try discriminate.
  destruct (0 <? winner)%N;
    [|destruct (maxTurns g0 <=? Z.of_nat (length (turns g0)))%Z;
      [|destruct (player g0 =? 0)%N]];
    intros H; inversion H; subst; split; reflexivity.
Qed.

(** X15. The first bot option wins. When a list of options begins with
    a bot option whose bot plays for a valid player, the game [Start]
    returns has that bot, whatever options of the package follow; and
    a later bot option is ignored, without an error even when its
    player is not valid: with it or without it, [Start] returns the
    same game or the same error. *)
Theorem first_bot_option_wins :
  forall (bot_ : Bot) (name : string),
    Player_IsValid (Bot_Player bot_) = true ->
    (forall (opts : list Option) (g : game),
        lib_options opts ->
        Start (withBot bot_ name :: opts) = Val (Some g, None) ->
        bot g = Some bot_)
    /\ (forall (pre post : list Option) (later : Bot) (name' : string),
           lib_options pre ->
           Start (withBot bot_ name :: pre ++ withBot later name' :: post)
           = Start (withBot bot_ name :: pre ++ post)).
Proof.
  intros bot_ name Hp. split.
  - intros opts g Hopts HS.
    destruct (Start_fields _ _ HS) as (g0 & E & Hb & _). rewrite Hb.
    simpl in E. unfold withBot in E at 1. simpl in E. rewrite Hp in E. simpl in E.
    eapply lib_options_keep_bot; [eassumption | eassumption | reflexivity].
  - intros pre post later name' Hpre. unfold Start.
    assert (E : apply_options (withBot bot_ name :: pre ++ withBot later name' :: post)
                              draft
                = apply_options (withBot bot_ name :: pre ++ post) draft).
    { simpl. unfold withBot at 1 3. simpl. rewrite Hp. simpl.
      rewrite !apply_options_app.
      destruct (apply_options pre (set_bot draft (Some bot_))) as [g1 [e|]] eqn:E1;
        [reflexivity|].
      pose proof (lib_options_keep_bot _ Hpre _ _ _ _ E1 eq_refl) as Hb.
      simpl. unfold withBot. now rewrite Hb. }
    now rewrite E.
Qed.

Lemma first_bot_option_wins_witness :
  Start [WithEasyBot PlayerTwo; WithSize 5; WithImpossibleBot 9%N]
  = Val (Some (mkgame (alloc (newBoard 5)) (Some (NewEasyBot PlayerTwo))
                      standardConditions 25 PlayerOne 5 StateAwaitingTurn []), None)
  /\ bot (mkgame (alloc (newBoard 5)) (Some (NewEasyBot PlayerTwo)) standardConditions 25
                 PlayerOne 5 StateAwaitingTurn [])
     = Some (NewEasyBot PlayerTwo)
  /\ Start [WithEasyBot PlayerTwo; WithSize 5; WithImpossibleBot 9%N]
     = Start [WithEasyBot PlayerTwo; WithSize 5].
Proof.
  split; [reflexivity|].
  destruct (first_bot_option_wins (NewEasyBot PlayerTwo) "WithEasyBot" eq_refl)
    as [Hfirst Hlater].
  split.
  - apply (Hfirst [WithSize 5; WithImpossibleBot 9%N]).
    + repeat constructor.
    + reflexivity.
  - apply (Hlater [WithSize 5] [] (NewImpossibleBot 9%N) "WithImpossibleBot"%string).
    repeat constructor.
Defined.

Lemma lib_option_conditions :
  forall opt, lib_option opt ->
    forall g g' r, opt g = (g', r) ->
                   exists extra, conditions g' = conditions g ++ extra.
Proof.
  apply (lib_option_mut
           (fun opt => forall g g' r, opt g = (g', r) ->
                                      exists extra, conditions g' = conditions g ++ extra)
           (fun opts => forall g g' r, apply_options opts g = (g', r) ->
                                       exists extra,
                                         conditions g' = conditions g ++ extra));
    try (intros p g g' r H; exists []; rewrite app_nil_r;
         unfold WithBot, WithEasyBot, WithHardBot, WithImpossibleBot, WithNormalBot,
           withBot in H;
         destruct (bot g); [now inversion H|];
         match type of H with
         | (if ?c then _ else _) = _ => destruct c
         end; now inversion H).
  - intros b0 g g' r H. exists []. rewrite app_nil_r. unfold WithBoard in H.
    destruct (Board_check (contents b0)) as [[[[st sz] mt] ts] [e0|]];
      [now inversion H|].
    destruct (0 <? st)%N; now inversion H.
  - intros c g g' r H. exists [c]. now inversion H.
  - intros cs g g' r H. exists cs. now inversion H.
  - intros pack _ IH g g' r H. eapply IH; eassumption.
  - intros rnd g g' r H. exists []. rewrite app_nil_r. unfold WithRandomSize in H.
    destruct (board g); now inversion H.
  - intros rnd g g' r H. exists []. rewrite app_nil_r.
    unfold WithRandomStarterPlayer in H.
    destruct (player g =? 0)%N; now inversion H.
  - intros n g g' r H. exists []. rewrite app_nil_r. unfold WithSize in H.
    destruct (board g); [|now inversion H].
    destruct (n <? MinSize)%N; [now inversion H|].
    destruct (MaxSize <? n)%N; now inversion H.
  - intros p g g' r H. exists []. rewrite app_nil_r. unfold WithStarterPlayer in H.
    destruct (0 <? player g)%N; [now inversion H|].
    destruct (negb (Player_IsValid p)); now inversion H.
  - intros g g' r H. exists []. rewrite app_nil_r. now inversion H.
  - intros opt opts _ IHo _ IHs g g' r H. simpl in H.
    destruct (opt g) as [g1 [e1|]] eqn:E1.
    + inversion H; subst. eapply IHo; eassumption.
    + destruct (IHo _ _ _ E1) as (x1 & E1'). destruct (IHs _ _ _ H) as (x2 & E2').
      exists (x1 ++ x2). now rewrite E2', E1', app_assoc.
Qed.

Lemma lib_options_conditions :
  forall opts, lib_options opts ->
    forall g g' r, apply_options opts g = (g', r) ->
                   exists extra, conditions g' = conditions g ++ extra.
Proof.
  intros opts Hopts. induction Hopts as [|opt opts Hopt _ IH]; intros g g' r H.
  - inversion H; subst. exists []. now rewrite app_nil_r.
  - simpl in H. destruct (opt g) as [g1 [e1|]] eqn:E1.
    + inversion H; subst. eapply lib_option_conditions; eassumption.
    + destruct (lib_option_conditions _ Hopt _ _ _ E1) as (x1 & E1').
      destruct (IH _ _ _ H) as (x2 & E2').
      exists (x1 ++ x2). now rewrite E2', E1', app_assoc.
Qed.

(** X16. The standard conditions cannot be removed or overtaken: the
    conditions of every game that [Start] returns for options built by
    the package, and of every game that follows from it, are the
    standard conditions followed by the conditions the options have
    added, so that a line the standard conditions report decides before
    any added condition is asked. *)
Theorem standard_conditions_come_first :
  forall g : game,
    reachable g ->
    exists extra, conditions g = standardConditions ++ extra.
Proof.
  intros g H. induction H as [opts g Hopts HS | g t g' r _ IH HP | rnd g g' r _ IH HA].
  - destruct (Start_fields _ _ HS) as (g0 & E & _ & Hc). rewrite Hc.
    apply (lib_options_conditions opts Hopts draft g0 None E).
  - now rewrite (play_conditions _ _ _ _ _ HP).
  - destruct (AllowBotTurn_cases _ _ _ _ HA) as [-> | (t & r' & Hplay)]; [exact IH|].
    now rewrite (play_conditions _ _ _ _ _ Hplay).
Qed.

Lemma standard_conditions_come_first_witness :
  exists extra,
    conditions (mkgame (alloc (newBoard 3)) None (standardConditions ++ [diagonalCondition]) 9
                       PlayerOne 3 StateAwaitingTurn [])
    = standardConditions ++ extra.
Proof.
  apply standard_conditions_come_first.
  apply (@reachable_Start [WithCondition diagonalCondition] _); [|reflexivity].
  repeat constructor.
Defined.

(** *** Size options *)

Lemma WithBoard_success_board : forall b g g',
  WithBoard b g = (g', None) -> board g' <> [].
Proof. intros b g g' H. now apply WithBoard_game_inv in H. Qed.

(** X17. How the size options compose. A [WithSize] that follows
    another [WithSize] is not ignored: the later size is the size of the
    game. A [WithSize] that follows [WithBoard] is ignored, without an
    error even for a size below [MinSize]. A [WithSize] below
    [MinSize] on its own makes [Start] fail with
    [ErrOptionInvalid]. *)
Theorem size_options_compose :
  (forall a b : N,
      (3 <= a <= 255)%N -> (3 <= b <= 255)%N ->
      Start [WithSize a; WithSize b] = Start [WithSize b]
      /\ exists g, Start [WithSize a; WithSize b] = Val (Some g, None)
                   /\ size g = b /\ maxTurns g = (Z.of_N b * Z.of_N b)%Z
                   /\ board g = newBoard b)
  /\ (forall (brd : Stored) (n : N),
         Start [WithBoard brd; WithSize n] = Start [WithBoard brd])
  /\ (forall n : N,
         (n < 3)%N ->
         exists e, Start [WithSize n] = Val (None, Some e)
                   /\ errors_Is e msgOptionInvalid = true).
Proof.
  split; [|split].
  - intros a b Ha Hb. unfold Start. simpl. unfold WithSize. simpl.
    unfold MinSize, MaxSize.
    destruct (N.ltb_spec a 3); [lia|]. destruct (N.ltb_spec 255 a); [lia|].
    simpl. destruct (N.ltb_spec b 3); [lia|]. destruct (N.ltb_spec 255 b); [lia|].
    simpl. split; [reflexivity|]. eexists. split; [reflexivity|].
    simpl. repeat split. apply contents_alloc.
  - intros brd n. unfold Start. simpl.
    destruct (WithBoard brd draft) as [g1 [e|]] eqn:E; [reflexivity|].
    pose proof (WithBoard_success_board _ _ _ E) as Hne.
    unfold WithSize. destruct (board g1) as [|row rest] eqn:Eb; [now elim Hne|].
    rewrite Eb. reflexivity.
  - intros n Hn. unfold Start. simpl. unfold WithSize. simpl. unfold MinSize.
    destruct (N.ltb_spec n 3); [|lia]. eexists. split; reflexivity.
Qed.

Lemma size_options_compose_witness :
  Start [WithSize 4; WithSize 7] = Start [WithSize 7]
  /\ exists e, Start [WithSize 2] = Val (None, Some e)
               /\ errors_Is e msgOptionInvalid = true.
Proof.
  destruct size_options_compose as (Hlast & _ & Hlow). split.
  - apply (Hlast 4%N 7%N); lia.
  - apply (Hlow 2%N). lia.
Defined.

(** ** The options of the command-line front end *)

Lemma String_eqb_refl_true : forall s1 s2, String.eqb s1 s2 = true -> s1 = s2.
Proof. intros s1 s2 H. now apply String.eqb_eq. Qed.

(** X18. The options [main] builds from flags it accepts always start a
    game: when the flag validation passes, [initModel] gets a game from
    [MustStart] without a panic. The game has the size and the starter
    player of the flags, an empty board of that size, the standard
    conditions and, for a bot flag, a bot that plays for [PlayerTwo];
    the impossible bot is only accepted on size 3. *)
Theorem main_pack_starts :
  forall (botFlag : string) (playerFlag sizeFlag : N) (pack : Pack),
    main_pack botFlag playerFlag sizeFlag = inr pack ->
    exists g,
      initModel_game pack = Val g
      /\ size g = sizeFlag /\ player g = playerFlag
      /\ state g = StateAwaitingTurn
      /\ board g = newBoard sizeFlag /\ turns g = []
      /\ maxTurns g = (Z.of_N sizeFlag * Z.of_N sizeFlag)%Z
      /\ conditions g = standardConditions
      /\ (botFlag = EmptyString -> bot g = None)
      /\ (botFlag <> EmptyString ->
          exists b, bot g = Some b /\ Bot_Player b = PlayerTwo)
      /\ (botFlag = NameImpossible -> sizeFlag = 3%N).
Proof.
  intros botFlag playerFlag sizeFlag pack. unfold main_pack.
  destruct (N.eqb_spec playerFlag 0) as [|Hp0]; [discriminate|].
  destruct (N.ltb_spec 2 playerFlag) as [|Hp2]; [discriminate|]. simpl.
  destruct (N.ltb_spec sizeFlag MinSize) as [|Hlo]; [discriminate|].
  destruct (N.ltb_spec MaxSize sizeFlag) as [|Hhi]; [discriminate|]. simpl.
  assert (Hpv : Player_IsValid playerFlag = true).
  { unfold Player_IsValid, PlayerOne, PlayerTwo.
    destruct (N.eqb_spec playerFlag 1); [reflexivity|].
    destruct (N.eqb_spec playerFlag 2); [reflexivity | lia]. }
  assert (Hpos : (0 <? playerFlag)%N = true) by (apply N.ltb_lt; lia).
  assert (Hne : (playerFlag =? 0)%N = false) by (now apply N.eqb_neq).
  assert (Hstart : forall extra b,
             extra = [] /\ b = None
             \/ (exists bt name, extra = [withBot bt name] /\ b = Some bt
                                 /\ Bot_Player bt = PlayerTwo) ->
             initModel_game ([WithSize sizeFlag; WithStarterPlayer playerFlag] ++ extra)
             = Val (mkgame (alloc (newBoard sizeFlag)) b standardConditions
                           (Z.of_N sizeFlag * Z.of_N sizeFlag) playerFlag sizeFlag
                           StateAwaitingTurn [])).
  { intros extra b Hextra. unfold initModel_game, MustStart, Start. simpl.
    unfold WithPack. simpl. unfold WithSize. simpl.
    destruct (N.ltb_spec sizeFlag MinSize); [lia|].
    destruct (N.ltb_spec MaxSize sizeFlag); [lia|]. simpl.
    unfold WithStarterPlayer. simpl. rewrite Hpv. simpl.
    destruct Hextra as [[-> ->] | (bt & name & -> & -> & Hbt)]; simpl.
    - rewrite Hne. reflexivity.
    - unfold withBot. simpl. rewrite Hbt. simpl. rewrite Hne. reflexivity. }
  destruct (String.eqb botFlag EmptyString) eqn:E0.
  { apply String_eqb_refl_true in E0. subst botFlag. simpl.
    intros H; inversion H; subst pack.
    pose proof (Hstart [] None (or_introl (conj eq_refl eq_refl))) as Hs0.
    simpl app in Hs0. rewrite Hs0.
    eexists. split; [reflexivity|]. simpl. rewrite contents_alloc.
    repeat split; try reflexivity.
    - intros Hc. now elim Hc.
    - intros Hc. discriminate Hc. }
  assert (Hnonempty : botFlag <> EmptyString)
    by (intros ->; discriminate E0).
  assert (Hbot : forall bt name maxSize,
             Bot_Player bt = PlayerTwo ->
             ((if negb false && (0 <? maxSize)%N && (maxSize <? sizeFlag)%N
               then inl (flagNameSize,
                         ReasonSprintf "%q %s (%v)"
                                       [ArgS botFlag;
                                        ArgS flagInvalidReasonBotMaxSizeExceeded;
                                        ArgN maxSize])
               else inr ([WithSize sizeFlag; WithStarterPlayer playerFlag]
                           ++ [withBot bt name]))
              = inr pack) ->
             ((0 <? maxSize)%N && (maxSize <? sizeFlag)%N = false)
             /\ exists g,
                  initModel_game pack = Val g
                  /\ size g = sizeFlag /\ player g = playerFlag
                  /\ state g = StateAwaitingTurn
                  /\ board g = newBoard sizeFlag /\ turns g = []
                  /\ maxTurns g = (Z.of_N sizeFlag * Z.of_N sizeFlag)%Z
                  /\ conditions g = standardConditions
                  /\ (botFlag = EmptyString -> bot g = None)
                  /\ (botFlag <> EmptyString ->
                      exists b, bot g = Some b /\ Bot_Player b = PlayerTwo)).
  { intros bt name maxSize Hbt H. simpl negb in H. rewrite andb_true_l in H.
    destruct ((0 <? maxSize)%N && (maxSize <? sizeFlag)%N); [discriminate H|].
    split; [reflexivity|]. injection H as Hpack. subst pack.
    pose proof (Hstart [withBot bt name] (Some bt)
                  (or_intror (ex_intro _ bt (ex_intro _ name
                                (conj eq_refl (conj eq_refl Hbt)))))) as Hs0.
    simpl app in Hs0. rewrite Hs0.
    eexists. split; [reflexivity|]. simpl. rewrite contents_alloc.
    repeat split; try reflexivity.
    - intros Hc. contradiction.
    - intros _. exists bt. auto. }
  destruct (String.eqb botFlag NameEasy) eqn:E1.
  { intros H.
    destruct (Hbot (NewEasyBot PlayerTwo) "WithEasyBot"%string MaxSizeEasy eq_refl H)
      as (_ & g & Hg).
    exists g. repeat (split; [apply Hg|]).
    apply String_eqb_refl_true in E1. subst botFlag. discriminate. }
  destruct (String.eqb botFlag NameNormal) eqn:E2.
  { intros H.
    destruct (Hbot (NewNormalBot PlayerTwo) "WithNormalBot"%string MaxSizeNormal
                eq_refl H) as (_ & g & Hg).
    exists g. repeat (split; [apply Hg|]).
    apply String_eqb_refl_true in E2. subst botFlag. discriminate. }
  destruct (String.eqb botFlag NameHard) eqn:E3.
  { intros H.
    destruct (Hbot (NewHardBot PlayerTwo) "WithHardBot"%string MaxSizeHard eq_refl H)
      as (_ & g & Hg).
    exists g. repeat (split; [apply Hg|]).
    apply String_eqb_refl_true in E3. subst botFlag. discriminate. }
  destruct (String.eqb botFlag NameImpossible) eqn:E4; [|discriminate].
  intros H.
  destruct (Hbot (NewImpossibleBot PlayerTwo) "WithImpossibleBot"%string
              MaxSizeImpossible eq_refl H) as (Hmax & g & Hg).
  exists g. repeat (split; [apply Hg|]).
  intros _. unfold MaxSizeImpossible, MinSize in *. simpl in Hmax.
  apply N.ltb_ge in Hmax. lia.
Qed.

Lemma main_pack_starts_witness :
  exists g,
    initModel_game [WithSize 3; WithStarterPlayer PlayerTwo; WithImpossibleBot PlayerTwo]
    = Val g
    /\ size g = 3%N /\ player g = PlayerTwo.
Proof.
  destruct (main_pack_starts "impossible" 2 3
              [WithSize 3; WithStarterPlayer PlayerTwo; WithImpossibleBot PlayerTwo]
              eq_refl) as (g & Hg & Hs & Hp & _).
  exists g. auto.
Defined.

(** ** Copies of boards, fresh boards and players *)

Lemma firstn_pad_length : forall (l : nat) (cols : list Player),
  length (firstn l cols ++ repeat 0%N (l - length cols)) = l.
Proof.
  intros l cols. rewrite length_app, length_firstn, repeat_length. lia.
Qed.

Lemma firstn_pad_nth : forall (l : nat) (cols : list Player) c,
  c < l -> nth c (firstn l cols ++ repeat 0%N (l - length cols)) 0%N = nth c cols 0%N.
Proof.
  intros l cols c Hc.
  destruct (Nat.lt_ge_cases c (length cols)) as [Hlt | Hge].
  - rewrite app_nth1 by (rewrite length_firstn; lia).
    rewrite <- (firstn_skipn l cols) at 2.
    rewrite app_nth1 by (rewrite length_firstn; lia). reflexivity.
  - rewrite (nth_overflow cols) by lia.
    rewrite app_nth2 by (rewrite length_firstn; lia).
    apply nth_repeat.
Qed.

Lemma firstn_pad_id : forall (l : nat) (cols : list Player),
  firstn l cols ++ repeat 0%N (l - length cols) = cols <-> length cols = l.
Proof.
  intros l cols. split.
  - intros E. rewrite <- E at 1. apply firstn_pad_length.
  - intros <-. rewrite firstn_all, Nat.sub_diag. apply app_nil_r.
Qed.

Lemma map_pad_id : forall (l : nat) (b : Board),
  map (fun cols => firstn l cols ++ repeat 0%N (l - length cols)) b = b
  <-> forall cols, In cols b -> length cols = l.
Proof.
  intros l b. induction b as [|cols b IH]; simpl.
  - split; [intros _ cols [] | reflexivity].
  - split.
    + intros E. injection E as E1 E2. intros cols' [<- | Hin].
      * now apply firstn_pad_id.
      * now apply IH.
    + intros H. f_equal.
      * apply firstn_pad_id. apply H. now left.
      * apply IH. intros cols' Hin. apply H. now right.
Qed.

(** X19. [Board.Copy] makes every row of the copy as long as the board
    has rows: the copy has the rows of the board, each cut or filled up
    with zeros to that length, and the cells within that length hold
    what the board holds. So the copy equals the board exactly when the
    board is square. *)
Theorem Board_Copy_is_square :
  forall b : Board,
    square (length b) (Board_Copy b) = true
    /\ (forall row col,
           row < length b -> col < length b ->
           nth col (nth row (Board_Copy b) []) 0%N = nth col (nth row b []) 0%N)
    /\ (Board_Copy b = b <-> square (length b) b = true).
Proof.
  intros b. unfold Board_Copy. split; [|split].
  - apply square_spec. rewrite length_map. split; [reflexivity|].
    intros cols Hin. apply in_map_iff in Hin. destruct Hin as (cols0 & <- & _).
    apply firstn_pad_length.
  - intros row col Hr Hc.
    rewrite (nth_indep _ [] (firstn (length b) [] ++ repeat 0%N (length b - length (@nil N))))
      by (rewrite length_map; exact Hr).
    rewrite (map_nth (fun cols => firstn (length b) cols
                                  ++ repeat 0%N (length b - length cols)) b [] row).
    now apply firstn_pad_nth.
  - rewrite map_pad_id, square_spec. split; [intros H; split; [reflexivity | exact H]|].
    intros [_ H]. exact H.
Qed.

Lemma Board_Copy_is_square_witness :
  Board_Copy [[1; 2]; [1; 2; 0; 2]; [1]]%N = [[1; 2; 0]; [1; 2; 0]; [1; 0; 0]]%N
  /\ square 3 (Board_Copy [[1; 2]; [1; 2; 0; 2]; [1]]%N) = true.
Proof.
  split; [reflexivity|].
  apply (Board_Copy_is_square [[1; 2]; [1; 2; 0; 2]; [1]]%N).
Defined.

(** X20. [Player.Next] exchanges the two valid players and returns every
    other value as it is: applied twice it gives the player back, it
    keeps validity, and it changes exactly the valid players. *)
Theorem Player_Next_involutive :
  forall p : Player,
    Player_Next (Player_Next p) = p
    /\ Player_IsValid (Player_Next p) = Player_IsValid p
    /\ (Player_Next p <> p <-> Player_IsValid p = true).
Proof.
  intros p. unfold Player_Next, Player_IsValid, PlayerOne, PlayerTwo.
  destruct (N.eqb_spec p 1) as [-> | H1]; [repeat split; try discriminate; reflexivity|].
  destruct (N.eqb_spec p 2) as [-> | H2]; [repeat split; try discriminate; reflexivity|].
  destruct (N.eqb_spec p 1); [contradiction|].
  destruct (N.eqb_spec p 2); [contradiction|].
  repeat split; try discriminate. intros H. now elim H.
Qed.

(** ** Errors of a bot *)

(** X21. When [AllowBotTurn] returns an error the game is as it was, the
    state and the player returned are those of the game, and the error
    is an [ErrBot]: it wraps the error of the bot, or the error with
    which the turn of the bot was rejected. *)
Theorem AllowBotTurn_error_is_ErrBot :
  forall (rnd : Rand) (g g' : game) (s : State) (p : Player) (e : error),
    AllowBotTurn rnd g = Val (g', (s, p, Some e)) ->
    g' = g /\ s = state g /\ p = player g /\ errors_Is e msgBot = true.
Proof.
  intros rnd g g' s p e H. unfold AllowBotTurn in H.
  destruct (negb (IsBotTurn g)); [discriminate H|].
  destruct (bot g) as [b|]; [|discriminate H].
  apply bind_Val in H. destruct H as ([c [e0|]] & _ & H).
  - inversion H; subst. repeat split; reflexivity.
  - apply bind_Val in H. destruct H as ([g1 [[s1 p1] [e1|]]] & Hplay & H);
      [|discriminate H].
    inversion H; subst. apply play_error_inv in Hplay.
    destruct Hplay as (-> & _). repeat split; reflexivity.
Qed.

Lemma AllowBotTurn_error_is_ErrBot_witness :
  exists e,
    AllowBotTurn (mkRand (fun _ => 0) (fun _ H => H))
                 (mkgame (alloc [[1; 0; 0]; [0; 0; 0]; [0; 0; 0]]%N)
                         (Some (mkBot PlayerTwo
                                      (fun _ _ _ => Val (mkCell 0 0, None))))
                         standardConditions 9 PlayerTwo 3 StateAwaitingTurn
                         [mkTurn (mkCell 0 0) PlayerOne])
    = Val (mkgame (alloc [[1; 0; 0]; [0; 0; 0]; [0; 0; 0]]%N)
                  (Some (mkBot PlayerTwo (fun _ _ _ => Val (mkCell 0 0, None))))
                  standardConditions 9 PlayerTwo 3 StateAwaitingTurn
                  [mkTurn (mkCell 0 0) PlayerOne],
           (StateAwaitingTurn, PlayerTwo, Some e))
    /\ errors_Is e msgBot = true.
Proof.
  eexists. split; [reflexivity|].
  eapply (AllowBotTurn_error_is_ErrBot
            (mkRand (fun _ => 0) (fun _ H => H))
            (mkgame (alloc [[1; 0; 0]; [0; 0; 0]; [0; 0; 0]]%N)
                    (Some (mkBot PlayerTwo (fun _ _ _ => Val (mkCell 0 0, None))))
                    standardConditions 9 PlayerTwo 3 StateAwaitingTurn
                    [mkTurn (mkCell 0 0) PlayerOne])).
  reflexivity.
Defined.

(** ** The IDs of the cell zones *)

Lemma to_uint_nonnil : forall n : N, N.to_uint n <> Decimal.Nil.
Proof.
  intros [|p]; [discriminate|]. apply DecimalPos.Unsigned.to_uint_nonnil.
Qed.

Lemma ParseUint8_fmt_d : forall n,
  n <= 255 -> ParseUint8 (fmt_d n) = Some (N.of_nat n).
Proof.
  intros n Hn. unfold ParseUint8, fmt_d.
  rewrite (DecimalString.NilZero.usu _ (to_uint_nonnil (N.of_nat n))).
  rewrite DecimalN.Unsigned.of_to.
  destruct (N.leb_spec (N.of_nat n) 255); [reflexivity | lia].
Qed.

Lemma ParseUint8_fmt_d_large : forall n,
  255 < n -> ParseUint8 (fmt_d n) = None.
Proof.
  intros n Hn. unfold ParseUint8, fmt_d.
  rewrite (DecimalString.NilZero.usu _ (to_uint_nonnil (N.of_nat n))).
  rewrite DecimalN.Unsigned.of_to.
  destruct (N.leb_spec (N.of_nat n) 255); [lia | reflexivity].
Qed.

Lemma cut_at_digits : forall d rest,
  cut_at Ascii.Space
         (DecimalString.NilEmpty.string_of_uint d ++ String Ascii.Space rest)%string
  = Some (DecimalString.NilEmpty.string_of_uint d, rest).
Proof.
  induction d; intros rest; simpl; try (rewrite IHd; reflexivity). reflexivity.
Qed.

Lemma fmt_d_digits : forall n,
  fmt_d n = DecimalString.NilEmpty.string_of_uint (N.to_uint (N.of_nat n)).
Proof.
  intros n. unfold fmt_d, DecimalString.NilZero.string_of_uint.
  pose proof (to_uint_nonnil (N.of_nat n)) as H.
  destruct (N.to_uint (N.of_nat n)); [now elim H | reflexivity ..].
Qed.

Lemma parseCellZoneId_cellZoneId : forall row col,
  parseCellZoneId (cellZoneId row col)
  = match ParseUint8 (fmt_d col), ParseUint8 (fmt_d row) with
    | None, _ =>
        (0%N, 0%N, Some (Errorf "invalid column in cell zone ID: %q"
                                [ArgS (cellZoneId row col)]))
    | Some _, None =>
        (0%N, 0%N, Some (Errorf "invalid row in cell zone ID: %q"
                                [ArgS (cellZoneId row col)]))
    | Some c, Some r => (r, c, None)
    end.
Proof.
  intros row col. unfold parseCellZoneId.
  assert (E : CutPrefix (cellZoneId row col) "cell:"
              = Some (fmt_d col ++ String Ascii.Space (fmt_d row))%string)
    by reflexivity.
  rewrite E. unfold SplitN2. rewrite (fmt_d_digits col) at 1.
  rewrite cut_at_digits, <- fmt_d_digits. reflexivity.
Qed.

(** X22. The ID of a cell zone can be read back. For a cell of a board
    of at most 255 rows, [parseCellZoneId] applied to the ID that
    [markCellZone] registers for row [row] and column [col] answers
    with that row and that column and no error, so that [findCellZone]
    does not panic on the IDs of the program. From 256 on the column,
    then the row, is reported as invalid, and an ID without the prefix
    [cell:] is reported as unexpected. *)
Theorem cell_zone_id_round_trip :
  (forall row col : nat,
      row <= 255 -> col <= 255 ->
      parseCellZoneId (cellZoneId row col) = (N.of_nat row, N.of_nat col, None))
  /\ (forall row col : nat,
         255 < col ->
         parseCellZoneId (cellZoneId row col)
         = (0%N, 0%N, Some (Errorf "invalid column in cell zone ID: %q"
                                   [ArgS (cellZoneId row col)])))
  /\ (forall row col : nat,
         col <= 255 -> 255 < row ->
         parseCellZoneId (cellZoneId row col)
         = (0%N, 0%N, Some (Errorf "invalid row in cell zone ID: %q"
                                   [ArgS (cellZoneId row col)])))
  /\ (forall id : string,
         CutPrefix id "cell:" = None ->
         parseCellZoneId id
         = (0%N, 0%N, Some (Errorf "unexpected cell zone ID: %q" [ArgS id]))).
Proof.
  split; [|split; [|split]].
  - intros row col Hr Hc.
    now rewrite parseCellZoneId_cellZoneId, (ParseUint8_fmt_d col Hc),
      (ParseUint8_fmt_d row Hr).
  - intros row col Hc.
    now rewrite parseCellZoneId_cellZoneId, (ParseUint8_fmt_d_large col Hc).
  - intros row col Hc Hr.
    now rewrite parseCellZoneId_cellZoneId, (ParseUint8_fmt_d col Hc),
      (ParseUint8_fmt_d_large row Hr).
  - intros id E. unfold parseCellZoneId. now rewrite E.
Qed.

Lemma cell_zone_id_round_trip_witness :
  cellZoneId 12 254 = "cell:254 12"%string
  /\ parseCellZoneId "cell:254 12" = (12%N, 254%N, None).
Proof.
  split; [reflexivity|].
  destruct cell_zone_id_round_trip as (Hok & _).
  apply (Hok 12 254); lia.
Defined.

(** ** The cursor *)

Lemma sub8_small : forall a b : N,
  (b <= a)%N -> (a < 256)%N -> sub8 a b = (a - b)%N.
Proof.
  intros a b Hb Ha. unfold sub8. rewrite (N.mod_small b 256) by lia.
  assert (E : (a + 256 - b = 256 + (a - b))%N) by lia. rewrite E.
  rewrite <- N.Div0.add_mod_idemp_l. rewrite N.Div0.mod_same, N.add_0_l.
  apply N.mod_small. lia.
Qed.

Lemma cursor_back : forall s v : N,
  (0 < s <= 255)%N -> (v < s)%N ->
  ((if (v =? 0)%N then sub8 s 1 else sub8 v 1) < s)%N
  /\ (if ((if (v =? 0)%N then sub8 s 1 else sub8 v 1) =? sub8 s 1)%N then 0%N
      else (((if (v =? 0)%N then sub8 s 1 else sub8 v 1) + 1) mod 256)%N) = v.
Proof.
  intros s v Hs Hv. rewrite (sub8_small s 1) by lia.
  destruct (N.eqb_spec v 0) as [-> | Hv0].
  - rewrite N.eqb_refl. split; [lia | reflexivity].
  - rewrite (sub8_small v 1) by lia.
    destruct (N.eqb_spec (v - 1) (s - 1)); [lia|].
    split; [lia|]. rewrite N.mod_small by lia. lia.
Qed.

Lemma cursor_forth : forall s v : N,
  (0 < s <= 255)%N -> (v < s)%N ->
  ((if (v =? sub8 s 1)%N then 0%N else ((v + 1) mod 256)%N) < s)%N
  /\ (if ((if (v =? sub8 s 1)%N then 0%N else ((v + 1) mod 256)%N) =? 0)%N
      then sub8 s 1
      else sub8 (if (v =? sub8 s 1)%N then 0%N else ((v + 1) mod 256)%N) 1) = v.
Proof.
  intros s v Hs Hv. rewrite (sub8_small s 1) by lia.
  destruct (N.eqb_spec v (s - 1)) as [-> | Hv0].
  - rewrite N.eqb_refl. split; [lia | reflexivity].
  - rewrite N.mod_small by lia.
    destruct (N.eqb_spec (v + 1) 0); [lia|].
    split; [lia|]. rewrite (sub8_small (v + 1) 1) by lia. lia.
Qed.

(** X23. The cursor stays on the board and the arrow keys undo each
    other. In a game of a size from 1 to 255 with the cursor on the
    board, while the bot is not thinking and the game is not over, every
    arrow key leaves the cursor on the board and clears the error; down
    after up, up after down, right after left and left after right put
    the cursor back where it was. While the bot is thinking or after
    the game is over the arrow keys change nothing. *)
Theorem Update_arrow_keeps_cursor_on_board :
  forall (size_ : N) (key : arrow) (m : cursor),
    (0 < size_ <= 255)%N ->
    (cursorX m < size_)%N -> (cursorY m < size_)%N ->
    (botTurn m || gameOver m = true -> Update_arrow size_ key m = m)
    /\ (botTurn m || gameOver m = false ->
        (cursorX (Update_arrow size_ key m) < size_)%N
        /\ (cursorY (Update_arrow size_ key m) < size_)%N
        /\ err (Update_arrow size_ key m) = None
        /\ cursorX (Update_arrow size_
                                 match key with
                                 | KeyUp => KeyDown
                                 | KeyDown => KeyUp
                                 | KeyLeft => KeyRight
                                 | KeyRight => KeyLeft
                                 end
                                 (Update_arrow size_ key m)) = cursorX m
        /\ cursorY (Update_arrow size_
                                 match key with
                                 | KeyUp => KeyDown
                                 | KeyDown => KeyUp
                                 | KeyLeft => KeyRight
                                 | KeyRight => KeyLeft
                                 end
                                 (Update_arrow size_ key m)) = cursorY m).
Proof.
  intros size_ key m Hsz Hx Hy. split.
  - intros E. unfold Update_arrow. now rewrite E.
  - intros E.
    destruct (cursor_back size_ (cursorX m) Hsz Hx) as [Hbx Hbx'].
    destruct (cursor_back size_ (cursorY m) Hsz Hy) as [Hby Hby'].
    destruct (cursor_forth size_ (cursorX m) Hsz Hx) as [Hfx Hfx'].
    destruct (cursor_forth size_ (cursorY m) Hsz Hy) as [Hfy Hfy'].
    destruct key; unfold Update_arrow; rewrite E; cbn [cursorX cursorY err botTurn
                                                      gameOver];
      rewrite E; cbn [cursorX cursorY err botTurn gameOver]; auto.
Qed.

Lemma Update_arrow_keeps_cursor_on_board_witness :
  cursorY (Update_arrow 3 KeyUp (mkCursor false false 1 0 None)) = 2%N
  /\ cursorY (Update_arrow 3 KeyDown
                           (Update_arrow 3 KeyUp (mkCursor false false 1 0 None)))
     = 0%N.
Proof.
  split; [reflexivity|].
  pose proof (Update_arrow_keeps_cursor_on_board
                3 KeyUp (mkCursor false false 1 0 None)
                ltac:(lia) ltac:(simpl; lia) ltac:(simpl; lia)) as [_ H].
  destruct (H eq_refl) as (_ & _ & _ & _ & Hy). exact Hy.
Defined.

(** ** The impossible bot on boards of any size *)

Lemma valid_marks_spec : forall b,
  valid_marks b = true <-> forall p, In p (concat b) -> Player_IsValidOrZero p = true.
Proof. intros b. unfold valid_marks. apply forallb_forall. Qed.

Lemma valid_marks_assign : forall b row col p b',
  valid_marks b = true -> Player_IsValid p = true ->
  Board_assign b row col p = Val b' -> valid_marks b' = true.
Proof.
  intros b row col p b' Hm Hp E. rewrite valid_marks_spec in *.
  intros q Hq. unfold Board_assign in E.
  apply bind_Val in E. destruct E as (cols & Ei & E).
  apply bind_Val in E. destruct E as (cols' & Ec & E).
  apply index_inv in Ei. apply nth_error_In in Ei.
  apply in_concat in Hq. destruct Hq as (r & Hrow & Hq).
  destruct (assign_In _ _ _ _ _ _ E Hrow) as [-> | Hin].
  - destruct (assign_In _ _ _ _ _ _ Ec Hq) as [-> | Hin].
    + unfold Player_IsValidOrZero. rewrite Hp. apply orb_true_r.
    + apply Hm. apply in_concat. exists cols. split; assumption.
  - apply Hm. apply in_concat. exists r. split; assumption.
Qed.

Lemma valid_marks_marked : forall n b c p,
  square n b = true -> n <= 255 ->
  valid_marks b = true -> In c (Board_FindEmpty b) -> Player_IsValid p = true ->
  valid_marks (marked b c p) = true.
Proof.
  intros n b c p Hs Hn Hm Hc Hp.
  destruct (Board_FindEmpty_In n b c Hs Hn Hc) as (Hr & Hcol & _).
  destruct (marked_square n b c p Hs Hr Hcol) as [E _].
  rewrite (Board_Copy_square n b Hs) in E.
  exact (valid_marks_assign b _ _ p _ Hm Hp E).
Qed.

Lemma mark_at_valid : forall b c,
  valid_marks b = true -> Player_IsValidOrZero (mark_at b c) = true.
Proof.
  intros b c Hm. unfold mark_at.
  destruct (Board_at b (Row c) (Column c)) as [p| |] eqn:E; try reflexivity.
  apply (proj1 (valid_marks_spec b) Hm). eapply Board_at_In_concat; eassumption.
Qed.

Lemma first_owner_valid : forall b ls,
  valid_marks b = true -> Player_IsValidOrZero (first_owner b ls) = true.
Proof.
  intros b ls Hm. induction ls as [|line ls IH]; [reflexivity|].
  rewrite first_owner_cons. destruct (0 <? line_owner b line)%N; [|exact IH].
  unfold line_owner. destruct line as [|c line]; [reflexivity|].
  destruct (negb (mark_at b c =? 0)%N && filled (mark_at b c) b (c :: line));
    [now apply mark_at_valid | reflexivity].
Qed.

Lemma valid_marks_FindWinner : forall n b,
  square n b = true -> n <= 255 -> valid_marks b = true ->
  exists w, Conditions_FindWinner standardConditions b = Val (w, None).
Proof.
  intros n b Hs Hn Hm.
  destruct (standardConditions_FindWinner_owner n b Hs Hn) as [Hv _].
  eexists. apply Hv. now apply first_owner_valid.
Qed.

(** On square boards with valid marks the search with the standard
    conditions returns a choice and no error. *)
Lemma search_standard_no_error :
  forall b_player game_ n,
    Game_Conditions game_ = standardConditions -> n <= 255 ->
    forall k board_ lastTurn max player_ depth_,
      length (Board_FindEmpty board_) = k ->
      square n board_ = true -> valid_marks board_ = true ->
      Player_IsValid player_ = true ->
      exists choice,
        search b_player game_ board_ lastTurn max player_ depth_ = Val (choice, None).
Proof.
  intros b_player game_ n Hcs Hn.
  induction k as [|k IH]; intros board_ lastTurn max player_ depth_ Hk Hs Hm Hp;
    destruct (valid_marks_FindWinner n board_ Hs Hn Hm) as (w & HW);
    rewrite <- Hcs in HW;
    destruct (search_leaf b_player game_ board_ lastTurn max player_ depth_ w HW)
      as (Hwin & Hlose & Hdraw);
    (destruct (N.eq_dec w b_player) as [Hb|Hb]; [eexists; now apply Hwin|]);
    (destruct (N.eq_dec w (Player_Next b_player)) as [Ho|Ho];
     [eexists; now apply Hlose|]).
  - eexists. apply Hdraw; try assumption.
    destruct (Board_FindEmpty board_); [reflexivity | discriminate Hk].
  - assert (Hne : Board_FindEmpty board_ <> [])
      by (intros E; rewrite E in Hk; discriminate Hk).
    destruct (Forall2_exists _ _
                (fun c ch =>
                   search b_player game_ (marked board_ c player_) (mkTurn c player_)
                          (negb max) (Player_Next player_) (depth_ + 1)%Z
                   = Val (ch, None))
                (Board_FindEmpty board_)) as (children & HF).
    { intros c Hc.
      destruct (Board_FindEmpty_In n board_ c Hs Hn Hc) as (Hr & Hcol & Hat).
      destruct (marked_square n board_ c player_ Hs Hr Hcol) as [_ Hs'].
      apply IH.
      - pose proof (marked_one_less n board_ c player_ Hs Hr Hcol Hat
                      (Player_IsValid_nonzero _ Hp)). lia.
      - exact Hs'.
      - now apply (valid_marks_marked n).
      - now apply Player_Next_valid. }
    eexists.
    apply (search_internal b_player game_ n board_ lastTurn max player_ depth_ w
             children Hs Hn (Player_IsValid_nonzero _ Hp) HW Hb Ho Hne HF).
Qed.







(** *** The impossible bot takes a win that is on offer *)

Lemma search_success_FindWinner :
  forall b_player game_ board_ lastTurn max player_ depth_ choice,
    search b_player game_ board_ lastTurn max player_ depth_ = Val (choice, None) ->
    exists w, Conditions_FindWinner (Game_Conditions game_) board_ = Val (w, None).
Proof.
  intros b_player game_ board_ lastTurn max player_ depth_ choice HS.
  unfold search, minimax_fuel in HS. cbn [minimax] in HS.
  destruct (Conditions_FindWinner (Game_Conditions game_) board_)
    as [[w [e|]]| |]; simpl in HS; try discriminate HS.
  now exists w.
Qed.

(** The value of a position at depth [depth_] is the turn ceiling plus
    one less the depth when the bot has won there, and at most the turn
    ceiling less the depth otherwise. *)
Lemma search_value_by_depth :
  forall b_player game_ n, n <= 255 ->
  forall k board_ lastTurn max player_ depth_ choice w,
    length (Board_FindEmpty board_) = k ->
    square n board_ = true -> player_ <> 0%N ->
    (0 <= depth_)%Z -> (depth_ + Z.of_nat k <= Game_MaxTurns game_)%Z ->
    Conditions_FindWinner (Game_Conditions game_) board_ = Val (w, None) ->
    search b_player game_ board_ lastTurn max player_ depth_ = Val (choice, None) ->
    (w = b_player -> value choice = (Game_MaxTurns game_ + 1 - depth_)%Z)
    /\ (w <> b_player -> (value choice <= Game_MaxTurns game_ - depth_)%Z).
Proof.
  intros b_player game_ n Hn.
  induction k as [|k IH];
    intros board_ lastTurn max player_ depth_ choice w Hk Hs Hp Hd HM HW HS;
    destruct (search_leaf b_player game_ board_ lastTurn max player_ depth_ w HW)
      as (Hwin & Hlose & Hdraw);
    (destruct (N.eq_dec w b_player) as [Hb|Hb];
     [rewrite (Hwin Hb) in HS; inversion HS; subst choice; simpl;
      split; [reflexivity | intros Hc; contradiction]|]);
    (split; [intros Hc; contradiction | intros _]);
    (destruct (N.eq_dec w (Player_Next b_player)) as [Ho|Ho];
     [rewrite (Hlose Hb Ho) in HS; inversion HS; subst choice; simpl; lia|]).
  - assert (He : Board_FindEmpty board_ = [])
      by (destruct (Board_FindEmpty board_); [reflexivity | discriminate Hk]).
    rewrite (Hdraw Hb Ho He) in HS. inversion HS; subst choice. simpl. lia.
  - assert (Hne : Board_FindEmpty board_ <> [])
      by (intros E; rewrite E in Hk; discriminate Hk).
    destruct (search_children b_player game_ n board_ lastTurn max player_ depth_
                w choice Hs Hn Hp HW Hb Ho Hne HS) as (children & HF).
    assert (Hchild : forall c ch,
               In c (Board_FindEmpty board_) ->
               search b_player game_ (marked board_ c player_) (mkTurn c player_)
                      (negb max) (Player_Next player_) (depth_ + 1)%Z
               = Val (ch, None) ->
               (value ch <= Game_MaxTurns game_ - depth_)%Z
               /\ (- (Game_MaxTurns game_ + 1) <= value ch
                   <= Game_MaxTurns game_ + 1)%Z).
    { intros c ch Hc HSc.
      destruct (Board_FindEmpty_In n board_ c Hs Hn Hc) as (Hr & Hcol & Hat).
      pose proof (marked_one_less n board_ c player_ Hs Hr Hcol Hat Hp) as Hless.
      destruct (marked_square n board_ c player_ Hs Hr Hcol) as [_ Hs'].
      destruct (search_success_FindWinner _ _ _ _ _ _ _ _ HSc) as (w' & HW').
      split.
      - assert (Hk' : length (Board_FindEmpty (marked board_ c player_)) = k) by lia.
        assert (Hd' : (0 <= depth_ + 1)%Z) by lia.
        assert (HM' : (depth_ + 1 + Z.of_nat k <= Game_MaxTurns game_)%Z) by lia.
        destruct (IH (marked board_ c player_) (mkTurn c player_) (negb max)
                     (Player_Next player_) (depth_ + 1)%Z ch w' Hk' Hs'
                     (Player_Next_nonzero _ Hp) Hd' HM' HW' HSc) as [Hw Hn'].
        destruct (N.eq_dec w' b_player) as [E | E];
          [rewrite (Hw E) | pose proof (Hn' E)]; lia.
      - apply (search_value_bound b_player game_ n Hn k
                 (marked board_ c player_) (mkTurn c player_) (negb max)
                 (Player_Next player_) (depth_ + 1)%Z ch); try assumption; try lia.
        now apply Player_Next_nonzero. }
    destruct (search_internal_best b_player game_ n board_ lastTurn max player_ depth_
                w children Hs Hn Hp HW Hb Ho Hne HF ltac:(lia))
      as (best & pre & post & E & Hsplit & _).
    { intros ch Hch.
      destruct (Forall2_In_right _ _ _ _ _ ch HF Hch) as (c & Hc & HSc).
      exact (proj2 (Hchild c ch Hc HSc)). }
    rewrite E in HS. inversion HS; subst choice. clear HS.
    assert (Hin : In best (map (fun cc => annotate (fst cc) (snd cc))
                               (combine (Board_FindEmpty board_) children)))
      by (rewrite Hsplit; apply in_or_app; right; now left).
    apply in_map_iff in Hin. destruct Hin as ([c ch] & <- & Hin). simpl.
    apply (Hchild c ch); [eapply in_combine_l; eassumption|].
    exact (Forall2_combine_In _ _ _ _ _ _ _ HF Hin).
Qed.

(** When marking some empty cell with the bot's player makes the scan
    find the bot, a cell that the impossible bot returns is such a
    cell. *)
Lemma impossibleBot_immediate_win_cell :
  forall (p : Player) (rnd : Rand) (n : nat) (board_ : Board) (game_ : Game)
         (c cell_ : Cell),
    square n board_ = true -> n <= 255 ->
    Player_IsValid p = true ->
    (Z.of_nat (length (Board_FindEmpty board_)) <= Game_MaxTurns game_)%Z ->
    Conditions_FindWinner (Game_Conditions game_) board_ = Val (0%N, None) ->
    In c (Board_FindEmpty board_) ->
    Conditions_FindWinner (Game_Conditions game_) (marked board_ c p) = Val (p, None) ->
    Bot_Turn (NewImpossibleBot p) rnd board_ game_ = Val (cell_, None) ->
    In cell_ (Board_FindEmpty board_)
    /\ Conditions_FindWinner (Game_Conditions game_) (marked board_ cell_ p)
       = Val (p, None).
Proof.
  intros p rnd n board_ game_ c cell_ Hs Hn Hp HM HW Hc Hcwin Hturn.
  pose proof (Player_IsValid_nonzero _ Hp) as Hpn.
  destruct (Player_Next_valid p Hp) as (Hnv & _ & _).
  assert (Hzb : 0%N <> p) by now apply not_eq_sym.
  assert (Hzo : 0%N <> Player_Next p)
    by (apply not_eq_sym; now apply Player_IsValid_nonzero).
  assert (Hne : Board_FindEmpty board_ <> [])
    by (intros E; rewrite E in Hc; contradiction).
  assert (Hpos : 0 < length (Board_FindEmpty board_))
    by (destruct (Board_FindEmpty board_); [now elim Hne | simpl; lia]).
  cbn [Bot_Turn NewImpossibleBot] in Hturn. unfold impossibleBot_Turn in Hturn.
  destruct (Game_LastTurn game_) as [lastTurn hasLast].
  change (minimax (minimax_fuel board_) p board_ game_ lastTurn true p 0%Z)
    with (search p game_ board_ lastTurn true p 0%Z) in Hturn.
  apply bind_Val in Hturn. destruct Hturn as ([choice e] & HS & Hret).
  inversion Hret; subst cell_ e. clear Hret.
  destruct (search_children p game_ n board_ lastTurn true p 0%Z 0%N choice
              Hs Hn Hpn HW Hzb Hzo Hne HS) as (children & HF).
  assert (Hchild : forall x ch,
             In x (Board_FindEmpty board_) ->
             search p game_ (marked board_ x p) (mkTurn x p) (negb true)
                    (Player_Next p) (0 + 1)%Z = Val (ch, None) ->
             (forall w, Conditions_FindWinner (Game_Conditions game_) (marked board_ x p)
                        = Val (w, None) ->
                        (w = p -> value ch = Game_MaxTurns game_)
                        /\ (w <> p -> (value ch < Game_MaxTurns game_)%Z))
             /\ (- (Game_MaxTurns game_ + 1) <= value ch <= Game_MaxTurns game_ + 1)%Z).
  { intros x ch Hx HSx.
    destruct (Board_FindEmpty_In n board_ x Hs Hn Hx) as (Hr & Hcol & Hat).
    pose proof (marked_one_less n board_ x p Hs Hr Hcol Hat Hpn) as Hless.
    destruct (marked_square n board_ x p Hs Hr Hcol) as [_ Hs'].
    split.
    - intros w HWx.
      destruct (search_value_by_depth p game_ n Hn
                  (length (Board_FindEmpty (marked board_ x p)))
                  (marked board_ x p) (mkTurn x p) (negb true) (Player_Next p)
                  (0 + 1)%Z ch w eq_refl Hs' (Player_IsValid_nonzero _ Hnv)
                  ltac:(lia) ltac:(lia) HWx HSx) as [Hw Hn'].
      split; [intros E; rewrite (Hw E); lia | intros E; pose proof (Hn' E); lia].
    - apply (search_value_bound p game_ n Hn
               (length (Board_FindEmpty (marked board_ x p)))
               (marked board_ x p) (mkTurn x p) (negb true) (Player_Next p)
               (0 + 1)%Z ch eq_refl Hs' (Player_IsValid_nonzero _ Hnv));
        try lia. exact HSx. }
  destruct (search_internal_best p game_ n board_ lastTurn true p 0%Z 0%N children
              Hs Hn Hpn HW Hzb Hzo Hne HF ltac:(lia))
    as (best & pre & post & E & Hsplit & Hmax & _).
  { intros ch Hch.
    destruct (Forall2_In_right _ _ _ _ _ ch HF Hch) as (x & Hx & HSx).
    exact (proj2 (Hchild x ch Hx HSx)). }
  rewrite E in HS. inversion HS; subst choice. clear HS.
  destruct (Hmax eq_refl) as [Hpre Hpost].
  (* the child of the winning cell *)
  destruct (Forall2_In_left _ _ _ _ _ c HF Hc) as (chc & Hinc & HSc).
  destruct (Hchild c chc Hc HSc) as [Hvc _].
  destruct (Hvc p Hcwin) as [Hvalc _]. specialize (Hvalc eq_refl).
  assert (Hlisted : In (annotate c chc) (pre ++ best :: post)).
  { rewrite <- Hsplit. apply in_map_iff. exists (c, chc). split; [reflexivity|].
    exact Hinc. }
  assert (Hbest : (Game_MaxTurns game_ <= value best)%Z).
  { apply in_app_or in Hlisted. destruct Hlisted as [Hin | [Heq | Hin]].
    - apply Hpre in Hin. simpl in Hin. lia.
    - rewrite Heq. simpl. lia.
    - apply Hpost in Hin. simpl in Hin. lia. }
  (* the child of the chosen cell *)
  assert (Hin : In best (map (fun cc => annotate (fst cc) (snd cc))
                             (combine (Board_FindEmpty board_) children)))
    by (rewrite Hsplit; apply in_or_app; right; now left).
  apply in_map_iff in Hin. destruct Hin as ([cb chb] & <- & Hin). simpl in *.
  assert (Hcb : In cb (Board_FindEmpty board_)) by (eapply in_combine_l; eassumption).
  pose proof (Forall2_combine_In _ _ _ _ _ _ _ HF Hin) as HSb. cbv beta in HSb.
  split; [exact Hcb|].
  destruct (search_success_FindWinner _ _ _ _ _ _ _ _ HSb) as (w & HWb).
  destruct (Hchild cb chb Hcb HSb) as [Hvb _].
  destruct (Hvb w HWb) as [_ Hlt].
  destruct (N.eq_dec w p) as [-> | Hne']; [exact HWb|].
  specialize (Hlt Hne'). lia.
Qed.

(** X25. The impossible bot takes a win that is on offer. On a square
    board with valid marks that nobody has won, in a game with the
    standard conditions, whenever marking some empty cell with the
    bot's player makes the scan of the conditions find the bot, the bot
    returns a cell and no error, and the cell it returns is such a
    cell: a win in one turn has the highest value the search can
    give. *)
Theorem impossibleBot_takes_immediate_win :
  forall (p : Player) (rnd : Rand) (n : nat) (board_ : Board) (game_ : Game)
         (c : Cell),
    Game_Conditions game_ = standardConditions ->
    square n board_ = true -> n <= 255 ->
    valid_marks board_ = true ->
    Player_IsValid p = true ->
    (Z.of_nat (length (Board_FindEmpty board_)) <= Game_MaxTurns game_)%Z ->
    Conditions_FindWinner standardConditions board_ = Val (0%N, None) ->
    In c (Board_FindEmpty board_) ->
    Conditions_FindWinner standardConditions (marked board_ c p) = Val (p, None) ->
    exists cell_,
      Bot_Turn (NewImpossibleBot p) rnd board_ game_ = Val (cell_, None)
      /\ In cell_ (Board_FindEmpty board_)
      /\ Conditions_FindWinner standardConditions (marked board_ cell_ p)
         = Val (p, None).
Proof.
  intros p rnd n board_ game_ c Hcs Hs Hn Hmk Hp HM HW Hc Hcwin.
  destruct (Game_LastTurn game_) as [lastTurn hasLast] eqn:ELT.
  destruct (search_standard_no_error p game_ n Hcs Hn _ board_ lastTurn true p 0%Z
              eq_refl Hs Hmk Hp) as (choice & HS).
  assert (Hturn : Bot_Turn (NewImpossibleBot p) rnd board_ game_
                  = Val (cell choice, None)).
  { cbn [Bot_Turn NewImpossibleBot]. unfold impossibleBot_Turn. rewrite ELT.
    change (minimax (minimax_fuel board_) p board_ game_ lastTurn true p 0%Z)
      with (search p game_ board_ lastTurn true p 0%Z).
    rewrite HS. reflexivity. }
  exists (cell choice). split; [exact Hturn|].
  rewrite <- Hcs in HW, Hcwin |- *.
  exact (impossibleBot_immediate_win_cell p rnd n board_ game_ c (cell choice)
           Hs Hn Hp HM HW Hc Hcwin Hturn).
Qed.

Lemma impossibleBot_takes_immediate_win_witness :
  exists cell_,
    Bot_Turn (NewImpossibleBot PlayerTwo) (mkRand (fun _ => 0) (fun _ H => H))
             [[1; 1; 0]; [2; 2; 0]; [1; 0; 0]]%N
             (mkGame [[1; 1; 0]; [2; 2; 0]; [1; 0; 0]]%N standardConditions true
                     (mkTurn (mkCell 0 2) 1%N, true) 9 PlayerTwo 4 3
                     StateAwaitingTurn [])
    = Val (cell_, None)
    /\ In cell_ (Board_FindEmpty [[1; 1; 0]; [2; 2; 0]; [1; 0; 0]]%N)
    /\ Conditions_FindWinner standardConditions
         (marked [[1; 1; 0]; [2; 2; 0]; [1; 0; 0]]%N cell_ PlayerTwo)
       = Val (PlayerTwo, None).
Proof.
  apply (impossibleBot_takes_immediate_win
           PlayerTwo (mkRand (fun _ => 0) (fun _ H => H)) 3
           [[1; 1; 0]; [2; 2; 0]; [1; 0; 0]]%N
           (mkGame [[1; 1; 0]; [2; 2; 0]; [1; 0; 0]]%N standardConditions true
                   (mkTurn (mkCell 0 2) 1%N, true) 9 PlayerTwo 4 3
                   StateAwaitingTurn [])
           (mkCell 2 1) eq_refl eq_refl ltac:(lia) eq_refl eq_refl ltac:(simpl; lia)
           eq_refl ltac:(simpl; tauto) eq_refl).
Defined.

(** ** What the turns of a game never do *)

(** One call that returns either leaves the game as it is or plays one
    turn of the player on move. *)
Lemma step_cases : forall g g1,
  (exists t r, Play g t = Val (g1, r)) \/ (exists rnd r, AllowBotTurn rnd g = Val (g1, r)) ->
  g1 = g
  \/ exists t allowBotTurn,
       play g t allowBotTurn = Val (g1, (state g1, player g1, None))
       /\ validateTurn g t allowBotTurn = Val None
       /\ validateBounds g (Turn_Cell t) = None.
Proof.
  intros g g1 [(t & r & H) | (rnd & r & H)].
  - unfold Play in H. destruct (play_inv _ _ _ _ _ H)
      as [[-> _] | (-> & Hvb & Hvt & _)]; [now left|].
    right. exists t, false. auto.
  - destruct (AllowBotTurn_cases _ _ _ _ H) as [-> | (t & r' & Hplay)]; [now left|].
    destruct (play_inv _ _ _ _ _ Hplay) as [[-> _] | (-> & Hvb & Hvt & _)]; [now left|].
    right. exists t, true. auto.
Qed.

Lemma follows_ind_steps : forall (P : game -> game -> Prop),
  (forall g, P g g) ->
  (forall g t allowBotTurn g1 g',
      play g t allowBotTurn = Val (g1, (state g1, player g1, None)) ->
      validateTurn g t allowBotTurn = Val None ->
      validateBounds g (Turn_Cell t) = None ->
      follows g1 g' -> P g1 g' -> P g g') ->
  forall g g', follows g g' -> P g g'.
Proof.
  intros P Hrefl Hstep g g' HF.
  induction HF as [g | g t g1 r g' Hplay HF IH | rnd g g1 r g' Hturn HF IH].
  - apply Hrefl.
  - destruct (step_cases g g1 (or_introl (ex_intro _ t (ex_intro _ r Hplay))))
      as [-> | (t' & a & Hp & Hvt & Hvb)]; [exact IH|].
    eapply Hstep; eassumption.
  - destruct (step_cases g g1 (or_intror (ex_intro _ rnd (ex_intro _ r Hturn))))
      as [-> | (t' & a & Hp & Hvt & Hvb)]; [exact IH|].
    eapply Hstep; eassumption.
Qed.

(** X26. The history of a game only grows, and by turns taken in
    alternation. For every game that follows from a game by [Play] and
    [AllowBotTurn], the turns are those of the game it follows from,
    then new turns: the first of them by the player that was on move,
    each by a valid player, and each next one by the other player. *)
Theorem history_grows_in_alternation :
  forall g g' : game,
    follows g g' ->
    exists new, turns g' = turns g ++ new /\ alternates (player g) new.
Proof.
  apply (follows_ind_steps
           (fun g g' => exists new, turns g' = turns g ++ new
                                    /\ alternates (player g) new)).
  - intros g. exists []. split; [now rewrite app_nil_r | exact I].
  - intros g t a g1 g' Hplay Hvt Hvb HF (new & Hnew & Halt).
    destruct (play_inv _ _ _ _ _ Hplay)
      as [[_ (e & He)] | (_ & _ & _ & _ & Hturns & _ & _ & _ & _
                          & won & _ & Hst & Hpl)]; [discriminate He|].
    destruct (validateTurn_None _ _ _ Hvt) as (Hstate & Hpv & Htp & _).
    exists (t :: new). split.
    + rewrite Hnew, Hturns, <- app_assoc. reflexivity.
    + simpl. split; [exact Htp|]. split; [now rewrite <- Htp|].
      destruct new as [|t' new']; [exact I|].
      (* a further turn was accepted, so the game still awaited one *)
      assert (Haw : state g1 = StateAwaitingTurn).
      { destruct (state g1) eqn:Es; [reflexivity | |];
          exfalso;
          assert (Hg : g' = g1)
            by (apply follows_game_over; [assumption | rewrite Es; discriminate]);
          subst g'; apply (f_equal (@length Turn)) in Hnew;
          rewrite length_app in Hnew; simpl in Hnew; lia. }
      rewrite Hst in Haw. destruct won; [discriminate Haw|].
      destruct (maxTurns g <=? Z.of_nat (length (turns g ++ [t])))%Z;
        [discriminate Haw|].
      rewrite Hpl, Htp in Halt. exact Halt.
Qed.

Lemma history_grows_in_alternation_witness :
  exists new,
    turns (mkgame (alloc [[1; 0; 0]; [0; 2; 0]; [0; 0; 0]]%N) None standardConditions
                  9 PlayerOne 3 StateAwaitingTurn
                  [mkTurn (mkCell 0 0) PlayerOne; mkTurn (mkCell 1 1) PlayerTwo])
    = turns (mkgame (alloc (newBoard 3)) None standardConditions 9 PlayerOne 3
                    StateAwaitingTurn []) ++ new
    /\ alternates PlayerOne new.
Proof.
  apply (history_grows_in_alternation
           (mkgame (alloc (newBoard 3)) None standardConditions 9 PlayerOne 3
                   StateAwaitingTurn [])).
  apply (@follows_Play
           (mkgame (alloc (newBoard 3)) None standardConditions 9 PlayerOne 3
                   StateAwaitingTurn [])
           (mkTurn (mkCell 0 0) PlayerOne)
           (mkgame (alloc [[1; 0; 0]; [0; 0; 0]; [0; 0; 0]]%N) None standardConditions
                   9 PlayerTwo 3 StateAwaitingTurn [mkTurn (mkCell 0 0) PlayerOne])
           (StateAwaitingTurn, PlayerTwo, None) _ eq_refl).
  apply (@follows_Play
           (mkgame (alloc [[1; 0; 0]; [0; 0; 0]; [0; 0; 0]]%N) None standardConditions
                   9 PlayerTwo 3 StateAwaitingTurn [mkTurn (mkCell 0 0) PlayerOne])
           (mkTurn (mkCell 1 1) PlayerTwo)
           (mkgame (alloc [[1; 0; 0]; [0; 2; 0]; [0; 0; 0]]%N) None standardConditions
                   9 PlayerOne 3 StateAwaitingTurn
                   [mkTurn (mkCell 0 0) PlayerOne; mkTurn (mkCell 1 1) PlayerTwo])
           (StateAwaitingTurn, PlayerOne, None) _ eq_refl).
  apply follows_refl.
Defined.

(** X27. Turns change neither the configuration of a game nor a mark
    that is on the board. For every game that follows, by [Play] and
    [AllowBotTurn], from a game whose board is a square of its size:
    the size, the turn ceiling, the conditions and the bot are the
    same, the board is still a square of that size, and every cell that
    held a player holds the same player, whether or not the rows of the
    board share memory. *)
Theorem turns_keep_configuration_and_marks :
  forall g g' : game,
    follows g g' ->
    wf_game g = true ->
    wf_game g' = true
    /\ size g' = size g /\ maxTurns g' = maxTurns g
    /\ conditions g' = conditions g /\ bot g' = bot g
    /\ forall row col p,
         Board_at (board g) row col = Val p -> p <> 0%N ->
         Board_at (board g') row col = Val p.
Proof.
  apply (follows_ind_steps
           (fun g g' =>
              wf_game g = true ->
              wf_game g' = true
              /\ size g' = size g /\ maxTurns g' = maxTurns g
              /\ conditions g' = conditions g /\ bot g' = bot g
              /\ forall row col p,
                   Board_at (board g) row col = Val p -> p <> 0%N ->
                   Board_at (board g') row col = Val p)).
  - intros g Hwf. repeat split; auto.
  - intros g t a g1 g' Hplay Hvt Hvb _ IH Hwf.
    destruct (play_inv _ _ _ _ _ Hplay)
      as [[_ (e & He)] | (_ & _ & _ & Hassign & _ & Hbot & Hcs & Hsz & Hmt & _)];
      [discriminate He|].
    destruct (validateTurn_None _ _ _ Hvt) as (_ & _ & _ & Hat0 & _).
    pose proof (proj1 (wf_game_spec g) Hwf) as (Hs & Hm & Hlo & Hhi).
    apply validateBounds_None in Hvb. destruct Hvb as [Hr Hc].
    destruct (Stored_assign_at _ _ _ _ _ Hassign) as (_ & _ & a0 & Ha & Hat).
    pose proof (Stored_assign_square (N.to_nat (size g)) _ _ _ _ _ Hassign) as Hs'.
    rewrite Hs in Hs'.
    assert (Hwf1 : wf_game g1 = true).
    { apply wf_game_spec. rewrite Hsz, Hmt. auto. }
    destruct (IH Hwf1) as (Hwf' & Hsz' & Hmt' & Hcs' & Hbot' & Hmarks).
    split; [exact Hwf'|]. repeat split; try congruence.
    intros row col p Hp Hpn. apply Hmarks; [|exact Hpn].
    rewrite Hat. rewrite Board_at_contents in Hp, Hat0. rewrite Ha in Hat0.
    destruct (address (held g) row col) as [a'| |]; simpl in Hp |- *;
      try discriminate Hp.
    destruct (Nat.eqb_spec a' a0) as [->|_]; [|exact Hp].
    simpl in Hat0. rewrite Hat0 in Hp. inversion Hp. congruence.
Qed.

Lemma turns_keep_configuration_and_marks_witness :
  Board_at [[1; 0; 0]; [0; 2; 0]; [0; 0; 0]]%N 0 0 = Val PlayerOne
  /\ size (mkgame (alloc [[1; 0; 0]; [0; 2; 0]; [0; 0; 0]]%N) None standardConditions
                  9 PlayerOne 3 StateAwaitingTurn
                  [mkTurn (mkCell 0 0) PlayerOne; mkTurn (mkCell 1 1) PlayerTwo])
     = 3%N.
Proof.
  destruct (turns_keep_configuration_and_marks
              (mkgame (alloc [[1; 0; 0]; [0; 0; 0]; [0; 0; 0]]%N) None standardConditions
                      9 PlayerTwo 3 StateAwaitingTurn [mkTurn (mkCell 0 0) PlayerOne])
              (mkgame (alloc [[1; 0; 0]; [0; 2; 0]; [0; 0; 0]]%N) None standardConditions
                      9 PlayerOne 3 StateAwaitingTurn
                      [mkTurn (mkCell 0 0) PlayerOne; mkTurn (mkCell 1 1) PlayerTwo]))
    as (_ & Hsz & _ & _ & _ & Hmarks).
  - apply (@follows_Play
             (mkgame (alloc [[1; 0; 0]; [0; 0; 0]; [0; 0; 0]]%N) None standardConditions
                     9 PlayerTwo 3 StateAwaitingTurn [mkTurn (mkCell 0 0) PlayerOne])
             (mkTurn (mkCell 1 1) PlayerTwo)
             (mkgame (alloc [[1; 0; 0]; [0; 2; 0]; [0; 0; 0]]%N) None standardConditions
                     9 PlayerOne 3 StateAwaitingTurn
                     [mkTurn (mkCell 0 0) PlayerOne; mkTurn (mkCell 1 1) PlayerTwo])
             (StateAwaitingTurn, PlayerOne, None) _ eq_refl).
    apply follows_refl.
  - reflexivity.
  - split; [|exact Hsz].
    apply (Hmarks 0%N 0%N PlayerOne eq_refl). discriminate.
Defined.

(** ** A fresh board *)

Lemma Board_at_newBoard : forall n row col,
  (row < n)%N -> (col < n)%N -> Board_at (newBoard n) row col = Val 0%N.
Proof.
  intros n row col Hr Hc.
  destruct (Board_at_square _ (newBoard n) row col (square_newBoard n)) as (p & Hp);
    try lia.
  rewrite Hp. f_equal. apply Board_at_In_concat in Hp. apply in_concat in Hp.
  destruct Hp as (cols & Hcols & Hp). unfold newBoard in Hcols.
  apply repeat_spec in Hcols. subst cols. now apply repeat_spec in Hp.
Qed.

Lemma filter_all : forall (A : Type) (f : A -> bool) (l : list A),
  (forall x, In x l -> f x = true) -> filter f l = l.
Proof.
  intros A f l. induction l as [|a l IH]; intros H; [reflexivity|].
  simpl. rewrite (H a (or_introl eq_refl)). f_equal. apply IH.
  intros x Hx. apply H. now right.
Qed.

(** X28. A fresh board is empty. [newBoard] of a size up to 255 is a
    square of that size whose cells all hold zero; [Board.FindEmpty]
    lists all its cells, row by row from the top and within a row from
    the left; it has no occupied cell and, for a size that is not zero,
    the scan of the standard conditions finds no winner on it. *)
Theorem newBoard_is_empty :
  forall n : N,
    (n <= 255)%N ->
    square (N.to_nat n) (newBoard n) = true
    /\ (forall row col, (row < n)%N -> (col < n)%N ->
                        Board_at (newBoard n) row col = Val 0%N)
    /\ Board_FindEmpty (newBoard n) = cells_row_major (N.to_nat n)
    /\ length (Board_FindEmpty (newBoard n)) = N.to_nat n * N.to_nat n
    /\ ((0 < n)%N ->
        Conditions_FindWinner standardConditions (newBoard n) = Val (0%N, None)).
Proof.
  intros n Hn. split; [apply square_newBoard|]. split; [apply Board_at_newBoard|].
  assert (HFE : Board_FindEmpty (newBoard n) = cells_row_major (N.to_nat n)).
  { rewrite (Board_FindEmpty_row_major (N.to_nat n) _ (square_newBoard n)) by lia.
    apply filter_all. intros c Hc. unfold cells_row_major in Hc.
    apply in_flat_map in Hc. destruct Hc as (row & Hrow & Hc).
    apply in_map_iff in Hc. destruct Hc as (col & <- & Hcol).
    apply in_seq in Hrow, Hcol. simpl.
    rewrite Board_at_newBoard by lia. reflexivity. }
  split; [exact HFE|]. split.
  - pose proof (empty_plus_occupied _ _ (square_newBoard n)) as Hsum.
    rewrite count_occupied_newBoard in Hsum. lia.
  - intros Hpos. apply FindWinner_newBoard. lia.
Qed.

Lemma newBoard_is_empty_witness :
  Board_FindEmpty (newBoard 2)
  = [mkCell 0 0; mkCell 1 0; mkCell 0 1; mkCell 1 1]
  /\ Conditions_FindWinner standardConditions (newBoard 2) = Val (0%N, None).
Proof.
  destruct (newBoard_is_empty 2%N ltac:(lia)) as (_ & _ & HFE & _ & HFW).
  split; [rewrite HFE; reflexivity | apply HFW; lia].
Defined.

(** *** Starter options *)

(** X29. How the starter options compose. The first starter option
    decides: a [WithStarterPlayer] or [WithRandomStarterPlayer] that
    follows a [WithStarterPlayer] with a valid player is ignored,
    without an error even when its own player is not valid, and a
    [WithStarterPlayer] that follows [WithRandomStarterPlayer] is
    ignored as well. A [WithStarterPlayer] with a player that is not
    valid, when no player is set yet, makes [Start] fail with an error
    that is both an [ErrOptionInvalid] and an [ErrPlayerNotFound]. *)
Theorem starter_options_compose :
  (forall p q : Player,
      Player_IsValid p = true ->
      Start [WithStarterPlayer p; WithStarterPlayer q] = Start [WithStarterPlayer p]
      /\ exists g, Start [WithStarterPlayer p; WithStarterPlayer q] = Val (Some g, None)
                   /\ player g = p)
  /\ (forall (p : Player) (rnd : Rand),
         Player_IsValid p = true ->
         Start [WithStarterPlayer p; WithRandomStarterPlayer rnd]
         = Start [WithStarterPlayer p])
  /\ (forall (rnd : Rand) (q : Player),
         Start [WithRandomStarterPlayer rnd; WithStarterPlayer q]
         = Start [WithRandomStarterPlayer rnd])
  /\ (forall p : Player,
         Player_IsValid p = false ->
         exists e, Start [WithStarterPlayer p] = Val (None, Some e)
                   /\ errors_Is e msgOptionInvalid = true
                   /\ errors_Is e msgPlayerNotFound = true).
Proof.
  split; [|split; [|split]].
  - intros p q Hp. apply Player_IsValid_cases in Hp.
    destruct Hp as [-> | ->]; (split; [reflexivity | eexists; split; reflexivity]).
  - intros p rnd Hp. apply Player_IsValid_cases in Hp.
    destruct Hp as [-> | ->]; reflexivity.
  - intros rnd q. unfold Start. simpl. unfold WithRandomStarterPlayer. simpl.
    unfold WithStarterPlayer. simpl.
    assert (Hr : Intn rnd 2 < 2) by (apply Intn_lt; lia).
    destruct (Intn rnd 2) as [|[|k]]; [reflexivity | reflexivity | lia].
  - intros p Hp. unfold Start. simpl. unfold WithStarterPlayer. simpl. rewrite Hp.
    simpl. eexists. repeat split.
Qed.

Lemma starter_options_compose_witness :
  Start [WithStarterPlayer PlayerTwo; WithStarterPlayer 7%N]
  = Start [WithStarterPlayer PlayerTwo]
  /\ exists e, Start [WithStarterPlayer 7%N] = Val (None, Some e)
               /\ errors_Is e msgOptionInvalid = true
               /\ errors_Is e msgPlayerNotFound = true.
Proof.
  destruct starter_options_compose as (Hfirst & _ & _ & Hbad). split.
  - apply (Hfirst PlayerTwo 7%N). reflexivity.
  - apply (Hbad 7%N). reflexivity.
Defined.

(** ** Two games on one board *)


